(** * Workset auto-assignment

    A shallow embedding of [workset_auto_assigner.py], of the storage
    wrappers of [firebase_storage.py] it calls and of
    [create_workset_file] from [workset_utils.py], with the properties
    of the assignment subsystem proved over it.

    The program talks to a blob store.  The store is an association
    list from blob names to contents; a listing answers the names in
    the order of the list, and a new blob goes to its end.  The settle
    phase, the one place where the order of a listing decides an
    outcome, is studied on arbitrary lists of entries.

    Every primitive call on the bucket ([exists], [download_as_bytes],
    [upload_from_string], [patch], [delete], [list_blobs]) is recorded
    in a trace and may raise; which calls raise is decided by the
    environment.  The wrappers of
    [firebase_storage.py] catch what the bucket raises and answer
    [None], [False] or [[]], as their [except] clauses do. *)

From Stdlib Require Import ZArith Lia.
From stdpp Require Import base option list gmap strings pretty.

Open Scope Z_scope.

(** ** Strings *)

Module Str.

(** [s.startswith(pre)] *)
Definition starts_with (pre s : string) : bool := String.prefix pre s.

(** [s.endswith(suf)] : some tail of [s] is [suf]. *)
Fixpoint ends_with (s suf : string) : bool :=
  if String.eqb s suf then true
  else match s with
       | EmptyString => false
       | String _ s' => ends_with s' suf
       end.

(** [sub in s] *)
Fixpoint contains (sub s : string) : bool :=
  if String.prefix sub s then true
  else match s with
       | EmptyString => false
       | String _ s' => contains sub s'
       end.

(** [s.replace(sub, "")] for a non-empty [sub]: occurrences are removed
    from left to right; [skip] counts the characters of an occurrence
    still to drop. *)
Fixpoint remove_all_from (skip : nat) (sub s : string) : string :=
  match s with
  | EmptyString => EmptyString
  | String c s' =>
      match skip with
      | S k => remove_all_from k sub s'
      | O =>
          if String.prefix sub s
          then remove_all_from (String.length sub - 1) sub s'
          else String c (remove_all_from O sub s')
      end
  end.

Definition remove_all (sub s : string) : string := remove_all_from O sub s.

(** [s.lower()], on the ASCII letters. *)
Definition lower_char (c : Ascii.ascii) : Ascii.ascii :=
  let n := Ascii.nat_of_ascii c in
  if (65 <=? n)%nat && (n <=? 90)%nat then Ascii.ascii_of_nat (n + 32) else c.

Fixpoint lower (s : string) : string :=
  match s with
  | EmptyString => EmptyString
  | String c s' => String (lower_char c) (lower s')
  end.

Definition digit (n : nat) : Ascii.ascii := Ascii.ascii_of_nat (48 + n).

(** [f"{i:03d}"] : at least three decimal digits, zero padded. *)
Definition fmt_03d (i : nat) : string :=
  if (i <? 1000)%nat
  then String (digit (i / 100))
         (String (digit (i / 10 mod 10)) (String (digit (i mod 10)) ""))
  else pretty i.

End Str.

(** ** Data frames and JSON objects *)

(** A row of a CSV table, restricted to the three columns the assigner
    inspects; the remaining cells are kept by name.  [None] is pandas'
    NaN. *)
Record row := Row {
  workset : option string;
  status : option string;
  auto_assigned : option bool;
  other : list (string * string)
}.

Record dataframe := DataFrame {
  columns : list string;
  rows : list row
}.

(** A JSON object, restricted to the keys this program reads or writes:
    the keys of the usage ledger and the keys of lock and competition
    files.  [None] is a missing key; [extra] names any further keys. *)
Record json_obj := Json {
  workset_usage : option (gmap string Z);
  last_updated : option string;
  verified_at : option string;
  generated_from_scan : option bool;
  scanned_files : option Z;
  total_assignments : option Z;
  note : option string;
  j_workset : option string;
  owner : option string;
  competition_id : option string;
  timestamp : option string;
  j_status : option string;
  expires_at : option string;
  extra : list string
}.

(** The content of a blob, all of it UTF-8 text as the program writes
    it: no bytes at all, CSV text, the text of a JSON object, or text
    that parses as neither. *)
Inductive blob :=
| BlobEmpty
| BlobCsv (df : dataframe)
| BlobJson (j : json_obj)
| BlobOther.

Module Frame.

(** ['c' in df.columns] *)
Definition has_column (c : string) (df : dataframe) : bool :=
  bool_decide (c ∈ columns df).

(** [df.empty] : one of the two axes has length zero. *)
Definition empty (df : dataframe) : bool :=
  match rows df, columns df with
  | [], _ => true
  | _, [] => true
  | _, _ => false
  end.

(** [series.dropna().unique()] : the values that are not NaN, each once,
    in order of first appearance. *)
Fixpoint unique (l : list string) : list string :=
  match l with
  | [] => []
  | x :: l' => x :: filter (λ y, y ≠ x) (unique l')
  end.

Definition dropna (l : list (option string)) : list string := omap id l.

(** A row as the table shows it: a cell of a column the table does not
    have is NaN. *)
Definition cells (df : dataframe) (r : row) : row :=
  Row (if has_column "workset" df then workset r else None)
      (if has_column "status" df then status r else None)
      (if has_column "auto_assigned" df then auto_assigned r else None)
      (other r).

(** [pd.concat([df, new], ignore_index=True)] for a one-row [new]: the
    columns of [df] followed by the columns only [new] has, in which
    the rows of [df] are NaN. *)
Definition concat (df : dataframe) (new_cols : list string) (r : row)
  : dataframe :=
  DataFrame (columns df ++ filter (λ c, c ∉ columns df) new_cols)
            ((cells df <$> rows df) ++ [r]).

(** [df['workset']], [df['status']]: [None] when the column is absent. *)
Definition col_workset (df : dataframe) : option (list (option string)) :=
  if has_column "workset" df then Some (workset <$> rows df) else None.

Definition col_status (df : dataframe) : option (list (option string)) :=
  if has_column "status" df then Some (status <$> rows df) else None.

(** [df[name] = value]: the column is added when new, and every row
    gets the value. *)
Definition assign (name value : string) (df : dataframe) : dataframe :=
  DataFrame
    (if bool_decide (name ∈ columns df) then columns df
     else columns df ++ [name])
    ((λ r, Row (workset r) (status r) (auto_assigned r)
               ((name, value) :: filter (λ c, c.1 ≠ name) (other r)))
       <$> rows df).

(** The row is a task row for workset [k]. *)
Definition row_is (k : string) (r : row) : bool :=
  bool_decide (workset r = Some k).

(** [k in df['workset'].values], the column being there. *)
Definition mentions (k : string) (df : dataframe) : bool :=
  has_column "workset" df && existsb (row_is k) (rows df).

(** [pd.read_csv] guarded by [if content:] and [except]: empty content
    and text that is not a table with at least one column give [None]. *)
Definition read_csv (content : blob) : option dataframe :=
  match content with
  | BlobCsv df =>
      match columns df with
      | [] => None
      | _ => Some df
      end
  | _ => None
  end.

End Frame.

Module JsonObj.

Definition empty : json_obj :=
  Json None None None None None None None None None None None None None [].

Global Instance json_obj_eq_dec : EqDecision json_obj.
Proof. solve_decision. Defined.

(** Truth value of a [dict]: it has at least one key. *)
Definition truthy (j : json_obj) : bool := negb (bool_decide (j = empty)).

Definition set_workset_usage (u : gmap string Z) (j : json_obj) : json_obj :=
  Json (Some u) (last_updated j) (verified_at j) (generated_from_scan j)
       (scanned_files j) (total_assignments j) (note j) (j_workset j)
       (owner j) (competition_id j) (timestamp j) (j_status j)
       (expires_at j) (extra j).

Definition set_last_updated (t : string) (j : json_obj) : json_obj :=
  Json (workset_usage j) (Some t) (verified_at j) (generated_from_scan j)
       (scanned_files j) (total_assignments j) (note j) (j_workset j)
       (owner j) (competition_id j) (timestamp j) (j_status j)
       (expires_at j) (extra j).

Definition set_verified_at (t : string) (j : json_obj) : json_obj :=
  Json (workset_usage j) (last_updated j) (Some t) (generated_from_scan j)
       (scanned_files j) (total_assignments j) (note j) (j_workset j)
       (owner j) (competition_id j) (timestamp j) (j_status j)
       (expires_at j) (extra j).

(** [json.loads] guarded by [if content:] and [except]: [None] for
    empty content and for text that is not a JSON object. *)
Definition loads (content : blob) : option json_obj :=
  match content with
  | BlobJson j => Some j
  | _ => None
  end.

(** [d.get(k, 0)] on a usage mapping. *)
Definition count (u : gmap string Z) (k : string) : Z := default 0 (u !! k).

End JsonObj.

(** ** The bucket *)

(** The primitive calls on the bucket and its blobs. *)
Inductive op :=
| OpExists (name : string)
| OpDownload (name : string)
| OpUpload (name : string) (content : blob)
| OpPatch (name : string)
| OpDelete (name : string)
| OpList (prefix : string).

Module Bucket.

Abbreviation store := (list (string * blob)).

Fixpoint get (name : string) (s : store) : option blob :=
  match s with
  | [] => None
  | (n, b) :: s' => if decide (n = name) then Some b else get name s'
  end.

(** Writing replaces the content in place, or adds the blob after the
    ones that exist. *)
Fixpoint put (name : string) (b : blob) (s : store) : store :=
  match s with
  | [] => [(name, b)]
  | (n, c) :: s' =>
      if decide (n = name) then (name, b) :: s' else (n, c) :: put name b s'
  end.

Definition del (name : string) (s : store) : store :=
  filter (λ e, e.1 ≠ name) s.

(** The names [list_blobs(prefix=...)] yields, in listing order. *)
Definition names (prefix : string) (s : store) : list string :=
  filter (λ n, Str.starts_with prefix n = true) (s.*1).

(** What a call that goes through does to the blobs. *)
Definition effect (o : op) (s : store) : store :=
  match o with
  | OpUpload name content => put name content s
  | OpDelete name => del name s
  | _ => s
  end.

End Bucket.

(** The state of the world: the blobs, and every bucket call made so
    far with whether it went through. *)
Record world := World {
  blobs : Bucket.store;
  trace : list (op * bool)
}.

(** What the program does not decide.  [raises n o] is the message of
    the exception the bucket call [o] raises when made after [n]
    earlier calls, [None] when it goes through.  The clock and the
    random source are indexed the same way. *)
Record environment := Env {
  initialized : bool;
  raises : nat → op → option string;
  now : nat → string;
  now_plus_2min : nat → string;
  time_ms : nat → string;
  randint : nat → string
}.

(** ** Names of blobs, and the competition entries *)

Definition locks_dir : string := "system/locks".
Definition usage_stats_path : string := "system/workset_usage_stats.json".
Definition assignment_log_path : string := "system/workset_assignment_log.csv".

(** [f"annotators/{username}/{username}_record.csv"] *)
Definition record_path (username : string) : string :=
  "annotators/" +:+ username +:+ "/" +:+ username +:+ "_record.csv".

(** [f"workset_{i:03d}"] *)
Definition workset_name (i : nat) : string := "workset_" +:+ Str.fmt_03d i.

(** The dictionaries [_win_competition] collects, one per competition
    file that is still competing. *)
Record competitor := Competitor {
  c_owner : option string;
  c_competition_id : option string;
  c_timestamp : option string;
  c_file_path : string
}.

Module Competition.

(** The sort key [x['timestamp']] of a competitor whose timestamp is a
    string. *)
Definition key (c : competitor) : string := default "" (c_timestamp c).

(** [list.sort(key=...)] is stable: an element goes before the first
    one whose key is not smaller than its own. *)
Fixpoint insert (c : competitor) (l : list competitor) : list competitor :=
  match l with
  | [] => [c]
  | d :: l' =>
      if String.leb (key c) (key d) then c :: d :: l' else d :: insert c l'
  end.

Definition sorted (l : list competitor) : list competitor :=
  foldr insert [] l.

(** Sorting two or more entries compares every key with another; a
    key that is [None] makes that comparison a [TypeError]. *)
Definition key_error (l : list competitor) : bool :=
  bool_decide (2 ≤ length l)%nat
  && existsb (λ c, bool_decide (c_timestamp c = None)) l.

(** Lines 277-293 of [_win_competition]: what is decided once the
    competitors are collected.  [None] is the raised [TypeError]. *)
Definition settle (competitors : list competitor)
    (username competition_id : string) : option bool :=
  match competitors with
  | [] => Some false
  | _ =>
      if key_error competitors then None
      else
        match sorted competitors with
        | winner :: _ =>
            Some (bool_decide (c_owner winner = Some username)
                  && bool_decide (c_competition_id winner = Some competition_id))
        | [] => Some false
        end
  end.

End Competition.

(** ** Computations on the world

    A computation runs on a world and either returns a value or raises,
    leaving the world it reached.  [try_except] is Python's
    [try: ... except Exception: ...], [try_finally] its
    [try: ... finally: ...]. *)

Inductive result (A : Type) :=
| Ok (a : A)
| Raised (message : string).
Arguments Ok {A} a.
Arguments Raised {A} message.

Definition M (A : Type) : Type := world → result A * world.

Definition ret {A} (a : A) : M A := λ w, (Ok a, w).

Definition bind {A B} (m : M A) (k : A → M B) : M B := λ w,
  match (m w).1 with
  | Ok a => k a (m w).2
  | Raised e => (Raised e, (m w).2)
  end.

Declare Scope prog_scope.
Delimit Scope prog_scope with prog.
Bind Scope prog_scope with M.
Notation "x ← y ; z" := (bind y (λ x : _, z))
  (at level 20, y at level 100, z at level 200, only parsing) : prog_scope.
Notation "x ;; z" := (bind x (λ _, z))
  (at level 100, z at level 200, only parsing, right associativity)
  : prog_scope.
Local Open Scope prog_scope.

Definition raise {A} (message : string) : M A := λ w, (Raised message, w).

(** [try: body except Exception as e: handler e] *)
Definition try_except {A} (body : M A) (handler : string → M A) : M A := λ w,
  match (body w).1 with
  | Ok a => (Ok a, (body w).2)
  | Raised e => handler e (body w).2
  end.

Definition try_finally {A B} (body : M A) (final : M B) : M A := λ w,
  match (final (body w).2).1 with
  | Ok _ => ((body w).1, (final (body w).2).2)
  | Raised e => (Raised e, (final (body w).2).2)
  end.

(** [d[key]] and [df[column]]: a [KeyError] when the key is missing. *)
Definition getitem {A} (key : string) (o : option A) : M A :=
  match o with
  | Some a => ret a
  | None => raise ("KeyError: " +:+ key)
  end.

(** [for x in l: acc = body x acc] *)
Fixpoint for_each {A S} (l : list A) (body : A → S → M S) (acc : S) : M S :=
  match l with
  | [] => ret acc
  | x :: l' => acc' ← body x acc; for_each l' body acc'
  end.

(** Reading the blobs without a bucket call, and the number of bucket
    calls made so far. *)
Definition peek {A} (f : Bucket.store → A) : M A := λ w, (Ok (f (blobs w)), w).
Definition ticks : M nat := λ w, (Ok (length (trace w)), w).

Section Program.

Variable env : environment.

(** One call on the bucket: it raises when the environment says so,
    otherwise it has its effect on the blobs. *)
Definition call (o : op) : M unit :=
  λ w,
    match raises env (length (trace w)) o with
    | Some e => (Raised e, World (blobs w) (trace w ++ [(o, false)]))
    | None => (Ok (), World (Bucket.effect o (blobs w)) (trace w ++ [(o, true)]))
    end.

(** ** [firebase_storage.py] *)

(** [FirebaseStorage.download] *)
Definition fb_download (firebase_path : string) : M (option blob) :=
  if negb (initialized env) then ret None
  else
    try_except
      (call (OpExists firebase_path);;
       found ← peek (Bucket.get firebase_path);
       match found with
       | Some content =>
           call (OpDownload firebase_path);; ret (Some content)
       | None => ret None
       end)
      (λ _, ret None).

(** [FirebaseStorage.upload]: the content is written, then the
    metadata is patched; [True] only when both went through. *)
Definition fb_upload (firebase_path : string) (file_content : blob) : M bool :=
  if negb (initialized env) then ret false
  else
    try_except
      (call (OpUpload firebase_path file_content);;
       call (OpPatch firebase_path);;
       ret true)
      (λ _, ret false).

(** [FirebaseStorage.list_files] *)
Definition fb_list_files (folder_path : string) : M (list string) :=
  if negb (initialized env) then ret []
  else
    try_except
      (let folder_path :=
         if negb (bool_decide (folder_path = ""))
            && negb (Str.ends_with folder_path "/")
         then folder_path +:+ "/" else folder_path in
       call (OpList folder_path);;
       blob_names ← peek (Bucket.names folder_path);
       ret (filter (λ n, Str.ends_with n "/" = false) blob_names))
      (λ _, ret []).

(** [FirebaseStorage.delete]: deleting a blob that is not there raises
    [NotFound], which the wrapper catches like any other. *)
Definition fb_delete (firebase_path : string) : M bool :=
  if negb (initialized env) then ret false
  else
    try_except
      (found ← peek (Bucket.get firebase_path);
       call (OpDelete firebase_path);;
       match found with
       | Some _ => ret true
       | None => raise "NotFound"
       end)
      (λ _, ret false).

(** The module-level functions.  [download] hands a path that ends in
    "/" to [download_folder]; every path this program downloads ends in
    ".csv" or ".json", so only the file branch is embedded. *)
Definition upload (path : string) (content : blob) : M bool :=
  fb_upload path content.

Definition download (path : string) : M (option blob) := fb_download path.

Definition list_files (folder : string) : M (list string) :=
  fb_list_files folder.

Definition delete_file (path : string) : M bool := fb_delete path.

(** [download_json]: absent or empty content is [None]; text that is
    not JSON is [None] ([JSONDecodeError] is caught). *)
Definition download_json (path : string) : M (option json_obj) :=
  content ← fb_download path;
  match content with
  | Some content => ret (JsonObj.loads content)
  | None => ret None
  end.

(** [download_csv]: absent or empty content is [None], and so is
    content [pd.read_csv] rejects. *)
Definition download_csv (path : string) : M (option dataframe) :=
  content ← download path;
  match content with
  | Some content => ret (Frame.read_csv content)
  | None => ret None
  end.

(** [upload_csv] *)
Definition upload_csv (path : string) (df : dataframe) : M bool :=
  try_except (upload path (BlobCsv df)) (λ _, ret false).


(** ** [workset_utils.py] *)

(** [create_workset_file] *)
Definition create_workset_file (username workset : string) : M bool :=
  try_except
    (let workset_number := Str.remove_all "workset_" workset in
     let dataset_path := "workset/dataset_" +:+ workset_number +:+ ".csv" in
     dataset_df ← download_csv dataset_path;
     match dataset_df with
     | None => ret false
     | Some dataset_df =>
         let dataset_df := Frame.assign "Progress" "N" dataset_df in
         let output_path :=
           "coding_result/" +:+ username +:+ "/" +:+ workset +:+ ".csv" in
         uploaded ← upload_csv output_path dataset_df;
         if uploaded then ret true else ret false
     end)
    (λ _, ret false).

(** ** [workset_auto_assigner.py], class [WorksetAutoAssigner] *)

Definition is_pending (s : option string) : bool :=
  bool_decide (s = Some "in_progress") || bool_decide (s = Some "not_started").

Definition is_completed_row (workset_name : string) (r : row) : bool :=
  Frame.row_is workset_name r && bool_decide (status r = Some "completed").

(** [_has_pending_worksets] *)
Definition _has_pending_worksets (username : string) : M bool :=
  try_except
    (let record_path := record_path username in
     record_df ← download_csv record_path;
     match record_df with
     | Some df =>
         if negb (Frame.empty df) then
           status_column ← getitem "status" (Frame.col_status df);
           ret (existsb is_pending status_column)
         else ret false
     | None => ret false
     end)
    (λ _, ret true).

(** [_has_completed_workset] *)
Definition _has_completed_workset (username workset_name : string) : M bool :=
  try_except
    (let record_path := record_path username in
     record_df ← download_csv record_path;
     match record_df with
     | Some df =>
         if negb (Frame.empty df) then
           getitem "workset" (Frame.col_workset df);;
           getitem "status" (Frame.col_status df);;
           ret (existsb (is_completed_row workset_name) (rows df))
         else ret false
     | None => ret false
     end)
    (λ _, ret false).

(** The body of the loop of [_generate_usage_statistics]. *)
Definition count_record (file_path : string) (acc : gmap string Z * Z)
  : M (gmap string Z * Z) :=
  if Str.ends_with file_path "_record.csv" then
    record_df ← download_csv file_path;
    match record_df with
    | Some df =>
        if Frame.has_column "workset" df then
          let unique_worksets :=
            Frame.unique (Frame.dropna (workset <$> rows df)) in
          ret (foldl (λ usage_count workset,
                         <[workset := JsonObj.count usage_count workset + 1]>
                           usage_count)
                      acc.1 unique_worksets,
                acc.2 + 1)
        else ret acc
    | None => ret acc
    end
  else ret acc.

(** [_generate_usage_statistics] *)
Definition _generate_usage_statistics : M (gmap string Z) :=
  try_except
    (annotator_files ← list_files "annotators/";
     match annotator_files with
     | [] =>
         t ← ticks;
         upload usage_stats_path
           (BlobJson
              (Json (Some ∅) (Some (now env t)) None (Some true) None None
                    (Some "No existing user records found")
                    None None None None None None []));;
         ret ∅
     | _ =>
         acc ← for_each annotator_files count_record (∅, 0);
         let usage_count := acc.1 in
         t ← ticks;
         upload usage_stats_path
           (BlobJson
              (Json (Some usage_count) (Some (now env t)) None (Some true)
                    (Some acc.2)
                    (Some (map_fold (λ _ v total, v + total) 0 usage_count))
                    None None None None None None None []));;
         ret usage_count
     end)
    (λ _, ret ∅).

(** [_get_usage_statistics]; the handler looks for "not found" in the
    message of what was raised. *)
Definition _get_usage_statistics : M (gmap string Z) :=
  try_except
    (usage_data ← download_json usage_stats_path;
     match usage_data with
     | Some j =>
         if JsonObj.truthy j then ret (default ∅ (workset_usage j))
         else _generate_usage_statistics
     | None => _generate_usage_statistics
     end)
    (λ e,
       if Str.contains "File not found" e
          || Str.contains "not found" (Str.lower e)
       then _generate_usage_statistics
       else ret ∅).

(** The loop of [_find_available_workset] over the candidate numbers. *)
Fixpoint scan_candidates (username : string) (usage_stats : gmap string Z)
    (candidates : list nat) : M (option string) :=
  match candidates with
  | [] => ret None
  | i :: rest =>
      let workset_name := workset_name i in
      let usage_count := JsonObj.count usage_stats workset_name in
      if usage_count <? 3 then
        completed ← _has_completed_workset username workset_name;
        if completed then scan_candidates username usage_stats rest
        else ret (Some workset_name)
      else scan_candidates username usage_stats rest
  end.

(** [_find_available_workset]: [range(1, 101)] is [seq 1 100]. *)
Definition _find_available_workset (username : string) : M (option string) :=
  try_except
    (usage_stats ← _get_usage_statistics;
     scan_candidates username usage_stats (seq 1 100))
    (λ _, ret None).

(** The body of the loop of [_win_competition] (lines 266-275). *)
Definition collect_competitor (workset_name file_path : string)
    (competitors : list competitor) : M (list competitor) :=
  if Str.contains ("competition_" +:+ workset_name +:+ "_") file_path
     && Str.ends_with file_path ".json"
  then
    comp_data ← download_json file_path;
    match comp_data with
    | Some j =>
        if JsonObj.truthy j && bool_decide (j_status j = Some "competing")
        then ret (competitors
                  ++ [Competitor (owner j) (competition_id j) (timestamp j)
                                 file_path])
        else ret competitors
    | None => ret competitors
    end
  else ret competitors.

(** [_win_competition] *)
Definition _win_competition (workset_name username competition_id : string)
  : M bool :=
  try_except
    (lock_files ← list_files (locks_dir +:+ "/");
     competitors ← for_each lock_files (collect_competitor workset_name) [];
     match Competition.settle competitors username competition_id with
     | Some is_winner => ret is_winner
     | None => raise "TypeError"
     end)
    (λ _, ret false).

(** [_cleanup_competition_files] *)
Definition _cleanup_competition_files
    (workset_name winner_competition_id : string) : M unit :=
  try_except
    (lock_files ← list_files (locks_dir +:+ "/");
     for_each lock_files
       (λ file_path _,
          if Str.contains ("competition_" +:+ workset_name +:+ "_") file_path
          then delete_file file_path;; ret tt
          else ret tt)
       tt)
    (λ _, ret tt).

(** [_try_acquire_workset_lock] *)
Definition _try_acquire_workset_lock (workset_name username : string)
  : M bool :=
  try_except
    (t ← ticks;
     let competition_id :=
       username +:+ "_" +:+ time_ms env t +:+ "_" +:+ randint env t in
     let competition_path :=
       locks_dir +:+ "/competition_" +:+ workset_name +:+ "_"
                 +:+ competition_id +:+ ".json" in
     let competition_data :=
       Json None None None None None None None
            (Some workset_name) (Some username) (Some competition_id)
            (Some (now env t)) (Some "competing") None [] in
     announced ← upload competition_path (BlobJson competition_data);
     if negb announced then ret false
     else
       won ← _win_competition workset_name username competition_id;
       locked ←
         (if won then
            t ← ticks;
            let lock_path := locks_dir +:+ "/" +:+ workset_name +:+ "_lock.json" in
            let lock_data :=
              Json None None None None None None None
                   (Some workset_name) (Some username) (Some competition_id)
                   (Some (now env t)) (Some "locked")
                   (Some (now_plus_2min env t)) [] in
            stored ← upload lock_path (BlobJson lock_data);
            if stored then
              _cleanup_competition_files workset_name competition_id;;
              ret true
            else ret false
          else ret false);
       if locked then ret true
       else delete_file competition_path;; ret false)
    (λ _, ret false).

(** [_release_workset_lock] *)
Definition _release_workset_lock (workset_name username : string) : M unit :=
  try_except
    (let lock_path := locks_dir +:+ "/" +:+ workset_name +:+ "_lock.json" in
     current_lock ← download_json lock_path;
     match current_lock with
     | Some j =>
         if JsonObj.truthy j && bool_decide (owner j = Some username)
         then delete_file lock_path;; ret tt
         else ret tt
     | None => ret tt
     end)
    (λ _, ret tt).

(** [_is_workset_still_available] *)
Definition _is_workset_still_available (workset_name : string) : M bool :=
  try_except
    (current_usage ← _get_usage_statistics;
     ret (JsonObj.count current_usage workset_name <? 3))
    (λ _, ret false).

(** The body of the loop of [_get_real_time_usage_count]. *)
Definition count_holder (workset_name file_path : string) (usage_count : Z)
  : M Z :=
  if Str.ends_with file_path "_record.csv" then
    record_df ← download_csv file_path;
    match record_df with
    | Some df =>
        if Frame.has_column "workset" df then
          if existsb (Frame.row_is workset_name) (rows df)
          then ret (usage_count + 1)
          else ret usage_count
        else ret usage_count
    | None => ret usage_count
    end
  else ret usage_count.

(** [_get_real_time_usage_count] *)
Definition _get_real_time_usage_count (workset_name : string) : M Z :=
  try_except
    (annotator_files ← list_files "annotators/";
     for_each annotator_files (count_holder workset_name) 0)
    (λ _, ret 999).

(** Lines 395-406 of [_update_usage_statistics_safely]: the ledger as
    the function observes it, regenerated when its count is more than
    one away from the expected one. *)
Definition observe_usage (workset_name : string) (expected_current_count : Z)
  : M (json_obj * gmap string Z) :=
  loaded ← download_json usage_stats_path;
  t ← ticks;
  let fresh :=
    Json (Some ∅) (Some (now env t)) None None None None None
         None None None None None None [] in
  let usage_data :=
    match loaded with
    | Some j => if JsonObj.truthy j then j else fresh
    | None => fresh
    end in
  usage ← getitem "workset_usage" (workset_usage usage_data);
  let current_count_in_stats := JsonObj.count usage workset_name in
  if Z.abs (current_count_in_stats - expected_current_count) >? 1
  then
    usage ← _generate_usage_statistics;
    ret (usage_data, usage)
  else ret (usage_data, usage).

(** [_update_usage_statistics_safely] *)
Definition _update_usage_statistics_safely (workset_name : string)
    (expected_current_count : Z) : M bool :=
  try_except
    (observed ← observe_usage workset_name expected_current_count;
     let usage_data := observed.1 in
     let usage := observed.2 in
     let new_count := JsonObj.count usage workset_name + 1 in
     if new_count >? 3 then ret false
     else
       t ← ticks;
       upload usage_stats_path
         (BlobJson
            (JsonObj.set_verified_at (now env t)
               (JsonObj.set_last_updated (now env t)
                  (JsonObj.set_workset_usage
                     (<[workset_name := new_count]> usage) usage_data)))))
    (λ _, ret false).

(** [_rollback_usage_statistics] *)
Definition _rollback_usage_statistics (workset_name : string) : M unit :=
  try_except
    (usage_data ← download_json usage_stats_path;
     match usage_data with
     | Some j =>
         let usage := default ∅ (workset_usage j) in
         if JsonObj.truthy j && bool_decide (is_Some (usage !! workset_name))
         then
           let decremented := JsonObj.count usage workset_name - 1 in
           let usage :=
             if decremented <=? 0 then delete workset_name usage
             else <[workset_name := decremented]> usage in
           t ← ticks;
           upload usage_stats_path
             (BlobJson
                (JsonObj.set_last_updated (now env t)
                   (JsonObj.set_workset_usage usage j)));;
           ret tt
         else ret tt
     | None => ret tt
     end)
    (λ _, ret tt).

(** The keys of the row [_add_workset_to_user_record] appends. *)
Definition new_task_columns : list string :=
  ["workset"; "status"; "assigned_at"; "auto_assigned"; "assignment_type"].

(** [_add_workset_to_user_record] *)
Definition _add_workset_to_user_record (username workset_name : string)
  : M bool :=
  try_except
    (let record_path := record_path username in
     record_df ← download_csv record_path;
     let record_df :=
       match record_df with
       | Some df => df
       | None => DataFrame ["workset"; "status"] []
       end in
     t ← ticks;
     let new_task :=
       Row (Some workset_name) (Some "not_started") (Some true)
           [("assigned_at", now env t); ("assignment_type", "user_request")] in
     let record_df :=
       Frame.concat record_df new_task_columns new_task in
     upload_csv record_path record_df)
    (λ _, ret false).

(** The rows [_remove_workset_from_user_record] drops:
    [(df['workset'] == name) & (df.get('auto_assigned', False) == True)];
    without the column the second operand is [False] for every row. *)
Definition is_auto_assigned_row (workset_name : string) (df : dataframe)
    (r : row) : bool :=
  Frame.row_is workset_name r
  && (Frame.has_column "auto_assigned" df
      && bool_decide (auto_assigned r = Some true)).

(** [_remove_workset_from_user_record] *)
Definition _remove_workset_from_user_record (username workset_name : string)
  : M unit :=
  try_except
    (let record_path := record_path username in
     record_df ← download_csv record_path;
     match record_df with
     | Some df =>
         getitem "workset" (Frame.col_workset df);;
         let record_df :=
           DataFrame (columns df)
             (filter (λ r, is_auto_assigned_row workset_name df r = false)
                     (rows df)) in
         upload_csv record_path record_df;;
         ret tt
     | None => ret tt
     end)
    (λ _, ret tt).

(** [_log_assignment] *)
Definition _log_assignment (username workset_name : string) : M unit :=
  try_except
    (log_df ← download_csv assignment_log_path;
     let log_df :=
       match log_df with
       | Some df => df
       | None =>
           DataFrame ["timestamp"; "username"; "workset"; "assignment_type";
                      "success"] []
       end in
     t ← ticks;
     let new_log :=
       Row (Some workset_name) None None
           [("timestamp", now env t); ("username", username);
            ("assignment_type", "user_request"); ("success", "True")] in
     let log_df :=
       Frame.concat log_df
         ["timestamp"; "username"; "workset"; "assignment_type"; "success"]
         new_log in
     upload_csv assignment_log_path log_df;;
     ret tt)
    (λ _, ret tt).

(** [_complete_workset_assignment] *)
Definition _complete_workset_assignment (username workset_name : string)
  : M bool :=
  try_except
    (completed ← _has_completed_workset username workset_name;
     if completed then ret false
     else
       current_usage ← _get_real_time_usage_count workset_name;
       if current_usage >=? 3 then ret false
       else
         updated ← _update_usage_statistics_safely workset_name current_usage;
         if negb updated then ret false
         else
           added ← _add_workset_to_user_record username workset_name;
           if negb added then
             _rollback_usage_statistics workset_name;;
             ret false
           else
             created ← create_workset_file username workset_name;
             if negb created then
               _rollback_usage_statistics workset_name;;
               _remove_workset_from_user_record username workset_name;;
               ret false
             else
               _log_assignment username workset_name;;
               ret true)
    (λ _, ret false).

(** How one pass of the loop of [request_new_workset] ends: with a
    [return], or by going on to the next attempt. *)
Inductive flow :=
| Return (v : option string)
| Continue.

(** One pass of the loop (lines 36-66); the waits between attempts
    change nothing in the store. *)
Definition attempt (username : string) : M flow :=
  try_except
    (available_workset ← _find_available_workset username;
     match available_workset with
     | None => ret (Return None)
     | Some available_workset =>
         locked ← _try_acquire_workset_lock available_workset username;
         if locked then
           try_finally
             (still ← _is_workset_still_available available_workset;
              if still then
                assigned ←
                  _complete_workset_assignment username available_workset;
                if assigned then ret (Return (Some available_workset))
                else ret Continue
              else ret Continue)
             (_release_workset_lock available_workset username)
         else ret Continue
     end)
    (λ _, ret Continue).

(** [for attempt in range(max_attempts)] *)
Fixpoint attempts (max_attempts : nat) (username : string)
  : M (option string) :=
  match max_attempts with
  | O => ret None
  | S n =>
      outcome ← attempt username;
      match outcome with
      | Return v => ret v
      | Continue => attempts n username
      end
  end.

(** [request_new_workset] *)
Definition request_new_workset (username : string) : M (option string) :=
  pending ← _has_pending_worksets username;
  if pending then ret None else attempts 5 username.

End Program.

(** ** The environment assumptions the properties are stated under *)

Definition is_read (o : op) : bool :=
  match o with
  | OpExists _ | OpDownload _ | OpList _ => true
  | _ => false
  end.

(** The storage client is initialised and no bucket call that only
    reads ever raises; writes and deletes may. *)
Definition reads_ok (env : environment) : Prop :=
  initialized env = true ∧ ∀ n o, is_read o = true → raises env n o = None.

(** No bucket call ever raises. *)
Definition no_faults (env : environment) : Prop :=
  initialized env = true ∧ ∀ n o, raises env n o = None.

(** ** The settle phase as the specification words it *)

Module SettleSpec.

(** The requester's own entry. *)
Definition is_own (username competition_id : string) (c : competitor) : Prop :=
  c_owner c = Some username ∧ c_competition_id c = Some competition_id.

(** "Earlier timestamp first, with timestamp ties broken by the
    competitor id in lexicographic order." *)
Definition before_or_equal (a b : competitor) : bool :=
  String.ltb (Competition.key a) (Competition.key b)
  || (String.eqb (Competition.key a) (Competition.key b)
      && String.leb (default "" (c_competition_id a))
                    (default "" (c_competition_id b))).

(** The requester's entry is the minimum of the entries. *)
Definition own_is_minimum (competitors : list competitor)
    (username competition_id : string) : Prop :=
  ∃ own, own ∈ competitors ∧ is_own username competition_id own
         ∧ ∀ c, c ∈ competitors → before_or_equal own c = true.

End SettleSpec.

(** Two entries announced at the same instant, in the order in which a
    bucket listing names in lexicographic order yields them: the name
    of the first continues the competition id of the second with "-",
    which sorts before the "." of ".json". *)
Definition tie_first : competitor :=
  Competitor (Some "al_1700000000000_10000-x")
             (Some "al_1700000000000_10000-x_1700000000000_10000")
             (Some "2024-05-01T10:00:00.000000")
             "system/locks/competition_workset_001_al_1700000000000_10000-x_1700000000000_10000.json".

Definition tie_second : competitor :=
  Competitor (Some "al")
             (Some "al_1700000000000_10000")
             (Some "2024-05-01T10:00:00.000000")
             "system/locks/competition_workset_001_al_1700000000000_10000.json".

(** ** Reasoning about computations

    [wp m w Q]: running [m] on [w] ends in a result and a world that
    satisfy [Q].  [returns m w Q]: moreover [m] does not raise. *)

Definition wp {A} (m : M A) (w : world) (Q : result A → world → Prop) : Prop :=
  Q (m w).1 (m w).2.

Definition returns {A} (m : M A) (w : world) (Q : A → world → Prop) : Prop :=
  wp m w (λ r w', match r with Ok a => Q a w' | Raised _ => False end).

(** The world [w'] is reached from [w] by bucket calls that all
    satisfy [P]. *)
Definition extends (P : op * bool → Prop) (w w' : world) : Prop :=
  ∃ t, trace w' = trace w ++ t ∧ Forall P t.

(** The name a bucket call writes to or deletes, if any. *)
Definition written (o : op) : option string :=
  match o with
  | OpUpload n _ | OpDelete n => Some n
  | _ => None
  end.

(** A property of worlds that no bucket call changes, whether it goes
    through or not, as long as it writes or deletes only names in [N]. *)
Definition closed (N : string → Prop) (I : world → Prop) : Prop :=
  ∀ w o, (∀ n, written o = Some n → N n) → I w →
    I (World (blobs w) (trace w ++ [(o, false)]))
    ∧ I (World (Bucket.effect o (blobs w)) (trace w ++ [(o, true)])).

(** The blobs below "annotators/" are those the assignment invariants
    speak of; [private n] says that [n] is not one of them. *)
Definition private (n : string) : Prop :=
  Str.starts_with "annotators/" n = false.

(** A property of the blobs that writing or deleting a private blob
    does not change. *)
Definition stable (J : Bucket.store → Prop) : Prop :=
  ∀ s n, private n →
    (∀ b, J s → J (Bucket.put n b s)) ∧ (J s → J (Bucket.del n s)).

(** The bucket calls on [p] that read, and those that write, never
    raise. *)
Definition read_ok (env : environment) (p : string) : Prop :=
  ∀ n, raises env n (OpExists p) = None ∧ raises env n (OpDownload p) = None.

Definition write_ok (env : environment) (p : string) : Prop :=
  ∀ n, (∀ b, raises env n (OpUpload p b) = None)
       ∧ raises env n (OpPatch p) = None.

(** The names [list_files(folder)] answers when the listing goes
    through. *)
Definition listed (folder : string) (s : Bucket.store) : list string :=
  let folder :=
    if negb (bool_decide (folder = "")) && negb (Str.ends_with folder "/")
    then folder +:+ "/" else folder in
  filter (λ n, Str.ends_with n "/" = false) (Bucket.names folder s).

Definition list_ok (env : environment) (folder : string) : Prop :=
  ∀ n, raises env n (OpList folder) = None.


(** A computation keeps a property of the world, whether it returns or
    raises. *)
Definition preserves {A} (I : world → Prop) (m : M A) : Prop :=
  ∀ w, I w → wp m w (λ _ w', I w').

(** A computation never raises. *)
Definition total {A} (m : M A) : Prop := ∀ w, returns m w (λ _ _, True).


(** ** Holders of a workset *)

(** The blob named [n] is a record in which workset [k] appears. *)
Definition holds (k : string) (s : Bucket.store) (n : string) : bool :=
  match Bucket.get n s ≫= Frame.read_csv with
  | Some df => Frame.mentions k df
  | None => false
  end.

(** The Worker Task Records as the scans find them: the blobs listed
    under "annotators/" whose name ends in "_record.csv". *)
Definition record_files (s : Bucket.store) : list string :=
  filter (λ n, Str.ends_with n "_record.csv" = true) (listed "annotators/" s).

(** The number of records in which workset [k] appears. *)
Definition holders (k : string) (s : Bucket.store) : Z :=
  Z.of_nat (length (filter (λ n, holds k s n = true) (record_files s))).


(** The worker's record has a row for workset [k] whose status is
    [completed]. *)
Definition completed (s : Bucket.store) (username k : string) : bool :=
  match Bucket.get (record_path username) s ≫= Frame.read_csv with
  | Some df =>
      Frame.has_column "workset" df && Frame.has_column "status" df
      && existsb (is_completed_row k) (rows df)
  | None => false
  end.

(** Candidate number [i] survives the scan of [_find_available_workset]:
    its usage count is below the cap and the worker has not completed
    it. *)
Definition eligible (usage_stats : gmap string Z) (s : Bucket.store)
    (username : string) (i : nat) : bool :=
  (JsonObj.count usage_stats (workset_name i) <? 3)
  && negb (completed s username (workset_name i)).


(** A bucket call that uploads nothing. *)
Definition no_upload (ev : op * bool) : Prop :=
  ∀ p b, ev.1 ≠ OpUpload p b.

(** A bucket call that, if it uploads, uploads a ledger with the usage
    mapping [usage]. *)
Definition uploads_usage (usage : gmap string Z) (ev : op * bool) : Prop :=
  ∀ p b, ev.1 = OpUpload p b → ∃ j, b = BlobJson j ∧ workset_usage j = Some usage.

(** ** The cap on the holders of a workset *)

(** A Worker Task Record, by its name: a blob below "annotators/" whose
    name ends in "_record.csv".  This is how both scans recognise the
    records; the record of worker [u] is [record_path u]. *)
Definition is_record_file (n : string) : Prop :=
  Str.starts_with "annotators/" n = true ∧ Str.ends_with n "_record.csv" = true.

(** No more than [c] records hold workset [k]. *)
Definition at_most (k : string) (c : Z) (s : Bucket.store) : Prop :=
  ∀ ns : list string,
    NoDup ns → (∀ n, n ∈ ns → is_record_file n ∧ holds k s n = true) →
    Z.of_nat (length ns) ≤ c.

(** The cap invariant: no workset is held by more than three records. *)
Definition cap_respected (s : Bucket.store) : Prop := ∀ k, at_most k 3 s.

(** The worker's Task Record contains a row for workset [k]. *)
Definition assigned (s : Bucket.store) (username k : string) : bool :=
  holds k s (record_path username).

(** Requests that do not overlap: the workers of [requests] call
    [request_new_workset] one after the other, each call running to its
    end before the next begins.  Requests that overlap are followed by
    [interleave], below. *)
Fixpoint run_requests (env : environment) (requests : list string) (w : world)
  : world :=
  match requests with
  | [] => w
  | username :: rest =>
      run_requests env rest (request_new_workset env username w).2
  end.


(** The statuses of the rows for workset [k] in a record, in order. *)
Definition statuses_for (k : string) (df : dataframe) : list (option string) :=
  status <$> filter (λ r, Frame.row_is k r = true) (rows df).

(** The worker's record is a table with the [workset] and [status]
    columns whose rows for [k] carry the statuses [sts]. *)
Definition record_rows_for (username k : string) (sts : list (option string))
    (s : Bucket.store) : Prop :=
  ∃ df, Bucket.get (record_path username) s = Some (BlobCsv df)
        ∧ "workset" ∈ columns df ∧ "status" ∈ columns df
        ∧ statuses_for k df = sts.


(** ** Concrete stores and environments used as examples *)

Module Example.

(** A bucket that works. *)
Definition env_ok : environment :=
  Env true (λ _ _, None)
      (λ _, "2024-05-01T10:00:00.000000") (λ _, "2024-05-01T10:02:00.000000")
      (λ _, "1700000000000") (λ _, "12345").

(** A bucket on which every listing of "annotators/" raises and every
    other call goes through. *)
Definition env_listing_down : environment :=
  Env true
      (λ _ o, match o with
              | OpList prefix =>
                  if String.eqb prefix "annotators/"
                  then Some "503 Service Unavailable" else None
              | _ => None
              end)
      (λ _, "2024-05-01T10:00:00.000000") (λ _, "2024-05-01T10:02:00.000000")
      (λ _, "1700000000000") (λ _, "12345").

(** A record with one row. *)
Definition record_of (k st : string) : blob :=
  BlobCsv (DataFrame ["workset"; "status"] [Row (Some k) (Some st) None []]).

Definition dataset : blob :=
  BlobCsv (DataFrame ["poem_url"]
             [Row None None None [("poem_url", "https://example.org/1")]]).

Definition ledger_of (usage : gmap string Z) : blob :=
  BlobJson (Json (Some usage) (Some "2024-04-30T09:00:00.000000") None None
                 None None None None None None None None None []).

(** Three workers have completed workset_001; there is no ledger. *)
Definition three_holders : world :=
  World [(record_path "ann", record_of "workset_001" "completed");
         (record_path "bob", record_of "workset_001" "completed");
         (record_path "cy", record_of "workset_001" "completed");
         ("workset/dataset_001.csv", dataset)]
        [].

(** Worker eve still has workset_001 to do. *)
Definition eve_pending : world :=
  World [(record_path "eve", record_of "workset_001" "not_started");
         (usage_stats_path, ledger_of {["workset_001" := 1]})]
        [].

(** Worker ann has completed workset_001, which one worker holds. *)
Definition ann_completed : world :=
  World [(record_path "ann", record_of "workset_001" "completed");
         (usage_stats_path, ledger_of {["workset_001" := 1]});
         ("workset/dataset_002.csv", dataset)]
        [].

(** Workset_001 is at the cap, in the records and in the ledger. *)
Definition at_cap : world :=
  World [(record_path "ann", record_of "workset_001" "completed");
         (record_path "bob", record_of "workset_001" "completed");
         (record_path "cy", record_of "workset_001" "in_progress");
         (usage_stats_path, ledger_of {["workset_001" := 3]})]
        [].

(** Two workers hold workset_001, the ledger has not recorded them, and
    the dataset of workset_001 is missing. *)
Definition stale_ledger : world :=
  World [(record_path "ann", record_of "workset_001" "completed");
         (record_path "bob", record_of "workset_001" "in_progress");
         (usage_stats_path, ledger_of ∅)]
        [].

(** Two workers hold workset_001, the ledger agrees, and the dataset
    of workset_001 is missing. *)
Definition missing_dataset : world :=
  World [(record_path "ann", record_of "workset_001" "completed");
         (record_path "bob", record_of "workset_001" "in_progress");
         (usage_stats_path, ledger_of {["workset_001" := 2]})]
        [].

(** A bucket on which the uploads of the ledger raise from the tenth
    bucket call on, and one on which the metadata patch that follows
    the upload of dora's record raises. *)
Definition env_ledger_upload_fails_late : environment :=
  Env true
      (λ n o, match o with
              | OpUpload p _ =>
                  if String.eqb p usage_stats_path && (10 <=? n)%nat
                  then Some "503 Service Unavailable" else None
              | _ => None
              end)
      (λ _, "2024-05-01T10:00:00.000000") (λ _, "2024-05-01T10:02:00.000000")
      (λ _, "1700000000000") (λ _, "12345").

Definition env_patch_fails : environment :=
  Env true
      (λ _ o, match o with
              | OpPatch p =>
                  if String.eqb p (record_path "dora")
                  then Some "503 Service Unavailable" else None
              | _ => None
              end)
      (λ _, "2024-05-01T10:00:00.000000") (λ _, "2024-05-01T10:02:00.000000")
      (λ _, "1700000000000") (λ _, "12345").

End Example.


(** ** The ledger's count and the rollback claim *)

(** The usage count of workset [k] in the persisted ledger, as the
    increment reads it: 0 when there is no ledger or no entry. *)
Definition ledger_count (s : Bucket.store) (k : string) : Z :=
  match Bucket.get usage_stats_path s ≫= JsonObj.loads with
  | Some j => JsonObj.count (default ∅ (workset_usage j)) k
  | None => 0
  end.

(** The bucket calls a computation started in [w] has made when it is
    in [w']. *)
Definition calls_since (w w' : world) : list (op * bool) :=
  drop (length (trace w)) (trace w').

(** Claim C4 as stated, for one assignment attempt: when the commit
    fails after it reached step (d), the upload of the worker's record,
    the ledger's count for the candidate is what it was before the
    attempt and the worker's record has no row for the candidate. *)
Definition rollback_restores (env : environment) (username k : string)
    (w : world) : Prop :=
  let run := _complete_workset_assignment env username k w in
  run.1 = Ok false →
  (∃ c ok, (OpUpload (record_path username) c, ok) ∈ calls_since w run.2) →
  ledger_count (blobs run.2) k = ledger_count (blobs w) k
  ∧ assigned (blobs run.2) username k = false.

(** What [observe_usage] returns on the store that is at the cap. *)
Definition at_cap_observed : (json_obj * gmap string Z) * world :=
  match observe_usage Example.env_ok "workset_001" 3 Example.at_cap with
  | (Ok observed, w1) => (observed, w1)
  | (Raised _, w1) => ((JsonObj.empty, ∅), w1)
  end.


(** ** The entry the settle phase lets win *)

(** The head of the sorted list is the first of the entries with the
    least key. *)
Inductive earliest : list competitor → competitor → Prop :=
| earliest_intro before m after :
    (∀ c, c ∈ before →
       String.leb (Competition.key c) (Competition.key m) = false) →
    (∀ c, c ∈ after →
       String.leb (Competition.key m) (Competition.key c) = true) →
    earliest (before ++ m :: after) m.

(** ** Stores reached by uploads *)

(** [s'] comes from [s] by uploads to blobs whose names satisfy [N]. *)
Inductive uploads_to (N : string → Prop) : Bucket.store → Bucket.store → Prop :=
| uploads_none s : uploads_to N s s
| uploads_more s s' p b :
    uploads_to N s s' → N p → uploads_to N s (Bucket.put p b s').

(** The record names among blob names, as the scans select them. *)
Definition records_in (names : list string) : list string :=
  filter (λ n, Str.ends_with n "_record.csv" = true)
    (filter (λ n, Str.ends_with n "/" = false)
       (filter (λ n, Str.starts_with "annotators/" n = true) names)).

(** The count the increment starts from when the real-time count is
    the number of holders: the ledger's, or the regenerated one when
    the ledger's is more than one away. *)
Definition settled_count (s : Bucket.store) (k : string) : Z :=
  if Z.abs (ledger_count s k - holders k s) >? 1 then holders k s
  else ledger_count s k.

(** The blobs an assignment attempt writes before it logs: the ledger,
    the worker's record and the worker's copy of the workset. *)
Definition commit_writes (username k : string) (n : string) : Prop :=
  n = usage_stats_path ∨ n = record_path username
  ∨ n = "coding_result/" +:+ username +:+ "/" +:+ k +:+ ".csv".

(** Every upload to [p] is refused: it raises before anything is
    written. *)
Definition upload_refused (env : environment) (p : string) : Prop :=
  ∀ n c, raises env n (OpUpload p c) ≠ None.

(** What an assignment attempt leaves.  After a commit, the ledger's
    count is one more than the count the increment started from and
    the worker's record has a row for the workset.  After a failed
    attempt, the worker's record has no row for the workset and the
    number of holders is what it was; the ledger's count is what it
    was, unless it was negative or more than one away from the number
    of holders, when it may be that number instead. *)
Definition commit_or_nothing (username k : string) (w : world) (ok : bool)
    (w' : world) : Prop :=
  if ok then
    ledger_count (blobs w') k = settled_count (blobs w) k + 1
    ∧ assigned (blobs w') username k = true
  else
    (ledger_count (blobs w') k = ledger_count (blobs w) k
     ∨ (ledger_count (blobs w') k = holders k (blobs w)
        ∧ (ledger_count (blobs w) k < 0
           ∨ 1 < Z.abs (ledger_count (blobs w) k - holders k (blobs w)))))
    ∧ assigned (blobs w') username k = false
    ∧ holders k (blobs w') = holders k (blobs w).


(** ** More of [workset_auto_assigner.py] and [firebase_storage.py] *)

(** The dictionary [get_usage_summary] returns. *)
Record usage_summary := UsageSummary {
  total_worksets : Z;
  used_worksets : Z;
  available_worksets : Z;
  fully_used_worksets : Z;
  unused_worksets : Z
}.

Section Maintenance.

Variable env : environment.

(** [datetime.fromisoformat(expires_at)] and [current_time > expires_at]:
    [later now expires_at] is [Some b] when the text parses to a time
    that compares with the current one, [b] telling whether the current
    time is after it, and [None] when one of the two raises. *)
Variable later : string → string → option bool.

(** [create_empty_csv] *)
Definition create_empty_csv (path : string) (columns : list string) : M bool :=
  upload_csv env path (DataFrame columns []).

(** [_update_usage_statistics], the increment without the checks. *)
Definition _update_usage_statistics (workset_name : string) : M bool :=
  try_except
    (loaded ← download_json env usage_stats_path;
     t ← ticks;
     let fresh :=
       Json (Some ∅) (Some (now env t)) None None None None None
            None None None None None None [] in
     let usage_data :=
       match loaded with
       | Some j => if JsonObj.truthy j then j else fresh
       | None => fresh
       end in
     usage ← getitem "workset_usage" (workset_usage usage_data);
     t ← ticks;
     upload env usage_stats_path
       (BlobJson
          (JsonObj.set_last_updated (now env t)
             (JsonObj.set_workset_usage
                (<[workset_name := JsonObj.count usage workset_name + 1]> usage)
                usage_data))))
    (λ _, ret false).

(** [get_usage_summary]; [None] is the empty dictionary of the
    handler. *)
Definition get_usage_summary : M (option usage_summary) :=
  try_except
    (usage_stats ← _get_usage_statistics env;
     let total_worksets := 100 in
     let used_worksets := Z.of_nat (size usage_stats) in
     let available_worksets :=
       Z.of_nat (size (filter (λ kv : string * Z, kv.2 < 3) usage_stats)) in
     let fully_used_worksets :=
       Z.of_nat (size (filter (λ kv : string * Z, 3 ≤ kv.2) usage_stats)) in
     ret (Some (UsageSummary total_worksets used_worksets available_worksets
                  fully_used_worksets (total_worksets - used_worksets))))
    (λ _, ret None).

(** [force_regenerate_usage_statistics] *)
Definition force_regenerate_usage_statistics : M (gmap string Z) :=
  try_except
    (try_except (delete_file env usage_stats_path;; ret tt) (λ _, ret tt);;
     _generate_usage_statistics env)
    (λ _, ret ∅).

(** The body of the loop of [cleanup_expired_locks]. *)
Definition cleanup_lock (current_time file_path : string) (_ : unit) : M unit :=
  if Str.ends_with file_path "_lock.json" then
    lock_data ← download_json env file_path;
    match lock_data with
    | Some j =>
        if JsonObj.truthy j then
          match expires_at j with
          | Some expires =>
              match later current_time expires with
              | Some true => delete_file env file_path;; ret tt
              | Some false => ret tt
              | None => raise "ValueError"
              end
          | None => ret tt
          end
        else ret tt
    | None => ret tt
    end
  else ret tt.

(** [cleanup_expired_locks] *)
Definition cleanup_expired_locks : M unit :=
  try_except
    (lock_files ← list_files env "system/locks/";
     t ← ticks;
     for_each lock_files (cleanup_lock (now env t)) tt)
    (λ _, ret tt).

End Maintenance.

(** The lock blob [n] carries an expiry that has passed at [now]. *)
Definition lock_expired (later : string → string → option bool) (now : string)
    (s : Bucket.store) (n : string) : bool :=
  Str.ends_with n "_lock.json"
  && match Bucket.get n s ≫= JsonObj.loads with
     | Some j =>
         JsonObj.truthy j
         && match expires_at j with
            | Some expires => bool_decide (later now expires = Some true)
            | None => false
            end
     | None => false
     end.

(** A blob [cleanup_expired_locks] may delete, by its name. *)
Definition is_lock_file (n : string) : Prop :=
  Str.starts_with "system/locks/" n = true
  ∧ Str.ends_with n "_lock.json" = true.

(** ** More stores to run the program on *)

Module Scenario.

(** The clock of [datetime] on ISO texts of one format: they compare as
    texts. *)
Definition later (now expires : string) : option bool :=
  Some (String.ltb expires now).

Definition lock_of (k u expires : string) : blob :=
  BlobJson (Json None None None None None None None
                 (Some k) (Some u) (Some (u +:+ "_1700000000000_12345"))
                 (Some "2024-05-01T08:00:00.000000") (Some "locked")
                 (Some expires) []).

(** Worker ann holds a lock on workset_001 that expired at nine, and
    worker bob one on workset_002 that expires at noon. *)
Definition with_locks : world :=
  World [(record_path "ann", Example.record_of "workset_001" "completed");
         ("system/locks/workset_001_lock.json",
          lock_of "workset_001" "ann" "2024-05-01T09:00:00.000000");
         ("system/locks/workset_002_lock.json",
          lock_of "workset_002" "bob" "2024-05-01T12:00:00.000000");
         ("workset/dataset_001.csv", Example.dataset)]
        [].

(** A storage client that never initialised. *)
Definition env_uninitialised : environment :=
  Env false (λ _ _, None)
      (λ _, "2024-05-01T10:00:00.000000") (λ _, "2024-05-01T10:02:00.000000")
      (λ _, "1700000000000") (λ _, "12345").

(** The record of worker fay has a row and no [status] column. *)
Definition no_status_column : world :=
  World [(record_path "fay",
          BlobCsv (DataFrame ["workset"]
                     [Row (Some "workset_001") None None []]));
         ("workset/dataset_001.csv", Example.dataset)]
        [].

(** Worker ann has announced herself for workset_001. *)
Definition ann_entry : blob :=
  BlobJson (Json None None None None None None None
                 (Some "workset_001") (Some "ann")
                 (Some "ann_1700000000000_12345")
                 (Some "2024-05-01T10:00:00.000000") (Some "competing")
                 None []).

Definition competing : world :=
  World [("system/locks/competition_workset_001_ann_1700000000000_12345.json",
          ann_entry);
         ("workset/dataset_001.csv", Example.dataset)]
        [].

(** Worker gus holds two worksets; the file of the first is there,
    with one poem done, and the file of the second is missing. *)
Definition gus_record : dataframe :=
  DataFrame ["workset"; "status"]
    [Row (Some "workset_001") (Some "in_progress") None [];
     Row (Some "workset_002") (Some "not_started") None []].

Definition half_done : world :=
  World [(record_path "gus", BlobCsv gus_record);
         ("coding_result/gus/workset_001.csv",
          BlobCsv (DataFrame ["poem_url"; "Progress"]
                     [Row None None None
                          [("Progress", "Y");
                           ("poem_url", "https://example.org/1")]]));
         ("workset/dataset_001.csv", Example.dataset);
         ("workset/dataset_002.csv", Example.dataset)]
        [].

(** A worker who has finished the first workset, and a ledger that
    counts it. *)
Definition second_round : world :=
  World [(record_path "eve", Example.record_of "workset_001" "completed");
         (usage_stats_path, Example.ledger_of {[ "workset_001" := 1 ]});
         ("workset/dataset_001.csv", Example.dataset);
         ("workset/dataset_002.csv", Example.dataset)]
        [].

(** A ledger some other tool has written: an object with a timestamp
    and no [workset_usage]. *)
Definition foreign_ledger : world :=
  World [(usage_stats_path,
          BlobJson (Json None (Some "2024-04-30T09:00:00.000000") None None
                         None None None None None None None None None []));
         ("workset/dataset_001.csv", Example.dataset)]
        [].

(** A worker at work on the first workset. *)
Definition working : world :=
  World [(record_path "fay", Example.record_of "workset_001" "in_progress");
         (usage_stats_path, Example.ledger_of {[ "workset_001" := 1 ]});
         ("coding_result/fay/workset_001.csv",
          BlobCsv (DataFrame ["poem_url"; "Progress"]
                     [Row None None None
                          [("Progress", "Y");
                           ("poem_url", "https://example.org/1")]]));
         ("workset/dataset_001.csv", Example.dataset);
         ("workset/dataset_002.csv", Example.dataset)]
        [].

(** A worker who has finished the poems of the first workset and has a
    second one waiting. *)
Definition poem (url progress : string) : row :=
  Row None None None [("Progress", progress); ("poem_url", url)].

Definition finishing : world :=
  World [(record_path "ivy",
          BlobCsv (DataFrame ["workset"; "status"]
                     [Row (Some "workset_001") (Some "in_progress") None [];
                      Row (Some "workset_002") (Some "not_started") None []]));
         ("coding_result/ivy/workset_001.csv",
          BlobCsv (DataFrame ["poem_url"; "Progress"]
                     [poem "https://example.org/1" "Y"]));
         ("coding_result/ivy/workset_002.csv",
          BlobCsv (DataFrame ["poem_url"; "Progress"]
                     [poem "https://example.org/2" "Y";
                      poem "https://example.org/3" "N";
                      poem "https://example.org/4" "N"]))]
        [].

(** A bucket that refuses every write to the second workset file of
    that worker. *)
Definition env_file_read_only : environment :=
  Env true
      (λ _ o, match o with
              | OpUpload name _ =>
                  if String.eqb name "coding_result/ivy/workset_002.csv"
                  then Some "403 Forbidden" else None
              | _ => None
              end)
      (λ _, "2024-05-01T10:00:00.000000") (λ _, "2024-05-01T10:02:00.000000")
      (λ _, "1700000000000") (λ _, "12345").

End Scenario.

(** ** The competition entries of a store *)

(** The entry [_win_competition] collects from the blob [file_path],
    if any. *)
Definition competitor_of (k : string) (s : Bucket.store) (file_path : string)
  : option competitor :=
  if Str.contains ("competition_" +:+ k +:+ "_") file_path
     && Str.ends_with file_path ".json"
  then
    match Bucket.get file_path s ≫= JsonObj.loads with
    | Some j =>
        if JsonObj.truthy j && bool_decide (j_status j = Some "competing")
        then Some (Competitor (owner j) (competition_id j) (timestamp j)
                              file_path)
        else None
    | None => None
    end
  else None.

(** The entries for workset [k], in listing order. *)
Definition competitors_in (k : string) (s : Bucket.store) : list competitor :=
  omap (competitor_of k s) (listed "system/locks/" s).

(** ** Cells of a row *)

(** The value under [key] in the columns a row keeps by name. *)
Fixpoint assoc (key : string) (l : list (string * string)) : option string :=
  match l with
  | [] => None
  | (k, v) :: l' => if decide (k = key) then Some v else assoc key l'
  end.

(** [row[column]] as text; NaN is [None]. *)
Definition cell (column : string) (r : row) : option string :=
  if decide (column = "workset") then workset r
  else if decide (column = "status") then status r
  else if decide (column = "auto_assigned") then
    (λ b : bool, if b then "True" else "False") <$> auto_assigned r
  else assoc column (other r).

(** The paths of [create_workset_file]. *)
Definition dataset_path (workset : string) : string :=
  "workset/dataset_" +:+ Str.remove_all "workset_" workset +:+ ".csv".

Definition workset_file_path (username workset : string) : string :=
  "coding_result/" +:+ username +:+ "/" +:+ workset +:+ ".csv".

(** ** [workset_utils.py] *)

(** [df[column]] *)
Definition column (c : string) (df : dataframe) : list (option string) :=
  cell c <$> rows df.

Section WorksetUtils.

Variable env : environment.

(** [get_user_worksets]: the values of the first column whose name
    contains "workset" once lowered. *)
Definition get_user_worksets (username : string) : M (option (list string)) :=
  try_except
    (let record_path := record_path username in
     record_df ← download_csv env record_path;
     match record_df with
     | None => ret None
     | Some df =>
         match List.find (λ col, Str.contains "workset" (Str.lower col))
                         (columns df) with
         | None => ret None
         | Some workset_col =>
             ret (Some (Frame.unique (Frame.dropna (column workset_col df))))
         end
     end)
    (λ _, ret None).

(** [check_missing_worksets] *)
Definition check_missing_worksets (username : string) (worksets : list string)
  : M (list string) :=
  try_except
    (let coding_path := "coding_result/" +:+ username +:+ "/" in
     existing_files ← list_files env coding_path;
     ret (filter (λ workset,
                    coding_path +:+ workset +:+ ".csv" ∉ existing_files)
                 worksets))
    (λ _, ret worksets).

(** The body of the loop of [ensure_user_worksets]; the dictionary of
    results is kept in insertion order. *)
Definition ensure_workset (username : string) (missing_worksets : list string)
    (workset : string) (results : list (string * bool))
  : M (list (string * bool)) :=
  if bool_decide (workset ∈ missing_worksets) then
    created ← create_workset_file env username workset;
    ret (results ++ [(workset, created)])
  else ret (results ++ [(workset, true)]).

(** [ensure_user_worksets] *)
Definition ensure_user_worksets (username : string)
  : M (list (string * bool)) :=
  try_except
    (worksets ← get_user_worksets username;
     match worksets with
     | None | Some [] => ret []
     | Some worksets =>
         missing_worksets ← check_missing_worksets username worksets;
         match missing_worksets with
         | [] => ret ((λ ws, (ws, true)) <$> worksets)
         | _ =>
             for_each worksets (ensure_workset username missing_worksets) []
         end
     end)
    (λ _, ret []).

(** [get_workset_status] *)
Definition get_workset_status (username : string)
  : M (list (string * string)) :=
  try_except
    (worksets ← get_user_worksets username;
     match worksets with
     | None | Some [] => ret []
     | Some worksets =>
         missing_worksets ← check_missing_worksets username worksets;
         ret ((λ workset,
                 (workset,
                  if bool_decide (workset ∈ missing_worksets)
                  then "MISSING" else "EXISTS")) <$> worksets)
     end)
    (λ _, ret []).

(** [auto_ensure_worksets_on_login] *)
Definition auto_ensure_worksets_on_login (username : string) : M bool :=
  try_except
    (worksets ← get_user_worksets username;
     match worksets with
     | None | Some [] => ret true
     | Some worksets =>
         missing_worksets ← check_missing_worksets username worksets;
         match missing_worksets with
         | [] => ret true
         | _ =>
             results ←
               for_each missing_worksets
                 (λ workset results,
                    created ← create_workset_file env username workset;
                    ret (results ++ [(workset, created)]))
                 [];
             let success_count :=
               length (filter (λ result : string * bool, result.2 = true)
                              results) in
             ret (bool_decide (success_count = length missing_worksets))
         end
     end)
    (λ _, ret false).

End WorksetUtils.

(** ** What an assignment leaves *)

(** The worker's record ends with a row for workset [k] that is not
    started, and the worker's copy of the workset is there with every
    poem still to do. *)
Definition materialised (username k : string) (s : Bucket.store) : Prop :=
  (∃ df r, Bucket.get (record_path username) s = Some (BlobCsv df)
           ∧ last (rows df) = Some r
           ∧ workset r = Some k ∧ status r = Some "not_started"
           ∧ "workset" ∈ columns df ∧ "status" ∈ columns df)
  ∧ ∃ df, Bucket.get (workset_file_path username k) s = Some (BlobCsv df)
          ∧ ∀ r, r ∈ rows df → cell "Progress" r = Some "N".

(** The candidate ids of [_find_available_workset]. *)
Definition is_candidate (name : string) : Prop :=
  ∃ i, (1 ≤ i ≤ 100)%nat ∧ name = workset_name i.

(** ** A request that succeeds *)

(** No lock and no competition entry is in the store. *)
Definition quiet (s : Bucket.store) : Prop :=
  ∀ n, n ∈ s.*1 → Str.starts_with "system/locks/" n = false.

(** What [_has_pending_worksets] answers when the record can be read:
    a record without a [status] column counts as pending work. *)
Definition pending (s : Bucket.store) (username : string) : bool :=
  match Bucket.get (record_path username) s ≫= Frame.read_csv with
  | Some df =>
      if Frame.empty df then false
      else match Frame.col_status df with
           | Some status_column => existsb is_pending status_column
           | None => true
           end
  | None => false
  end.

(** The persisted ledger, when it is an object with at least one key,
    has the key [workset_usage]. *)
Definition ledger_usable (s : Bucket.store) : Prop :=
  ∀ j, Bucket.get usage_stats_path s = Some (BlobJson j) →
       JsonObj.truthy j = true → is_Some (workset_usage j).

(** The usage count of workset [k] as [_get_usage_statistics] reports
    it when the bucket works: the persisted ledger's, or the number of
    holders when the ledger is regenerated. *)
Definition seen_count (s : Bucket.store) (k : string) : Z :=
  match Bucket.get usage_stats_path s ≫= JsonObj.loads with
  | Some j =>
      if JsonObj.truthy j then JsonObj.count (default ∅ (workset_usage j)) k
      else holders k s
  | None => holders k s
  end.

(** Candidate number [i] survives the scan of a bucket that works. *)
Definition available (s : Bucket.store) (username : string) (i : nat) : bool :=
  (seen_count s (workset_name i) <? 3)
  && negb (completed s username (workset_name i)).

(** ** [annotator_workset_manager.py], class [AnnotatorWorksetManager] *)

(** The dictionary [get_current_workset] returns; a workset cell that
    is NaN is [None]. *)
Record workset_info := WorksetInfo {
  wi_workset : option string;
  wi_status : string;
  wi_row_index : nat
}.

(** [df.loc[row_index, 'status'] = value] for a row that is there: the
    column is added when new, with NaN in the other rows. *)
Definition set_status (row_index : nat) (value : string) (df : dataframe)
  : dataframe :=
  DataFrame
    (if Frame.has_column "status" df then columns df
     else columns df ++ ["status"])
    (alter (λ r, Row (workset r) (Some value) (auto_assigned r) (other r))
           row_index (Frame.cells df <$> rows df)).

(** [df[df['status'] == value]]: the label and the content of its
    first row, the labels being the positions. *)
Definition first_with_status (value : string) (df : dataframe)
  : option (nat * row) :=
  list_find (λ r, status r = Some value) (rows df).

(** [df[df['workset'] == workset]], likewise. *)
Definition first_for_workset (workset_name : string) (df : dataframe)
  : option (nat * row) :=
  list_find (λ r, workset r = Some workset_name) (rows df).

Section Manager.

Variable env : environment.

(** [workset_row['workset']] *)
Definition row_workset (df : dataframe) (workset_row : row)
  : M (option string) :=
  getitem "workset"
    (if Frame.has_column "workset" df then Some (workset workset_row)
     else None).

(** [get_current_workset]; the messages shown on the page are left
    out, the lookups they make are not. *)
Definition get_current_workset (username : string) : M (option workset_info) :=
  try_except
    (record_df ← download_csv env (record_path username);
     match record_df with
     | None => ret None
     | Some record_df =>
         if Frame.empty record_df then ret None
         else
           getitem "status" (Frame.col_status record_df);;
           match first_with_status "in_progress" record_df with
           | Some (row_index, workset_row) =>
               name ← row_workset record_df workset_row;
               ret (Some (WorksetInfo name "in_progress" row_index))
           | None =>
               match first_with_status "not_started" record_df with
               | Some (row_index, workset_row) =>
                   let updated := set_status row_index "in_progress" record_df in
                   uploaded ← upload_csv env (record_path username) updated;
                   if uploaded then
                     name ← row_workset record_df workset_row;
                     ret (Some (WorksetInfo name "in_progress" row_index))
                   else ret None
               | None => ret None
               end
           end
     end)
    (λ _, ret None).

(** [_complete_workset] *)
Definition _complete_workset (username workset_name : string) : M bool :=
  try_except
    (record_df ← download_csv env (record_path username);
     match record_df with
     | Some record_df =>
         getitem "workset" (Frame.col_workset record_df);;
         match first_for_workset workset_name record_df with
         | Some (row_index, _) =>
             let updated := set_status row_index "completed" record_df in
             uploaded ← upload_csv env (record_path username) updated;
             if uploaded then ret true else ret false
         | None => ret false
         end
     | None => ret false
     end)
    (λ _, ret false).

(** [_has_no_record_file] *)
Definition _has_no_record_file (username : string) : M bool :=
  try_except
    (record_df ← download_csv env (record_path username);
     match record_df with
     | None => ret true
     | Some record_df => ret (Frame.empty record_df)
     end)
    (λ _, ret true).

End Manager.

(** The number of rows of the worker's record whose status is
    [in_progress]. *)
Definition worksets_in_progress (s : Bucket.store) (username : string) : nat :=
  match Bucket.get (record_path username) s ≫= Frame.read_csv with
  | Some df =>
      if Frame.has_column "status" df
      then length (filter (λ r, status r = Some "in_progress") (rows df))
      else 0%nat
  | None => 0%nat
  end.

(** The worker's record in [s'] is the one in [s], or an empty table
    when [s] has none that can be read, with one [not_started] row for
    workset [k] appended. *)
Definition appended (username k : string) (s s' : Bucket.store) : Prop :=
  ∃ r, workset r = Some k ∧ status r = Some "not_started"
       ∧ Bucket.get (record_path username) s'
         = Some (BlobCsv
                   (Frame.concat
                      (default (DataFrame ["workset"; "status"] [])
                         (Bucket.get (record_path username) s
                          ≫= Frame.read_csv))
                      new_task_columns r)).

(** ** [admin_page.py] *)

(** The character "/". *)
Definition slash : Ascii.ascii := Ascii.ascii_of_nat 47.

(** [s.split(sep)] for a separator of one character: the parts between
    the separators, empty ones included. *)
Fixpoint str_split (sep : Ascii.ascii) (s : string) : list string :=
  match s with
  | EmptyString => [EmptyString]
  | String c s' =>
      if Ascii.eqb c sep then EmptyString :: str_split sep s'
      else match str_split sep s' with
           | part :: parts => String c part :: parts
           | [] => [String c EmptyString]
           end
  end.

(** An entry of the dictionary [_get_detailed_workset_usage] builds. *)
Record workset_detail := WorksetDetail {
  wd_count : Z;
  wd_users : list string
}.

(** The entry for [workset], as the page reads it: nothing used when
    the key is missing. *)
Definition detail (detailed_usage : gmap string workset_detail)
    (workset : string) : workset_detail :=
  default (WorksetDetail 0 []) (detailed_usage !! workset).

(** The body of the loop over [unique_worksets]. *)
Definition add_user (username : string)
    (detailed_usage : gmap string workset_detail) (workset : string)
  : gmap string workset_detail :=
  let entry := detail detailed_usage workset in
  <[workset := WorksetDetail (wd_count entry + 1)
                             (wd_users entry ++ [username])]> detailed_usage.

Section Admin.

Variable env : environment.

(** The body of the loop over [annotator_files]; [path_parts[1]] is
    read only when there are three parts or more. *)
Definition detail_record (file_path : string)
    (detailed_usage : gmap string workset_detail)
  : M (gmap string workset_detail) :=
  if Str.ends_with file_path "_record.csv" then
    match str_split slash file_path with
    | _ :: username :: _ :: _ =>
        record_df ← download_csv env file_path;
        match record_df with
        | Some df =>
            if Frame.has_column "workset" df then
              let unique_worksets :=
                Frame.unique (Frame.dropna (workset <$> rows df)) in
              ret (foldl (add_user username) detailed_usage unique_worksets)
            else ret detailed_usage
        | None => ret detailed_usage
        end
    | _ => ret detailed_usage
    end
  else ret detailed_usage.

(** [_get_detailed_workset_usage] *)
Definition _get_detailed_workset_usage : M (gmap string workset_detail) :=
  try_except
    (annotator_files ← list_files env "annotators/";
     for_each annotator_files detail_record ∅)
    (λ _, ret ∅).

End Admin.

(** The name of the folder a record lies in, when it lies in one:
    [path_parts[1]] of a path with three parts or more. *)
Definition record_owner (file_path : string) : option string :=
  match str_split slash file_path with
  | _ :: username :: _ :: _ => Some username
  | _ => None
  end.

(** The owners of the records in folders that hold workset [k], in
    listing order. *)
Definition owners (k : string) (s : Bucket.store) : list string :=
  omap record_owner (filter (λ n, holds k s n = true) (record_files s)).

(** The dictionary [get_next_poem] returns; NaN is [None]. *)
Record poem_info := PoemInfo {
  pi_row_index : nat;
  pi_poem_url : option string;
  pi_title : option string;
  pi_author : option string;
  pi_workset : option string;
  pi_total_poems : nat;
  pi_completed_poems : nat;
  pi_current_poem_number : nat
}.

(** [f"{workset}"]: a workset that is NaN prints as "nan". *)
Definition workset_text (workset : option string) : string :=
  default "nan" workset.

(** [df[df['Progress'] == value]]: the label and the content of its
    first row. *)
Definition first_with_progress (value : string) (df : dataframe)
  : option (nat * row) :=
  list_find (λ r, cell "Progress" r = Some value) (rows df).

(** [len(df[df['Progress'] == 'Y'])] *)
Definition completed_poems (df : dataframe) : nat :=
  length (filter (λ r, cell "Progress" r = Some "Y") (rows df)).

(** [row.get(column, default)] *)
Definition row_get (column default : string) (df : dataframe) (r : row)
  : option string :=
  if Frame.has_column column df then cell column r else Some default.

(** A row with its [Progress] cell set, or cleared. *)
Definition with_progress (value : option string) (r : row) : row :=
  Row (workset r) (status r) (auto_assigned r)
      (match value with
       | Some v => [("Progress", v)]
       | None => []
       end ++ filter (λ c, c.1 ≠ "Progress") (other r)).

(** [df.loc[row_index, 'Progress'] = 'Y']: the cell is set when the
    row is there, and a row with nothing but this cell is added when
    it is not; the column is added when new, with NaN in the other
    rows. *)
Definition set_progress (row_index : Z) (df : dataframe) : dataframe :=
  let shown :=
    if Frame.has_column "Progress" df then rows df
    else with_progress None <$> rows df in
  DataFrame
    (if Frame.has_column "Progress" df then columns df
     else columns df ++ ["Progress"])
    (if (0 <=? row_index) && (row_index <? Z.of_nat (length (rows df)))
     then alter (with_progress (Some "Y")) (Z.to_nat row_index) shown
     else shown ++ [Row None None None [("Progress", "Y")]]).

(** The metadata [save_annotation] adds to the annotation: the keys
    [workset] and [timestamp], and by name [username], [row_index] and
    [completed]. *)
Definition with_metadata (workset t : string) (annotation_data : json_obj)
  : json_obj :=
  Json (workset_usage annotation_data) (last_updated annotation_data)
       (verified_at annotation_data) (generated_from_scan annotation_data)
       (scanned_files annotation_data) (total_assignments annotation_data)
       (note annotation_data) (Some workset) (owner annotation_data)
       (competition_id annotation_data) (Some t) (j_status annotation_data)
       (expires_at annotation_data)
       (extra annotation_data
        ++ filter (λ key, key ∉ extra annotation_data)
             ["username"; "row_index"; "completed"]).

Section Poems.

Variable env : environment.

(** [row[column]] *)
Definition row_item (column : string) (df : dataframe) (r : row)
  : M (option string) :=
  getitem column
    (if Frame.has_column column df then Some (cell column r) else None).

(** [_complete_workset] called with a workset that is NaN: NaN equals
    no cell, so the record is read and no row is found. *)
Definition _complete_workset_nan (username : string) : M bool :=
  try_except
    (record_df ← download_csv env (record_path username);
     match record_df with
     | Some record_df =>
         getitem "workset" (Frame.col_workset record_df);;
         ret false
     | None => ret false
     end)
    (λ _, ret false).

(** [_get_next_workset], with the call of [get_next_poem] it ends in
    as [next_poem]. *)
Definition _get_next_workset_with
    (next_poem : option string → M (option poem_info)) (username : string)
  : M (option poem_info) :=
  try_except
    (record_df ← download_csv env (record_path username);
     match record_df with
     | None => ret None
     | Some record_df =>
         if Frame.empty record_df then ret None
         else
           getitem "status" (Frame.col_status record_df);;
           match first_with_status "not_started" record_df with
           | Some (row_index, workset_row) =>
               let updated := set_status row_index "in_progress" record_df in
               uploaded ← upload_csv env (record_path username) updated;
               if uploaded then
                 name ← row_workset record_df workset_row;
                 next_poem name
               else ret None
           | None => ret None
           end
     end)
    (λ _, ret None).

(** [get_next_poem], with the call of [_get_next_workset] it ends in
    when the workset is finished as [next_workset]. *)
Definition get_next_poem_with (next_workset : M (option poem_info))
    (username : string) (workset : option string) : M (option poem_info) :=
  try_except
    (let workset_path :=
       "coding_result/" +:+ username +:+ "/" +:+ workset_text workset
       +:+ ".csv" in
     workset_df ← download_csv env workset_path;
     match workset_df with
     | None => ret None
     | Some workset_df =>
         getitem "Progress"
           (if Frame.has_column "Progress" workset_df then Some () else None);;
         match first_with_progress "N" workset_df with
         | Some (row_index, poem_row) =>
             poem_url ← row_item "poem_url" workset_df poem_row;
             ret (Some
                    (PoemInfo row_index poem_url
                       (row_get "title" "Unknown Title" workset_df poem_row)
                       (row_get "author" "Unknown Author" workset_df poem_row)
                       workset
                       (length (rows workset_df))
                       (completed_poems workset_df)
                       (row_index + 1)))
         | None =>
             completed ←
               match workset with
               | Some name => _complete_workset env username name
               | None => _complete_workset_nan username
               end;
             if completed then next_workset else ret None
         end
     end)
    (λ _, ret None).

(** [get_next_poem] and [_get_next_workset] call each other; [depth]
    is the number of such rounds the interpreter's stack still has room
    for, and the [RecursionError] of a call too many is caught like any
    other exception. *)
Fixpoint get_next_poem (depth : nat) (username : string)
    (workset : option string) : M (option poem_info) :=
  get_next_poem_with
    (match depth with
     | O => raise "RecursionError"
     | S depth =>
         _get_next_workset_with (get_next_poem depth username) username
     end)
    username workset.

(** [_get_next_workset] *)
Definition _get_next_workset (depth : nat) (username : string)
  : M (option poem_info) :=
  _get_next_workset_with (get_next_poem depth username) username.

(** [_update_progress] *)
Definition _update_progress (username workset : string) (row_index : Z)
  : M unit :=
  try_except
    (let workset_path :=
       "coding_result/" +:+ username +:+ "/" +:+ workset +:+ ".csv" in
     workset_df ← download_csv env workset_path;
     match workset_df with
     | Some workset_df =>
         upload_csv env workset_path (set_progress row_index workset_df);;
         ret tt
     | None => ret tt
     end)
    (λ _, ret tt).

(** [save_annotation] *)
Definition save_annotation (username workset : string) (row_index : Z)
    (annotation_data : json_obj) : M bool :=
  try_except
    (let annotation_path :=
       "annotation/" +:+ username +:+ "/" +:+ workset +:+ "_"
       +:+ pretty row_index +:+ ".json" in
     t ← ticks;
     let annotation_data := with_metadata workset (now env t) annotation_data in
     uploaded ← upload env annotation_path (BlobJson annotation_data);
     if uploaded then
       _update_progress username workset row_index;;
       ret true
     else ret false)
    (λ _, ret false).

End Poems.

(** What [get_next_poem] answers with describes the workset file it
    names in [s]: the poem is the first row whose [Progress] is [N],
    and the counters are those of the file. *)
Definition served (username : string) (p : poem_info) (s : Bucket.store)
  : Prop :=
  ∃ df row,
    Bucket.get (workset_file_path username (workset_text (pi_workset p))) s
    = Some (BlobCsv df)
    ∧ "Progress" ∈ columns df
    ∧ first_with_progress "N" df = Some (pi_row_index p, row)
    ∧ pi_poem_url p = cell "poem_url" row
    ∧ pi_total_poems p = length (rows df)
    ∧ pi_completed_poems p = completed_poems df
    ∧ pi_current_poem_number p = S (pi_row_index p).

(** What [get_user_worksets] answers when the record can be read. *)
Definition recorded_worksets (s : Bucket.store) (username : string)
  : option (list string) :=
  match Bucket.get (record_path username) s ≫= Frame.read_csv with
  | None => None
  | Some df =>
      match List.find (λ col, Str.contains "workset" (Str.lower col))
                      (columns df) with
      | None => None
      | Some workset_col =>
          Some (Frame.unique (Frame.dropna (column workset_col df)))
      end
  end.

(** ** Requests of several workers at the same time

    The workers are separate sessions on one bucket, so the bucket
    calls of their requests interleave.  A request is followed here
    from one call of a method of the assigner to the next: a [stage]
    names the call that comes next and carries the local variables of
    [request_new_workset] and of [_complete_workset_assignment] that
    are live there.  [passes] is the number of passes of the loop that
    are left after the current one. *)
Inductive stage :=
| AtPending
| AtFind (passes : nat)
| AtAcquire (passes : nat) (available_workset : string)
| AtRecheck (passes : nat) (available_workset : string)
| AtCompleted (passes : nat) (available_workset : string)
| AtCount (passes : nat) (available_workset : string)
| AtIncrement (passes : nat) (available_workset : string) (current_usage : Z)
| AtRecord (passes : nat) (available_workset : string)
| AtRelease (passes : nat) (available_workset : string) (outcome : flow)
| Done (answer : option string).

Section Stages.

Variable env : environment.
Variable username : string.

(** The head of the loop: [for attempt in range(max_attempts)]. *)
Definition next_pass (passes : nat) : stage :=
  match passes with
  | O => Done None
  | S passes => AtFind passes
  end.

(** Lines 352-363 of [_complete_workset_assignment]: the row in the
    worker's record, the workset file and the log, with the rollbacks. *)
Definition commit_tail (workset_name : string) : M bool :=
  added ← _add_workset_to_user_record env username workset_name;
  if negb added then
    _rollback_usage_statistics env workset_name;;
    ret false
  else
    created ← create_workset_file env username workset_name;
    if negb created then
      _rollback_usage_statistics env workset_name;;
      _remove_workset_from_user_record env username workset_name;;
      ret false
    else
      _log_assignment env username workset_name;;
      ret true.

(** The next call of the request, and the stage it leads to. *)
Definition advance (s : stage) : M stage :=
  match s with
  | AtPending =>
      pending ← _has_pending_worksets env username;
      ret (if pending then Done None else next_pass 5)
  | AtFind passes =>
      available_workset ← _find_available_workset env username;
      ret (match available_workset with
           | None => Done None
           | Some available_workset => AtAcquire passes available_workset
           end)
  | AtAcquire passes k =>
      locked ← _try_acquire_workset_lock env k username;
      ret (if locked then AtRecheck passes k else next_pass passes)
  | AtRecheck passes k =>
      still ← _is_workset_still_available env k;
      ret (if still then AtCompleted passes k else AtRelease passes k Continue)
  | AtCompleted passes k =>
      completed ← _has_completed_workset env username k;
      ret (if completed then AtRelease passes k Continue else AtCount passes k)
  | AtCount passes k =>
      current_usage ← _get_real_time_usage_count env k;
      ret (if current_usage >=? 3 then AtRelease passes k Continue
           else AtIncrement passes k current_usage)
  | AtIncrement passes k current_usage =>
      updated ← _update_usage_statistics_safely env k current_usage;
      ret (if negb updated then AtRelease passes k Continue
           else AtRecord passes k)
  | AtRecord passes k =>
      assigned ← commit_tail k;
      ret (AtRelease passes k (if assigned then Return (Some k) else Continue))
  | AtRelease passes k outcome =>
      _release_workset_lock env k username;;
      ret (match outcome with
           | Return v => Done v
           | Continue => next_pass passes
           end)
  | Done answer => ret (Done answer)
  end.

(** A request that runs alone, from one stage to a later one. *)
Inductive runs : stage → world → stage → world → Prop :=
| runs_here s w : runs s w s w
| runs_next s w s' w' s'' w'' :
    advance s w = (Ok s', w') →
    runs s' w' s'' w'' →
    runs s w s'' w''.

End Stages.

(** The requests in flight, each at its stage, and the bucket they
    share.  A worker without an entry is about to call
    [request_new_workset]. *)
Record system := System {
  stages : gmap string stage;
  shared : world
}.

Definition stage_of (σ : system) (username : string) : stage :=
  default AtPending (stages σ !! username).

Definition arriving (w : world) : system := System ∅ w.

(** The request of [username] makes its next call.  No stage raises
    (lemma [advance_total]); were one to, the request would be over. *)
Definition move (env : environment) (σ : system) (username : string)
  : system :=
  match advance env username (stage_of σ username) (shared σ) with
  | (Ok s, w) => System (<[username := s]> (stages σ)) w
  | (Raised _, w) => System (<[username := Done None]> (stages σ)) w
  end.

(** The requests advance in the order the schedule names the workers. *)
Definition interleave (env : environment) (schedule : list string)
    (σ : system) : system :=
  foldl (move env) σ schedule.

(** ** Claim C2 as stated *)

(** The statuses of the rows for workset [k] in the worker's record;
    none when there is no record that reads as a table. *)
Definition rows_for (s : Bucket.store) (username k : string)
  : list (option string) :=
  match Bucket.get (record_path username) s ≫= Frame.read_csv with
  | Some df => statuses_for k df
  | None => []
  end.

(** Claim C2 as stated, for one request: when the worker's record has
    a [completed] row for [k], the request does not return [k] and the
    record has afterwards the rows for [k] it had. *)
Definition never_reassigned (env : environment) (username k : string)
    (w : world) : Prop :=
  let run := request_new_workset env username w in
  completed (blobs w) username k = true →
  run.1 ≠ Ok (Some k)
  ∧ rows_for (blobs run.2) username k = rows_for (blobs w) username k.

(** ** Stores, buckets and schedules on which claims fail *)

Module Incident.

(** A bucket whose first call raises and which works from then on. *)
Definition env_first_call_fails : environment :=
  Env true
      (λ n _, if (n =? 0)%nat then Some "503 Service Unavailable" else None)
      (λ _, "2024-05-01T10:00:00.000000") (λ _, "2024-05-01T10:02:00.000000")
      (λ _, "1700000000000") (λ _, "12345").

(** Worker eve has workset_001 to do; ann and bob have completed it,
    and the ledger counts the three. *)
Definition eve_busy : world :=
  World [(record_path "ann", Example.record_of "workset_001" "completed");
         (record_path "bob", Example.record_of "workset_001" "completed");
         (record_path "eve", Example.record_of "workset_001" "not_started");
         (usage_stats_path, Example.ledger_of {[ "workset_001" := 3 ]});
         ("workset/dataset_001.csv", Example.dataset);
         ("workset/dataset_002.csv", Example.dataset)]
        [].

(** A bucket on which the exists calls on ann's record raise during
    the first sixteen bucket calls, and which works otherwise. *)
Definition env_record_outage : environment :=
  Env true
      (λ n o, match o with
              | OpExists p =>
                  if String.eqb p (record_path "ann") && (n <? 16)%nat
                  then Some "503 Service Unavailable" else None
              | _ => None
              end)
      (λ _, "2024-05-01T10:00:00.000000") (λ _, "2024-05-01T10:02:00.000000")
      (λ _, "1700000000000") (λ _, "12345").

(** Worker ann has completed workset_001, which she alone holds. *)
Definition ann_done : world :=
  World [(record_path "ann", Example.record_of "workset_001" "completed");
         (usage_stats_path, Example.ledger_of {[ "workset_001" := 1 ]});
         ("workset/dataset_001.csv", Example.dataset);
         ("workset/dataset_002.csv", Example.dataset)]
        [].

(** Workers ann and bob hold workset_001 and the ledger counts one of
    them, as after an assignment made on the admin page, which writes
    the worker's record and leaves the ledger alone. *)
Definition ledger_behind : world :=
  World [(record_path "ann", Example.record_of "workset_001" "completed");
         (record_path "bob", Example.record_of "workset_001" "completed");
         (usage_stats_path, Example.ledger_of {[ "workset_001" := 1 ]});
         ("workset/dataset_001.csv", Example.dataset)]
        [].

(** Workers cat and dan request at the same time.  Each gets as far
    as the real-time count (six calls: the pending check, the scan, the
    lock, the second look at the ledger, the completed check, the
    count); then each increments the ledger; then each writes its
    record and its workset file and releases the lock. *)
Definition both_counted : list string :=
  ["cat"; "cat"; "cat"; "cat"; "cat"; "cat";
   "dan"; "dan"; "dan"; "dan"; "dan"; "dan"].

Definition two_at_once : list string :=
  both_counted ++ ["cat"; "dan"] ++ ["cat"; "cat"; "dan"; "dan"].

(** A bucket with nothing but the dataset of the first workset, and
    four workers who request at the same time, in the same way. *)
Definition first_day : world :=
  World [("workset/dataset_001.csv", Example.dataset)] [].

Definition all_counted : list string :=
  ["cat"; "cat"; "cat"; "cat"; "cat"; "cat";
   "dan"; "dan"; "dan"; "dan"; "dan"; "dan";
   "eli"; "eli"; "eli"; "eli"; "eli"; "eli";
   "fay"; "fay"; "fay"; "fay"; "fay"; "fay"].

Definition four_at_once : list string :=
  all_counted ++ ["cat"; "dan"; "eli"; "fay"]
  ++ ["cat"; "cat"; "dan"; "dan"; "eli"; "eli"; "fay"; "fay"].

End Incident.

(** * Properties *)

(** ** The settle phase (claim C3) *)

Section Settle.

Import Competition.

Local Notation "a ⪯ b" := (String.leb (key a) (key b) = true) (at level 70).

Lemma leb_refl s : String.leb s s = true.
Proof.
  assert (H : (s ≤ s)%string) by reflexivity.
  unfold String.le in H. by destruct (String.leb s s).
Qed.

Lemma leb_trans s1 s2 s3 :
  String.leb s1 s2 = true → String.leb s2 s3 = true → String.leb s1 s3 = true.
Proof.
  intros H1 H2.
  assert (H : (s1 ≤ s3)%string).
  { transitivity s2; unfold String.le; [by rewrite H1 | by rewrite H2]. }
  unfold String.le in H. by destruct (String.leb s1 s3).
Qed.

Lemma leb_false_le s1 s2 :
  String.leb s1 s2 = false → String.leb s2 s1 = true.
Proof. intros H. destruct (String.leb_total s1 s2); congruence. Qed.

Lemma insert_head c l :
  insert c l = match l with
               | [] => [c]
               | d :: l' => if String.leb (key c) (key d) then c :: l
                            else d :: insert c l'
               end.
Proof. by destruct l. Qed.

Lemma sorted_head l :
  l ≠ [] → ∃ m rest, sorted l = m :: rest ∧ earliest l m.
Proof.
  induction l as [|c l IH]; [done|]. intros _.
  destruct l as [|d l'].
  { exists c, []. split; [done|].
    apply (earliest_intro [] c []); intros ? H; by apply elem_of_nil in H. }
  destruct IH as (m & rest & Hs & He); [done|].
  change (sorted (c :: d :: l')) with (insert c (sorted (d :: l'))).
  rewrite Hs. simpl.
  destruct (String.leb (key c) (key m)) eqn:Hc.
  - exists c, (m :: rest). split; [done|].
    apply (earliest_intro [] c (d :: l')).
    + intros ? H; by apply elem_of_nil in H.
    + intros x Hx. inversion He as [before m' after Hb Ha Heq]; subst.
      rewrite <- Heq in Hx.
      apply elem_of_app in Hx as [Hx|Hx].
      * apply leb_trans with (key m); [done|].
        apply leb_false_le. by apply Hb.
      * apply elem_of_cons in Hx as [->|Hx]; [done|].
        apply leb_trans with (key m); [done|by apply Ha].
  - exists m, (insert c rest). split; [done|].
    inversion He as [before m' after Hb Ha Heq]; subst.
    apply (earliest_intro (c :: before) m after); [|done].
    intros x Hx. apply elem_of_cons in Hx as [->|Hx]; [done|by apply Hb].
Qed.

Lemma first_least_unique b1 m1 a1 b2 m2 a2 :
  b1 ++ m1 :: a1 = b2 ++ m2 :: a2 →
  (∀ c, c ∈ b1 → String.leb (key c) (key m1) = false) →
  (∀ c, c ∈ a1 → m1 ⪯ c) →
  (∀ c, c ∈ b2 → String.leb (key c) (key m2) = false) →
  (∀ c, c ∈ a2 → m2 ⪯ c) →
  m1 = m2.
Proof.
  revert b2. induction b1 as [|x b1 IH]; intros [|y b2] E Hb1 Ha1 Hb2 Ha2;
    simpl in E.
  - by injection E.
  - injection E as <- ->.
    specialize (Hb2 m1 (list_elem_of_here _ _)).
    assert (m2 ∈ b2 ++ m2 :: a2) as Hin by (apply elem_of_app; right; left).
    specialize (Ha1 m2 Hin). congruence.
  - injection E as -> <-.
    specialize (Hb1 m2 (list_elem_of_here _ _)).
    assert (m1 ∈ b1 ++ m1 :: a1) as Hin by (apply elem_of_app; right; left).
    specialize (Ha2 m1 Hin). congruence.
  - injection E as -> E.
    apply (IH b2); [done| |done| |done].
    + intros c Hc. apply Hb1. by right.
    + intros c Hc. apply Hb2. by right.
Qed.

Lemma earliest_unique l m1 m2 : earliest l m1 → earliest l m2 → m1 = m2.
Proof.
  intros H1 H2.
  destruct H1 as [b1 m1 a1 Hb1 Ha1].
  remember (b1 ++ m1 :: a1) as l eqn:El.
  destruct H2 as [b2 m2 a2 Hb2 Ha2].
  by eapply first_least_unique.
Qed.

Lemma ltb_leb_false s1 s2 :
  String.ltb s1 s2 = true ↔ String.leb s2 s1 = false.
Proof.
  unfold String.ltb, String.leb. rewrite (String.compare_antisym s2 s1).
  destruct (String.compare s1 s2); simpl; split; congruence.
Qed.

Lemma key_error_false l :
  (∀ c, c ∈ l → c_timestamp c ≠ None) → key_error l = false.
Proof.
  intros H. unfold key_error. apply andb_false_iff. right.
  apply not_true_is_false. intros [c [Hc Hn]]%existsb_exists.
  apply bool_decide_eq_true in Hn. apply (H c); [|done].
  by apply list_elem_of_In.
Qed.

(** Claim C3, as the code has it.  Provided every entry carries a
    timestamp, the requester is declared winner exactly when its own
    entry is the first, in listing order, of the entries with the least
    timestamp: every entry listed before it is strictly later, every
    entry listed after it is not earlier.  The competitor id is never
    compared; entries with equal timestamps keep their listing order. *)
Theorem settle_first_listed_earliest competitors username competition_id :
  (∀ c, c ∈ competitors → c_timestamp c ≠ None) →
  settle competitors username competition_id = Some true ↔
  ∃ before own after,
    competitors = before ++ own :: after
    ∧ SettleSpec.is_own username competition_id own
    ∧ (∀ c, c ∈ before → String.ltb (key own) (key c) = true)
    ∧ (∀ c, c ∈ after → String.leb (key own) (key c) = true).
Proof.
  intros Hts. unfold settle.
  destruct competitors as [|c0 l0].
  { split; [done|]. intros (b & o & a & E & _). by destruct b. }
  rewrite (key_error_false _ Hts).
  destruct (sorted_head (c0 :: l0)) as (m & rest & Hs & He); [done|].
  rewrite Hs. split.
  - intros [= [Ho Hc]%andb_true_iff].
    apply bool_decide_eq_true in Ho, Hc.
    inversion He as [before m' after Hb Ha Heq]; subst m'.
    exists before, m, after. repeat split; [done|done| |done].
    intros c Hin. apply ltb_leb_false. by apply Hb.
  - intros (before & own & after & E & [Ho Hc] & Hb & Ha).
    assert (earliest (c0 :: l0) own) as He'.
    { rewrite E. constructor; [|done].
      intros c Hin. apply ltb_leb_false. by apply Hb. }
    rewrite (earliest_unique _ _ _ He He').
    f_equal. apply andb_true_iff. split; by apply bool_decide_eq_true.
Qed.

Lemma settle_first_listed_earliest_witness :
  (∀ c, c ∈ [tie_first; tie_second] → c_timestamp c ≠ None)
  ∧ (settle [tie_first; tie_second] "al_1700000000000_10000-x"
       "al_1700000000000_10000-x_1700000000000_10000" = Some true ↔
     ∃ before own after,
       [tie_first; tie_second] = before ++ own :: after
       ∧ SettleSpec.is_own "al_1700000000000_10000-x"
           "al_1700000000000_10000-x_1700000000000_10000" own
       ∧ (∀ c, c ∈ before → String.ltb (key own) (key c) = true)
       ∧ (∀ c, c ∈ after → String.leb (key own) (key c) = true)).
Proof.
  assert (∀ c, c ∈ [tie_first; tie_second] → c_timestamp c ≠ None) as H.
  { intros c Hc. apply elem_of_cons in Hc as [->|Hc]; [done|].
    apply elem_of_cons in Hc as [->|Hc]; [done|]. by apply elem_of_nil in Hc. }
  split; [exact H|].
  exact (settle_first_listed_earliest [tie_first; tie_second] _ _ H).
Defined.

(** Claim C3 as stated fails: the two entries carry the same timestamp;
    the requester "al" holds the lexicographically smaller competitor
    id, so its entry is the minimum of the stated order, yet the entry
    listed first is declared the winner. *)
Lemma settle_tie_ignores_competitor_id :
  ¬ (settle [tie_first; tie_second] "al" "al_1700000000000_10000" = Some true
     ↔ SettleSpec.own_is_minimum [tie_first; tie_second]
         "al" "al_1700000000000_10000").
Proof.
  intros [_ H].
  assert (settle [tie_first; tie_second] "al" "al_1700000000000_10000"
          = Some false) as Hs by (by vm_compute).
  rewrite Hs in H. assert (Some false = Some true); [|done].
  apply H. exists tie_second. split; [right; left|]. split; [done|].
  intros c Hc. apply elem_of_cons in Hc as [->|Hc]; [by vm_compute|].
  apply elem_of_cons in Hc as [->|Hc]; [by vm_compute|].
  by apply elem_of_nil in Hc.
Qed.

End Settle.

(** ** Rules for computations *)

Section Rules.

Context {A B : Type}.

Lemma wp_mono (m : M A) w (Q Q' : result A → world → Prop) :
  wp m w Q → (∀ r w', Q r w' → Q' r w') → wp m w Q'.
Proof. unfold wp. auto. Qed.

Lemma returns_mono (m : M A) w (Q Q' : A → world → Prop) :
  returns m w Q → (∀ a w', Q a w' → Q' a w') → returns m w Q'.
Proof. unfold returns, wp. destruct (m w).1; auto. Qed.

Lemma returns_wp (m : M A) w (Q : A → world → Prop) (Q' : result A → world → Prop) :
  returns m w Q → (∀ a w', Q a w' → Q' (Ok a) w') → wp m w Q'.
Proof. unfold returns, wp. destruct (m w).1; [auto|done]. Qed.

Lemma returns_run (m : M A) w (Q : A → world → Prop) :
  returns m w Q → ∃ a w', m w = (Ok a, w') ∧ Q a w'.
Proof.
  unfold returns, wp. destruct (m w) as [[a|e] w'] eqn:E; simpl; [|done].
  intros H. by exists a, w'.
Qed.

Lemma run_returns (m : M A) w a w' (Q : A → world → Prop) :
  m w = (Ok a, w') → returns m w Q → Q a w'.
Proof. unfold returns, wp. by intros ->. Qed.

Lemma returns_ret (a : A) w (Q : A → world → Prop) : Q a w → returns (ret a) w Q.
Proof. done. Qed.

Lemma wp_ret (a : A) w (Q : result A → world → Prop) : Q (Ok a) w → wp (ret a) w Q.
Proof. done. Qed.

Lemma wp_raise e w (Q : result A → world → Prop) : Q (Raised e) w → wp (raise e) w Q.
Proof. done. Qed.

Lemma wp_bind (m : M A) (k : A → M B) w (Q : result B → world → Prop) :
  wp m w (λ r w', match r with
                  | Ok a => wp (k a) w' Q
                  | Raised e => Q (Raised e) w'
                  end) →
  wp (bind m k) w Q.
Proof. unfold wp, bind. by destruct (m w).1. Qed.

Lemma returns_bind (m : M A) (k : A → M B) w (Q : B → world → Prop) :
  returns m w (λ a w', returns (k a) w' Q) → returns (bind m k) w Q.
Proof. unfold returns, wp, bind. by destruct (m w).1. Qed.

Lemma wp_bind_returns (m : M A) (k : A → M B) w (Q : result B → world → Prop) :
  returns m w (λ a w', wp (k a) w' Q) → wp (bind m k) w Q.
Proof. unfold returns, wp, bind. by destruct (m w).1. Qed.

Lemma returns_try_except (body : M A) h w (Q : A → world → Prop) :
  wp body w (λ r w', match r with
                     | Ok a => Q a w'
                     | Raised e => returns (h e) w' Q
                     end) →
  returns (try_except body h) w Q.
Proof. unfold returns, wp, try_except. by destruct (body w).1. Qed.

Lemma returns_try_except_total (body : M A) h w (Q : A → world → Prop) :
  returns body w Q → returns (try_except body h) w Q.
Proof. unfold returns, wp, try_except. by destruct (body w).1. Qed.

Lemma returns_try_finally (body : M A) (final : M B) w (Q : A → world → Prop) :
  returns body w (λ a w', returns final w' (λ _ w'', Q a w'')) →
  returns (try_finally body final) w Q.
Proof.
  unfold returns, wp, try_finally.
  destruct (body w).1; [|done]. by destruct (final (body w).2).1.
Qed.

Lemma returns_peek (f : Bucket.store → A) w (Q : A → world → Prop) :
  Q (f (blobs w)) w → returns (peek f) w Q.
Proof. done. Qed.

Lemma wp_getitem key (o : option A) w (Q : result A → world → Prop) :
  match o with
  | Some a => Q (Ok a) w
  | None => Q (Raised ("KeyError: " +:+ key)) w
  end →
  wp (getitem key o) w Q.
Proof. by destruct o. Qed.

End Rules.

Lemma returns_ticks w (Q : nat → world → Prop) :
  Q (length (trace w)) w → returns ticks w Q.
Proof. done. Qed.

Lemma returns_for_each {A S} (I : S → world → Prop) (l : list A)
    (body : A → S → M S) acc w :
  I acc w →
  (∀ x acc w, x ∈ l → I acc w → returns (body x acc) w I) →
  returns (for_each l body acc) w I.
Proof.
  revert acc w. induction l as [|x l IH]; intros acc w HI Hbody; [done|].
  simpl. apply returns_bind.
  eapply returns_mono; [apply Hbody; [left|done]|].
  intros acc' w' HI'. apply IH; [done|].
  intros y acc'' w'' Hy. apply Hbody. by right.
Qed.

Lemma extends_refl P w : extends P w w.
Proof. exists []. by rewrite app_nil_r. Qed.

Lemma extends_trans P w1 w2 w3 :
  extends P w1 w2 → extends P w2 w3 → extends P w1 w3.
Proof.
  intros (t1 & E1 & F1) (t2 & E2 & F2). exists (t1 ++ t2).
  split; [by rewrite E2, E1, app_assoc|by apply Forall_app].
Qed.

Lemma extends_weaken (P P' : op * bool → Prop) w w' :
  (∀ ev, P ev → P' ev) → extends P w w' → extends P' w w'.
Proof.
  intros HP (t & E & F). exists t. split; [done|].
  eapply Forall_impl; eauto.
Qed.

Lemma returns_and {A} (m : M A) w (Q1 Q2 : A → world → Prop) :
  returns m w Q1 → returns m w Q2 → returns m w (λ a w', Q1 a w' ∧ Q2 a w').
Proof. unfold returns, wp. by destruct (m w).1. Qed.

Lemma closed_weaken (N N' : string → Prop) I :
  (∀ n, N' n → N n) → closed N I → closed N' I.
Proof. intros HN HI w o Ho. apply HI. auto. Qed.

Lemma closed_blobs w0 : closed (λ _, False) (λ w, blobs w = blobs w0).
Proof.
  intros w o Ho Hw. split; [done|]. simpl.
  destruct o; simpl; try done; by destruct (Ho name).
Qed.

Lemma closed_stable J : stable J → closed private (λ w, J (blobs w)).
Proof.
  intros HJ w o Ho Hw. split; [done|]. simpl.
  destruct o; simpl; try done.
  - by apply (HJ (blobs w) name (Ho _ eq_refl)).
  - by apply (HJ (blobs w) name (Ho _ eq_refl)).
Qed.

Lemma closed_extends (N : string → Prop) (P : op * bool → Prop) w0 :
  (∀ o ok, (∀ n, written o = Some n → N n) → P (o, ok)) →
  closed N (extends P w0).
Proof.
  intros HP w o Ho (t & E & F).
  split; [exists (t ++ [(o, false)])|exists (t ++ [(o, true)])]; simpl;
    (split; [by rewrite E, app_assoc|]); apply Forall_app; auto.
Qed.

Lemma closed_and N (I1 I2 : world → Prop) :
  closed N I1 → closed N I2 → closed N (λ w, I1 w ∧ I2 w).
Proof.
  intros H1 H2 w o Ho [Hw1 Hw2].
  destruct (H1 w o Ho Hw1), (H2 w o Ho Hw2). auto.
Qed.

(** ** Names *)

Lemma prefix_empty s : String.prefix "" s = true.
Proof. by destruct s. Qed.

Lemma starts_with_app pre s : Str.starts_with pre (pre +:+ s) = true.
Proof.
  unfold Str.starts_with. induction pre as [|a pre IH]; [apply prefix_empty|].
  simpl. by destruct (Ascii.ascii_dec a a).
Qed.

(** ** The storage wrappers *)

Section Storage.

Variable env : environment.

Lemma wp_call o w (Q : result unit → world → Prop) :
  match raises env (length (trace w)) o with
  | Some e => Q (Raised e) (World (blobs w) (trace w ++ [(o, false)]))
  | None => Q (Ok ()) (World (Bucket.effect o (blobs w)) (trace w ++ [(o, true)]))
  end →
  wp (call env o) w Q.
Proof. unfold wp, call. by destruct (raises env _ o). Qed.

Lemma call_inv N I o w :
  closed N I → (∀ n, written o = Some n → N n) → I w →
  wp (call env o) w (λ _ w', I w').
Proof.
  intros HI Ho Hw. apply wp_call.
  destruct (HI w o Ho Hw). by destruct (raises env _ o).
Qed.

(** *** [download] *)

Lemma fb_download_inv N I p w :
  closed N I → I w → returns (fb_download env p) w (λ _ w', I w').
Proof.
  intros HI Hw. unfold fb_download.
  destruct (initialized env); simpl; [|done].
  apply returns_try_except, wp_bind.
  eapply wp_mono; [by apply (call_inv N I)|]. intros [[]|e] w1 H1; [|done].
  apply wp_bind_returns, returns_peek.
  destruct (Bucket.get p (blobs w1)); [|done].
  apply wp_bind. eapply wp_mono; [by apply (call_inv N I)|].
  by intros [[]|e] w2 H2.
Qed.

Lemma fb_download_val p w :
  returns (fb_download env p) w
    (λ o w', blobs w' = blobs w ∧ (o = None ∨ o = Bucket.get p (blobs w))).
Proof.
  unfold returns, wp, fb_download, try_except, bind, call, peek, ret.
  destruct (initialized env); simpl; [|auto].
  destruct (raises env _ (OpExists p)); simpl; [auto|].
  destruct (Bucket.get p (blobs w)); simpl; [|auto].
  destruct (raises env _ (OpDownload p)); simpl; auto.
Qed.

Lemma fb_download_exact p w :
  initialized env = true → read_ok env p →
  returns (fb_download env p) w
    (λ o w', blobs w' = blobs w ∧ o = Bucket.get p (blobs w)).
Proof.
  intros Hi Hr.
  unfold returns, wp, fb_download, try_except, bind, call, peek, ret.
  rewrite Hi; simpl. rewrite (proj1 (Hr _)); simpl.
  destruct (Bucket.get p (blobs w)); simpl; [|auto].
  by rewrite (proj2 (Hr _)).
Qed.

Lemma download_json_inv N I p w :
  closed N I → I w → returns (download_json env p) w (λ _ w', I w').
Proof.
  intros HI Hw. unfold download_json. apply returns_bind.
  eapply returns_mono; [by apply (fb_download_inv N I)|].
  intros [b|] w' Hw'; by apply returns_ret.
Qed.

Lemma download_json_val p w :
  returns (download_json env p) w
    (λ o w', blobs w' = blobs w
             ∧ (o = None ∨ o = Bucket.get p (blobs w) ≫= JsonObj.loads)).
Proof.
  unfold download_json. apply returns_bind.
  eapply returns_mono; [apply fb_download_val|].
  intros o w' [Hb [->| ->]]; [by apply returns_ret; auto|].
  destruct (Bucket.get p (blobs w)); apply returns_ret; auto.
Qed.

Lemma download_json_exact p w :
  initialized env = true → read_ok env p →
  returns (download_json env p) w
    (λ o w', blobs w' = blobs w ∧ o = Bucket.get p (blobs w) ≫= JsonObj.loads).
Proof.
  intros Hi Hr. unfold download_json. apply returns_bind.
  eapply returns_mono; [by apply fb_download_exact|].
  intros o w' [Hb ->].
  destruct (Bucket.get p (blobs w)); by apply returns_ret.
Qed.

Lemma download_csv_inv N I p w :
  closed N I → I w → returns (download_csv env p) w (λ _ w', I w').
Proof.
  intros HI Hw. unfold download_csv, download. apply returns_bind.
  eapply returns_mono; [by apply (fb_download_inv N I)|].
  intros [b|] w' Hw'; by apply returns_ret.
Qed.

Lemma download_csv_val p w :
  returns (download_csv env p) w
    (λ o w', blobs w' = blobs w
             ∧ (o = None ∨ o = Bucket.get p (blobs w) ≫= Frame.read_csv)).
Proof.
  unfold download_csv, download. apply returns_bind.
  eapply returns_mono; [apply fb_download_val|].
  intros o w' [Hb [->| ->]]; [by apply returns_ret; auto|].
  destruct (Bucket.get p (blobs w)); apply returns_ret; auto.
Qed.

Lemma download_csv_exact p w :
  initialized env = true → read_ok env p →
  returns (download_csv env p) w
    (λ o w', blobs w' = blobs w ∧ o = Bucket.get p (blobs w) ≫= Frame.read_csv).
Proof.
  intros Hi Hr. unfold download_csv, download. apply returns_bind.
  eapply returns_mono; [by apply fb_download_exact|].
  intros o w' [Hb ->].
  destruct (Bucket.get p (blobs w)); by apply returns_ret.
Qed.

(** *** [upload] *)

Lemma fb_upload_inv (N : string → Prop) I p b w :
  closed N I → N p → I w → returns (fb_upload env p b) w (λ _ w', I w').
Proof.
  intros HI Hp Hw. unfold fb_upload.
  destruct (initialized env); simpl; [|done].
  apply returns_try_except, wp_bind.
  eapply wp_mono; [apply (call_inv N I); [done| |done]|].
  { by intros n [= <-]. }
  intros [[]|e] w1 H1; [|done].
  apply wp_bind. eapply wp_mono; [by apply (call_inv N I)|].
  by intros [[]|e] w2 H2.
Qed.

Lemma fb_upload_val p b w :
  returns (fb_upload env p b) w
    (λ ok w', (ok = true → blobs w' = Bucket.put p b (blobs w))
              ∧ (blobs w' = blobs w ∨ blobs w' = Bucket.put p b (blobs w))).
Proof.
  unfold returns, wp, fb_upload, try_except, bind, call, ret.
  destruct (initialized env); simpl; [|split; [done|by left]].
  destruct (raises env _ (OpUpload p b)); simpl; [split; [done|by left]|].
  destruct (raises env _ (OpPatch p)); simpl; split; auto; done.
Qed.

Lemma fb_upload_exact p b w :
  initialized env = true → write_ok env p →
  returns (fb_upload env p b) w
    (λ ok w', ok = true ∧ blobs w' = Bucket.put p b (blobs w)).
Proof.
  intros Hi Hw.
  unfold returns, wp, fb_upload, try_except, bind, call, ret.
  rewrite Hi; simpl. rewrite (proj1 (Hw _)); simpl.
  by rewrite (proj2 (Hw _)).
Qed.

Lemma upload_spec p b w :
  returns (upload env p b) w
    (λ ok w', (blobs w' = blobs w ∨ blobs w' = Bucket.put p b (blobs w))
              ∧ (ok = true → blobs w' = Bucket.put p b (blobs w))
              ∧ (initialized env = true → write_ok env p →
                 ok = true ∧ blobs w' = Bucket.put p b (blobs w))).
Proof.
  unfold returns, wp, upload, fb_upload, try_except, bind, call, ret.
  destruct (initialized env); simpl;
    [|split; [by left|split; [done|by intros [=]]]].
  destruct (raises env _ (OpUpload p b)) eqn:E1; simpl.
  { split; [by left|]. split; [done|]. intros _ Hw.
    rewrite (proj1 (Hw _)) in E1. done. }
  destruct (raises env _ (OpPatch p)) eqn:E2; simpl.
  { split; [by right|]. split; [done|]. intros _ Hw.
    rewrite (proj2 (Hw _)) in E2. done. }
  auto.
Qed.

Lemma fb_upload_refused p b w :
  (∀ n c, raises env n (OpUpload p c) ≠ None) →
  returns (fb_upload env p b) w (λ ok w', ok = false ∧ blobs w' = blobs w).
Proof.
  intros Hf.
  unfold returns, wp, fb_upload, try_except, bind, call, ret.
  destruct (initialized env); simpl; [|auto].
  destruct (raises env _ (OpUpload p b)) eqn:E; simpl; [auto|].
  by destruct (Hf _ _ E).
Qed.

Lemma upload_csv_inv (N : string → Prop) I p df w :
  closed N I → N p → I w → returns (upload_csv env p df) w (λ _ w', I w').
Proof. intros. by apply returns_try_except_total, (fb_upload_inv N). Qed.

Lemma upload_csv_val p df w :
  returns (upload_csv env p df) w
    (λ ok w', (ok = true → blobs w' = Bucket.put p (BlobCsv df) (blobs w))
              ∧ (blobs w' = blobs w
                 ∨ blobs w' = Bucket.put p (BlobCsv df) (blobs w))).
Proof. apply returns_try_except_total, fb_upload_val. Qed.

Lemma upload_csv_exact p df w :
  initialized env = true → write_ok env p →
  returns (upload_csv env p df) w
    (λ ok w', ok = true ∧ blobs w' = Bucket.put p (BlobCsv df) (blobs w)).
Proof. intros. by apply returns_try_except_total, fb_upload_exact. Qed.

Lemma upload_csv_refused p df w :
  (∀ n c, raises env n (OpUpload p c) ≠ None) →
  returns (upload_csv env p df) w (λ ok w', ok = false ∧ blobs w' = blobs w).
Proof. intros. by apply returns_try_except_total, fb_upload_refused. Qed.

(** *** [list_files] and [delete_file] *)

Lemma list_files_inv N I folder w :
  closed N I → I w → returns (list_files env folder) w (λ _ w', I w').
Proof.
  intros HI Hw. unfold list_files, fb_list_files.
  destruct (initialized env); simpl; [|done].
  apply returns_try_except, wp_bind.
  eapply wp_mono; [by apply (call_inv N I)|]. by intros [[]|e] w1 H1.
Qed.

Lemma list_files_val folder w :
  returns (list_files env folder) w
    (λ l w', blobs w' = blobs w ∧ (l = [] ∨ l = listed folder (blobs w))).
Proof.
  unfold returns, wp, list_files, fb_list_files, try_except, bind, call, peek,
    ret, listed.
  destruct (initialized env); simpl; [|auto].
  destruct (raises env _ (OpList _)); simpl; auto.
Qed.

Lemma list_files_exact folder w :
  initialized env = true → Str.ends_with folder "/" = true →
  list_ok env folder →
  returns (list_files env folder) w
    (λ l w', blobs w' = blobs w ∧ l = listed folder (blobs w)).
Proof.
  intros Hi Hs Hl.
  unfold returns, wp, list_files, fb_list_files, try_except, bind, call, peek,
    ret, listed.
  rewrite Hi, Hs, andb_false_r; simpl. by rewrite Hl.
Qed.

Lemma listed_starts_with folder s n :
  Str.ends_with folder "/" = true → n ∈ listed folder s →
  Str.starts_with folder n = true.
Proof.
  intros Hs. unfold listed. rewrite Hs, andb_false_r.
  intros [_ H]%list_elem_of_filter. unfold Bucket.names in H.
  by apply list_elem_of_filter in H as [H _].
Qed.

Lemma delete_file_inv (N : string → Prop) I p w :
  closed N I → N p → I w → returns (delete_file env p) w (λ _ w', I w').
Proof.
  intros HI Hp Hw. unfold delete_file, fb_delete.
  destruct (initialized env); simpl; [|done].
  apply returns_try_except, wp_bind_returns, returns_peek, wp_bind.
  eapply wp_mono; [apply (call_inv N I); [done| |done]|].
  { by intros n [= <-]. }
  intros [[]|e] w1 H1; [|done]. by destruct (Bucket.get p (blobs w)).
Qed.

End Storage.

(** ** The pending-work check when the record can be read *)

Lemma existsb_is_pending (df : dataframe) :
  (∃ r, r ∈ rows df ∧ is_pending (status r) = true) →
  existsb is_pending (status <$> rows df) = true.
Proof.
  intros (r & Hr & Hp). apply existsb_exists. exists (status r).
  split; [|done]. apply list_elem_of_In, list_elem_of_fmap. eauto.
Qed.

(** When the worker's Task Record holds a row whose status is
    [not_started] or [in_progress], and the two calls that read the
    record go through, [request_new_workset] returns no assignment at
    once: the only bucket calls it makes are those two, so it lists
    nothing, reads neither the ledger nor a lock, and leaves every blob
    as it was.  When the read raises the request goes on, as the
    section on a record that cannot be read shows. *)
Theorem request_with_pending_work_fails_fast env username w df :
  initialized env = true →
  read_ok env (record_path username) →
  Bucket.get (record_path username) (blobs w) = Some (BlobCsv df) →
  "status" ∈ columns df →
  (∃ r, r ∈ rows df ∧ is_pending (status r) = true) →
  request_new_workset env username w
  = (Ok None,
     World (blobs w)
           (trace w ++ [(OpExists (record_path username), true);
                        (OpDownload (record_path username), true)])).
Proof.
  intros Hi Hr Hget Hcol Hrow.
  pose proof (existsb_is_pending df Hrow) as Hex.
  assert (Frame.read_csv (BlobCsv df) = Some df) as Hread.
  { simpl. destruct (columns df); [by apply elem_of_nil in Hcol|done]. }
  assert (Frame.empty df = false) as Hne.
  { unfold Frame.empty. destruct Hrow as (r & Hin & _).
    destruct (rows df); [by apply elem_of_nil in Hin|].
    destruct (columns df); [by apply elem_of_nil in Hcol|done]. }
  assert (Frame.col_status df = Some (status <$> rows df)) as Hst.
  { unfold Frame.col_status, Frame.has_column. by rewrite bool_decide_eq_true_2. }
  unfold request_new_workset, _has_pending_worksets, download_csv, download,
    fb_download, try_except, bind, call, peek, ret.
  cbn -[Frame.read_csv Frame.empty Frame.col_status record_path].
  rewrite Hi. cbn -[Frame.read_csv Frame.empty Frame.col_status record_path].
  rewrite (proj1 (Hr _)).
  cbn -[Frame.read_csv Frame.empty Frame.col_status record_path].
  rewrite Hget. cbn -[Frame.read_csv Frame.empty Frame.col_status record_path].
  rewrite (proj2 (Hr _)).
  cbn -[Frame.read_csv Frame.empty Frame.col_status record_path].
  rewrite Hread, Hne, Hst. cbn -[record_path]. rewrite Hex.
  cbn -[record_path]. by rewrite <- app_assoc.
Qed.

(** ** Properties kept by a computation *)

Create HintDb preserves discriminated.

Section Preserves.

Context {A B : Type} (I : world → Prop).

Lemma preserves_ret (a : A) : preserves I (ret a).
Proof. by intros w Hw. Qed.

Lemma preserves_raise e : preserves I (raise (A:=A) e).
Proof. by intros w Hw. Qed.

Lemma preserves_bind (m : M A) (k : A → M B) :
  preserves I m → (∀ a, preserves I (k a)) → preserves I (bind m k).
Proof.
  intros Hm Hk w Hw. apply wp_bind. eapply wp_mono; [by apply Hm|].
  intros [a|e] w' Hw'; [by apply Hk|done].
Qed.

Lemma preserves_try_except (body : M A) h :
  preserves I body → (∀ e, preserves I (h e)) → preserves I (try_except body h).
Proof.
  intros Hb Hh w Hw. specialize (Hb w Hw). unfold wp, try_except in *.
  destruct (body w).1; [done|]. by apply Hh.
Qed.

Lemma preserves_try_finally (body : M A) (final : M B) :
  preserves I body → preserves I final → preserves I (try_finally body final).
Proof.
  intros Hb Hf w Hw. specialize (Hb w Hw). specialize (Hf _ Hb).
  unfold wp, try_finally in *. by destruct (final (body w).2).1.
Qed.

Lemma preserves_peek (f : Bucket.store → A) : preserves I (peek f).
Proof. by intros w Hw. Qed.

Lemma preserves_getitem key (o : option A) : preserves I (getitem key o).
Proof. intros w Hw. by destruct o. Qed.

Lemma preserves_returns (m : M A) :
  (∀ w, I w → returns m w (λ _ w', I w')) → preserves I m.
Proof.
  intros H w Hw. eapply returns_wp; [by apply H|]. auto.
Qed.

Lemma preserves_total (m : M A) w :
  preserves I m → total m → I w → returns m w (λ _ w', I w').
Proof.
  intros Hp Ht Hw. specialize (Hp w Hw). specialize (Ht w).
  unfold returns, wp in *. by destruct (m w).1.
Qed.

End Preserves.

Lemma preserves_ticks I : preserves I ticks.
Proof. by intros w Hw. Qed.

Lemma preserves_for_each {A S} I (l : list A) (body : A → S → M S) acc :
  (∀ x acc, x ∈ l → preserves I (body x acc)) →
  preserves I (for_each l body acc).
Proof.
  revert acc. induction l as [|x l IH]; intros acc Hbody; [by intros w Hw|].
  simpl. apply preserves_bind; [apply Hbody; left|].
  intros acc'. apply IH. intros y acc'' Hy. apply Hbody. by right.
Qed.

Lemma total_try_except {A} (body : M A) h :
  (∀ e, total (h e)) → total (try_except body h).
Proof.
  intros Hh w. unfold returns, wp, try_except.
  destruct (body w).1 eqn:E; [done|]. apply Hh.
Qed.

Lemma total_ret {A} (a : A) : total (ret a).
Proof. by intros w. Qed.

Lemma total_bind {A B} (m : M A) (k : A → M B) :
  total m → (∀ a, total (k a)) → total (bind m k).
Proof.
  intros Hm Hk w. apply returns_bind. eapply returns_mono; [apply Hm|].
  intros a w' _. apply Hk.
Qed.

Lemma total_try_finally {A B} (body : M A) (final : M B) :
  total body → total final → total (try_finally body final).
Proof.
  intros Hb Hf w. apply returns_try_finally.
  eapply returns_mono; [apply Hb|]. intros a w' _.
  eapply returns_mono; [apply Hf|]. done.
Qed.

Lemma total_for_each {A S} (l : list A) (body : A → S → M S) acc :
  (∀ x acc, total (body x acc)) → total (for_each l body acc).
Proof.
  intros Hb. revert acc. induction l as [|x l IH]; intros acc; simpl.
  - apply total_ret.
  - apply total_bind; [apply Hb|]. intros acc'. apply IH.
Qed.

Lemma total_ticks : total ticks.
Proof. by intros w. Qed.

Global Hint Resolve total_ticks : preserves.

Global Hint Resolve preserves_ret preserves_raise preserves_peek
  preserves_getitem preserves_ticks total_ret : preserves.

(** Splits a goal [preserves I m] along the structure of [m]. *)
Ltac preserve_step :=
  lazymatch goal with
  | |- preserves _ (bind _ _) => apply preserves_bind; [|intros ?]
  | |- preserves _ (try_except _ _) => apply preserves_try_except; [|intros ?]
  | |- preserves _ (try_finally _ _) => apply preserves_try_finally
  | |- preserves _ (if ?b then _ else _) => destruct b
  | |- preserves _ (match ?x with _ => _ end) => destruct x
  | |- preserves _ (let _ := _ in _) => cbv zeta
  end.

Ltac preserve := repeat first [ solve [eauto with preserves] | preserve_step ].

Ltac total_step :=
  lazymatch goal with
  | |- total (try_except _ _) => apply total_try_except; intros ?
  | |- total (bind _ _) => apply total_bind; [|intros ?]
  | |- total (try_finally _ _) => apply total_try_finally
  | |- total (for_each _ _ _) => apply total_for_each; intros ? ?
  | |- total (let _ := _ in _) => cbv zeta
  | |- total (if ?b then _ else _) => destruct b
  | |- total (match ?x with _ => _ end) => destruct x
  end.

Ltac totality := repeat first [ solve [eauto with preserves] | total_step ].

Section PreservedByStorage.

Variable env : environment.
Variable N : string → Prop.
Variable I : world → Prop.
Hypothesis HI : closed N I.

Lemma call_preserves o :
  (∀ n, written o = Some n → N n) → preserves I (call env o).
Proof. intros Ho w Hw. by apply (call_inv env N). Qed.

Lemma download_json_preserves p : preserves I (download_json env p).
Proof. apply preserves_returns. intros. by apply (download_json_inv env N). Qed.

Lemma download_csv_preserves p : preserves I (download_csv env p).
Proof. apply preserves_returns. intros. by apply (download_csv_inv env N). Qed.

Lemma list_files_preserves folder : preserves I (list_files env folder).
Proof. apply preserves_returns. intros. by apply (list_files_inv env N). Qed.

Lemma upload_preserves p b : N p → preserves I (upload env p b).
Proof. intros. apply preserves_returns. intros. by apply (fb_upload_inv env N). Qed.

Lemma upload_csv_preserves p df : N p → preserves I (upload_csv env p df).
Proof. intros. apply preserves_returns. intros. by apply (upload_csv_inv env N). Qed.

Lemma delete_file_preserves p : N p → preserves I (delete_file env p).
Proof. intros. apply preserves_returns. intros. by apply (delete_file_inv env N). Qed.

End PreservedByStorage.

Global Hint Resolve download_json_preserves download_csv_preserves
  list_files_preserves upload_preserves upload_csv_preserves
  delete_file_preserves : preserves.

Section Totality.

Variable env : environment.

Lemma download_json_total p : total (download_json env p).
Proof.
  intros w. eapply returns_mono; [apply download_json_val|done].
Qed.

Lemma download_csv_total p : total (download_csv env p).
Proof.
  intros w. eapply returns_mono; [apply download_csv_val|done].
Qed.

Lemma list_files_total folder : total (list_files env folder).
Proof.
  intros w. eapply returns_mono; [apply list_files_val|done].
Qed.

Lemma upload_total p b : total (upload env p b).
Proof.
  intros w. eapply returns_mono; [apply fb_upload_val|done].
Qed.

Lemma upload_csv_total p df : total (upload_csv env p df).
Proof.
  intros w. eapply returns_mono; [apply upload_csv_val|done].
Qed.

Lemma delete_file_total p : total (delete_file env p).
Proof.
  unfold delete_file, fb_delete. destruct (initialized env); simpl; totality.
Qed.

End Totality.

Global Hint Resolve download_json_total download_csv_total list_files_total
  upload_total upload_csv_total delete_file_total : preserves.

(** ** What the assigner's functions keep

    Every function of the assigner keeps a property that is closed
    under the bucket calls on the names it writes: the ledger for the
    usage functions, the blobs below "system/locks/" for the lock
    functions, the worker's record, the materialised workset file and
    the audit log for the commit. *)

Section PreservedByAssigner.

Variable env : environment.
Variable N : string → Prop.
Variable I : world → Prop.
Hypothesis HI : closed N I.
Hypothesis N_usage : N usage_stats_path.
Hypothesis N_locks : ∀ n, Str.starts_with "system/locks/" n = true → N n.
Hypothesis N_log : N assignment_log_path.

Lemma _has_pending_worksets_preserves u :
  preserves I (_has_pending_worksets env u).
Proof. unfold _has_pending_worksets. preserve. Qed.

Lemma _has_completed_workset_preserves u k :
  preserves I (_has_completed_workset env u k).
Proof. unfold _has_completed_workset. preserve. Qed.

Lemma count_record_preserves file_path acc :
  preserves I (count_record env file_path acc).
Proof. unfold count_record. preserve. Qed.

Lemma _generate_usage_statistics_preserves :
  preserves I (_generate_usage_statistics env).
Proof.
  unfold _generate_usage_statistics. preserve.
  apply preserves_for_each. intros. apply count_record_preserves.
Qed.

Lemma _get_usage_statistics_preserves :
  preserves I (_get_usage_statistics env).
Proof.
  pose proof _generate_usage_statistics_preserves.
  unfold _get_usage_statistics. preserve.
Qed.

Lemma scan_candidates_preserves u usage l :
  preserves I (scan_candidates env u usage l).
Proof.
  pose proof _has_completed_workset_preserves.
  induction l as [|i l IH]; simpl; preserve.
Qed.

Lemma _find_available_workset_preserves u :
  preserves I (_find_available_workset env u).
Proof.
  pose proof _get_usage_statistics_preserves.
  pose proof scan_candidates_preserves.
  unfold _find_available_workset. preserve.
Qed.

Lemma collect_competitor_preserves k file_path acc :
  preserves I (collect_competitor env k file_path acc).
Proof. unfold collect_competitor. preserve. Qed.

Lemma _win_competition_preserves k u c :
  preserves I (_win_competition env k u c).
Proof.
  unfold _win_competition. preserve.
  apply preserves_for_each. intros. apply collect_competitor_preserves.
Qed.

Lemma _is_workset_still_available_preserves k :
  preserves I (_is_workset_still_available env k).
Proof.
  pose proof _get_usage_statistics_preserves.
  unfold _is_workset_still_available. preserve.
Qed.

Lemma count_holder_preserves k file_path c :
  preserves I (count_holder env k file_path c).
Proof. unfold count_holder. preserve. Qed.

Lemma _get_real_time_usage_count_preserves k :
  preserves I (_get_real_time_usage_count env k).
Proof.
  unfold _get_real_time_usage_count. preserve.
  apply preserves_for_each. intros. apply count_holder_preserves.
Qed.

Lemma observe_usage_preserves k c : preserves I (observe_usage env k c).
Proof.
  pose proof _generate_usage_statistics_preserves.
  unfold observe_usage. preserve.
Qed.

Lemma _update_usage_statistics_safely_preserves k c :
  preserves I (_update_usage_statistics_safely env k c).
Proof.
  pose proof observe_usage_preserves.
  unfold _update_usage_statistics_safely. preserve.
Qed.

Lemma _rollback_usage_statistics_preserves k :
  preserves I (_rollback_usage_statistics env k).
Proof. unfold _rollback_usage_statistics. preserve. Qed.

Lemma _log_assignment_preserves u k :
  preserves I (_log_assignment env u k).
Proof. unfold _log_assignment. preserve. Qed.

End PreservedByAssigner.

Section PreservedByLocks.

Variable env : environment.
Variable N : string → Prop.
Variable I : world → Prop.
Hypothesis HI : closed N I.
Hypothesis N_locks : ∀ n, Str.starts_with "system/locks/" n = true → N n.

Local Hint Extern 1 (N _) =>
  apply N_locks; first [reflexivity | exact (starts_with_app "system/locks/" _)]
  : preserves.

Lemma _cleanup_competition_files_preserves k c :
  preserves I (_cleanup_competition_files env k c).
Proof.
  unfold _cleanup_competition_files.
  apply preserves_try_except; [|intros; preserve].
  intros w Hw. apply wp_bind_returns.
  eapply returns_mono.
  { apply returns_and; [by apply (list_files_inv env N I)|apply list_files_val]. }
  intros l w' [Hw' [_ Hl]]. revert w' Hw'.
  apply preserves_for_each. intros n [] Hn.
  assert (N n).
  { apply N_locks. destruct Hl as [-> | ->]; [by apply elem_of_nil in Hn|].
    by eapply listed_starts_with. }
  preserve.
Qed.

Lemma _try_acquire_workset_lock_preserves k u :
  preserves I (_try_acquire_workset_lock env k u).
Proof.
  pose proof _cleanup_competition_files_preserves.
  pose proof (_win_competition_preserves env N I HI).
  unfold _try_acquire_workset_lock. preserve.
Qed.

Lemma _release_workset_lock_preserves k u :
  preserves I (_release_workset_lock env k u).
Proof.
  unfold _release_workset_lock. preserve.
Qed.

End PreservedByLocks.

Lemma create_workset_file_preserves env (N : string → Prop) I u k :
  closed N I →
  N ("coding_result/" +:+ u +:+ "/" +:+ k +:+ ".csv") →
  preserves I (create_workset_file env u k).
Proof. intros HI HN. unfold create_workset_file. preserve. Qed.

Lemma _add_workset_to_user_record_preserves env (N : string → Prop) I u k :
  closed N I → N (record_path u) →
  preserves I (_add_workset_to_user_record env u k).
Proof. intros HI HN. unfold _add_workset_to_user_record. preserve. Qed.

Lemma _remove_workset_from_user_record_preserves env (N : string → Prop) I u k :
  closed N I → N (record_path u) →
  preserves I (_remove_workset_from_user_record env u k).
Proof. intros HI HN. unfold _remove_workset_from_user_record. preserve. Qed.

(** ** The assigner's functions never raise *)

Section AssignerTotal.

Variable env : environment.

Lemma count_record_total file_path acc :
  total (count_record env file_path acc).
Proof. unfold count_record. totality. Qed.

Lemma count_holder_total k file_path c : total (count_holder env k file_path c).
Proof. unfold count_holder. totality. Qed.

Lemma _has_pending_worksets_total u : total (_has_pending_worksets env u).
Proof. unfold _has_pending_worksets. totality. Qed.

Lemma _has_completed_workset_total u k : total (_has_completed_workset env u k).
Proof. unfold _has_completed_workset. totality. Qed.

Lemma _generate_usage_statistics_total : total (_generate_usage_statistics env).
Proof. unfold _generate_usage_statistics. totality. Qed.

Lemma _get_usage_statistics_total : total (_get_usage_statistics env).
Proof.
  pose proof _generate_usage_statistics_total.
  unfold _get_usage_statistics. totality.
Qed.

Lemma _find_available_workset_total u : total (_find_available_workset env u).
Proof. unfold _find_available_workset. totality. Qed.

Lemma _try_acquire_workset_lock_total k u :
  total (_try_acquire_workset_lock env k u).
Proof. unfold _try_acquire_workset_lock. totality. Qed.

Lemma _release_workset_lock_total k u : total (_release_workset_lock env k u).
Proof. unfold _release_workset_lock. totality. Qed.

Lemma _is_workset_still_available_total k :
  total (_is_workset_still_available env k).
Proof. unfold _is_workset_still_available. totality. Qed.

Lemma _get_real_time_usage_count_total k :
  total (_get_real_time_usage_count env k).
Proof. unfold _get_real_time_usage_count. totality. Qed.

Lemma _update_usage_statistics_safely_total k c :
  total (_update_usage_statistics_safely env k c).
Proof. unfold _update_usage_statistics_safely. totality. Qed.

Lemma _rollback_usage_statistics_total k :
  total (_rollback_usage_statistics env k).
Proof. unfold _rollback_usage_statistics. totality. Qed.

Lemma _add_workset_to_user_record_total u k :
  total (_add_workset_to_user_record env u k).
Proof. unfold _add_workset_to_user_record. totality. Qed.

Lemma _remove_workset_from_user_record_total u k :
  total (_remove_workset_from_user_record env u k).
Proof. unfold _remove_workset_from_user_record. totality. Qed.

Lemma _log_assignment_total u k : total (_log_assignment env u k).
Proof. unfold _log_assignment. totality. Qed.

Lemma create_workset_file_total u k : total (create_workset_file env u k).
Proof. unfold create_workset_file. totality. Qed.

Lemma _complete_workset_assignment_total u k :
  total (_complete_workset_assignment env u k).
Proof. unfold _complete_workset_assignment. totality. Qed.

Lemma attempt_total u : total (attempt env u).
Proof. unfold attempt. totality. Qed.

Lemma attempts_total n u : total (attempts env n u).
Proof.
  pose proof attempt_total.
  induction n as [|n IH]; simpl; totality.
Qed.

(** [request_new_workset] always returns: an assignment or none. *)
Lemma request_new_workset_total u : total (request_new_workset env u).
Proof.
  pose proof _has_pending_worksets_total. pose proof attempts_total.
  unfold request_new_workset. totality.
Qed.

End AssignerTotal.

Global Hint Resolve count_record_total count_holder_total : preserves.

Global Hint Resolve _has_pending_worksets_total _has_completed_workset_total
  _generate_usage_statistics_total _get_usage_statistics_total
  _find_available_workset_total _try_acquire_workset_lock_total
  _release_workset_lock_total _is_workset_still_available_total
  _get_real_time_usage_count_total _update_usage_statistics_safely_total
  _rollback_usage_statistics_total _add_workset_to_user_record_total
  _remove_workset_from_user_record_total _log_assignment_total
  create_workset_file_total _complete_workset_assignment_total
  attempt_total attempts_total request_new_workset_total : preserves.

(** ** The bucket as a map *)

Section BucketLemmas.

Implicit Types (s : Bucket.store) (n p : string) (b : blob).

Lemma get_put_eq p b s : Bucket.get p (Bucket.put p b s) = Some b.
Proof.
  induction s as [|[n c] s IH]; simpl.
  - by rewrite decide_True.
  - destruct (decide (n = p)) as [->|Hne]; simpl.
    + by rewrite decide_True.
    + by rewrite decide_False.
Qed.

Lemma get_put_ne p n b s : n ≠ p → Bucket.get n (Bucket.put p b s) = Bucket.get n s.
Proof.
  intros Hne. induction s as [|[m c] s IH]; simpl.
  - by rewrite decide_False.
  - destruct (decide (m = p)) as [->|Hmp]; simpl.
    + by rewrite !decide_False.
    + destruct (decide (m = n)); [done|apply IH].
Qed.

Lemma get_del_ne p n s : n ≠ p → Bucket.get n (Bucket.del p s) = Bucket.get n s.
Proof.
  intros Hne. unfold Bucket.del. induction s as [|[m c] s IH]; [done|].
  destruct (decide (m = p)) as [->|Hmp].
  - rewrite filter_cons_False by (simpl; auto). simpl.
    by rewrite decide_False.
  - rewrite filter_cons_True by done. simpl.
    destruct (decide (m = n)); [done|apply IH].
Qed.

Lemma get_Some_elem n s b : Bucket.get n s = Some b → n ∈ s.*1.
Proof.
  induction s as [|[m c] s IH]; simpl; [done|].
  destruct (decide (m = n)) as [->|Hne]; [by left|].
  intros H. right. by apply IH.
Qed.

End BucketLemmas.

(** ** Regenerating the ledger (claims C6 and C7) *)

Lemma reads_ok_read env p : reads_ok env → read_ok env p.
Proof. intros [_ H] n. split; by apply H. Qed.

Lemma reads_ok_list env folder : reads_ok env → list_ok env folder.
Proof. intros [_ H] n. by apply H. Qed.

Lemma no_faults_reads_ok env : no_faults env → reads_ok env.
Proof. intros [Hi H]. split; [done|]. intros. apply H. Qed.

Lemma no_faults_write env p : no_faults env → write_ok env p.
Proof. intros [_ H] n. split; [intros b|]; apply H. Qed.

Lemma count_insert (u : gmap string Z) ws c k :
  JsonObj.count (<[ws := c]> u) k
  = if decide (ws = k) then c else JsonObj.count u k.
Proof.
  unfold JsonObj.count. destruct (decide (ws = k)) as [->|Hne].
  - by rewrite lookup_insert_eq.
  - by rewrite lookup_insert_ne.
Qed.

Lemma unique_elem x l : x ∈ Frame.unique l ↔ x ∈ l.
Proof.
  induction l as [|y l IH]; simpl; [done|].
  rewrite !elem_of_cons, list_elem_of_filter, IH.
  destruct (decide (x = y)); tauto.
Qed.

Lemma unique_NoDup l : NoDup (Frame.unique l).
Proof.
  induction l as [|y l IH]; simpl; [constructor|].
  constructor; [|by apply NoDup_filter].
  rewrite list_elem_of_filter. tauto.
Qed.

Lemma count_foldl_increment (u : gmap string Z) l k :
  NoDup l →
  JsonObj.count
    (foldl (λ usage_count workset,
              <[workset := JsonObj.count usage_count workset + 1]> usage_count)
           u l) k
  = JsonObj.count u k + (if decide (k ∈ l) then 1 else 0).
Proof.
  revert u. induction l as [|x l IH]; intros u Hnd; cbn [foldl].
  { case_decide as Hin; [by apply elem_of_nil in Hin|lia]. }
  apply NoDup_cons in Hnd as [Hx Hnd]. rewrite IH by done.
  rewrite count_insert.
  destruct (decide (x = k)) as [->|Hne].
  - rewrite (decide_False (P:=k ∈ l)) by done.
    rewrite (decide_True (P:=k ∈ k :: l)) by left. lia.
  - destruct (decide (k ∈ l)) as [Hin|Hin].
    + rewrite (decide_True (P:=k ∈ x :: l)) by (by right). lia.
    + rewrite (decide_False (P:=k ∈ x :: l)); [lia|].
      intros [->|?]%elem_of_cons; done.
Qed.

Lemma dropna_mentions k (rs : list row) :
  k ∈ Frame.dropna (workset <$> rs) ↔ existsb (Frame.row_is k) rs = true.
Proof.
  unfold Frame.dropna. rewrite list_elem_of_omap, existsb_exists. split.
  - intros (o & Ho & Hk). apply list_elem_of_fmap in Ho as (r & -> & Hr).
    exists r. split; [by apply list_elem_of_In|].
    by apply bool_decide_eq_true.
  - intros (r & Hr & Hk). apply bool_decide_eq_true in Hk.
    exists (workset r). split; [|done].
    apply list_elem_of_fmap. exists r. split; [done|by apply list_elem_of_In].
Qed.

Section Regenerate.

Variable env : environment.
Hypothesis Hreads : reads_ok env.

(** One record adds one to the count of every workset it mentions,
    however many of its rows do and whatever their status. *)
Lemma count_record_exact file_path acc w :
  returns (count_record env file_path acc) w
    (λ acc' w',
       blobs w' = blobs w
       ∧ ∀ k, JsonObj.count acc'.1 k
              = JsonObj.count acc.1 k
                + (if Str.ends_with file_path "_record.csv"
                      && holds k (blobs w) file_path
                   then 1 else 0)).
Proof.
  unfold count_record.
  destruct (Str.ends_with file_path "_record.csv") eqn:Hsuf; simpl;
    [|apply returns_ret; split; [done|intros; lia]].
  apply returns_bind. eapply returns_mono.
  { apply download_csv_exact; [apply Hreads|by apply reads_ok_read]. }
  intros o w' [Hb ->]. unfold holds.
  destruct (Bucket.get file_path (blobs w) ≫= Frame.read_csv) as [df|];
    [|apply returns_ret; split; [done|intros; lia]].
  unfold Frame.mentions.
  destruct (Frame.has_column "workset" df); simpl;
    [|apply returns_ret; split; [done|intros; lia]].
  apply returns_ret. split; [done|]. intros k. simpl.
  rewrite count_foldl_increment by apply unique_NoDup. f_equal.
  destruct (existsb (Frame.row_is k) (rows df)) eqn:Hex.
  - rewrite decide_True; [done|]. by apply unique_elem, dropna_mentions.
  - rewrite decide_False; [done|].
    intros Hin%unique_elem%dropna_mentions. congruence.
Qed.

Lemma count_records_exact l acc w :
  returns (for_each l (count_record env) acc) w
    (λ acc' w',
       blobs w' = blobs w
       ∧ ∀ k, JsonObj.count acc'.1 k
              = JsonObj.count acc.1 k
                + Z.of_nat
                    (length
                       (filter (λ n, holds k (blobs w) n = true)
                          (filter (λ n, Str.ends_with n "_record.csv" = true)
                                  l)))).
Proof.
  revert acc w. induction l as [|n l IH]; intros acc w; simpl.
  { apply returns_ret. split; [done|]. intros. simpl. lia. }
  apply returns_bind. eapply returns_mono; [apply count_record_exact|].
  intros acc1 w1 [Hb1 Hc1]. eapply returns_mono; [apply IH|].
  intros acc2 w2 [Hb2 Hc2]. split; [congruence|]. intros k.
  rewrite Hc2, Hc1, Hb1.
  destruct (Str.ends_with n "_record.csv") eqn:Hsuf.
  - rewrite (filter_cons_True (λ n, Str.ends_with n "_record.csv" = true))
      by done.
    simpl andb. destruct (holds k (blobs w) n) eqn:Hh.
    + rewrite filter_cons_True by done. simpl length. lia.
    + rewrite filter_cons_False by congruence. lia.
  - rewrite (filter_cons_False (λ n, Str.ends_with n "_record.csv" = true))
      by congruence.
    simpl andb. lia.
Qed.

Lemma count_empty k : JsonObj.count ∅ k = 0.
Proof. unfold JsonObj.count. by rewrite lookup_empty. Qed.

(** What [_generate_usage_statistics] returns and what it leaves in the
    store: the ledger is untouched or holds the returned counts, and it
    holds them when the bucket accepts the write. *)
Lemma _generate_usage_statistics_exact w :
  returns (_generate_usage_statistics env) w
    (λ usage w',
       (∀ k, JsonObj.count usage k = holders k (blobs w))
       ∧ (blobs w' = blobs w
          ∨ ∃ j, workset_usage j = Some usage
                 ∧ blobs w' = Bucket.put usage_stats_path (BlobJson j) (blobs w))
       ∧ (write_ok env usage_stats_path →
          ∃ j, workset_usage j = Some usage
               ∧ blobs w' = Bucket.put usage_stats_path (BlobJson j) (blobs w))).
Proof.
  unfold _generate_usage_statistics. apply returns_try_except_total.
  apply returns_bind. eapply returns_mono.
  { apply list_files_exact; [apply Hreads|done|by apply reads_ok_list]. }
  intros l w1 [Hb1 ->]. unfold holders, record_files.
  destruct (listed "annotators/" (blobs w)) as [|n l] eqn:El.
  - apply returns_bind, returns_ticks, returns_bind.
    eapply returns_mono; [apply upload_spec|].
    intros ok w2 (Hval & _ & Hex). apply returns_ret. rewrite Hb1 in *.
    split; [intros k; by rewrite count_empty|]. split.
    + destruct Hval as [->|Hval]; [by left|right].
      eexists. split; [|exact Hval]. done.
    + intros Hw. destruct (Hex (proj1 Hreads) Hw) as [_ Hput].
      eexists. split; [|exact Hput]. done.
  - apply returns_bind. eapply returns_mono; [apply count_records_exact|].
    intros acc w2 [Hb2 Hc]. rewrite Hb1 in *.
    apply returns_bind, returns_ticks, returns_bind.
    eapply returns_mono; [apply upload_spec|].
    intros ok w3 (Hval & _ & Hex). apply returns_ret. rewrite Hb2 in *.
    split; [intros k; by rewrite Hc, count_empty|]. split.
    + destruct Hval as [->|Hval]; [by left|right].
      eexists. split; [|exact Hval]. done.
    + intros Hw. destruct (Hex (proj1 Hreads) Hw) as [_ Hput].
      eexists. split; [|exact Hput]. done.
Qed.

End Regenerate.

(** A record holds workset [k] exactly when it parses as a table with a
    [workset] column and one of its rows names [k]; neither the number
    of such rows nor their status enters. *)
Lemma holds_iff k s n :
  holds k s n = true ↔
  ∃ df, Bucket.get n s ≫= Frame.read_csv = Some df
        ∧ "workset" ∈ columns df
        ∧ ∃ r, r ∈ rows df ∧ workset r = Some k.
Proof.
  unfold holds, Frame.mentions, Frame.has_column.
  destruct (Bucket.get n s ≫= Frame.read_csv) as [df|]; [|by split; [|intros (?&?&_)]].
  rewrite andb_true_iff, bool_decide_eq_true, existsb_exists. split.
  - intros [Hc (r & Hr & Hk)]. exists df. split; [done|]. split; [done|].
    exists r. split; [by apply list_elem_of_In|].
    by apply bool_decide_eq_true in Hk.
  - intros (df' & [= <-] & Hc & r & Hr & Hk). split; [done|].
    exists r. split; [by apply list_elem_of_In|].
    by apply bool_decide_eq_true.
Qed.

(** Claim C7.  When the records can be read, [regenerate()]
    ([_generate_usage_statistics]) returns, for every workset id, the
    number of Worker Task Records in which the id appears at least
    once: a record counts once however many of its rows repeat the id
    and whatever their status ([holds_iff]). *)
Theorem regenerate_counts_each_record_once env w :
  reads_ok env →
  ∃ usage w',
    _generate_usage_statistics env w = (Ok usage, w')
    ∧ ∀ k, JsonObj.count usage k = holders k (blobs w).
Proof.
  intros Hr.
  destruct (returns_run _ _ _ (_generate_usage_statistics_exact env Hr w))
    as (usage & w' & E & Hc & _).
  by exists usage, w'.
Qed.

(** Claim C6.  When the ledger object is absent and the bucket works,
    [get()] ([_get_usage_statistics]) does not answer with an empty
    mapping: it scans the Worker Task Records, stores a ledger that
    holds the counts of the scan, and returns those counts, which for
    every workset id are the number of records holding the id. *)
Theorem get_regenerates_absent_ledger env w :
  no_faults env →
  Bucket.get usage_stats_path (blobs w) = None →
  ∃ usage w' j,
    _get_usage_statistics env w = (Ok usage, w')
    ∧ (∀ k, JsonObj.count usage k = holders k (blobs w))
    ∧ Bucket.get usage_stats_path (blobs w') = Some (BlobJson j)
    ∧ workset_usage j = Some usage.
Proof.
  intros Hnf Habs. pose proof (no_faults_reads_ok _ Hnf) as Hr.
  assert (returns (_get_usage_statistics env) w
            (λ usage w', (∀ k, JsonObj.count usage k = holders k (blobs w))
                         ∧ ∃ j, workset_usage j = Some usage
                                ∧ blobs w' = Bucket.put usage_stats_path
                                               (BlobJson j) (blobs w))) as H.
  { unfold _get_usage_statistics. apply returns_try_except_total.
    apply returns_bind. eapply returns_mono.
    { apply download_json_exact; [apply Hr|by apply reads_ok_read]. }
    intros o w1 [Hb ->]. rewrite Habs. simpl.
    eapply returns_mono; [by apply _generate_usage_statistics_exact|].
    intros usage w2 (Hc & _ & Hw). rewrite Hb in *. split; [done|].
    apply Hw. by apply no_faults_write. }
  destruct (returns_run _ _ _ H) as (usage & w' & E & Hc & j & Hj & Hb).
  exists usage, w', j. repeat split; [done|done| |done].
  rewrite Hb. apply get_put_eq.
Qed.

(** ** Scanning for a candidate (claim C8) *)

Lemma closed_get (N : string → Prop) p w0 :
  (∀ n, N n → n ≠ p) →
  closed N (λ w, Bucket.get p (blobs w) = Bucket.get p (blobs w0)).
Proof.
  intros HN w o Ho Hw. split; [done|]. simpl.
  destruct o; simpl; try done.
  - rewrite get_put_ne; [done|]. intros ->. by apply (HN name (Ho _ eq_refl)).
  - rewrite get_del_ne; [done|]. intros ->. by apply (HN name (Ho _ eq_refl)).
Qed.

Lemma record_path_not_private u : Str.starts_with "annotators/" (record_path u) = true.
Proof. apply starts_with_app. Qed.

Lemma private_ne_record n u : private n → n ≠ record_path u.
Proof.
  intros Hn ->. unfold private in Hn. by rewrite record_path_not_private in Hn.
Qed.

Section Scanning.

Variable env : environment.
Hypothesis Hreads : reads_ok env.

Lemma _has_completed_workset_exact u k w :
  returns (_has_completed_workset env u k) w
    (λ b w', blobs w' = blobs w ∧ b = completed (blobs w) u k).
Proof.
  unfold _has_completed_workset. apply returns_try_except.
  apply wp_bind_returns. eapply returns_mono.
  { apply download_csv_exact; [apply Hreads|by apply reads_ok_read]. }
  intros o w1 [Hb ->]. unfold completed.
  destruct (Bucket.get (record_path u) (blobs w) ≫= Frame.read_csv) as [df|];
    [|by apply wp_ret].
  destruct (Frame.empty df) eqn:He; simpl.
  { apply wp_ret. split; [done|]. unfold Frame.empty in He.
    destruct (rows df) eqn:Er; [by rewrite !andb_false_r|].
    destruct (columns df) eqn:Ec; [|done].
    unfold Frame.has_column. rewrite Ec. by rewrite bool_decide_eq_false_2
      by (by intros ?%elem_of_nil). }
  unfold Frame.col_workset, Frame.col_status.
  apply wp_bind, wp_getitem.
  destruct (Frame.has_column "workset" df); [|by apply returns_ret].
  apply wp_bind, wp_getitem.
  destruct (Frame.has_column "status" df); [|by apply returns_ret].
  by apply wp_ret.
Qed.

Lemma scan_candidates_exact u usage start len w :
  returns (scan_candidates env u usage (seq start len)) w
    (λ r w',
       blobs w' = blobs w
       ∧ match r with
         | Some name =>
             ∃ i, (start ≤ i < start + len)%nat ∧ name = workset_name i
                  ∧ eligible usage (blobs w) u i = true
                  ∧ ∀ j, (start ≤ j < i)%nat →
                         eligible usage (blobs w) u j = false
         | None =>
             ∀ i, (start ≤ i < start + len)%nat →
                  eligible usage (blobs w) u i = false
         end).
Proof.
  revert start w. induction len as [|len IH]; intros start w;
    cbn [seq scan_candidates]; cbv zeta.
  { apply returns_ret. split; [done|]. intros; lia. }
  assert (∀ w1 (Hb : blobs w1 = blobs w),
            eligible usage (blobs w) u start = false →
            returns (scan_candidates env u usage (seq (S start) len)) w1
              (λ r w', blobs w' = blobs w
                 ∧ match r with
                   | Some name =>
                       ∃ i, (start ≤ i < start + S len)%nat
                            ∧ name = workset_name i
                            ∧ eligible usage (blobs w) u i = true
                            ∧ ∀ j, (start ≤ j < i)%nat →
                                   eligible usage (blobs w) u j = false
                   | None =>
                       ∀ i, (start ≤ i < start + S len)%nat →
                            eligible usage (blobs w) u i = false
                   end)) as Hrest.
  { intros w1 Hb Hne. eapply returns_mono; [apply IH|].
    intros r w' [Hb' Hr]. rewrite Hb in *. split; [done|].
    destruct r as [name|].
    - destruct Hr as (i & Hi & -> & He & Hlt). exists i.
      split; [lia|]. split; [done|]. split; [done|].
      intros j Hj. destruct (decide (j = start)) as [->|]; [done|].
      apply Hlt. lia.
    - intros i Hi. destruct (decide (i = start)) as [->|]; [done|].
      apply Hr. lia. }
  clear IH. unfold eligible in *.
  destruct (JsonObj.count usage (workset_name start) <? 3) eqn:Hc;
    [|by apply Hrest].
  apply returns_bind. eapply returns_mono; [apply _has_completed_workset_exact|].
  intros b w1 [Hb ->].
  destruct (completed (blobs w) u (workset_name start)) eqn:Hd.
  - by apply Hrest.
  - apply returns_ret. split; [done|]. exists start.
    split; [lia|]. split; [done|]. split; [by rewrite Hc, Hd|]. intros; lia.
Qed.

End Scanning.

(** [_find_available_workset] scans against the counts
    [_get_usage_statistics] returns and leaves the records alone. *)
Lemma _find_available_workset_exact env username w :
  reads_ok env →
  ∃ usage_stats w1,
    _get_usage_statistics env w = (Ok usage_stats, w1)
    ∧ returns (_find_available_workset env username) w
        (λ r w',
           match r with
           | Some name =>
               ∃ i, (1 ≤ i ≤ 100)%nat ∧ name = workset_name i
                    ∧ eligible usage_stats (blobs w) username i = true
                    ∧ ∀ j, (1 ≤ j < i)%nat →
                           eligible usage_stats (blobs w) username j = false
           | None =>
               ∀ i, (1 ≤ i ≤ 100)%nat →
                    eligible usage_stats (blobs w) username i = false
           end).
Proof.
  intros Hr.
  set (I := λ w', Bucket.get (record_path username) (blobs w')
                  = Bucket.get (record_path username) (blobs w)).
  assert (closed (λ n, n = usage_stats_path) I) as HI.
  { apply closed_get. by intros n ->. }
  pose proof (preserves_total I _ w
    (_get_usage_statistics_preserves env _ I HI eq_refl)
    (_get_usage_statistics_total env) eq_refl) as Hget.
  destruct (returns_run _ _ _ Hget) as (usage & w1 & E1 & Hrec).
  exists usage, w1. split; [done|].
  assert (∀ i, eligible usage (blobs w1) username i
               = eligible usage (blobs w) username i) as Hel.
  { intros i. unfold eligible, completed. by rewrite Hrec. }
  pose proof (scan_candidates_exact env Hr username usage 1 100 w1) as Hscan.
  destruct (returns_run _ _ _ Hscan) as (r & w' & E2 & _ & Hres).
  unfold returns, wp, _find_available_workset, try_except, bind.
  rewrite E1. cbn [fst snd]. rewrite E2. cbn [fst snd].
  destruct r as [name|].
  - destruct Hres as (i & Hi & -> & He & Hlt). exists i.
    split; [lia|]. split; [done|]. rewrite <- Hel. split; [done|].
    intros j Hj. rewrite <- Hel. by apply Hlt.
  - intros i Hi. rewrite <- Hel. apply Hres. lia.
Qed.

(** Claim C8.  When the store can be read, [_find_available_workset]
    tries the candidates workset_001 to workset_100 in ascending
    numeric order against the usage counts [_get_usage_statistics]
    returns, whatever they are: the id it returns is the one of the
    smallest number whose usage count is below 3 and which the worker
    has not completed, and when no number in 1..100 qualifies it
    returns no assignment. *)
Theorem find_available_workset_first_eligible env username w :
  reads_ok env →
  ∃ usage_stats w1 r w',
    _get_usage_statistics env w = (Ok usage_stats, w1)
    ∧ _find_available_workset env username w = (Ok r, w')
    ∧ match r with
      | Some name =>
          ∃ i, (1 ≤ i ≤ 100)%nat ∧ name = workset_name i
               ∧ eligible usage_stats (blobs w) username i = true
               ∧ ∀ j, (1 ≤ j < i)%nat →
                      eligible usage_stats (blobs w) username j = false
      | None =>
          ∀ i, (1 ≤ i ≤ 100)%nat →
               eligible usage_stats (blobs w) username i = false
      end.
Proof.
  intros Hr.
  destruct (_find_available_workset_exact env username w Hr)
    as (usage & w1 & E1 & Hfind).
  destruct (returns_run _ _ _ Hfind) as (r & w' & E2 & Hres).
  by exists usage, w1, r, w'.
Qed.

(** ** The ledger increment (claim C5) *)

Section Increment.

Variable env : environment.

Lemma closed_no_upload w0 : closed (λ _, False) (extends no_upload w0).
Proof.
  apply closed_extends. intros o ok Ho p b E. simpl in E. subst o.
  by apply (Ho p).
Qed.

Lemma upload_trace p b w :
  returns (upload env p b) w
    (λ _ w', extends (λ ev, ∀ p' b', ev.1 = OpUpload p' b' → b' = b) w w').
Proof.
  unfold returns, wp, upload, fb_upload, try_except, bind, call, ret.
  destruct (initialized env); simpl; [|apply extends_refl].
  destruct (raises env _ (OpUpload p b)); simpl.
  { exists [(OpUpload p b, false)]. split; [done|].
    constructor; [|done]. by intros ?? [= _ <-]. }
  destruct (raises env _ (OpPatch p)); simpl.
  - exists [(OpUpload p b, true); (OpPatch p, false)].
    split; [by rewrite <- app_assoc|].
    repeat constructor; simpl; [by intros ?? [= _ <-]|done].
  - exists [(OpUpload p b, true); (OpPatch p, true)].
    split; [by rewrite <- app_assoc|].
    repeat constructor; simpl; [by intros ?? [= _ <-]|done].
Qed.

(** Whatever [_generate_usage_statistics] uploads is a ledger with the
    counts it returns. *)
Lemma _generate_usage_statistics_uploads w :
  returns (_generate_usage_statistics env) w
    (λ usage w', extends (uploads_usage usage) w w').
Proof.
  assert (∀ usage w1 w2, extends no_upload w w1 →
            extends (λ ev, ∀ p' b', ev.1 = OpUpload p' b' →
                       ∃ j, b' = BlobJson j ∧ workset_usage j = Some usage)
                    w1 w2 →
            extends (uploads_usage usage) w w2) as Hjoin.
  { intros usage w1 w2 H1 H2. eapply extends_trans; [|exact H2].
    eapply extends_weaken; [|exact H1]. intros ev Hev p b E.
    by destruct (Hev p b). }
  pose proof (closed_no_upload w) as HI.
  unfold _generate_usage_statistics. apply returns_try_except_total.
  apply returns_bind. eapply returns_mono.
  { by apply (list_files_inv env _ _ "annotators/" w HI), extends_refl. }
  intros l w1 Hw1. destruct l as [|n l].
  - apply returns_bind, returns_ticks, returns_bind.
    eapply returns_mono; [apply upload_trace|].
    intros ? w2 Hw2. apply returns_ret. apply (Hjoin _ w1); [done|].
    eapply extends_weaken; [|exact Hw2]. intros ev Hev p b E.
    rewrite (Hev p b E). eauto.
  - apply returns_bind.
    assert (returns (for_each (n :: l) (count_record env) (∅, 0)) w1
              (λ _ w', extends no_upload w w')) as Hloop.
    { apply preserves_total; [|totality|done].
      apply preserves_for_each. intros.
      by apply (count_record_preserves env (λ _, False)). }
    eapply returns_mono; [exact Hloop|].
    intros acc w2 Hw2.
    apply returns_bind, returns_ticks, returns_bind.
    eapply returns_mono; [apply upload_trace|].
    intros ? w3 Hw3. apply returns_ret. apply (Hjoin _ w2); [done|].
    eapply extends_weaken; [|exact Hw3]. intros ev Hev p b E.
    rewrite (Hev p b E). eauto.
Qed.

Lemma observe_usage_uploads k expected w :
  wp (observe_usage env k expected) w
    (λ r w', match r with
             | Ok observed => extends (uploads_usage observed.2) w w'
             | Raised _ => True
             end).
Proof.
  pose proof (closed_no_upload w) as HI.
  assert (∀ usage w1, extends no_upload w w1 →
            extends (uploads_usage usage) w w1) as Hweak.
  { intros usage w1. apply extends_weaken. intros ev Hev p b E.
    by destruct (Hev p b). }
  unfold observe_usage. apply wp_bind_returns. eapply returns_mono.
  { by apply (download_json_inv env _ _ usage_stats_path w HI), extends_refl. }
  intros loaded w1 Hw1. apply wp_bind_returns, returns_ticks.
  apply wp_bind, wp_getitem.
  destruct (workset_usage _) as [usage|]; [|done].
  destruct (_ >? 1).
  - apply wp_bind_returns. eapply returns_mono;
      [apply _generate_usage_statistics_uploads|].
    intros usage' w2 Hw2. apply wp_ret. simpl.
    apply (extends_trans _ w w1 w2); [apply Hweak, Hw1|exact Hw2].
  - apply wp_ret. simpl. apply Hweak, Hw1.
Qed.

End Increment.

(** Claim C5.  Whatever the bucket does, when the count the increment
    observes for the workset (the persisted count, or the regenerated
    one when the ledger was off by more than one) plus one exceeds 3,
    [_update_usage_statistics_safely] returns [False] without a
    further bucket call, and no upload made during the operation
    carries the incremented count for that workset. *)
Theorem increment_refuses_above_cap env k expected w usage_data usage w1 :
  observe_usage env k expected w = (Ok (usage_data, usage), w1) →
  3 < JsonObj.count usage k + 1 →
  _update_usage_statistics_safely env k expected w = (Ok false, w1)
  ∧ ∃ t, trace w1 = trace w ++ t
         ∧ ∀ p j ok, (OpUpload p (BlobJson j), ok) ∈ t →
             JsonObj.count (default ∅ (workset_usage j)) k
             ≠ JsonObj.count usage k + 1.
Proof.
  intros E Hcap. split.
  - unfold _update_usage_statistics_safely, try_except, bind.
    rewrite E. cbn [fst snd].
    by rewrite (proj2 (Z.gtb_lt _ _) Hcap).
  - pose proof (observe_usage_uploads env k expected w) as H.
    unfold wp in H. rewrite E in H. simpl in H.
    destruct H as (t & Et & Ht). exists t. split; [done|].
    intros p j ok Hin.
    rewrite Forall_forall in Ht. specialize (Ht _ Hin p (BlobJson j) eq_refl).
    destruct Ht as (j' & [= <-] & ->). simpl. lia.
Qed.

(** ** Record names *)

Lemma ends_with_cons a s suf :
  Str.ends_with (String a s) suf
  = String.eqb (String a s) suf || Str.ends_with s suf.
Proof. cbn [Str.ends_with]. by destruct (String.eqb _ _). Qed.

Lemma ends_with_refl s : Str.ends_with s s = true.
Proof. destruct s; cbn [Str.ends_with]; by rewrite String.eqb_refl. Qed.

Lemma ends_with_app s suf : Str.ends_with (s +:+ suf) suf = true.
Proof.
  induction s as [|a s IH].
  - apply ends_with_refl.
  - change (String a s +:+ suf) with (String a (s +:+ suf)).
    by rewrite ends_with_cons, IH, orb_true_r.
Qed.

Lemma ends_with_app_l s t suf :
  Str.ends_with t suf = true → Str.ends_with (s +:+ t) suf = true.
Proof.
  intros Ht. induction s as [|a s IH]; [done|].
  change (String a s +:+ t) with (String a (s +:+ t)).
  by rewrite ends_with_cons, IH, orb_true_r.
Qed.

Lemma record_not_folder n :
  Str.ends_with n "_record.csv" = true → Str.ends_with n "/" = false.
Proof.
  induction n as [|a n IH]; [done|].
  rewrite !ends_with_cons. intros [He|He]%orb_true_iff.
  - apply String.eqb_eq in He. injection He as -> ->. by vm_compute.
  - rewrite (IH He), orb_false_r. apply String.eqb_neq. intros [= -> ->].
    by vm_compute in He.
Qed.

Lemma record_path_is_record_file u : is_record_file (record_path u).
Proof.
  split; [apply record_path_not_private|].
  unfold record_path. do 3 apply ends_with_app_l. apply ends_with_app.
Qed.

Lemma length_append (s t : string) :
  String.length (s +:+ t) = (String.length s + String.length t)%nat.
Proof. induction s as [|a s IH]; simpl; [done|by rewrite IH]. Qed.

Lemma app_inj_length (s1 s2 t1 t2 : string) :
  String.length s1 = String.length s2 → s1 +:+ t1 = s2 +:+ t2 → s1 = s2.
Proof.
  revert s2. induction s1 as [|a s1 IH]; intros [|b s2]; simpl; try done.
  intros [= Hl] [= -> E]. f_equal. by apply IH.
Qed.

Lemma record_path_inj u1 u2 : record_path u1 = record_path u2 → u1 = u2.
Proof.
  unfold record_path. intros E%String.app_inj.
  assert (String.length (u1 +:+ "/" +:+ u1 +:+ "_record.csv")
          = String.length (u2 +:+ "/" +:+ u2 +:+ "_record.csv")) as Hl
    by (by rewrite E).
  rewrite !length_append in Hl. simpl in Hl.
  eapply app_inj_length; [|exact E]. lia.
Qed.

(** ** The real-time count and the cap *)

Section RealTime.

Variable env : environment.
Hypothesis Hreads : reads_ok env.

Lemma count_holder_exact k file_path c w :
  returns (count_holder env k file_path c) w
    (λ c' w', blobs w' = blobs w
              ∧ c' = c + (if Str.ends_with file_path "_record.csv"
                             && holds k (blobs w) file_path
                          then 1 else 0)).
Proof.
  unfold count_holder.
  destruct (Str.ends_with file_path "_record.csv"); simpl;
    [|apply returns_ret; split; [done|lia]].
  apply returns_bind. eapply returns_mono.
  { apply download_csv_exact; [apply Hreads|by apply reads_ok_read]. }
  intros o w' [Hb ->]. unfold holds, Frame.mentions.
  destruct (Bucket.get file_path (blobs w) ≫= Frame.read_csv) as [df|];
    [|apply returns_ret; split; [done|lia]].
  destruct (Frame.has_column "workset" df); simpl;
    [|apply returns_ret; split; [done|lia]].
  destruct (existsb (Frame.row_is k) (rows df));
    apply returns_ret; split; done || lia.
Qed.

Lemma count_holders_exact k l c w :
  returns (for_each l (count_holder env k) c) w
    (λ c' w',
       blobs w' = blobs w
       ∧ c' = c + Z.of_nat
                    (length
                       (filter (λ n, holds k (blobs w) n = true)
                          (filter (λ n, Str.ends_with n "_record.csv" = true)
                                  l)))).
Proof.
  revert c w. induction l as [|n l IH]; intros c w; simpl.
  { apply returns_ret. split; [done|]. simpl. lia. }
  apply returns_bind. eapply returns_mono; [apply count_holder_exact|].
  intros c1 w1 [Hb1 ->]. eapply returns_mono; [apply IH|].
  intros c2 w2 [Hb2 ->]. split; [congruence|]. rewrite Hb1.
  destruct (Str.ends_with n "_record.csv") eqn:Hsuf.
  - rewrite (filter_cons_True (λ n, Str.ends_with n "_record.csv" = true))
      by done.
    simpl andb. destruct (holds k (blobs w) n) eqn:Hh.
    + rewrite filter_cons_True by done. simpl length. lia.
    + rewrite filter_cons_False by congruence. lia.
  - rewrite (filter_cons_False (λ n, Str.ends_with n "_record.csv" = true))
      by congruence.
    simpl andb. lia.
Qed.

(** The real-time count is the number of records holding the
    workset. *)
Lemma _get_real_time_usage_count_exact k w :
  returns (_get_real_time_usage_count env k) w
    (λ c w', blobs w' = blobs w ∧ c = holders k (blobs w)).
Proof.
  unfold _get_real_time_usage_count. apply returns_try_except_total.
  apply returns_bind. eapply returns_mono.
  { apply list_files_exact; [apply Hreads|done|by apply reads_ok_list]. }
  intros l w1 [Hb1 ->]. eapply returns_mono; [apply count_holders_exact|].
  intros c w2 [Hb2 ->]. rewrite Hb1 in *. split; [done|].
  unfold holders, record_files. lia.
Qed.

End RealTime.

(** However the names are drawn, distinct records holding [k] are no
    more than the scan counts. *)
Lemma at_most_holders k s : at_most k (holders k s) s.
Proof.
  intros ns Hnd Hns. unfold holders. apply inj_le, submseteq_length.
  apply NoDup_submseteq; [done|]. intros n Hn.
  destruct (Hns n Hn) as [[Hpre Hsuf] Hh].
  apply list_elem_of_filter. split; [done|].
  unfold record_files. apply list_elem_of_filter. split; [done|].
  unfold listed. simpl. apply list_elem_of_filter.
  split; [by apply record_not_folder|].
  unfold Bucket.names. apply list_elem_of_filter. split; [done|].
  unfold holds in Hh.
  destruct (Bucket.get n s) as [b|] eqn:Hg; [|done].
  by eapply get_Some_elem.
Qed.

Lemma at_most_mono k c (s s' : Bucket.store) :
  (∀ n, is_record_file n → holds k s' n = true → holds k s n = true) →
  at_most k c s → at_most k c s'.
Proof.
  intros Hm Hs ns Hnd Hns. apply Hs; [done|]. intros n Hn.
  destruct (Hns n Hn). split; [done|]. by apply Hm.
Qed.

Lemma holds_put_ne k p b s n : n ≠ p → holds k (Bucket.put p b s) n = holds k s n.
Proof. intros. unfold holds. by rewrite get_put_ne. Qed.

Lemma holds_del_ne k p s n : n ≠ p → holds k (Bucket.del p s) n = holds k s n.
Proof. intros. unfold holds. by rewrite get_del_ne. Qed.

Lemma is_record_file_not_private n : is_record_file n → private n → False.
Proof. intros [H _] Hp. unfold private in Hp. congruence. Qed.

Lemma at_most_stable k c : stable (at_most k c).
Proof.
  intros s p Hp. split; [intros b|]; apply at_most_mono; intros n Hn.
  - rewrite holds_put_ne; [done|]. intros ->.
    by apply (is_record_file_not_private p).
  - rewrite holds_del_ne; [done|]. intros ->.
    by apply (is_record_file_not_private p).
Qed.

Lemma cap_respected_stable : stable cap_respected.
Proof.
  intros s p Hp. split; [intros b|]; intros H k; by apply at_most_stable.
Qed.

(** Writing one record that newly holds [k] raises the number of
    holders by at most one. *)
Lemma at_most_put_one k c p b s :
  at_most k c s → at_most k (c + 1) (Bucket.put p b s).
Proof.
  intros Hs ns Hnd Hns.
  assert (Z.of_nat (length (filter (λ n, n ≠ p) ns)) ≤ c) as Hle.
  { apply Hs; [by apply NoDup_filter|].
    intros n [Hne Hn]%list_elem_of_filter. destruct (Hns n Hn) as [Hr Hh].
    split; [done|]. by rewrite holds_put_ne in Hh. }
  assert (length ns ≤ S (length (filter (λ n, n ≠ p) ns)))%nat; [|lia].
  clear -Hnd. induction Hnd as [|x l Hx Hnd IH]; simpl; [lia|].
  destruct (decide (x = p)) as [->|Hne].
  - rewrite filter_cons_False by (by intros ?).
    assert (filter (λ n, n ≠ p) l = l) as ->; [|lia].
    clear -Hx. induction l as [|y l IH]; [done|].
    rewrite filter_cons_True.
    + f_equal. apply IH. intros ?. apply Hx. by right.
    + intros ->. apply Hx. left.
  - rewrite filter_cons_True by done. simpl. lia.
Qed.

(** ** Writing the worker's record *)

Lemma returns_cond {A} (m : M A) w (C : Prop) (Q : A → world → Prop) :
  total m → (C → returns m w Q) → returns m w (λ a w', C → Q a w').
Proof.
  intros Ht H. specialize (Ht w). unfold returns, wp in *.
  destruct (m w).1; [|done]. intros HC. by apply H.
Qed.

Section Records.

Variable env : environment.

Lemma download_csv_spec p w :
  returns (download_csv env p) w
    (λ o w', blobs w' = blobs w
             ∧ (o = None ∨ o = Bucket.get p (blobs w) ≫= Frame.read_csv)
             ∧ (initialized env = true ∧ read_ok env p →
                o = Bucket.get p (blobs w) ≫= Frame.read_csv)).
Proof.
  eapply returns_mono.
  { apply returns_and; [apply download_csv_val|].
    apply (returns_cond _ _ (initialized env = true ∧ read_ok env p));
      [apply download_csv_total|].
    intros [Hi Hr]. by apply download_csv_exact. }
  intros o w' [[Hb Hv] He]. split; [done|]. split; [done|].
  intros H. by destruct (He H).
Qed.

Lemma download_json_spec p w :
  returns (download_json env p) w
    (λ o w', blobs w' = blobs w
             ∧ (o = None ∨ o = Bucket.get p (blobs w) ≫= JsonObj.loads)
             ∧ (initialized env = true ∧ read_ok env p →
                o = Bucket.get p (blobs w) ≫= JsonObj.loads)).
Proof.
  eapply returns_mono.
  { apply returns_and; [apply download_json_val|].
    apply (returns_cond _ _ (initialized env = true ∧ read_ok env p));
      [apply download_json_total|].
    intros [Hi Hr]. by apply download_json_exact. }
  intros o w' [[Hb Hv] He]. split; [done|]. split; [done|].
  intros H. by destruct (He H).
Qed.

Lemma upload_csv_spec p df w :
  returns (upload_csv env p df) w
    (λ ok w',
       (blobs w' = blobs w ∨ blobs w' = Bucket.put p (BlobCsv df) (blobs w))
       ∧ (ok = true → blobs w' = Bucket.put p (BlobCsv df) (blobs w))
       ∧ (initialized env = true ∧ write_ok env p →
          ok = true ∧ blobs w' = Bucket.put p (BlobCsv df) (blobs w))
       ∧ ((∀ n c, raises env n (OpUpload p c) ≠ None) →
          ok = false ∧ blobs w' = blobs w)).
Proof.
  eapply returns_mono.
  { apply returns_and.
    - apply returns_try_except_total, upload_spec.
    - apply (returns_cond _ _ (∀ n c, raises env n (OpUpload p c) ≠ None));
        [apply upload_csv_total|].
      intros H. by apply upload_csv_refused. }
  intros ok w' [(H1 & H2 & H3) H4].
  split; [done|]. split; [done|]. split; [|done].
  intros [Hi Hw]. by apply H3.
Qed.

(** What [_add_workset_to_user_record] does: it appends a [not_started]
    row for [k], marked as auto-assigned, to the record it read, or to
    an empty table when it read none, and uploads the result. *)
Lemma _add_workset_to_user_record_effect u k w :
  returns (_add_workset_to_user_record env u k) w
    (λ ok w',
       ∃ read r,
         (read = None
          ∨ read = Bucket.get (record_path u) (blobs w) ≫= Frame.read_csv)
         ∧ (initialized env = true ∧ read_ok env (record_path u) →
            read = Bucket.get (record_path u) (blobs w) ≫= Frame.read_csv)
         ∧ workset r = Some k ∧ status r = Some "not_started"
         ∧ auto_assigned r = Some true
         ∧ let new :=
             BlobCsv (Frame.concat
                        (default (DataFrame ["workset"; "status"] []) read)
                        new_task_columns r) in
           (blobs w' = blobs w
            ∨ blobs w' = Bucket.put (record_path u) new (blobs w))
           ∧ (ok = true → blobs w' = Bucket.put (record_path u) new (blobs w))
           ∧ (initialized env = true ∧ write_ok env (record_path u) →
              ok = true ∧ blobs w' = Bucket.put (record_path u) new (blobs w))
           ∧ ((∀ n c, raises env n (OpUpload (record_path u) c) ≠ None) →
              ok = false ∧ blobs w' = blobs w)).
Proof.
  unfold _add_workset_to_user_record. apply returns_try_except_total.
  cbv zeta. apply returns_bind.
  eapply returns_mono; [apply download_csv_spec|].
  intros read w1 (Hb & Hv & He). apply returns_bind, returns_ticks.
  eapply returns_mono; [apply upload_csv_spec|].
  intros ok w2 (H1 & H2 & H3 & H4). rewrite Hb in *.
  exists read,
    (Row (Some k) (Some "not_started") (Some true)
         [("assigned_at", now env (length (trace w1)));
          ("assignment_type", "user_request")]).
  split; [done|]. split; [done|].
  split; [done|]. split; [done|]. split; [done|]. cbv zeta.
  by destruct read.
Qed.

(** What [_remove_workset_from_user_record] does: it uploads the
    record it read without the auto-assigned rows for [k], or leaves
    the store alone. *)
Lemma _remove_workset_from_user_record_effect u k w :
  returns (_remove_workset_from_user_record env u k) w
    (λ _ w',
       blobs w' = blobs w
       ∨ ∃ df,
           Bucket.get (record_path u) (blobs w) ≫= Frame.read_csv = Some df
           ∧ blobs w'
             = Bucket.put (record_path u)
                 (BlobCsv
                    (DataFrame (columns df)
                       (filter (λ r, is_auto_assigned_row k df r = false)
                               (rows df))))
                 (blobs w)).
Proof.
  unfold _remove_workset_from_user_record. apply returns_try_except.
  cbv zeta. apply wp_bind_returns.
  eapply returns_mono; [apply download_csv_spec|].
  intros read w1 (Hb & Hv & _).
  destruct read as [df|]; [|apply wp_ret; by left].
  destruct Hv as [|Hv]; [done|].
  apply wp_bind, wp_getitem.
  destruct (Frame.col_workset df); [|apply returns_ret; by left].
  apply wp_bind_returns. eapply returns_mono; [apply upload_csv_spec|].
  intros ok w2 (H1 & _). apply wp_ret. rewrite Hb in *.
  destruct H1 as [->|H1]; [by left|right]. by exists df.
Qed.

End Records.

(** ** Everything but the record writes is private *)

Lemma locks_private n : Str.starts_with "system/locks/" n = true → private n.
Proof.
  unfold private, Str.starts_with. destruct n as [|a n]; [done|].
  destruct a as [[] [] [] [] [] [] [] []]; done.
Qed.

Section PrivateWrites.

Variable env : environment.
Variable I : world → Prop.
Hypothesis HI : closed private I.

Lemma usage_private : private usage_stats_path.
Proof. done. Qed.

Lemma log_private : private assignment_log_path.
Proof. done. Qed.

Lemma find_keeps u : preserves I (_find_available_workset env u).
Proof. by apply (_find_available_workset_preserves env private). Qed.

Lemma pending_keeps u : preserves I (_has_pending_worksets env u).
Proof. by apply (_has_pending_worksets_preserves env private). Qed.

Lemma completed_keeps u k : preserves I (_has_completed_workset env u k).
Proof. by apply (_has_completed_workset_preserves env private). Qed.

Lemma acquire_keeps k u : preserves I (_try_acquire_workset_lock env k u).
Proof.
  apply (_try_acquire_workset_lock_preserves env private); [done|].
  apply locks_private.
Qed.

Lemma release_keeps k u : preserves I (_release_workset_lock env k u).
Proof.
  apply (_release_workset_lock_preserves env private); [done|].
  apply locks_private.
Qed.

Lemma still_available_keeps k : preserves I (_is_workset_still_available env k).
Proof. by apply (_is_workset_still_available_preserves env private). Qed.

Lemma real_time_keeps k : preserves I (_get_real_time_usage_count env k).
Proof. by apply (_get_real_time_usage_count_preserves env private). Qed.

Lemma update_keeps k c : preserves I (_update_usage_statistics_safely env k c).
Proof. by apply (_update_usage_statistics_safely_preserves env private). Qed.

Lemma rollback_keeps k : preserves I (_rollback_usage_statistics env k).
Proof. by apply (_rollback_usage_statistics_preserves env private). Qed.

Lemma log_keeps u k : preserves I (_log_assignment env u k).
Proof. by apply (_log_assignment_preserves env private). Qed.

Lemma create_keeps u k : preserves I (create_workset_file env u k).
Proof. by apply (create_workset_file_preserves env private). Qed.

End PrivateWrites.

(** ** A request keeps what the record writes keep

    [I] is closed under private writes; [S name c] is what the
    real-time scan establishes when it counts [c] holders of [name];
    [P] holds of the candidates the scan of the ledger can select.
    When appending a row for a candidate and removing it again keep
    [I], so do the commit and the whole request. *)

Section Request.

Variable env : environment.
Variable username : string.
Variable I : world → Prop.
Variable S : string → Z → world → Prop.
Variable P : string → Prop.
Hypothesis HI : closed private I.
Hypothesis HS : ∀ name c, closed private (λ w, I w ∧ S name c w).
Hypothesis Hscan :
  ∀ name w, I w →
    returns (_get_real_time_usage_count env name) w (λ c w', I w' ∧ S name c w').
Hypothesis Hfind :
  ∀ w, I w →
    returns (_find_available_workset env username) w
      (λ r w', I w' ∧ ∀ name, r = Some name → P name).
Hypothesis Hadd :
  ∀ name c w, P name → c < 3 → I w → S name c w →
    wp (_add_workset_to_user_record env username name) w (λ _ w', I w').
Hypothesis Hremove :
  ∀ name, P name →
    preserves I (_remove_workset_from_user_record env username name).

Lemma commit_keeps name :
  P name → preserves I (_complete_workset_assignment env username name).
Proof.
  intros HP.
  pose proof (completed_keeps env I HI). pose proof (rollback_keeps env I HI).
  pose proof (create_keeps env I HI). pose proof (log_keeps env I HI).
  unfold _complete_workset_assignment.
  apply preserves_try_except; [|intros; preserve].
  apply preserves_bind; [done|]. intros [|]; [preserve|].
  intros w Hw. apply wp_bind_returns.
  eapply returns_mono; [by apply Hscan|]. intros c w1 [Hw1 Hs1].
  destruct (c >=? 3) eqn:Hc; [by apply wp_ret|].
  apply wp_bind. eapply wp_mono.
  { by apply (update_keeps env _ (HS name c)). }
  intros [updated|e] w2 [Hw2 Hs2]; [|done].
  destruct updated; simpl; [|by apply wp_ret].
  apply wp_bind. eapply wp_mono; [apply (Hadd name c); [done|lia|done..]|].
  intros [added|e] w3 Hw3; [|done]. revert w3 Hw3.
  change (preserves I
    (if negb added
     then bind (_rollback_usage_statistics env name) (λ _, ret false)
     else
       bind (create_workset_file env username name)
         (λ created,
            if negb created
            then bind (_rollback_usage_statistics env name)
                   (λ _, bind (_remove_workset_from_user_record env username name)
                           (λ _, ret false))
            else bind (_log_assignment env username name) (λ _, ret true)))).
  pose proof (Hremove name HP). preserve.
Qed.

(** One attempt keeps [I], and what it returns is a candidate. *)
Lemma attempt_keeps w :
  I w →
  returns (attempt env username) w
    (λ o w', I w' ∧ ∀ name, o = Return (Some name) → P name).
Proof.
  intros Hw. unfold attempt. apply returns_try_except_total.
  apply returns_bind. eapply returns_mono; [by apply Hfind|].
  intros r w1 [Hw1 Hr].
  destruct r as [name|]; [|by apply returns_ret].
  apply returns_bind. eapply returns_mono.
  { apply (preserves_total I); [by apply acquire_keeps|auto with preserves|done]. }
  intros locked w2 Hw2. destruct locked; [|by apply returns_ret].
  apply returns_try_finally, returns_bind. eapply returns_mono.
  { apply (preserves_total I);
      [by apply still_available_keeps|auto with preserves|done]. }
  intros still w3 Hw3.
  assert (∀ o w, I w → (∀ name', o = Return (Some name') → P name') →
            returns (_release_workset_lock env name username) w
              (λ _ w', I w' ∧ ∀ name', o = Return (Some name') → P name'))
    as Hrel.
  { intros o w' Hw' Ho. eapply returns_mono.
    { apply (preserves_total I);
        [by apply release_keeps|auto with preserves|done]. }
    by intros ? w'' Hw''. }
  destruct still; [|by apply returns_ret, Hrel].
  apply returns_bind. eapply returns_mono.
  { apply (preserves_total I);
      [apply commit_keeps; by apply Hr|auto with preserves|done]. }
  intros assigned w4 Hw4.
  destruct assigned; apply returns_ret, Hrel; try done.
  intros name' [= <-]. by apply Hr.
Qed.

Lemma attempts_keep n w :
  I w →
  returns (attempts env n username) w
    (λ r w', I w' ∧ ∀ name, r = Some name → P name).
Proof.
  revert w. induction n as [|n IH]; intros w Hw; simpl;
    [by apply returns_ret|].
  apply returns_bind. eapply returns_mono; [by apply attempt_keeps|].
  intros [v|] w' [Hw' Hv]; [|by apply IH].
  apply returns_ret. split; [done|]. intros name ->. by apply Hv.
Qed.

(** A request keeps [I], and the workset it returns is a candidate. *)
Lemma request_keeps w :
  I w →
  returns (request_new_workset env username) w
    (λ r w', I w' ∧ ∀ name, r = Some name → P name).
Proof.
  intros Hw. unfold request_new_workset. apply returns_bind.
  eapply returns_mono.
  { apply (preserves_total I);
      [by apply pending_keeps|auto with preserves|done]. }
  intros [|] w1 Hw1; [by apply returns_ret|]. by apply attempts_keep.
Qed.

End Request.

(** ** The cap invariant for requests that do not overlap *)

Lemma holds_put_eq k p b s :
  holds k (Bucket.put p b s) p
  = match Frame.read_csv b with
    | Some df => Frame.mentions k df
    | None => false
    end.
Proof. unfold holds. by rewrite get_put_eq. Qed.

Lemma mentions_cells k df :
  existsb (Frame.row_is k) (Frame.cells df <$> rows df) = true →
  Frame.mentions k df = true.
Proof.
  intros (r' & Hin & Hk)%existsb_exists.
  apply list_elem_of_In, list_elem_of_fmap in Hin as (r & -> & Hin).
  unfold Frame.row_is, Frame.cells in Hk. simpl in Hk.
  unfold Frame.mentions.
  destruct (Frame.has_column "workset" df); [|by apply bool_decide_eq_true in Hk].
  simpl. apply existsb_exists. exists r. split; [by apply list_elem_of_In|done].
Qed.

Lemma mentions_concat k df cols r :
  Frame.mentions k (Frame.concat df cols r) = true →
  workset r = Some k ∨ Frame.mentions k df = true.
Proof.
  unfold Frame.mentions at 1. intros [_ Hex]%andb_true_iff. simpl in Hex.
  rewrite existsb_app in Hex. apply orb_true_iff in Hex as [Hex|Hex].
  - right. by apply mentions_cells.
  - left. simpl in Hex. rewrite orb_false_r in Hex.
    by apply bool_decide_eq_true in Hex.
Qed.

Lemma read_csv_Some df df' :
  Frame.read_csv (BlobCsv df) = Some df' → df' = df.
Proof. simpl. destruct (columns df); congruence. Qed.

Lemma at_most_le k c c' s : c ≤ c' → at_most k c s → at_most k c' s.
Proof. intros Hle Hs ns Hnd Hns. specialize (Hs ns Hnd Hns). lia. Qed.

(** Appending a row for [name] to a record keeps the cap when fewer
    than three records held [name]. *)
Lemma cap_respected_add s p read cols r name c :
  (read = None ∨ read = Bucket.get p s ≫= Frame.read_csv) →
  workset r = Some name → at_most name c s → c < 3 → cap_respected s →
  cap_respected
    (Bucket.put p
       (BlobCsv (Frame.concat (default (DataFrame ["workset"; "status"] []) read)
                              cols r)) s).
Proof.
  intros Hread Hr Hc Hlt Hcap k.
  destruct (decide (k = name)) as [->|Hne].
  { apply (at_most_le _ (c + 1)); [lia|]. by apply at_most_put_one. }
  apply (at_most_mono _ _ s); [|done]. intros n _.
  destruct (decide (n = p)) as [->|Hnp]; [|by rewrite holds_put_ne].
  rewrite holds_put_eq.
  destruct (Frame.read_csv _) as [df|] eqn:Hdf; [|done].
  apply read_csv_Some in Hdf as ->.
  intros [Hk|Hm]%mentions_concat; [congruence|].
  destruct Hread as [-> | ->]; [done|]. unfold holds.
  by destruct (Bucket.get p s ≫= Frame.read_csv).
Qed.

(** Dropping rows from a record keeps the cap. *)
Lemma cap_respected_shrink s p df (keep : row → Prop) `{∀ r, Decision (keep r)} :
  Bucket.get p s ≫= Frame.read_csv = Some df → cap_respected s →
  cap_respected
    (Bucket.put p (BlobCsv (DataFrame (columns df) (filter keep (rows df)))) s).
Proof.
  intros Hdf Hcap k. apply (at_most_mono _ _ s); [|done]. intros n _.
  destruct (decide (n = p)) as [->|Hnp]; [|by rewrite holds_put_ne].
  rewrite holds_put_eq. unfold holds. rewrite Hdf.
  destruct (Frame.read_csv _) as [df'|] eqn:Hdf'; [|done].
  apply read_csv_Some in Hdf' as ->.
  unfold Frame.mentions, Frame.has_column.
  simpl. intros [Hc Hex]%andb_true_iff. rewrite Hc. simpl.
  apply existsb_exists in Hex as (r & Hin & Hk). apply existsb_exists.
  exists r. split; [|done].
  apply list_elem_of_In. apply list_elem_of_In in Hin.
  by apply list_elem_of_filter in Hin as [_ ?].
Qed.

Section Cap.

Variable env : environment.
Hypothesis Hreads : reads_ok env.

Lemma request_keeps_cap username w :
  cap_respected (blobs w) →
  returns (request_new_workset env username) w
    (λ _ w', cap_respected (blobs w')).
Proof.
  assert (∀ w, cap_respected (blobs w) →
            returns (request_new_workset env username) w
              (λ r w', cap_respected (blobs w')
                       ∧ ∀ name, r = Some name → True)) as H.
  { apply (request_keeps env username _
             (λ name c w, at_most name c (blobs w)) (λ _, True)).
    - apply closed_stable, cap_respected_stable.
    - intros name c. apply closed_and; apply closed_stable;
        [apply cap_respected_stable|apply at_most_stable].
    - intros name w' Hw. eapply returns_mono;
        [by apply _get_real_time_usage_count_exact|].
      intros c w'' [Hb ->]. rewrite Hb. split; [done|apply at_most_holders].
    - intros w' Hw. eapply returns_mono.
      { apply (preserves_total (λ w, cap_respected (blobs w)));
          [|apply _find_available_workset_total|done].
        apply find_keeps, closed_stable, cap_respected_stable. }
      by intros r w'' Hw'.
    - intros name c w' _ Hlt Hw Hc. eapply returns_wp;
        [apply _add_workset_to_user_record_effect|].
      intros ok w'' (read & r & Hread & _ & Hr & _ & _ & [-> | ->] & _);
        [done|].
      by eapply cap_respected_add.
    - intros name _. apply preserves_returns. intros w' Hw.
      eapply returns_mono; [apply _remove_workset_from_user_record_effect|].
      intros ? w'' [->|(df & Hdf & ->)]; [done|].
      by apply cap_respected_shrink. }
  intros Hcap. eapply returns_mono; [by apply H|]. by intros r w' [? _].
Qed.

Lemma run_requests_keep_cap requests w :
  cap_respected (blobs w) → cap_respected (blobs (run_requests env requests w)).
Proof.
  revert w. induction requests as [|u requests IH]; intros w Hw; [done|].
  simpl. apply IH.
  destruct (returns_run _ _ _ (request_keeps_cap u w Hw)) as (r & w' & E & H).
  by rewrite E.
Qed.

End Cap.

Lemma cap_respected_workers s k (us : list string) :
  cap_respected s → NoDup us → (∀ u, u ∈ us → assigned s u k = true) →
  (length us ≤ 3)%nat.
Proof.
  intros Hcap Hnd Hus.
  assert (Z.of_nat (length (record_path <$> us)) ≤ 3) as Hle.
  { apply (Hcap k).
    - apply NoDup_fmap_2; [|done]. intros u1 u2. apply record_path_inj.
    - intros n (u & -> & Hu)%list_elem_of_fmap.
      split; [apply record_path_is_record_file|by apply Hus]. }
  rewrite length_fmap in Hle. lia.
Qed.

(** Requests that do not overlap.  Let no workset be held by more than
    three Worker Task Records, and let the reads of the store succeed.
    Then after any sequence of [request_new_workset] calls made one
    after the other, whatever uploads and deletes fail on the way,
    still no workset is held by more than three records; in
    particular, for every workset id, the workers whose Task Record
    contains a row for it are at most three.  Requests that overlap,
    and reads that fail, break the cap, as the sections on requests at
    the same time and on a store error during the count show. *)
Theorem cap_never_exceeded env requests w :
  reads_ok env →
  cap_respected (blobs w) →
  cap_respected (blobs (run_requests env requests w))
  ∧ ∀ k (workers : list string),
      NoDup workers →
      (∀ u, u ∈ workers →
            assigned (blobs (run_requests env requests w)) u k = true) →
      (length workers ≤ 3)%nat.
Proof.
  intros Hr Hw.
  pose proof (run_requests_keep_cap env Hr requests w Hw) as H.
  split; [done|]. intros k workers. by apply cap_respected_workers.
Qed.

(** ** No repeat of a completed workset (claim C2) *)

Lemma record_rows_for_stable u k sts : stable (record_rows_for u k sts).
Proof.
  intros s n Hn. split; [intros b|]; intros (df & Hg & H); exists df;
    (split; [|done]).
  - rewrite get_put_ne; [done|]. by apply not_eq_sym, private_ne_record.
  - rewrite get_del_ne; [done|]. by apply not_eq_sym, private_ne_record.
Qed.

Lemma record_read u s df :
  Bucket.get (record_path u) s = Some (BlobCsv df) → "workset" ∈ columns df →
  Bucket.get (record_path u) s ≫= Frame.read_csv = Some df.
Proof.
  intros -> Hc. simpl. destruct (columns df); [by apply elem_of_nil in Hc|done].
Qed.

Lemma record_rows_for_completed u k sts s :
  Some "completed" ∈ sts → record_rows_for u k sts s → completed s u k = true.
Proof.
  intros Hin (df & Hg & Hw & Hs & <-). unfold completed.
  rewrite (record_read u s df Hg Hw).
  unfold Frame.has_column. rewrite !bool_decide_eq_true_2 by done. simpl.
  apply list_elem_of_fmap in Hin as (r & Hst & [Hk Hr]%list_elem_of_filter).
  apply existsb_exists. exists r. split; [by apply list_elem_of_In|].
  unfold is_completed_row. rewrite Hk. simpl. by apply bool_decide_eq_true.
Qed.

Lemma statuses_for_concat k df cols r :
  "workset" ∈ columns df → "status" ∈ columns df → workset r ≠ Some k →
  statuses_for k (Frame.concat df cols r) = statuses_for k df.
Proof.
  intros Hw Hs Hr. unfold statuses_for, Frame.concat. simpl.
  rewrite filter_app, fmap_app.
  rewrite (filter_cons_False _ r) by (by intros ?%bool_decide_eq_true).
  rewrite filter_nil. simpl. rewrite app_nil_r.
  induction (rows df) as [|x l IH]; [done|]. rewrite fmap_cons.
  assert (Frame.row_is k (Frame.cells df x) = Frame.row_is k x) as Hx.
  { unfold Frame.row_is, Frame.cells, Frame.has_column. simpl.
    by rewrite (bool_decide_eq_true_2 _ Hw). }
  assert (status (Frame.cells df x) = status x) as Hst.
  { unfold Frame.cells, Frame.has_column. simpl.
    by rewrite (bool_decide_eq_true_2 _ Hs). }
  destruct (Frame.row_is k x) eqn:Hk.
  - rewrite !filter_cons_True by congruence. rewrite !fmap_cons, IH. by f_equal.
  - rewrite !filter_cons_False by congruence. done.
Qed.

Lemma statuses_for_remove k name df :
  name ≠ k →
  statuses_for k
    (DataFrame (columns df)
       (filter (λ r, is_auto_assigned_row name df r = false) (rows df)))
  = statuses_for k df.
Proof.
  intros Hne. unfold statuses_for. simpl. f_equal.
  induction (rows df) as [|x l IH]; [done|].
  destruct (Frame.row_is k x) eqn:Hk.
  - assert (is_auto_assigned_row name df x = false) as Hx.
    { unfold is_auto_assigned_row, Frame.row_is in *.
      apply bool_decide_eq_true in Hk.
      rewrite bool_decide_eq_false_2; [done|]. congruence. }
    rewrite (filter_cons_True (λ r, is_auto_assigned_row _ _ r = false)) by done.
    rewrite !filter_cons_True by done. by rewrite IH.
  - rewrite (filter_cons_False (λ r, Frame.row_is k r = true) x) by congruence.
    destruct (is_auto_assigned_row name df x) eqn:Hx.
    + by rewrite filter_cons_False by congruence.
    + rewrite filter_cons_True by done.
      by rewrite filter_cons_False by congruence.
Qed.

Section NoRepeat.

Variable env : environment.
Hypothesis Hreads : reads_ok env.
Variables (username k : string) (sts : list (option string)).
Hypothesis Hdone : Some "completed" ∈ sts.

Lemma request_keeps_rows w :
  record_rows_for username k sts (blobs w) →
  returns (request_new_workset env username) w
    (λ r w', record_rows_for username k sts (blobs w')
             ∧ ∀ name, r = Some name → name ≠ k).
Proof.
  revert w.
  apply (request_keeps env username _ (λ _ _ _, True) (λ name, name ≠ k)).
  - apply closed_stable, record_rows_for_stable.
  - intros name c. apply closed_and; [apply closed_stable|done].
    apply record_rows_for_stable.
  - intros name w Hw. eapply returns_mono.
    { apply (preserves_total (λ w, record_rows_for username k sts (blobs w)));
        [|apply _get_real_time_usage_count_total|done].
      apply real_time_keeps, closed_stable, record_rows_for_stable. }
    by intros c w' Hw'.
  - intros w Hw.
    destruct (_find_available_workset_exact env username w Hreads)
      as (usage & w1 & _ & Hfind).
    eapply returns_mono.
    { apply returns_and; [|exact Hfind].
      apply (preserves_total (λ w, record_rows_for username k sts (blobs w)));
        [|apply _find_available_workset_total|done].
      apply find_keeps, closed_stable, record_rows_for_stable. }
    intros r w' [Hw' Hr]. split; [done|]. intros name ->.
    destruct Hr as (i & _ & -> & He & _). intros E.
    unfold eligible in He. rewrite E in He.
    rewrite (record_rows_for_completed username k sts) in He by done.
    by rewrite andb_false_r in He.
  - intros name c w Hne _ Hw _. eapply returns_wp;
      [apply _add_workset_to_user_record_effect|].
    intros ok w' (read & r & _ & Hread & Hr & _ & _ & [-> | ->] & _); [done|].
    destruct Hw as (df & Hg & Hw & Hs & Hsts).
    rewrite Hread by (split; [apply Hreads|by apply reads_ok_read]).
    rewrite (record_read username _ df Hg Hw). simpl.
    eexists. split; [apply get_put_eq|]. simpl.
    split; [apply elem_of_app; by left|].
    split; [apply elem_of_app; by left|].
    rewrite statuses_for_concat; [done..|]. congruence.
  - intros name Hne. apply preserves_returns. intros w Hw.
    eapply returns_mono; [apply _remove_workset_from_user_record_effect|].
    intros ? w' [->|(df' & Hdf & ->)]; [done|].
    destruct Hw as (df & Hg & Hw & Hs & Hsts).
    rewrite (record_read username _ df Hg Hw) in Hdf.
    injection Hdf as <-.
    eexists. split; [apply get_put_eq|]. simpl.
    split; [done|]. split; [done|]. by rewrite statuses_for_remove.
Qed.

(** The commit stops at its first check and changes nothing. *)
Lemma commit_aborts_on_completed w :
  record_rows_for username k sts (blobs w) →
  returns (_complete_workset_assignment env username k) w
    (λ ok w', ok = false ∧ blobs w' = blobs w).
Proof.
  intros Hw. unfold _complete_workset_assignment.
  apply returns_try_except_total, returns_bind.
  eapply returns_mono; [by apply _has_completed_workset_exact|].
  intros b w' [Hb ->].
  rewrite (record_rows_for_completed username k sts) by done.
  by apply returns_ret.
Qed.

End NoRepeat.

(** Claim C2, amended.  Let the worker's Task Record hold a row for
    workset [k] with status [completed], and let the storage client be
    initialised and no exists, download or list call raise.  Then
    [request_new_workset] does not return [k], and the rows for [k] in
    the worker's record are afterwards the same, with the same
    statuses: no assignment row for [k] is appended.  And were the
    commit reached for [k] all the same, it would return [False] at its
    first check with every blob unchanged.  Without the condition on
    the reads the claim fails: [_has_completed_workset] takes a record
    it cannot read for a record without the row. *)
Theorem completed_workset_is_never_reassigned env username k w df :
  reads_ok env →
  Bucket.get (record_path username) (blobs w) = Some (BlobCsv df) →
  "workset" ∈ columns df →
  "status" ∈ columns df →
  (∃ r, r ∈ rows df ∧ workset r = Some k ∧ status r = Some "completed") →
  (∃ r w' df',
     request_new_workset env username w = (Ok r, w')
     ∧ r ≠ Some k
     ∧ Bucket.get (record_path username) (blobs w') = Some (BlobCsv df')
     ∧ statuses_for k df' = statuses_for k df)
  ∧ (∃ w',
       _complete_workset_assignment env username k w = (Ok false, w')
       ∧ blobs w' = blobs w).
Proof.
  intros Hreads Hget Hw Hs (r0 & Hin & Hk & Hst).
  assert (Some "completed" ∈ statuses_for k df) as Hdone.
  { unfold statuses_for. apply list_elem_of_fmap. exists r0.
    split; [done|]. apply list_elem_of_filter. split; [|done].
    by apply bool_decide_eq_true. }
  assert (record_rows_for username k (statuses_for k df) (blobs w)) as Hrec.
  { by exists df. }
  split.
  - destruct (returns_run _ _ _
      (request_keeps_rows env Hreads username k _ Hdone w Hrec))
      as (r & w' & E & (df' & Hg' & _ & _ & Hsts) & Hr).
    exists r, w', df'. repeat split; try done.
    intros ->. by apply (Hr k).
  - destruct (returns_run _ _ _
      (commit_aborts_on_completed env Hreads username k _ Hdone w Hrec))
      as (ok & w' & E & -> & Hb).
    by exists w'.
Qed.

(** ** A store error during the real-time count (claim C10) *)

(** When the listing raises, [list_files] answers [[]] and the count
    is 0: the handler that returns 999 is not reached. *)
Lemma listing_error_gives_zero env k w :
  (∀ n, raises env n (OpList "annotators/") ≠ None) →
  (_get_real_time_usage_count env k w).1 = Ok 0.
Proof.
  intros Hf.
  unfold _get_real_time_usage_count, list_files, fb_list_files, try_except,
    bind, call, ret.
  destruct (initialized env); [|done]. simpl.
  destruct (raises env _ (OpList "annotators/")) eqn:E; [done|].
  by destruct (Hf _ E).
Qed.

(** Claim C10 fails on the code.  Three workers hold workset_001 and
    every listing of "annotators/" raises.  The real-time count is then
    0, not 999, and [request_new_workset] commits workset_001 to a
    fourth worker. *)
Theorem listing_error_lets_commit_through :
  (_get_real_time_usage_count Example.env_listing_down "workset_001"
     Example.three_holders).1 = Ok 0
  ∧ holders "workset_001" (blobs Example.three_holders) = 3
  ∧ (request_new_workset Example.env_listing_down "dora"
       Example.three_holders).1 = Ok (Some "workset_001")
  ∧ holders "workset_001"
      (blobs (request_new_workset Example.env_listing_down "dora"
                Example.three_holders).2) = 4.
Proof. repeat split; by vm_compute. Qed.

(** ** Rollback (claim C4) *)

(** Claim C4 as stated fails.  Two workers hold workset_001, the ledger
    has no entry for it and its dataset is missing.  The commit for a
    third worker regenerates the ledger, increments it, appends the
    row, fails to materialise the workset and rolls back: the worker's
    record has no row for workset_001, but the ledger's count is 2 and
    was 0 before the attempt. *)
Lemma rollback_keeps_regenerated_count :
  ¬ rollback_restores Example.env_ok "dora" "workset_001" Example.stale_ledger.
Proof.
  intros H. destruct H as [Hc _].
  - by vm_compute.
  - eexists _, _. apply list_elem_of_lookup. exists 18%nat. by vm_compute.
  - by vm_compute in Hc.
Qed.

(** ** Stores reached by uploads *)

Section Uploads.

Implicit Types (s : Bucket.store) (N : string → Prop) (n p : string).

Lemma uploads_to_put N p b s : N p → uploads_to N s (Bucket.put p b s).
Proof. intros. apply uploads_more; [apply uploads_none|done]. Qed.

Lemma uploads_to_trans N s1 s2 s3 :
  uploads_to N s1 s2 → uploads_to N s2 s3 → uploads_to N s1 s3.
Proof. intros H1 H2. induction H2; [done|]. apply uploads_more; auto. Qed.

Lemma uploads_to_weaken N N' s s' :
  (∀ n, N n → N' n) → uploads_to N s s' → uploads_to N' s s'.
Proof. intros HN H. induction H; [apply uploads_none|]. apply uploads_more; auto. Qed.

Lemma uploads_to_get N s s' n :
  uploads_to N s s' → ¬ N n → Bucket.get n s' = Bucket.get n s.
Proof.
  induction 1 as [|s s' p b H IH Hp]; [done|]. intros Hn.
  rewrite get_put_ne; [auto|]. by intros ->.
Qed.

Lemma put_names p b s :
  (Bucket.put p b s).*1 = s.*1 ++ (if decide (p ∈ s.*1) then [] else [p]).
Proof.
  induction s as [|[n c] s IH]; [done|]. cbn [Bucket.put].
  destruct (decide (n = p)) as [->|Hne]; rewrite !fmap_cons; cbn [fst].
  - rewrite decide_True by apply list_elem_of_here. by rewrite app_nil_r.
  - rewrite IH. cbn [app]. f_equal. f_equal.
    destruct (decide (p ∈ s.*1)) as [Hin|Hout].
    + by rewrite decide_True by by apply list_elem_of_further.
    + rewrite decide_False; [done|].
      intros [?|?]%elem_of_cons; congruence.
Qed.

(** Uploads only add names, at the end of the listing. *)
Lemma uploads_to_names N s s' :
  uploads_to N s s' →
  ∃ extra, s'.*1 = s.*1 ++ extra ∧ ∀ n, n ∈ extra → n ∉ s.*1.
Proof.
  induction 1 as [s|s s' p b H (extra & E & Hnew) Hp].
  - exists []. split; [by rewrite app_nil_r|]. by intros n ?%elem_of_nil.
  - rewrite put_names, E. destruct (decide (p ∈ s.*1 ++ extra)) as [Hin|Hout].
    + exists extra. by rewrite app_nil_r.
    + exists (extra ++ [p]). split; [by rewrite app_assoc|].
      intros n [Hn|Hn%list_elem_of_singleton]%elem_of_app; [by apply Hnew|].
      subst n. intros Hs. apply Hout, elem_of_app. by left.
Qed.

Lemma get_None_names n s : n ∉ s.*1 → Bucket.get n s = None.
Proof.
  intros Hn. destruct (Bucket.get n s) as [b|] eqn:E; [|done].
  by apply get_Some_elem in E.
Qed.

Lemma record_files_names s : record_files s = records_in (s.*1).
Proof. reflexivity. Qed.

Lemma records_in_app l1 l2 :
  records_in (l1 ++ l2) = records_in l1 ++ records_in l2.
Proof. unfold records_in. by rewrite !filter_app. Qed.

Lemma records_in_elem n l : n ∈ records_in l → n ∈ l ∧ is_record_file n.
Proof.
  unfold records_in. intros [Hsuf [_ [Hpre Hn]%list_elem_of_filter
    ]%list_elem_of_filter]%list_elem_of_filter.
  by repeat split.
Qed.

Lemma filter_holds_ext k s s' (l : list string) :
  (∀ n, n ∈ l → holds k s' n = holds k s n) →
  filter (λ n, holds k s' n = true) l = filter (λ n, holds k s n = true) l.
Proof.
  induction l as [|n l IH]; [done|]. intros Hl.
  assert (holds k s' n = holds k s n) as E by apply Hl, list_elem_of_here.
  assert (filter (λ n, holds k s' n = true) l
          = filter (λ n, holds k s n = true) l) as El.
  { apply IH. intros m Hm. by apply Hl, list_elem_of_further. }
  destruct (holds k s n) eqn:Hh.
  - rewrite !filter_cons_True by done. by rewrite El.
  - rewrite !filter_cons_False by congruence. exact El.
Qed.

Lemma filter_holds_none k s (l : list string) :
  (∀ n, n ∈ l → holds k s n = false) →
  filter (λ n, holds k s n = true) l = [].
Proof.
  induction l as [|n l IH]; [done|]. intros Hl.
  rewrite filter_cons_False.
  - apply IH. intros m Hm. by apply Hl, list_elem_of_further.
  - rewrite (Hl n) by apply list_elem_of_here. done.
Qed.

(** Uploads that leave every record holding what it held leave the
    number of holders as it was. *)
Lemma holders_uploads N k s s' :
  uploads_to N s s' →
  (∀ n, is_record_file n → holds k s' n = holds k s n) →
  holders k s' = holders k s.
Proof.
  intros (extra & E & Hnew)%uploads_to_names Hsame. unfold holders.
  rewrite !record_files_names, E, records_in_app, filter_app, length_app.
  rewrite (filter_holds_ext k s s').
  - rewrite (filter_holds_none k s' (records_in extra)); [simpl; lia|].
    intros n [Hn Hrec]%records_in_elem. rewrite Hsame by done.
    unfold holds. by rewrite get_None_names by by apply Hnew.
  - intros n [_ Hrec]%records_in_elem. by apply Hsame.
Qed.

End Uploads.



(** ** What the steps of the commit do to the ledger and the record *)

Lemma ledger_count_put_json j s k :
  ledger_count (Bucket.put usage_stats_path (BlobJson j) s) k
  = JsonObj.count (default ∅ (workset_usage j)) k.
Proof. unfold ledger_count. by rewrite get_put_eq. Qed.

Lemma ledger_count_put_ne p b s k :
  usage_stats_path ≠ p → ledger_count (Bucket.put p b s) k = ledger_count s k.
Proof. intros. unfold ledger_count. by rewrite get_put_ne. Qed.

Lemma assigned_put_ne p b s u k :
  record_path u ≠ p → assigned (Bucket.put p b s) u k = assigned s u k.
Proof. apply holds_put_ne. Qed.

Lemma ledger_is_not_a_record u : record_path u ≠ usage_stats_path.
Proof. done. Qed.

Lemma log_is_not_a_record u : record_path u ≠ assignment_log_path.
Proof. done. Qed.

Lemma output_is_not_a_record u u' k :
  record_path u ≠ "coding_result/" +:+ u' +:+ "/" +:+ k +:+ ".csv".
Proof. done. Qed.

Lemma output_is_not_the_ledger u k :
  usage_stats_path ≠ "coding_result/" +:+ u +:+ "/" +:+ k +:+ ".csv".
Proof. done. Qed.

Lemma ledger_count_get s s' k :
  Bucket.get usage_stats_path s' = Bucket.get usage_stats_path s →
  ledger_count s' k = ledger_count s k.
Proof. unfold ledger_count. by intros ->. Qed.

Lemma assigned_get s s' u k :
  Bucket.get (record_path u) s' = Bucket.get (record_path u) s →
  assigned s' u k = assigned s u k.
Proof. unfold assigned, holds. by intros ->. Qed.

(** The row the assigner appends makes the record mention the workset,
    and removing the assigner's rows for the workset takes it out
    again. *)
Lemma read_csv_has_column c df :
  Frame.has_column c df = true → Frame.read_csv (BlobCsv df) = Some df.
Proof.
  unfold Frame.has_column, Frame.read_csv. intros H%bool_decide_eq_true.
  destruct (columns df); [by apply elem_of_nil in H|done].
Qed.

Lemma has_column_concat c df cols r :
  c ∈ cols → Frame.has_column c (Frame.concat df cols r) = true.
Proof.
  intros Hc. apply bool_decide_eq_true. simpl. apply elem_of_app.
  destruct (decide (c ∈ columns df)); [by left|right].
  by apply list_elem_of_filter.
Qed.

Lemma workset_is_new_task_column : "workset" ∈ new_task_columns.
Proof. apply list_elem_of_here. Qed.

Lemma auto_assigned_is_new_task_column : "auto_assigned" ∈ new_task_columns.
Proof. do 3 apply list_elem_of_further. apply list_elem_of_here. Qed.

Lemma read_csv_inv b df : Frame.read_csv b = Some df → b = BlobCsv df.
Proof.
  destruct b as [|d| |]; try done. simpl.
  destruct (columns d); [done|]. by intros [= ->].
Qed.

Lemma holds_get k s n df :
  Bucket.get n s = Some (BlobCsv df) →
  Frame.read_csv (BlobCsv df) = Some df →
  holds k s n = Frame.mentions k df.
Proof.
  unfold holds. intros -> E.
  change (Some (BlobCsv df) ≫= Frame.read_csv)
    with (Frame.read_csv (BlobCsv df)).
  by rewrite E.
Qed.

Lemma holds_put_unmentioned k p df s :
  Frame.mentions k df = false → holds k (Bucket.put p (BlobCsv df) s) p = false.
Proof.
  intros H. rewrite holds_put_eq.
  destruct (Frame.read_csv (BlobCsv df)) as [df2|] eqn:E; [|done].
  apply read_csv_inv in E. by injection E as <-.
Qed.

Lemma mentions_concat_new k df cols r :
  workset r = Some k → "workset" ∈ cols →
  Frame.mentions k (Frame.concat df cols r) = true.
Proof.
  intros Hr Hc. unfold Frame.mentions. rewrite has_column_concat by done.
  simpl. rewrite existsb_app. apply orb_true_iff. right. simpl.
    unfold Frame.row_is. by rewrite bool_decide_eq_true_2.
Qed.

Lemma mentions_removed k df r :
  Frame.mentions k df = false →
  workset r = Some k → auto_assigned r = Some true →
  let df' := Frame.concat df new_task_columns r in
  Frame.mentions k
    (DataFrame (columns df')
       (filter (λ x, is_auto_assigned_row k df' x = false) (rows df')))
  = false.
Proof.
  intros Hdf Hr Ha df'. unfold Frame.mentions at 1. simpl.
  apply andb_false_iff. right. apply not_true_iff_false. intros He.
  apply existsb_exists in He as (x & Hx & Hk).
  apply list_elem_of_In, list_elem_of_filter in Hx as [Hkeep Hx].
  apply elem_of_app in Hx as [Hx|Hx].
  - apply list_elem_of_fmap in Hx as (x0 & -> & Hx0).
    unfold Frame.row_is, Frame.cells in Hk. simpl in Hk.
    apply bool_decide_eq_true in Hk.
    destruct (Frame.has_column "workset" df) eqn:Hcol; [|done].
    assert (Frame.mentions k df = true); [|congruence].
    unfold Frame.mentions. rewrite Hcol. simpl.
    apply existsb_exists. exists x0. split; [by apply list_elem_of_In|].
    by apply bool_decide_eq_true.
  - apply list_elem_of_singleton in Hx as ->.
    unfold is_auto_assigned_row in Hkeep. rewrite Hk, Ha in Hkeep.
    unfold df' in Hkeep.
    rewrite has_column_concat in Hkeep
      by apply auto_assigned_is_new_task_column.
    done.
Qed.

Lemma holders_nonneg k s : 0 ≤ holders k s.
Proof. unfold holders. lia. Qed.

(** An attempt that leaves the worker's record without the workset
    leaves the number of holders as it was. *)
Lemma holders_commit_writes u k s s' :
  uploads_to (commit_writes u k) s s' →
  holds k s (record_path u) = false →
  holds k s' (record_path u) = false →
  holders k s' = holders k s.
Proof.
  intros Hup H0 H1. apply (holders_uploads _ _ _ _ Hup). intros n Hn.
  destruct (decide (n = record_path u)) as [->|Hne]; [congruence|].
  unfold holds. rewrite (uploads_to_get _ _ _ n Hup); [done|].
  intros [-> | [-> | ->]]; [|done|]; by destruct Hn as [Hn _].
Qed.

Lemma ledger_is_written u k : commit_writes u k usage_stats_path.
Proof. by left. Qed.

Lemma record_is_written u k : commit_writes u k (record_path u).
Proof. right. by left. Qed.

Lemma output_is_written u k :
  commit_writes u k ("coding_result/" +:+ u +:+ "/" +:+ k +:+ ".csv").
Proof. right. by right. Qed.

Section Rollback.

Variable env : environment.
Hypothesis Hreads : reads_ok env.
Hypothesis Hledger : write_ok env usage_stats_path.

(** What the increment observes when the expected count is the number
    of holders: the ledger's count, or the regenerated one, which it
    has then stored. *)
Lemma observe_usage_settled k w :
  wp (observe_usage env k (holders k (blobs w))) w
    (λ r w',
       match r with
       | Ok observed =>
           JsonObj.count observed.2 k = settled_count (blobs w) k
           ∧ uploads_to (λ n, n = usage_stats_path) (blobs w) (blobs w')
           ∧ (Z.abs (ledger_count (blobs w) k - holders k (blobs w)) ≤ 1 →
              blobs w' = blobs w)
       | Raised _ => blobs w' = blobs w
       end).
Proof.
  destruct Hreads as [Hi Hr].
  unfold observe_usage. apply wp_bind_returns. eapply returns_mono.
  { apply download_json_exact; [done | by apply reads_ok_read]. }
  intros loaded w1 [Hb Hl]. apply wp_bind_returns, returns_ticks.
  apply wp_bind, wp_getitem.
  assert (ledger_count (blobs w) k
          = match loaded with
            | Some j => JsonObj.count (default ∅ (workset_usage j)) k
            | None => 0
            end) as Hcount.
  { unfold ledger_count. by rewrite <- Hl. }
  assert (∀ (ud : json_obj) (usage : gmap string Z),
            JsonObj.count usage k = ledger_count (blobs w) k →
            wp (if Z.abs (JsonObj.count usage k - holders k (blobs w)) >? 1
                then usage' ← _generate_usage_statistics env; ret (ud, usage')
                else ret (ud, usage)) w1
              (λ r w',
                 match r with
                 | Ok observed =>
                     JsonObj.count observed.2 k = settled_count (blobs w) k
                     ∧ uploads_to (λ n, n = usage_stats_path)
                         (blobs w) (blobs w')
                     ∧ (Z.abs (ledger_count (blobs w) k
                               - holders k (blobs w)) ≤ 1 →
                        blobs w' = blobs w)
                 | Raised _ => blobs w' = blobs w
                 end)) as Hfinish.
  { intros ud usage E. rewrite E. unfold settled_count.
    destruct (Z.gtb_spec (Z.abs (ledger_count (blobs w) k
                                 - holders k (blobs w))) 1) as [Hfar|Hnear].
    - apply wp_bind_returns. eapply returns_mono;
        [by apply _generate_usage_statistics_exact|].
      intros usage' w2 (Hc & _ & Hw). apply wp_ret. simpl.
      destruct (Hw Hledger) as (j & _ & Hb2). rewrite Hb in Hc, Hb2.
      split; [apply Hc|]. split; [|lia]. rewrite Hb2.
      by apply uploads_to_put.
    - apply wp_ret. simpl. rewrite Hb.
      split; [done|]. split; [apply uploads_none|done]. }
  destruct loaded as [j|]; simpl.
  - destruct (JsonObj.truthy j) eqn:Ht.
    + destruct (workset_usage j) as [usage|] eqn:Hu; [|done].
      simpl in Hcount. by apply Hfinish.
    + apply negb_false_iff, bool_decide_eq_true in Ht. subst j.
      simpl in *. by apply Hfinish.
  - by apply Hfinish.
Qed.

(** With the ledger readable and writable and fewer than three
    holders, the increment either writes the count it observed plus
    one, or refuses and writes nothing. *)
Lemma _update_usage_statistics_safely_exact k w :
  holders k (blobs w) < 3 →
  returns (_update_usage_statistics_safely env k (holders k (blobs w))) w
    (λ ok w',
       if ok then
         ∃ j, Bucket.get usage_stats_path (blobs w') = Some (BlobJson j)
              ∧ JsonObj.truthy j = true
              ∧ default ∅ (workset_usage j) !! k
                = Some (settled_count (blobs w) k + 1)
              ∧ uploads_to (λ n, n = usage_stats_path) (blobs w) (blobs w')
       else blobs w' = blobs w).
Proof.
  intros Hlt. unfold _update_usage_statistics_safely.
  apply returns_try_except, wp_bind.
  eapply wp_mono; [by apply observe_usage_settled|].
  intros [[ud usage]|e] w1 Hw1; [|by apply returns_ret].
  simpl in Hw1. destruct Hw1 as (Hu & Hup & Hsame). simpl.
  destruct (Z.gtb_spec (JsonObj.count usage k + 1) 3) as [Hfull|Hroom].
  { apply wp_ret. apply Hsame. rewrite Hu in Hfull. unfold settled_count in Hfull.
    destruct (Z.gtb_spec (Z.abs (ledger_count (blobs w) k
                                 - holders k (blobs w))) 1); lia. }
  apply wp_bind_returns, returns_ticks.
  eapply returns_wp.
  { apply fb_upload_exact; [apply Hreads|done]. }
  intros ok w2 [-> Hw2]. eexists. split; [rewrite Hw2; apply get_put_eq|].
  split; [|split].
  - apply negb_true_iff, bool_decide_eq_false. intros E.
    by apply (f_equal verified_at) in E.
  - simpl. by rewrite lookup_insert_eq, Hu.
  - rewrite Hw2. by apply uploads_more.
Qed.

(** The rollback of a ledger that holds the incremented count writes
    the count from before the increment, and no entry when that count
    is not positive. *)
Lemma _rollback_usage_statistics_exact k j c w :
  Bucket.get usage_stats_path (blobs w) = Some (BlobJson j) →
  JsonObj.truthy j = true →
  default ∅ (workset_usage j) !! k = Some (c + 1) →
  returns (_rollback_usage_statistics env k) w
    (λ _ w',
       ∃ j', blobs w' = Bucket.put usage_stats_path (BlobJson j') (blobs w)
             ∧ JsonObj.count (default ∅ (workset_usage j')) k = Z.max c 0).
Proof.
  intros Hget Ht Hk. unfold _rollback_usage_statistics.
  apply returns_try_except_total, returns_bind. eapply returns_mono.
  { apply download_json_exact; [apply Hreads | by apply reads_ok_read]. }
  intros loaded w1 [Hb ->]. rewrite Hget. simpl. rewrite Ht, Hk. simpl.
  apply returns_bind, returns_ticks, returns_bind. eapply returns_mono.
  { apply fb_upload_exact; [apply Hreads|done]. }
  intros ok w2 [_ Hw2]. apply returns_ret. eexists.
  split; [by rewrite Hw2, Hb|]. simpl. unfold JsonObj.count. rewrite Hk. simpl.
  destruct (Z.leb_spec (c + 1 - 1) 0).
  - rewrite lookup_delete_eq. simpl. lia.
  - rewrite lookup_insert_eq. simpl. lia.
Qed.

(** Materialising the workset writes nothing but the workset file, and
    the log nothing but the log. *)
Lemma create_workset_file_effect u k w :
  returns (create_workset_file env u k) w
    (λ _ w',
       blobs w' = blobs w
       ∨ ∃ df, blobs w'
               = Bucket.put ("coding_result/" +:+ u +:+ "/" +:+ k +:+ ".csv")
                            (BlobCsv df) (blobs w)).
Proof.
  unfold create_workset_file. apply returns_try_except_total, returns_bind.
  eapply returns_mono; [apply download_csv_spec|].
  intros dataset_df w1 [Hb _]. destruct dataset_df as [df|].
  - apply returns_bind. eapply returns_mono; [apply upload_csv_spec|].
    intros ok w2 [[Hw2|Hw2] _].
    + destruct ok; apply returns_ret; left; congruence.
    + destruct ok; apply returns_ret; right; eexists; by rewrite Hw2, Hb.
  - apply returns_ret. by left.
Qed.

Lemma _log_assignment_effect u k w :
  returns (_log_assignment env u k) w
    (λ _ w',
       blobs w' = blobs w
       ∨ ∃ df, blobs w'
               = Bucket.put assignment_log_path (BlobCsv df) (blobs w)).
Proof.
  unfold _log_assignment. apply returns_try_except_total, returns_bind.
  eapply returns_mono; [apply download_csv_spec|].
  intros log_df w1 [Hb _]. apply returns_bind, returns_ticks, returns_bind.
  eapply returns_mono; [apply upload_csv_spec|].
  intros ok w2 [[Hw2|Hw2] _]; apply returns_ret.
  - left. congruence.
  - right. eexists. by rewrite Hw2, Hb.
Qed.

(** With the record readable and writable the removal writes the
    record without the rows the assigner added for the workset. *)
Lemma _remove_workset_from_user_record_exact u k df w :
  write_ok env (record_path u) →
  Bucket.get (record_path u) (blobs w) ≫= Frame.read_csv = Some df →
  Frame.has_column "workset" df = true →
  returns (_remove_workset_from_user_record env u k) w
    (λ _ w',
       blobs w'
       = Bucket.put (record_path u)
           (BlobCsv
              (DataFrame (columns df)
                 (filter (λ r, is_auto_assigned_row k df r = false) (rows df))))
           (blobs w)).
Proof.
  intros Hw Hget Hcol. unfold _remove_workset_from_user_record.
  apply returns_try_except_total, returns_bind. eapply returns_mono.
  { apply download_csv_exact; [apply Hreads | by apply reads_ok_read]. }
  intros record_df w1 [Hb ->]. rewrite Hget.
  unfold Frame.col_workset. rewrite Hcol. simpl.
  apply returns_bind, returns_ret, returns_bind. eapply returns_mono.
  { apply upload_csv_exact; [apply Hreads|done]. }
  intros ok w2 [_ Hw2]. apply returns_ret. by rewrite Hw2, Hb.
Qed.

(** The commit: it either commits, or leaves the worker's record
    without the workset, the number of holders as it was, and in the
    ledger the count it had or the regenerated one. *)
Lemma _complete_workset_assignment_exact u k w :
  write_ok env (record_path u) ∨ upload_refused env (record_path u) →
  assigned (blobs w) u k = false →
  returns (_complete_workset_assignment env u k) w (commit_or_nothing u k w).
Proof.
  intros Hrec Hfree. unfold _complete_workset_assignment.
  assert (∀ w', blobs w' = blobs w → commit_or_nothing u k w false w')
    as Hnothing.
  { intros w' E. unfold commit_or_nothing. rewrite E. by split; [left|]. }
  apply returns_try_except_total, returns_bind.
  eapply returns_mono; [by apply _has_completed_workset_exact|].
  intros completed w1 [Hb1 _].
  destruct completed; [by apply returns_ret, Hnothing|].
  apply returns_bind.
  eapply returns_mono; [by apply _get_real_time_usage_count_exact|].
  intros c w2 [Hb2 ->]. rewrite Hb1 in *.
  destruct (Z.geb_spec (holders k (blobs w)) 3) as [Hfull|Hlt];
    [by apply returns_ret, Hnothing|].
  apply returns_bind. eapply returns_mono.
  { rewrite <- Hb2. apply _update_usage_statistics_safely_exact.
    by rewrite Hb2. }
  intros updated w3 Hw3. rewrite Hb2 in Hw3.
  destruct updated; simpl; [|by apply returns_ret, Hnothing].
  destruct Hw3 as (j & Hled3 & Htruthy & Hk & Hup3).
  assert (Bucket.get (record_path u) (blobs w3)
          = Bucket.get (record_path u) (blobs w)) as Hrec3.
  { by apply (uploads_to_get _ _ _ _ Hup3). }
  apply (uploads_to_weaken _ (commit_writes u k)) in Hup3;
    [|intros n ->; apply ledger_is_written].
  assert (∀ c', c' = Z.max (settled_count (blobs w) k) 0 →
            c' = ledger_count (blobs w) k
            ∨ (c' = holders k (blobs w)
               ∧ (ledger_count (blobs w) k < 0
                  ∨ 1 < Z.abs (ledger_count (blobs w) k
                               - holders k (blobs w))))) as Hback.
  { intros c' ->. pose proof (holders_nonneg k (blobs w)).
    unfold settled_count.
    destruct (Z.gtb_spec (Z.abs (ledger_count (blobs w) k
                                 - holders k (blobs w))) 1); lia. }
  apply returns_bind.
  eapply returns_mono; [apply _add_workset_to_user_record_effect|].
  intros added w4 (read & r & _ & Hread & Hr1 & _ & Hr3 & Hnew).
  cbv zeta in Hnew. destruct Hnew as (_ & _ & Hwritten & Hrefused).
  rewrite Hrec3 in Hread.
  specialize (Hread (conj (proj1 Hreads) (reads_ok_read _ _ Hreads))).
  set (df0 := default (DataFrame ["workset"; "status"] []) read) in *.
  assert (Frame.mentions k df0 = false) as Hdf0.
  { unfold df0. unfold assigned, holds in Hfree. rewrite <- Hread in Hfree.
    by destruct read. }
  set (df1 := Frame.concat df0 new_task_columns r) in *.
  assert (Frame.has_column "workset" df1 = true) as Hcol1.
  { apply has_column_concat, workset_is_new_task_column. }
  assert (Frame.read_csv (BlobCsv df1) = Some df1) as Hcsv1.
  { by apply (read_csv_has_column "workset"). }
  destruct Hrec as [Hrec|Hrec].
  - (* the row is appended *)
    destruct (Hwritten (conj (proj1 Hreads) Hrec)) as [-> Hb4].
    clear Hwritten Hrefused. simpl.
    assert (Bucket.get (record_path u) (blobs w4) = Some (BlobCsv df1))
      as Hrec4.
    { rewrite Hb4. apply get_put_eq. }
    assert (Bucket.get usage_stats_path (blobs w4) = Some (BlobJson j))
      as Hled4.
    { rewrite Hb4, get_put_ne; [done|]. by intros E. }
    assert (uploads_to (commit_writes u k) (blobs w) (blobs w4)) as Hup4.
    { rewrite Hb4. apply uploads_more; [done|apply record_is_written]. }
    apply returns_bind.
    eapply returns_mono; [apply create_workset_file_effect|].
    intros created w5 Hb5.
    assert (Bucket.get (record_path u) (blobs w5) = Some (BlobCsv df1)
            ∧ Bucket.get usage_stats_path (blobs w5) = Some (BlobJson j)
            ∧ uploads_to (commit_writes u k) (blobs w) (blobs w5))
      as (Hrec5 & Hled5 & Hup5).
    { destruct Hb5 as [->|[df ->]]; [done|].
      rewrite !get_put_ne; [|by intros E..].
      split; [done|]. split; [done|].
      apply uploads_more; [done|apply output_is_written]. }
    destruct created; simpl.
    + apply returns_bind.
      eapply returns_mono; [apply _log_assignment_effect|].
      intros ? w6 Hb6. apply returns_ret. simpl.
      assert (Bucket.get (record_path u) (blobs w6) = Some (BlobCsv df1)
              ∧ Bucket.get usage_stats_path (blobs w6) = Some (BlobJson j))
        as [Hrec6 Hled6].
      { destruct Hb6 as [->|[df ->]]; [done|].
        rewrite !get_put_ne; [done| |]; by intros E. }
      split.
      * unfold ledger_count at 1. rewrite Hled6. simpl.
        unfold JsonObj.count. by rewrite Hk.
      * unfold assigned. rewrite (holds_get _ _ _ df1) by done.
        by apply mentions_concat_new, workset_is_new_task_column.
    + apply returns_bind. eapply returns_mono.
      { by apply (_rollback_usage_statistics_exact k j
                    (settled_count (blobs w) k) w5). }
      intros ? w6 (j' & Hb6 & Hcount). apply returns_bind.
      assert (Bucket.get (record_path u) (blobs w6) = Some (BlobCsv df1))
        as Hrec6.
      { rewrite Hb6, get_put_ne; [done|]. by intros E. }
      eapply returns_mono.
      { apply (_remove_workset_from_user_record_exact u k df1 w6);
          [done| |done].
        rewrite Hrec6. exact Hcsv1. }
      intros ? w7 Hb7. apply returns_ret. simpl.
      assert (assigned (blobs w7) u k = false) as Hgone.
      { unfold assigned. rewrite Hb7. apply holds_put_unmentioned.
        exact (mentions_removed k df0 r Hdf0 Hr1 Hr3). }
      split; [|split; [done|]].
      * rewrite Hb7, ledger_count_put_ne by (by intros E).
        rewrite Hb6, ledger_count_put_json. by apply Hback.
      * apply (holders_commit_writes u); [|done..].
        rewrite Hb7. apply uploads_more; [|apply record_is_written].
        rewrite Hb6. apply uploads_more; [done|apply ledger_is_written].
  - (* the upload of the record is refused *)
    destruct (Hrefused Hrec) as [-> Hb4]. clear Hwritten Hrefused. simpl.
    apply returns_bind. eapply returns_mono.
    { apply (_rollback_usage_statistics_exact k j
               (settled_count (blobs w) k) w4); [|done..].
      by rewrite Hb4. }
    intros ? w5 (j' & Hb5 & Hcount). apply returns_ret. simpl.
    assert (assigned (blobs w5) u k = false) as Hgone.
    { rewrite <- Hfree. apply assigned_get.
      rewrite Hb5, get_put_ne by (by intros E). by rewrite Hb4. }
    split; [|split; [done|]].
    + rewrite Hb5, ledger_count_put_json. by apply Hback.
    + apply (holders_commit_writes u); [|done..].
      rewrite Hb5, Hb4. apply uploads_more; [done|apply ledger_is_written].
Qed.

End Rollback.

(** Claim C4, amended.  Let no read of the store fail, let the ledger
    be writable and the worker's record either writable or refusing
    every upload, and let the worker's record have no row for the
    workset.  Then an assignment attempt returns.  When it fails, at
    step (d), at step (e) or before, the worker's record has no row for
    the workset and the number of records that hold the workset is what
    it was before the attempt; the ledger's count for the workset is
    what it was before the attempt, unless that count was negative or
    more than one away from the number of holders, when it may be the
    number of holders instead: the increment regenerates such a ledger
    from a scan, and the rollback only takes the increment back.  When
    the attempt commits, the count is one more than the count the
    increment started from and the record has the row.  In particular
    the claim as stated holds of a ledger whose count is not negative
    and within one of the number of holders. *)
Theorem rollback_restores_record_and_count env username k w :
  reads_ok env →
  write_ok env usage_stats_path →
  write_ok env (record_path username)
  ∨ upload_refused env (record_path username) →
  assigned (blobs w) username k = false →
  (∃ ok w', _complete_workset_assignment env username k w = (Ok ok, w')
            ∧ commit_or_nothing username k w ok w')
  ∧ (0 ≤ ledger_count (blobs w) k →
     Z.abs (ledger_count (blobs w) k - holders k (blobs w)) ≤ 1 →
     rollback_restores env username k w).
Proof.
  intros Hreads Hledger Hrecord Hfree.
  destruct (returns_run _ _ _
              (_complete_workset_assignment_exact env Hreads Hledger
                 username k w Hrecord Hfree))
    as (ok & w' & Hrun & Hpost).
  split; [by exists ok, w'|]. intros Hpos Hnear.
  unfold rollback_restores. rewrite Hrun. simpl. intros [= ->] _.
  destruct Hpost as ([Hsame|[_ Hfar]] & Hgone & _); [done|lia].
Qed.

Lemma rollback_restores_record_and_count_witness :
  reads_ok Example.env_ok
  ∧ write_ok Example.env_ok usage_stats_path
  ∧ assigned (blobs Example.stale_ledger) "dora" "workset_001" = false
  ∧ (∃ ok w',
       _complete_workset_assignment Example.env_ok "dora" "workset_001"
         Example.stale_ledger = (Ok ok, w')
       ∧ commit_or_nothing "dora" "workset_001" Example.stale_ledger ok w')
  ∧ (0 ≤ ledger_count (blobs Example.stale_ledger) "workset_001" →
     Z.abs (ledger_count (blobs Example.stale_ledger) "workset_001"
            - holders "workset_001" (blobs Example.stale_ledger)) ≤ 1 →
     rollback_restores Example.env_ok "dora" "workset_001"
       Example.stale_ledger).
Proof.
  assert (reads_ok Example.env_ok) as Hreads by done.
  assert (write_ok Example.env_ok usage_stats_path) as Hledger by done.
  assert (assigned (blobs Example.stale_ledger) "dora" "workset_001"
          = false) as Hfree by reflexivity.
  repeat (split; [assumption|]).
  apply (rollback_restores_record_and_count Example.env_ok "dora"
           "workset_001" Example.stale_ledger Hreads Hledger);
    [by left|exact Hfree].
Defined.

(** ** The hypotheses of the amended rollback claim are needed *)

(** When the upload of the rollback is refused, the failed attempt
    leaves the ledger incremented: the dataset is missing, step (e)
    fails, and the count for workset_001 is 3 where it was 2. *)
Lemma refused_rollback_leaves_increment :
  let run := _complete_workset_assignment Example.env_ledger_upload_fails_late
               "dora" "workset_001" Example.missing_dataset in
  run.1 = Ok false
  ∧ ledger_count (blobs Example.missing_dataset) "workset_001" = 2
  ∧ ledger_count (blobs run.2) "workset_001" = 3
  ∧ assigned (blobs run.2) "dora" "workset_001" = false.
Proof. repeat split; by vm_compute. Qed.

(** When the metadata patch fails after the record was written, step
    (d) reports a failure and the ledger is rolled back, but the row
    stays in the worker's record. *)
Lemma failed_patch_leaves_row :
  let run := _complete_workset_assignment Example.env_patch_fails
               "dora" "workset_001" Example.missing_dataset in
  run.1 = Ok false
  ∧ ledger_count (blobs run.2) "workset_001"
    = ledger_count (blobs Example.missing_dataset) "workset_001"
  ∧ assigned (blobs Example.missing_dataset) "dora" "workset_001" = false
  ∧ assigned (blobs run.2) "dora" "workset_001" = true.
Proof. repeat split; by vm_compute. Qed.

(** ** The properties at concrete stores *)

(** A store with at most three records respects the cap. *)
Lemma cap_respected_few_records s :
  (length (record_files s) ≤ 3)%nat → cap_respected s.
Proof.
  intros Hlen k. apply (at_most_le k (holders k s)); [|apply at_most_holders].
  unfold holders.
  pose proof (length_filter (λ n, holds k s n = true) (record_files s)).
  lia.
Qed.

Lemma request_with_pending_work_fails_fast_witness :
  request_new_workset Example.env_ok "eve" Example.eve_pending
  = (Ok None,
     World (blobs Example.eve_pending)
           (trace Example.eve_pending
            ++ [(OpExists (record_path "eve"), true);
                (OpDownload (record_path "eve"), true)])).
Proof.
  apply (request_with_pending_work_fails_fast Example.env_ok "eve"
           Example.eve_pending
           (DataFrame ["workset"; "status"]
              [Row (Some "workset_001") (Some "not_started") None []])).
  - reflexivity.
  - intros n. split; reflexivity.
  - reflexivity.
  - apply list_elem_of_further, list_elem_of_here.
  - eexists. split; [apply list_elem_of_here|reflexivity].
Defined.

Lemma regenerate_counts_each_record_once_witness :
  reads_ok Example.env_ok
  ∧ ∃ usage w',
      _generate_usage_statistics Example.env_ok Example.three_holders
      = (Ok usage, w')
      ∧ ∀ k, JsonObj.count usage k = holders k (blobs Example.three_holders).
Proof.
  assert (reads_ok Example.env_ok) as Hreads.
  { split; [reflexivity|]. intros; reflexivity. }
  split; [exact Hreads|].
  exact (regenerate_counts_each_record_once Example.env_ok
           Example.three_holders Hreads).
Defined.

Lemma get_regenerates_absent_ledger_witness :
  no_faults Example.env_ok
  ∧ Bucket.get usage_stats_path (blobs Example.three_holders) = None
  ∧ ∃ usage w' j,
      _get_usage_statistics Example.env_ok Example.three_holders
      = (Ok usage, w')
      ∧ (∀ k, JsonObj.count usage k = holders k (blobs Example.three_holders))
      ∧ Bucket.get usage_stats_path (blobs w') = Some (BlobJson j)
      ∧ workset_usage j = Some usage.
Proof.
  assert (no_faults Example.env_ok) as Hok.
  { split; [reflexivity|]. intros; reflexivity. }
  assert (Bucket.get usage_stats_path (blobs Example.three_holders) = None)
    as Habsent by reflexivity.
  split; [exact Hok|]. split; [exact Habsent|].
  exact (get_regenerates_absent_ledger Example.env_ok Example.three_holders
           Hok Habsent).
Defined.

Lemma find_available_workset_first_eligible_witness :
  reads_ok Example.env_ok
  ∧ ∃ usage_stats w1 r w',
      _get_usage_statistics Example.env_ok Example.ann_completed
      = (Ok usage_stats, w1)
      ∧ _find_available_workset Example.env_ok "ann" Example.ann_completed
        = (Ok r, w')
      ∧ match r with
        | Some name =>
            ∃ i, (1 ≤ i ≤ 100)%nat ∧ name = workset_name i
                 ∧ eligible usage_stats (blobs Example.ann_completed) "ann" i
                   = true
                 ∧ ∀ j, (1 ≤ j < i)%nat →
                        eligible usage_stats (blobs Example.ann_completed)
                          "ann" j = false
        | None =>
            ∀ i, (1 ≤ i ≤ 100)%nat →
                 eligible usage_stats (blobs Example.ann_completed) "ann" i
                 = false
        end.
Proof.
  assert (reads_ok Example.env_ok) as Hreads.
  { split; [reflexivity|]. intros; reflexivity. }
  split; [exact Hreads|].
  exact (find_available_workset_first_eligible Example.env_ok "ann"
           Example.ann_completed Hreads).
Defined.

Lemma increment_refuses_above_cap_witness :
  observe_usage Example.env_ok "workset_001" 3 Example.at_cap
  = (Ok (at_cap_observed.1.1, at_cap_observed.1.2), at_cap_observed.2)
  ∧ 3 < JsonObj.count at_cap_observed.1.2 "workset_001" + 1
  ∧ _update_usage_statistics_safely Example.env_ok "workset_001" 3
      Example.at_cap = (Ok false, at_cap_observed.2)
  ∧ ∃ t, trace at_cap_observed.2 = trace Example.at_cap ++ t
         ∧ ∀ p j ok, (OpUpload p (BlobJson j), ok) ∈ t →
             JsonObj.count (default ∅ (workset_usage j)) "workset_001"
             ≠ JsonObj.count at_cap_observed.1.2 "workset_001" + 1.
Proof.
  assert (observe_usage Example.env_ok "workset_001" 3 Example.at_cap
          = (Ok (at_cap_observed.1.1, at_cap_observed.1.2),
             at_cap_observed.2)) as Hobserved.
  { vm_compute. reflexivity. }
  assert (3 < JsonObj.count at_cap_observed.1.2 "workset_001" + 1) as Hcap.
  { vm_compute. reflexivity. }
  split; [exact Hobserved|]. split; [exact Hcap|].
  exact (increment_refuses_above_cap Example.env_ok "workset_001" 3
           Example.at_cap _ _ _ Hobserved Hcap).
Defined.

Lemma cap_never_exceeded_witness :
  reads_ok Example.env_ok
  ∧ cap_respected (blobs Example.three_holders)
  ∧ cap_respected
      (blobs (run_requests Example.env_ok ["dora"; "ann"]
                Example.three_holders))
  ∧ ∀ k workers,
      NoDup workers →
      (∀ u, u ∈ workers →
            assigned (blobs (run_requests Example.env_ok ["dora"; "ann"]
                               Example.three_holders)) u k = true) →
      (length workers ≤ 3)%nat.
Proof.
  assert (reads_ok Example.env_ok) as Hreads.
  { split; [reflexivity|]. intros; reflexivity. }
  assert (cap_respected (blobs Example.three_holders)) as Hcap.
  { apply cap_respected_few_records. vm_compute. lia. }
  split; [exact Hreads|]. split; [exact Hcap|].
  exact (cap_never_exceeded Example.env_ok ["dora"; "ann"]
           Example.three_holders Hreads Hcap).
Defined.

Lemma completed_workset_is_never_reassigned_witness :
  reads_ok Example.env_ok
  ∧ (∃ r w' df',
       request_new_workset Example.env_ok "ann" Example.ann_completed
       = (Ok r, w')
       ∧ r ≠ Some "workset_001"
       ∧ Bucket.get (record_path "ann") (blobs w') = Some (BlobCsv df')
       ∧ statuses_for "workset_001" df' = [Some "completed"])
  ∧ ∃ w', _complete_workset_assignment Example.env_ok "ann" "workset_001"
            Example.ann_completed = (Ok false, w')
          ∧ blobs w' = blobs Example.ann_completed.
Proof.
  assert (reads_ok Example.env_ok) as Hreads.
  { split; [reflexivity|]. intros; reflexivity. }
  split; [exact Hreads|].
  apply (completed_workset_is_never_reassigned Example.env_ok "ann"
           "workset_001" Example.ann_completed
           (DataFrame ["workset"; "status"]
              [Row (Some "workset_001") (Some "completed") None []])).
  - exact Hreads.
  - reflexivity.
  - apply list_elem_of_here.
  - apply list_elem_of_further, list_elem_of_here.
  - eexists. split; [apply list_elem_of_here|]. split; reflexivity.
Defined.

(** * More properties of the assigner *)

(** ** The locks *)

(** [_release_workset_lock] leaves a lock that is not the worker's own
    where it is: when the lock blob is absent, is not a JSON object, or
    names another owner, every blob is as it was, whatever the bucket
    does. *)
Theorem release_leaves_foreign_lock env k u w :
  (∀ j, Bucket.get (locks_dir +:+ "/" +:+ k +:+ "_lock.json") (blobs w)
        = Some (BlobJson j) → owner j ≠ Some u) →
  ∃ w', _release_workset_lock env k u w = (Ok tt, w') ∧ blobs w' = blobs w.
Proof.
  intros Hforeign.
  cut (returns (_release_workset_lock env k u) w (λ _ w', blobs w' = blobs w)).
  { intros ([] & w' & Hrun & Hb)%returns_run. by exists w'. }
  unfold _release_workset_lock. apply returns_try_except_total.
  apply returns_bind. eapply returns_mono; [apply download_json_val|].
  intros o w1 [Hb Ho]. destruct o as [j|]; [|by apply returns_ret].
  destruct Ho as [Ho|Ho]; [done|].
  destruct (Bucket.get _ (blobs w)) as [[| |j'|]|] eqn:Hget; try done.
  injection Ho as ->.
  rewrite (bool_decide_eq_false_2 (owner j' = Some u)) by by apply Hforeign.
  rewrite andb_false_r. by apply returns_ret.
Qed.

Lemma release_leaves_foreign_lock_witness :
  ∃ w', _release_workset_lock Example.env_ok "workset_001" "dora"
          Scenario.with_locks = (Ok tt, w')
        ∧ blobs w' = blobs Scenario.with_locks.
Proof.
  apply (release_leaves_foreign_lock Example.env_ok "workset_001" "dora"
           Scenario.with_locks).
  intros j Hj. vm_compute in Hj. injection Hj as <-. discriminate.
Defined.

(** Acquiring and releasing a lock touch no blob outside
    "system/locks/": whatever the bucket does, and whether the lock is
    won or not, every other blob is as it was. *)
Theorem locking_stays_in_locks_folder env k u n w :
  Str.starts_with "system/locks/" n = false →
  Bucket.get n (blobs (_try_acquire_workset_lock env k u w).2)
  = Bucket.get n (blobs w)
  ∧ Bucket.get n (blobs (_release_workset_lock env k u w).2)
    = Bucket.get n (blobs w).
Proof.
  intros Hn.
  assert (closed (λ m, Str.starts_with "system/locks/" m = true)
            (λ w', Bucket.get n (blobs w') = Bucket.get n (blobs w))) as HI.
  { apply closed_get. intros m Hm ->. congruence. }
  split.
  - by apply (_try_acquire_workset_lock_preserves env _ _ HI (λ _ H, H) k u w).
  - by apply (_release_workset_lock_preserves env _ _ HI (λ _ H, H) k u w).
Qed.

Lemma locking_stays_in_locks_folder_witness :
  Bucket.get (record_path "ann")
    (blobs (_try_acquire_workset_lock Example.env_ok "workset_001" "dora"
              Example.three_holders).2)
  = Bucket.get (record_path "ann") (blobs Example.three_holders)
  ∧ Bucket.get (record_path "ann")
      (blobs (_release_workset_lock Example.env_ok "workset_001" "dora"
                Example.three_holders).2)
    = Bucket.get (record_path "ann") (blobs Example.three_holders).
Proof.
  apply (locking_stays_in_locks_folder Example.env_ok "workset_001" "dora"
           (record_path "ann") Example.three_holders).
  reflexivity.
Defined.

(** ** The pending check *)

(** A record with rows but no [status] column makes the pending check
    answer [True] (its handler's conservative answer to the
    [KeyError]), so [request_new_workset] refuses at once: it makes the
    two calls that read the record and nothing else. *)
Theorem request_without_status_column_refuses env username w df :
  initialized env = true →
  read_ok env (record_path username) →
  Bucket.get (record_path username) (blobs w) = Some (BlobCsv df) →
  columns df ≠ [] → rows df ≠ [] → "status" ∉ columns df →
  request_new_workset env username w
  = (Ok None,
     World (blobs w)
           (trace w ++ [(OpExists (record_path username), true);
                        (OpDownload (record_path username), true)])).
Proof.
  intros Hi Hr Hget Hcols Hrows Hcol.
  assert (Frame.read_csv (BlobCsv df) = Some df) as Hread.
  { simpl. by destruct (columns df). }
  assert (Frame.empty df = false) as Hne.
  { unfold Frame.empty. destruct (rows df); [done|]. by destruct (columns df). }
  assert (Frame.col_status df = None) as Hst.
  { unfold Frame.col_status, Frame.has_column.
    by rewrite bool_decide_eq_false_2. }
  unfold request_new_workset, _has_pending_worksets, download_csv, download,
    fb_download, try_except, bind, call, peek, ret.
  cbn -[Frame.read_csv Frame.empty Frame.col_status record_path].
  rewrite Hi. cbn -[Frame.read_csv Frame.empty Frame.col_status record_path].
  rewrite (proj1 (Hr _)).
  cbn -[Frame.read_csv Frame.empty Frame.col_status record_path].
  rewrite Hget. cbn -[Frame.read_csv Frame.empty Frame.col_status record_path].
  rewrite (proj2 (Hr _)).
  cbn -[Frame.read_csv Frame.empty Frame.col_status record_path].
  rewrite Hread, Hne, Hst. cbn -[record_path]. by rewrite <- app_assoc.
Qed.

(** ** An uninitialised storage client *)

(** When the client never initialised, every wrapper answers at once
    and [request_new_workset] gives up after its five attempts: it
    returns no assignment and makes no bucket call at all. *)
Theorem request_with_uninitialised_client env username w :
  initialized env = false →
  request_new_workset env username w = (Ok None, w).
Proof.
  destruct env as [init raises now now2 ms rnd]. simpl. intros ->.
  by vm_compute.
Qed.

(** ** The usage summary *)

(** [get_usage_summary] always answers; the worksets with fewer than
    three uses and those with three or more partition the entries of
    the ledger, and the unused ones are what is left of one hundred,
    which is negative when the ledger has more than a hundred
    entries. *)
Theorem usage_summary_partitions env w :
  ∃ s w', get_usage_summary env w = (Ok (Some s), w')
          ∧ total_worksets s = 100
          ∧ available_worksets s + fully_used_worksets s = used_worksets s
          ∧ used_worksets s + unused_worksets s = 100
          ∧ 0 ≤ available_worksets s ∧ 0 ≤ fully_used_worksets s.
Proof.
  cut (returns (get_usage_summary env) w
         (λ o _, ∃ s, o = Some s
                      ∧ total_worksets s = 100
                      ∧ available_worksets s + fully_used_worksets s
                        = used_worksets s
                      ∧ used_worksets s + unused_worksets s = 100
                      ∧ 0 ≤ available_worksets s
                      ∧ 0 ≤ fully_used_worksets s)).
  { intros (o & w' & Hrun & s & -> & H)%returns_run. by exists s, w'. }
  unfold get_usage_summary. apply returns_try_except_total, returns_bind.
  eapply returns_mono; [apply _get_usage_statistics_total|].
  intros usage w1 _. apply returns_ret. eexists. split; [done|]. simpl.
  split; [done|]. split; [|lia].
  rewrite <- Nat2Z.inj_add. f_equal.
  rewrite <- (map_filter_union_complement (λ kv : string * Z, kv.2 < 3) usage)
    at 3.
  rewrite map_size_disj_union by apply map_disjoint_filter_complement.
  f_equal. f_equal. apply map_filter_ext. intros i x _. simpl. lia.
Qed.

(** ** Uploads *)

(** [upload] writes the content and then patches the metadata inside
    one [try]: when the patch raises after the write went through, it
    answers [False] although the content is stored. *)
Theorem upload_false_after_write env p b w :
  initialized env = true →
  raises env (length (trace w)) (OpUpload p b) = None →
  raises env (S (length (trace w))) (OpPatch p) ≠ None →
  ∃ w', upload env p b w = (Ok false, w')
        ∧ Bucket.get p (blobs w') = Some b.
Proof.
  intros Hi Hup Hpatch.
  unfold upload, fb_upload, try_except, bind, call, ret. rewrite Hi. simpl.
  rewrite Hup. simpl. rewrite length_app. simpl.
  rewrite Nat.add_1_r.
  destruct (raises env _ (OpPatch p)) as [e|] eqn:E; [|done]. simpl.
  eexists. split; [done|]. simpl. apply get_put_eq.
Qed.

Lemma upload_false_after_write_witness :
  ∃ w', upload Example.env_patch_fails (record_path "dora")
          (Example.record_of "workset_001" "not_started")
          Example.missing_dataset = (Ok false, w')
        ∧ Bucket.get (record_path "dora") (blobs w')
          = Some (Example.record_of "workset_001" "not_started").
Proof.
  apply (upload_false_after_write Example.env_patch_fails
           (record_path "dora")
           (Example.record_of "workset_001" "not_started")
           Example.missing_dataset); [reflexivity|reflexivity|].
  by vm_compute.
Defined.

(** ** Deleting blobs *)

Lemma delete_file_effect env p w :
  returns (delete_file env p) w
    (λ _ w', blobs w' = blobs w ∨ blobs w' = Bucket.del p (blobs w)).
Proof.
  unfold returns, wp, delete_file, fb_delete, try_except, bind, peek, call,
    ret, raise.
  destruct (initialized env); simpl; [|by left].
  destruct (raises env _ (OpDelete p)); simpl; [by left|].
  destruct (Bucket.get p (blobs w)); simpl; by right.
Qed.

Lemma del_names p (s : Bucket.store) :
  (Bucket.del p s).*1 = filter (λ n, n ≠ p) (s.*1).
Proof.
  unfold Bucket.del. induction s as [|[n b] s IH]; [done|].
  rewrite fmap_cons. cbn [fst]. destruct (decide (n = p)) as [->|Hne].
  - rewrite filter_cons_False by (simpl; auto).
    by rewrite (filter_cons_False (λ n, n ≠ p)) by auto.
  - rewrite filter_cons_True by done.
    rewrite (filter_cons_True (λ n, n ≠ p)) by done.
    rewrite fmap_cons. cbn [fst]. by rewrite IH.
Qed.

Lemma records_in_filter_ne p l :
  ¬ is_record_file p → records_in (filter (λ n, n ≠ p) l) = records_in l.
Proof.
  intros Hp. unfold records_in. rewrite !list_filter_filter.
  apply list_filter_iff. intros n. split; [tauto|].
  intros H. assert (n ≠ p); [|tauto].
  intros ->. apply Hp. unfold is_record_file. tauto.
Qed.

(** Deleting a blob that is not a record leaves the number of holders
    as it was. *)
Lemma holders_del k p (s : Bucket.store) :
  ¬ is_record_file p → holders k (Bucket.del p s) = holders k s.
Proof.
  intros Hp. unfold holders.
  rewrite !record_files_names, del_names, records_in_filter_ne by done.
  rewrite (filter_holds_ext k s (Bucket.del p s)); [done|].
  intros n [_ Hn]%records_in_elem. apply holds_del_ne. intros ->. by apply Hp.
Qed.

Lemma ledger_is_no_record : ¬ is_record_file usage_stats_path.
Proof. unfold is_record_file. intros H. by destruct H as [H _]. Qed.

(** ** Forcing a regeneration *)

(** [force_regenerate_usage_statistics] repairs the ledger whatever it
    held: when the reads go through and the ledger can be written, it
    returns, for every workset, the number of records that hold it,
    leaves a ledger with these counts and touches no other blob.  The
    deletion it starts with may fail. *)
Theorem force_regenerate_repairs_ledger env w :
  reads_ok env → write_ok env usage_stats_path →
  ∃ usage w' j,
    force_regenerate_usage_statistics env w = (Ok usage, w')
    ∧ (∀ k, JsonObj.count usage k = holders k (blobs w))
    ∧ Bucket.get usage_stats_path (blobs w') = Some (BlobJson j)
    ∧ workset_usage j = Some usage
    ∧ ∀ n, n ≠ usage_stats_path →
           Bucket.get n (blobs w') = Bucket.get n (blobs w).
Proof.
  intros Hreads Hwrite.
  cut (returns (force_regenerate_usage_statistics env) w
         (λ usage w',
            (∀ k, JsonObj.count usage k = holders k (blobs w))
            ∧ ∃ j, Bucket.get usage_stats_path (blobs w') = Some (BlobJson j)
                   ∧ workset_usage j = Some usage
                   ∧ ∀ n, n ≠ usage_stats_path →
                          Bucket.get n (blobs w') = Bucket.get n (blobs w))).
  { intros (usage & w' & Hrun & Hc & j & H)%returns_run.
    by exists usage, w', j. }
  unfold force_regenerate_usage_statistics.
  apply returns_try_except_total, returns_bind, returns_try_except_total.
  apply returns_bind. eapply returns_mono; [apply delete_file_effect|].
  intros ? w1 Hb1. apply returns_ret.
  assert ((∀ k, holders k (blobs w1) = holders k (blobs w))
          ∧ ∀ n, n ≠ usage_stats_path →
                 Bucket.get n (blobs w1) = Bucket.get n (blobs w))
    as [Hh1 Hg1].
  { destruct Hb1 as [->| ->]; [done|]. split.
    - intros k. apply holders_del, ledger_is_no_record.
    - intros n Hn. by apply get_del_ne. }
  eapply returns_mono; [by apply _generate_usage_statistics_exact|].
  intros usage w2 (Hc & _ & Hw). destruct (Hw Hwrite) as (j & Hj & Hb2).
  split; [intros k; by rewrite Hc, Hh1|].
  exists j. rewrite Hb2. split; [apply get_put_eq|]. split; [done|].
  intros n Hn. rewrite get_put_ne by done. by apply Hg1.
Qed.

Lemma force_regenerate_repairs_ledger_witness :
  reads_ok Example.env_ok ∧ write_ok Example.env_ok usage_stats_path
  ∧ ∃ usage w' j,
      force_regenerate_usage_statistics Example.env_ok Example.stale_ledger
      = (Ok usage, w')
      ∧ (∀ k, JsonObj.count usage k = holders k (blobs Example.stale_ledger))
      ∧ Bucket.get usage_stats_path (blobs w') = Some (BlobJson j)
      ∧ workset_usage j = Some usage
      ∧ ∀ n, n ≠ usage_stats_path →
             Bucket.get n (blobs w')
             = Bucket.get n (blobs Example.stale_ledger).
Proof.
  assert (reads_ok Example.env_ok) as Hreads by done.
  assert (write_ok Example.env_ok usage_stats_path) as Hwrite by done.
  split; [exact Hreads|]. split; [exact Hwrite|].
  exact (force_regenerate_repairs_ledger Example.env_ok Example.stale_ledger
           Hreads Hwrite).
Defined.

(** ** Cleaning up expired locks *)

Section Cleanup.

Variable env : environment.
Variable later : string → string → option bool.

Lemma cleanup_lock_keeps (I : world → Prop) now x w :
  closed is_lock_file I →
  Str.starts_with "system/locks/" x = true →
  I w →
  wp (cleanup_lock env later now x tt) w (λ _ w', I w').
Proof.
  intros HI Hx Hw. unfold cleanup_lock.
  destruct (Str.ends_with x "_lock.json") eqn:Hsuf; [|by apply wp_ret].
  apply wp_bind_returns. eapply returns_mono.
  { by apply (download_json_inv env _ _ x w HI). }
  intros [j|] w1 Hw1; [|by apply wp_ret].
  destruct (JsonObj.truthy j); [|by apply wp_ret].
  destruct (expires_at j) as [e|]; [|by apply wp_ret].
  destruct (later now e) as [[|]|]; [|by apply wp_ret|by apply wp_raise].
  apply wp_bind_returns. eapply returns_mono.
  { by apply (delete_file_inv env _ _ x w1 HI). }
  intros ? w2 Hw2. by apply wp_ret.
Qed.

Lemma cleanup_locks_keep (I : world → Prop) now l w :
  closed is_lock_file I →
  (∀ x, x ∈ l → Str.starts_with "system/locks/" x = true) →
  I w →
  wp (for_each l (cleanup_lock env later now) tt) w (λ _ w', I w').
Proof.
  intros HI. revert w. induction l as [|x l IH]; intros w Hl Hw; simpl.
  { by apply wp_ret. }
  apply wp_bind. eapply wp_mono.
  { apply cleanup_lock_keeps; [done|apply Hl, list_elem_of_here|done]. }
  intros [[]|e] w1 Hw1; [|done].
  apply IH; [|done]. intros y Hy. by apply Hl, list_elem_of_further.
Qed.

End Cleanup.

(** [cleanup_expired_locks] deletes nothing but lock files: whatever
    the bucket and the clock do, a blob that is not below
    "system/locks/" or whose name does not end in "_lock.json" is as it
    was. *)
Theorem cleanup_touches_only_lock_files env later n w :
  ¬ is_lock_file n →
  Bucket.get n (blobs (cleanup_expired_locks env later w).2)
  = Bucket.get n (blobs w).
Proof.
  intros Hn.
  assert (closed is_lock_file
            (λ w', Bucket.get n (blobs w') = Bucket.get n (blobs w))) as HI.
  { apply closed_get. by intros m Hm ->. }
  cut (wp (cleanup_expired_locks env later) w
         (λ _ w', Bucket.get n (blobs w') = Bucket.get n (blobs w))); [done|].
  unfold cleanup_expired_locks.
  cut (wp (lock_files ← list_files env "system/locks/";
           t ← ticks;
           for_each lock_files (cleanup_lock env later (now env t)) tt) w
         (λ _ w', Bucket.get n (blobs w') = Bucket.get n (blobs w))).
  { unfold wp, try_except. intros H.
    by destruct (bind _ _ w) as [[[]|e] w']. }
  apply wp_bind_returns. eapply returns_mono.
  { apply returns_and;
      [by apply (list_files_inv env _ _ "system/locks/" w HI)
      |apply list_files_val]. }
  intros l w1 (Hw1 & Hb1 & Hl). apply wp_bind_returns, returns_ticks.
  apply cleanup_locks_keep; [done| |done].
  intros x Hx. destruct Hl as [->| ->]; [by apply elem_of_nil in Hx|].
  by apply (listed_starts_with "system/locks/" (blobs w)).
Qed.

Lemma cleanup_touches_only_lock_files_witness :
  ¬ is_lock_file usage_stats_path
  ∧ Bucket.get usage_stats_path
      (blobs (cleanup_expired_locks Example.env_ok Scenario.later
                Example.at_cap).2)
    = Bucket.get usage_stats_path (blobs Example.at_cap).
Proof.
  assert (¬ is_lock_file usage_stats_path) as Hn.
  { unfold is_lock_file. intros H. by destruct H as [H _]. }
  split; [exact Hn|].
  exact (cleanup_touches_only_lock_files Example.env_ok Scenario.later
           usage_stats_path Example.at_cap Hn).
Defined.

Lemma get_del_eq p (s : Bucket.store) : Bucket.get p (Bucket.del p s) = None.
Proof.
  apply get_None_names. rewrite del_names.
  intros [Hne _]%list_elem_of_filter. done.
Qed.

Lemma delete_file_exact env p w :
  initialized env = true →
  (∀ n, raises env n (OpDelete p) = None) →
  returns (delete_file env p) w (λ _ w', blobs w' = Bucket.del p (blobs w)).
Proof.
  intros Hi Hr.
  unfold returns, wp, delete_file, fb_delete, try_except, bind, peek, call,
    ret, raise.
  rewrite Hi. simpl. rewrite Hr. simpl.
  by destruct (Bucket.get p (blobs w)).
Qed.

Lemma lock_not_folder n :
  Str.ends_with n "_lock.json" = true → Str.ends_with n "/" = false.
Proof.
  induction n as [|a n IH]; [done|].
  rewrite !ends_with_cons. intros [He|He]%orb_true_iff.
  - apply String.eqb_eq in He. injection He as -> ->. by vm_compute.
  - rewrite (IH He), orb_false_r. apply String.eqb_neq. intros [= -> ->].
    by vm_compute in He.
Qed.

Section CleanupExact.

Variable env : environment.
Variable later : string → string → option bool.
Hypothesis Hok : no_faults env.

(** One lock file: it is deleted exactly when its expiry has passed. *)
Lemma cleanup_lock_exact now x w :
  (∀ j e, Str.ends_with x "_lock.json" = true →
          Bucket.get x (blobs w) = Some (BlobJson j) →
          expires_at j = Some e → later now e ≠ None) →
  returns (cleanup_lock env later now x tt) w
    (λ _ w', blobs w' = if lock_expired later now (blobs w) x
                        then Bucket.del x (blobs w) else blobs w).
Proof.
  intros Hparse. destruct Hok as [Hi Hr].
  unfold cleanup_lock, lock_expired.
  destruct (Str.ends_with x "_lock.json") eqn:Hsuf; [|by apply returns_ret].
  apply returns_bind. eapply returns_mono.
  { apply download_json_exact; [done|]. intros n. split; apply Hr. }
  intros o w1 [Hb ->]. simpl.
  destruct (Bucket.get x (blobs w)) as [[| |j|]|] eqn:Hget; simpl;
    try by apply returns_ret.
  destruct (JsonObj.truthy j); simpl; [|by apply returns_ret].
  destruct (expires_at j) as [e|] eqn:He; [|by apply returns_ret].
  specialize (Hparse j e eq_refl eq_refl He).
  destruct (later now e) as [[|]|]; [|by apply returns_ret|done].
  apply returns_bind. eapply returns_mono.
  { apply delete_file_exact; [done|]. intros n. apply Hr. }
  intros ? w2 Hw2. apply returns_ret. by rewrite Hw2, Hb.
Qed.

Lemma lock_expired_get now (s s' : Bucket.store) n :
  Bucket.get n s' = Bucket.get n s →
  lock_expired later now s' n = lock_expired later now s n.
Proof. unfold lock_expired. by intros ->. Qed.

(** The loop: of the names it visits, the expired locks are gone, and
    every other blob is as it was. *)
Lemma cleanup_locks_exact now l w :
  (∀ x j e, x ∈ l → Str.ends_with x "_lock.json" = true →
            Bucket.get x (blobs w) = Some (BlobJson j) →
            expires_at j = Some e → later now e ≠ None) →
  returns (for_each l (cleanup_lock env later now) tt) w
    (λ _ w', ∀ n,
       Bucket.get n (blobs w')
       = if bool_decide (n ∈ l) && lock_expired later now (blobs w) n
         then None else Bucket.get n (blobs w)).
Proof.
  revert w. induction l as [|x l IH]; intros w Hparse; cbn [for_each].
  { apply returns_ret. intros n.
    by rewrite (bool_decide_eq_false_2 (n ∈ [])) by apply not_elem_of_nil. }
  apply returns_bind. eapply returns_mono.
  { apply cleanup_lock_exact. intros j e. apply Hparse, list_elem_of_here. }
  intros [] w1 Hb1.
  assert (∀ n, Bucket.get n (blobs w1)
               = if bool_decide (n = x) && lock_expired later now (blobs w) n
                 then None else Bucket.get n (blobs w)) as Hg1.
  { intros n. rewrite Hb1. destruct (decide (n = x)) as [->|Hne].
    - rewrite bool_decide_eq_true_2 by done. simpl.
      destruct (lock_expired later now (blobs w) x); [apply get_del_eq|done].
    - rewrite bool_decide_eq_false_2 by done. simpl.
      destruct (lock_expired later now (blobs w) x);
        [by apply get_del_ne|done]. }
  eapply returns_mono.
  { apply IH. intros y j e Hy Hsuf Hget. apply (Hparse y j e); [|done|].
    - by apply list_elem_of_further.
    - rewrite Hg1 in Hget. by destruct (_ && _). }
  intros [] w2 Hg2 n. rewrite Hg2, Hg1.
  destruct (decide (n = x)) as [->|Hne].
  - rewrite (bool_decide_eq_true_2 (x = x)) by done.
    rewrite (bool_decide_eq_true_2 (x ∈ x :: l)) by apply list_elem_of_here.
    simpl. destruct (lock_expired later now (blobs w) x) eqn:Hx.
    + by destruct (_ && _).
    + rewrite (lock_expired_get now (blobs w) (blobs w1) x), Hx.
      * by rewrite andb_false_r.
      * rewrite Hg1, Hx. by rewrite andb_false_r.
  - rewrite (bool_decide_eq_false_2 (n = x)) by done. simpl.
    rewrite (lock_expired_get now (blobs w) (blobs w1) n).
    + destruct (decide (n ∈ l)) as [Hin|Hout].
      * rewrite !bool_decide_eq_true_2; [done|by apply list_elem_of_further|done].
      * rewrite !bool_decide_eq_false_2; [done| |done].
        intros [?|?]%elem_of_cons; congruence.
    + rewrite Hg1. by rewrite (bool_decide_eq_false_2 (n = x)) by done.
Qed.

End CleanupExact.

(** On a bucket that works, and when the expiry of every lock parses,
    [cleanup_expired_locks] removes exactly the expired locks: a lock
    file below "system/locks/" whose [expires_at] has passed is gone,
    and every other blob is as it was, a lock without [expires_at]
    included.  The current time is read once, after the listing. *)
Theorem cleanup_removes_expired_locks env later w :
  no_faults env →
  (∀ n j e, Str.ends_with n "_lock.json" = true →
            Bucket.get n (blobs w) = Some (BlobJson j) →
            expires_at j = Some e →
            later (now env (S (length (trace w)))) e ≠ None) →
  ∃ w', cleanup_expired_locks env later w = (Ok tt, w')
        ∧ ∀ n, Bucket.get n (blobs w')
               = if Str.starts_with "system/locks/" n
                    && lock_expired later (now env (S (length (trace w))))
                         (blobs w) n
                 then None else Bucket.get n (blobs w).
Proof.
  intros Hok Hparse.
  cut (returns (cleanup_expired_locks env later) w
         (λ _ w', ∀ n,
            Bucket.get n (blobs w')
            = if Str.starts_with "system/locks/" n
                 && lock_expired later (now env (S (length (trace w))))
                      (blobs w) n
              then None else Bucket.get n (blobs w))).
  { intros ([] & w' & Hrun & H)%returns_run. by exists w'. }
  unfold cleanup_expired_locks. apply returns_try_except_total.
  apply returns_bind.
  assert (returns (list_files env "system/locks/") w
            (λ l w', (blobs w' = blobs w ∧ l = listed "system/locks/" (blobs w))
                     ∧ length (trace w') = S (length (trace w)))) as Hlist.
  { apply returns_and.
    - apply list_files_exact; [apply Hok|done|]. intros n. apply Hok.
    - unfold returns, wp, list_files, fb_list_files, try_except, bind, call,
        peek, ret.
      rewrite (proj1 Hok). simpl. rewrite (proj2 Hok). simpl.
      rewrite length_app. simpl. lia. }
  eapply returns_mono; [exact Hlist|].
  intros l w1 [[Hb1 ->] Ht1]. apply returns_bind, returns_ticks.
  rewrite Ht1. eapply returns_mono.
  { apply (cleanup_locks_exact env later Hok). rewrite Hb1.
    intros x j e _. apply Hparse. }
  intros [] w2 Hg n. rewrite Hg, Hb1.
  destruct (lock_expired later _ (blobs w) n) eqn:Hexp;
    [|by rewrite !andb_false_r].
  rewrite !andb_true_r.
  destruct (Str.starts_with "system/locks/" n) eqn:Hpre.
  - destruct (decide (n ∈ listed "system/locks/" (blobs w))) as [Hin|Hout].
    + by rewrite bool_decide_eq_true_2.
    + rewrite bool_decide_eq_false_2 by done.
      unfold lock_expired in Hexp.
      destruct (Bucket.get n (blobs w)) as [b|] eqn:Hget; [|done].
      exfalso. apply Hout. unfold listed. simpl.
      apply list_elem_of_filter. split.
      * apply andb_true_iff in Hexp as [Hsuf _]. by apply lock_not_folder.
      * unfold Bucket.names. apply list_elem_of_filter. split; [done|].
        by eapply get_Some_elem.
  - rewrite bool_decide_eq_false_2; [done|].
    intros Hin. apply (listed_starts_with "system/locks/") in Hin; [|done].
    congruence.
Qed.

Lemma cleanup_removes_expired_locks_witness :
  no_faults Example.env_ok
  ∧ ∃ w', cleanup_expired_locks Example.env_ok Scenario.later
            Scenario.with_locks = (Ok tt, w')
          ∧ ∀ n, Bucket.get n (blobs w')
                 = if Str.starts_with "system/locks/" n
                      && lock_expired Scenario.later
                           (now Example.env_ok
                              (S (length (trace Scenario.with_locks))))
                           (blobs Scenario.with_locks) n
                   then None else Bucket.get n (blobs Scenario.with_locks).
Proof.
  assert (no_faults Example.env_ok) as Hok by done.
  split; [exact Hok|].
  apply (cleanup_removes_expired_locks Example.env_ok Scenario.later
           Scenario.with_locks Hok).
  intros n j e _ _ _. discriminate.
Defined.

Lemma request_without_status_column_refuses_witness :
  request_new_workset Example.env_ok "fay" Scenario.no_status_column
  = (Ok None,
     World (blobs Scenario.no_status_column)
           (trace Scenario.no_status_column
            ++ [(OpExists (record_path "fay"), true);
                (OpDownload (record_path "fay"), true)])).
Proof.
  apply (request_without_status_column_refuses Example.env_ok "fay"
           Scenario.no_status_column
           (DataFrame ["workset"] [Row (Some "workset_001") None None []])).
  - reflexivity.
  - intros n. split; reflexivity.
  - reflexivity.
  - discriminate.
  - discriminate.
  - by intros H%list_elem_of_singleton.
Defined.

Lemma request_with_uninitialised_client_witness :
  request_new_workset Scenario.env_uninitialised "dora" Example.three_holders
  = (Ok None, Example.three_holders).
Proof.
  apply (request_with_uninitialised_client Scenario.env_uninitialised "dora"
           Example.three_holders).
  reflexivity.
Defined.

(** ** The settle phase on a store *)

Lemma settle_winner_listed l u id :
  Competition.settle l u id = Some true →
  ∃ c, c ∈ l ∧ c_owner c = Some u ∧ c_competition_id c = Some id
       ∧ earliest l c.
Proof.
  unfold Competition.settle. destruct l as [|c0 l]; [done|].
  destruct (Competition.key_error _); [done|].
  destruct (sorted_head (c0 :: l)) as (m & rest & -> & Hm); [done|].
  intros [= [Ho Hc]%andb_true_iff].
  apply bool_decide_eq_true in Ho, Hc. exists m. split; [|done].
  destruct Hm as [before m after _ _]. apply elem_of_app. right.
  apply list_elem_of_here.
Qed.

Section WinCompetition.

Variable env : environment.

(** Whatever the bucket does, what the loop collects are entries of the
    store. *)
Lemma collect_competitor_val k x acc w :
  returns (collect_competitor env k x acc) w
    (λ acc' w', blobs w' = blobs w
                ∧ (acc' = acc
                   ∨ ∃ c, competitor_of k (blobs w) x = Some c
                          ∧ acc' = acc ++ [c])).
Proof.
  unfold collect_competitor, competitor_of.
  destruct (_ && _); [|apply returns_ret; auto].
  apply returns_bind. eapply returns_mono; [apply download_json_val|].
  intros o w1 [Hb Ho]. destruct o as [j|]; [|apply returns_ret; auto].
  destruct Ho as [Ho|Ho]; [done|]. rewrite <- Ho.
  destruct (_ && _); apply returns_ret; eauto.
Qed.

Lemma collect_competitors_val k l acc w :
  returns (for_each l (collect_competitor env k) acc) w
    (λ acc' w', blobs w' = blobs w
                ∧ ∀ c, c ∈ acc' →
                       c ∈ acc ∨ ∃ x, x ∈ l
                                      ∧ competitor_of k (blobs w) x = Some c).
Proof.
  revert acc w. induction l as [|x l IH]; intros acc w; simpl.
  { apply returns_ret. auto. }
  apply returns_bind. eapply returns_mono; [apply collect_competitor_val|].
  intros acc1 w1 [Hb1 Hacc1]. eapply returns_mono; [apply IH|].
  intros acc2 w2 [Hb2 Hacc2]. split; [congruence|]. intros c Hc.
  destruct (Hacc2 c Hc) as [Hin|(y & Hy & Hcy)].
  - destruct Hacc1 as [-> | (c1 & Hc1 & ->)]; [by left|].
    apply elem_of_app in Hin as [Hin | ->%list_elem_of_singleton]; [by left|].
    right. exists x. split; [apply list_elem_of_here|done].
  - right. exists y. split; [by apply list_elem_of_further|].
    by rewrite <- Hb1.
Qed.

(** With the reads going through the loop collects exactly the entries
    of the store. *)
Lemma collect_competitors_exact k l acc w :
  reads_ok env →
  returns (for_each l (collect_competitor env k) acc) w
    (λ acc' w', blobs w' = blobs w
                ∧ acc' = acc ++ omap (competitor_of k (blobs w)) l).
Proof.
  intros Hreads.
  revert acc w. induction l as [|x l IH]; intros acc w; simpl.
  { apply returns_ret. by rewrite app_nil_r. }
  apply returns_bind.
  assert (returns (collect_competitor env k x acc) w
            (λ acc' w', blobs w' = blobs w
               ∧ acc' = acc ++ option_list (competitor_of k (blobs w) x)))
    as Hone.
  { unfold collect_competitor, competitor_of.
    destruct (_ && _); [|apply returns_ret; by rewrite app_nil_r].
    apply returns_bind. eapply returns_mono.
    { apply download_json_exact; [apply Hreads|by apply reads_ok_read]. }
    intros o w1 [Hb ->].
    destruct (Bucket.get x (blobs w) ≫= JsonObj.loads) as [j|];
      [|apply returns_ret; by rewrite app_nil_r].
    destruct (_ && _); apply returns_ret; by rewrite ?app_nil_r. }
  eapply returns_mono; [exact Hone|].
  intros acc1 w1 [Hb1 ->]. eapply returns_mono; [apply IH|].
  intros acc2 w2 [Hb2 ->]. split; [congruence|]. rewrite Hb1, <- app_assoc.
  f_equal. by destruct (competitor_of k (blobs w) x).
Qed.

Lemma _win_competition_exact k u id w :
  reads_ok env →
  returns (_win_competition env k u id) w
    (λ won w', blobs w' = blobs w
               ∧ won = default false
                         (Competition.settle (competitors_in k (blobs w)) u id)).
Proof.
  intros Hreads. unfold _win_competition. apply returns_try_except.
  apply wp_bind_returns. eapply returns_mono.
  { apply list_files_exact; [apply Hreads|done|by apply reads_ok_list]. }
  intros l w1 [Hb1 ->]. apply wp_bind_returns. eapply returns_mono.
  { by apply collect_competitors_exact. }
  intros acc w2 [Hb2 ->]. rewrite Hb1. simpl. fold (competitors_in k (blobs w)).
  destruct (Competition.settle _ u id) as [b|].
  - apply wp_ret. split; [congruence|done].
  - apply wp_raise, returns_ret. split; [congruence|done].
Qed.

End WinCompetition.

(** Two requesters that look at the same lock files cannot both win:
    when the reads go through and the store is the same, a second
    winner is the first one. *)
Theorem at_most_one_winner env k u1 id1 u2 id2 w1 w2 :
  reads_ok env →
  blobs w2 = blobs w1 →
  (_win_competition env k u1 id1 w1).1 = Ok true →
  (_win_competition env k u2 id2 w2).1 = Ok true →
  u1 = u2 ∧ id1 = id2.
Proof.
  intros Hreads Hb H1 H2.
  destruct (returns_run _ _ _ (_win_competition_exact env k u1 id1 w1 Hreads))
    as (b1 & w1' & E1 & _ & Hb1).
  destruct (returns_run _ _ _ (_win_competition_exact env k u2 id2 w2 Hreads))
    as (b2 & w2' & E2 & _ & Hb2).
  rewrite E1 in H1. rewrite E2 in H2. simpl in H1, H2.
  injection H1 as ->. injection H2 as ->. rewrite Hb in Hb2.
  destruct (Competition.settle _ u1 id1) as [[|]|] eqn:S1; try done.
  destruct (Competition.settle _ u2 id2) as [[|]|] eqn:S2; try done.
  apply settle_winner_listed in S1 as (c1 & _ & Ho1 & Hc1 & He1).
  apply settle_winner_listed in S2 as (c2 & _ & Ho2 & Hc2 & He2).
  assert (c1 = c2) as -> by by eapply earliest_unique.
  split; congruence.
Qed.

(** Whatever the bucket does, a requester wins only with an entry of
    its own in the store: a blob below "system/locks/" that names the
    requester as owner, carries its competition id and is still
    competing. *)
Theorem winner_has_an_entry env k u id w :
  (_win_competition env k u id w).1 = Ok true →
  ∃ n j, Str.starts_with "system/locks/" n = true
         ∧ Bucket.get n (blobs w) = Some (BlobJson j)
         ∧ owner j = Some u ∧ competition_id j = Some id
         ∧ j_status j = Some "competing".
Proof.
  intros Hwon.
  cut (returns (_win_competition env k u id) w
         (λ won _, won = true →
            ∃ n j, Str.starts_with "system/locks/" n = true
                   ∧ Bucket.get n (blobs w) = Some (BlobJson j)
                   ∧ owner j = Some u ∧ competition_id j = Some id
                   ∧ j_status j = Some "competing")).
  { intros (b & w' & E & H)%returns_run. rewrite E in Hwon.
    injection Hwon as ->. by apply H. }
  unfold _win_competition. apply returns_try_except.
  apply wp_bind_returns. eapply returns_mono; [apply list_files_val|].
  intros l w1 [Hb1 Hl]. apply wp_bind_returns. eapply returns_mono.
  { apply collect_competitors_val. }
  intros acc w2 [Hb2 Hacc].
  destruct (Competition.settle acc u id) as [[|]|] eqn:Hs;
    [|by apply wp_ret|by apply wp_raise, returns_ret].
  apply wp_ret. intros _.
  apply settle_winner_listed in Hs as (c & Hc & Ho & Hid & _).
  destruct (Hacc c Hc) as [Hin|(x & Hx & Hcx)]; [by apply elem_of_nil in Hin|].
  rewrite Hb1 in Hcx. unfold competitor_of in Hcx.
  destruct (_ && _); [|done].
  destruct (Bucket.get x (blobs w)) as [[| |j|]|] eqn:Hget; try done.
  simpl in Hcx.
  destruct (JsonObj.truthy j && bool_decide (j_status j = Some "competing"))
    eqn:Hj; [|done].
  injection Hcx as <-. simpl in Ho, Hid.
  apply andb_true_iff in Hj as [_ Hst]. apply bool_decide_eq_true in Hst.
  exists x, j. split; [|done].
  destruct Hl as [->| ->]; [by apply elem_of_nil in Hx|].
  by apply (listed_starts_with "system/locks/" (blobs w)).
Qed.

Lemma at_most_one_winner_witness :
  reads_ok Example.env_ok
  ∧ (_win_competition Example.env_ok "workset_001" "ann"
       "ann_1700000000000_12345" Scenario.competing).1 = Ok true
  ∧ "ann" = "ann" ∧ "ann_1700000000000_12345" = "ann_1700000000000_12345".
Proof.
  assert (reads_ok Example.env_ok) as Hreads by done.
  assert ((_win_competition Example.env_ok "workset_001" "ann"
             "ann_1700000000000_12345" Scenario.competing).1 = Ok true)
    as Hwon by (by vm_compute).
  split; [exact Hreads|]. split; [exact Hwon|].
  exact (at_most_one_winner Example.env_ok "workset_001"
           "ann" "ann_1700000000000_12345" "ann" "ann_1700000000000_12345"
           Scenario.competing Scenario.competing Hreads eq_refl Hwon Hwon).
Defined.

Lemma winner_has_an_entry_witness :
  ∃ n j, Str.starts_with "system/locks/" n = true
         ∧ Bucket.get n (blobs Scenario.competing) = Some (BlobJson j)
         ∧ owner j = Some "ann"
         ∧ competition_id j = Some "ann_1700000000000_12345"
         ∧ j_status j = Some "competing".
Proof.
  apply (winner_has_an_entry Example.env_ok "workset_001" "ann"
           "ann_1700000000000_12345" Scenario.competing).
  by vm_compute.
Defined.

(** ** Materialising a workset *)

Lemma assign_cell name value df r :
  r ∈ rows (Frame.assign name value df) →
  name ≠ "workset" → name ≠ "status" → name ≠ "auto_assigned" →
  cell name r = Some value.
Proof.
  unfold Frame.assign. simpl. intros (r0 & -> & _)%list_elem_of_fmap ???.
  unfold cell. rewrite !decide_False by done. simpl. by rewrite decide_True.
Qed.




(** Without a dataset that reads as a table, [create_workset_file]
    answers [False] and writes nothing, whatever the bucket does. *)
Theorem create_workset_file_needs_dataset env username workset w :
  Bucket.get (dataset_path workset) (blobs w) ≫= Frame.read_csv = None →
  ∃ w', create_workset_file env username workset w = (Ok false, w')
        ∧ blobs w' = blobs w.
Proof.
  intros Hnone.
  cut (returns (create_workset_file env username workset) w
         (λ ok w', ok = false ∧ blobs w' = blobs w)).
  { intros (ok & w' & Hrun & -> & Hb)%returns_run. by exists w'. }
  unfold create_workset_file. apply returns_try_except_total, returns_bind.
  eapply returns_mono; [apply download_csv_val|].
  intros o w1 [Hb1 Ho].
  assert (o = None) as ->.
  { destruct Ho as [-> | ->]; [done|exact Hnone]. }
  by apply returns_ret.
Qed.

Lemma create_workset_file_needs_dataset_witness :
  ∃ w', create_workset_file Example.env_ok "dora" "workset_001"
          Example.stale_ledger = (Ok false, w')
        ∧ blobs w' = blobs Example.stale_ledger.
Proof.
  apply (create_workset_file_needs_dataset Example.env_ok "dora"
           "workset_001" Example.stale_ledger).
  reflexivity.
Defined.

(** ** The worker's workset files ([workset_utils.py]) *)

Lemma append_assoc (a b c : string) : (a +:+ b) +:+ c = a +:+ (b +:+ c).
Proof.
  induction a as [|x a IH]; [done|].
  change (String x ((a +:+ b) +:+ c) = String x (a +:+ (b +:+ c))).
  by rewrite IH.
Qed.

Lemma csv_not_folder n :
  Str.ends_with n ".csv" = true → Str.ends_with n "/" = false.
Proof.
  induction n as [|a n IH]; [done|].
  rewrite !ends_with_cons. intros [He|He]%orb_true_iff.
  - apply String.eqb_eq in He. injection He as -> ->. by vm_compute.
  - rewrite (IH He), orb_false_r. apply String.eqb_neq. intros [= -> ->].
    by vm_compute in He.
Qed.

Lemma coding_path_file u k :
  ("coding_result/" +:+ u +:+ "/") +:+ k +:+ ".csv" = workset_file_path u k.
Proof. unfold workset_file_path. by rewrite !append_assoc. Qed.

Lemma coding_path_folder u :
  Str.ends_with ("coding_result/" +:+ u +:+ "/") "/" = true.
Proof. apply ends_with_app_l, ends_with_app. Qed.

Lemma workset_file_in_folder u k :
  Str.starts_with ("coding_result/" +:+ u +:+ "/") (workset_file_path u k)
  = true.
Proof. rewrite <- coding_path_file. apply starts_with_app. Qed.

Lemma workset_file_not_folder u k :
  Str.ends_with (workset_file_path u k) "/" = false.
Proof.
  apply csv_not_folder. unfold workset_file_path.
  do 3 apply ends_with_app_l. apply ends_with_app.
Qed.

Lemma listed_folder folder (s : Bucket.store) :
  Str.ends_with folder "/" = true →
  listed folder s
  = filter (λ n, Str.ends_with n "/" = false) (Bucket.names folder s).
Proof.
  intros Hf. unfold listed. by rewrite Hf, andb_false_r.
Qed.

Lemma listed_present folder (s : Bucket.store) n :
  Str.ends_with folder "/" = true →
  n ∈ listed folder s → Bucket.get n s ≠ None.
Proof.
  intros Hf. rewrite listed_folder by done.
  intros [_ [_ Hn]%list_elem_of_filter]%list_elem_of_filter Hnone.
  revert Hn. clear -Hnone. induction s as [|[m b] s IH]; simpl in *.
  - by intros ?%elem_of_nil.
  - destruct (decide (m = n)) as [->|Hne]; [done|].
    intros [?|?]%elem_of_cons; [congruence|auto].
Qed.

Lemma not_listed_absent folder (s : Bucket.store) n :
  Str.ends_with folder "/" = true →
  Str.starts_with folder n = true → Str.ends_with n "/" = false →
  n ∉ listed folder s → Bucket.get n s = None.
Proof.
  intros Hf Hpre Hsuf Hout. rewrite listed_folder in Hout by done.
  destruct (Bucket.get n s) as [b|] eqn:Hget; [|done].
  exfalso. apply Hout. apply list_elem_of_filter. split; [done|].
  apply list_elem_of_filter. split; [done|]. by eapply get_Some_elem.
Qed.

Section WorksetFiles.

Variable env : environment.

Lemma get_user_worksets_reads u w :
  returns (get_user_worksets env u) w (λ _ w', blobs w' = blobs w).
Proof.
  unfold get_user_worksets. apply returns_try_except_total, returns_bind.
  eapply returns_mono; [apply download_csv_val|].
  intros o w1 [Hb _]. destruct o as [df|]; [|by apply returns_ret].
  destruct (List.find _ _); by apply returns_ret.
Qed.

(** What [check_missing_worksets] answers: the worksets whose file the
    listing does not name, and every workset when the listing fails. *)
Lemma check_missing_worksets_val u l w :
  returns (check_missing_worksets env u l) w
    (λ missing w',
       blobs w' = blobs w
       ∧ (missing = l
          ∨ missing
            = filter (λ k, workset_file_path u k
                           ∉ listed ("coding_result/" +:+ u +:+ "/") (blobs w))
                     l)
       ∧ (initialized env = true
          → list_ok env ("coding_result/" +:+ u +:+ "/")
          → missing
            = filter (λ k, workset_file_path u k
                           ∉ listed ("coding_result/" +:+ u +:+ "/") (blobs w))
                     l)).
Proof.
  assert (∀ files : list string,
            filter (λ k, ("coding_result/" +:+ u +:+ "/") +:+ k +:+ ".csv"
                         ∉ files) l
            = filter (λ k, workset_file_path u k ∉ files) l) as Hpath.
  { intros files. apply list_filter_iff. intros k.
    by rewrite coding_path_file. }
  unfold check_missing_worksets. apply returns_try_except_total, returns_bind.
  eapply returns_mono.
  { apply returns_and; [apply list_files_val|].
    apply (returns_cond _ _ (initialized env = true
                             ∧ list_ok env ("coding_result/" +:+ u +:+ "/")));
      [apply list_files_total|].
    intros [Hi Hl]. apply list_files_exact; [done|apply coding_path_folder|done]. }
  intros files w1 [[Hb Hfiles] Hexact]. apply returns_ret.
  split; [done|]. rewrite Hpath. split.
  - destruct Hfiles as [->| ->]; [left|by right].
    clear. induction l as [|k l IH]; [done|].
    rewrite filter_cons_True by apply not_elem_of_nil. by rewrite IH.
  - intros Hi Hl. by destruct (Hexact (conj Hi Hl)) as [_ ->].
Qed.

End WorksetFiles.

(** [get_user_worksets] on a record whose first workset column is
    [workset]: it answers the worksets the record holds, each once, and
    these are the worksets the usage scans count for the worker. *)
Theorem get_user_worksets_lists_record env u w df :
  initialized env = true → read_ok env (record_path u) →
  Bucket.get (record_path u) (blobs w) ≫= Frame.read_csv = Some df →
  List.find (λ col, Str.contains "workset" (Str.lower col)) (columns df)
  = Some "workset" →
  ∃ l w', get_user_worksets env u w = (Ok (Some l), w')
          ∧ NoDup l
          ∧ (∀ k, k ∈ l ↔ assigned (blobs w) u k = true)
          ∧ blobs w' = blobs w.
Proof.
  intros Hi Hread Hdf Hcol.
  cut (returns (get_user_worksets env u) w
         (λ o w', blobs w' = blobs w
                  ∧ o = Some (Frame.unique
                                (Frame.dropna (workset <$> rows df))))).
  { intros (o & w' & Hrun & Hb & ->)%returns_run.
    eexists _, w'. split; [done|]. split; [apply unique_NoDup|].
    split; [|done]. intros k. rewrite unique_elem, dropna_mentions.
    unfold assigned, holds. rewrite Hdf. unfold Frame.mentions.
    assert (Frame.has_column "workset" df = true) as ->; [|done].
    apply bool_decide_eq_true, list_elem_of_In.
    by apply List.find_some in Hcol as [Hin _]. }
  unfold get_user_worksets. apply returns_try_except_total, returns_bind.
  eapply returns_mono; [by apply download_csv_exact|].
  intros o w1 [Hb ->]. rewrite Hdf, Hcol. apply returns_ret.
  split; [done|]. unfold column, cell. simpl. done.
Qed.

Lemma get_user_worksets_lists_record_witness :
  ∃ l w', get_user_worksets Example.env_ok "ann" Example.three_holders
          = (Ok (Some l), w')
          ∧ NoDup l
          ∧ (∀ k, k ∈ l ↔ assigned (blobs Example.three_holders) "ann" k = true)
          ∧ blobs w' = blobs Example.three_holders.
Proof.
  apply (get_user_worksets_lists_record Example.env_ok "ann"
           Example.three_holders
           (DataFrame ["workset"; "status"]
              [Row (Some "workset_001") (Some "completed") None []]));
    [reflexivity|by intros n|reflexivity|reflexivity].
Defined.

Section Ensure.

Variable env : environment.
Variable u : string.

(** The loop of [ensure_user_worksets] keeps a property that the
    uploads of the missing files keep. *)
Lemma ensure_loop_keeps (N : string → Prop) (I : world → Prop)
    missing l results :
  closed N I →
  (∀ k, k ∈ missing → N (workset_file_path u k)) →
  preserves I (for_each l (ensure_workset env u missing) results).
Proof.
  intros HI HN. apply preserves_for_each. intros k acc _.
  unfold ensure_workset. case_bool_decide as Hk; [|apply preserves_ret].
  apply preserves_bind; [|intros; apply preserves_ret].
  apply (create_workset_file_preserves env N); [done|by apply HN].
Qed.

Lemma login_loop_keeps (N : string → Prop) (I : world → Prop)
    missing results :
  closed N I →
  (∀ k, k ∈ missing → N (workset_file_path u k)) →
  preserves I
    (for_each missing
       (λ workset results,
          created ← create_workset_file env u workset;
          ret (results ++ [(workset, created)]))
       results).
Proof.
  intros HI HN. apply preserves_for_each. intros k acc Hk.
  apply preserves_bind; [|intros; apply preserves_ret].
  apply (create_workset_file_preserves env N); [done|by apply HN].
Qed.

End Ensure.

(** When the listing of the worker's folder goes through,
    [ensure_user_worksets] and [auto_ensure_worksets_on_login] never
    overwrite a blob that exists: a workset file that is there, with
    the progress it records, is left as it was, and so is every other
    blob.  Only missing files are created. *)
Theorem ensure_never_overwrites env u n w :
  initialized env = true →
  list_ok env ("coding_result/" +:+ u +:+ "/") →
  Bucket.get n (blobs w) ≠ None →
  Bucket.get n (blobs (ensure_user_worksets env u w).2)
  = Bucket.get n (blobs w)
  ∧ Bucket.get n (blobs (auto_ensure_worksets_on_login env u w).2)
    = Bucket.get n (blobs w).
Proof.
  intros Hi Hlist Hn.
  assert (closed (λ m, m ≠ n)
            (λ w', Bucket.get n (blobs w') = Bucket.get n (blobs w))) as HI.
  { apply closed_get. by intros m Hm. }
  assert (∀ (l : list string) k,
            k ∈ filter (λ k, workset_file_path u k
                          ∉ listed ("coding_result/" +:+ u +:+ "/") (blobs w))
                       l →
            workset_file_path u k ≠ n) as Hnew.
  { intros l k [Hout _]%list_elem_of_filter <-. apply Hn.
    apply (not_listed_absent ("coding_result/" +:+ u +:+ "/"));
      [apply coding_path_folder|apply workset_file_in_folder
      |apply workset_file_not_folder|done]. }
  assert (∀ {A} (m : M A) (w0 : world) (Q : world → Prop),
            returns m w0 (λ _ w', Q w') → Q (m w0).2) as Hend.
  { intros A m w0 Q H. unfold returns, wp in H. by destruct (m w0).1. }
  assert (∀ worksets w1,
            blobs w1 = blobs w →
            returns (check_missing_worksets env u worksets) w1
              (λ missing w2,
                 blobs w2 = blobs w
                 ∧ ∀ k, k ∈ missing → workset_file_path u k ≠ n)) as Hmiss.
  { intros worksets w1 Hb1. eapply returns_mono;
      [apply check_missing_worksets_val|].
    intros missing w2 (Hb2 & _ & Hexact). split; [congruence|].
    rewrite (Hexact Hi Hlist), Hb1. apply Hnew. }
  split.
  - apply (Hend _ (ensure_user_worksets env u) w
             (λ w', Bucket.get n (blobs w') = Bucket.get n (blobs w))).
    unfold ensure_user_worksets. apply returns_try_except_total, returns_bind.
    eapply returns_mono; [apply get_user_worksets_reads|].
    intros worksets w1 Hb1.
    destruct worksets as [[|k0 l]|]; try (apply returns_ret; by rewrite Hb1).
    apply returns_bind. eapply returns_mono; [by apply Hmiss|].
    intros missing w2 [Hb2 Hne].
    destruct missing as [|m0 missing]; [apply returns_ret; by rewrite Hb2|].
    apply (preserves_total
             (λ w', Bucket.get n (blobs w') = Bucket.get n (blobs w)));
      [|apply total_for_each|by rewrite Hb2].
    + by apply (ensure_loop_keeps env u (λ m, m ≠ n)).
    + intros x acc. unfold ensure_workset. case_bool_decide; [|apply total_ret].
      apply total_bind; [apply create_workset_file_total|].
      intros; apply total_ret.
  - apply (Hend _ (auto_ensure_worksets_on_login env u) w
             (λ w', Bucket.get n (blobs w') = Bucket.get n (blobs w))).
    unfold auto_ensure_worksets_on_login.
    apply returns_try_except_total, returns_bind.
    eapply returns_mono; [apply get_user_worksets_reads|].
    intros worksets w1 Hb1.
    destruct worksets as [[|k0 l]|]; try (apply returns_ret; by rewrite Hb1).
    apply returns_bind. eapply returns_mono; [by apply Hmiss|].
    intros missing w2 [Hb2 Hne].
    destruct missing as [|m0 missing]; [apply returns_ret; by rewrite Hb2|].
    apply returns_bind. eapply returns_mono.
    { apply (preserves_total
               (λ w', Bucket.get n (blobs w') = Bucket.get n (blobs w)));
        [|apply total_for_each|by rewrite Hb2].
      - by apply (login_loop_keeps env u (λ m, m ≠ n)).
      - intros x acc. apply total_bind; [apply create_workset_file_total|].
        intros; apply total_ret. }
    intros results w3 Hw3. by apply returns_ret.
Qed.


Lemma ensure_never_overwrites_witness :
  initialized Example.env_ok = true
  ∧ Bucket.get (workset_file_path "gus" "workset_001")
      (blobs (ensure_user_worksets Example.env_ok "gus" Scenario.half_done).2)
    = Bucket.get (workset_file_path "gus" "workset_001")
        (blobs Scenario.half_done)
  ∧ Bucket.get (workset_file_path "gus" "workset_001")
      (blobs (auto_ensure_worksets_on_login Example.env_ok "gus"
                Scenario.half_done).2)
    = Bucket.get (workset_file_path "gus" "workset_001")
        (blobs Scenario.half_done).
Proof.
  split; [reflexivity|].
  apply (ensure_never_overwrites Example.env_ok "gus"
           (workset_file_path "gus" "workset_001") Scenario.half_done);
    [reflexivity|by intros n|by vm_compute].
Defined.

Lemma put_keeps_present p b (s : Bucket.store) n :
  Bucket.get n s ≠ None → Bucket.get n (Bucket.put p b s) ≠ None.
Proof.
  intros Hn. destruct (decide (n = p)) as [->|Hne].
  - by rewrite get_put_eq.
  - by rewrite get_put_ne.
Qed.

Section Ensured.

Variable env : environment.
Variable u : string.

Lemma create_workset_file_val k w :
  returns (create_workset_file env u k) w
    (λ created w',
       (created = true → Bucket.get (workset_file_path u k) (blobs w') ≠ None)
       ∧ ∀ n, Bucket.get n (blobs w) ≠ None → Bucket.get n (blobs w') ≠ None).
Proof.
  unfold create_workset_file. apply returns_try_except_total, returns_bind.
  eapply returns_mono; [apply download_csv_val|].
  intros o w1 [Hb1 _]. rewrite <- Hb1.
  destruct o as [df|]; [|by apply returns_ret].
  apply returns_bind. eapply returns_mono; [apply upload_csv_val|].
  intros ok w2 [Hok Hb2].
  assert (∀ n, Bucket.get n (blobs w1) ≠ None → Bucket.get n (blobs w2) ≠ None)
    as Hkeep.
  { intros n Hn. destruct Hb2 as [->| ->]; [done|by apply put_keeps_present]. }
  destruct ok; apply returns_ret; (split; [|done]); [|done].
  intros _. rewrite Hok by done. fold (workset_file_path u k).
  by rewrite get_put_eq.
Qed.

(** The loop of [ensure_user_worksets]: a workset entered as [True] has
    its file. *)
Lemma ensure_loop_reports missing l results w :
  (∀ k, (k, true) ∈ results →
        Bucket.get (workset_file_path u k) (blobs w) ≠ None) →
  (∀ k, k ∈ l → k ∉ missing →
        Bucket.get (workset_file_path u k) (blobs w) ≠ None) →
  returns (for_each l (ensure_workset env u missing) results) w
    (λ results' w',
       ∀ k, (k, true) ∈ results' →
            Bucket.get (workset_file_path u k) (blobs w') ≠ None).
Proof.
  revert results w. induction l as [|x l IH]; intros results w Hres Hl;
    cbn [for_each].
  { by apply returns_ret. }
  apply returns_bind. unfold ensure_workset. case_bool_decide as Hx.
  - apply returns_bind. eapply returns_mono; [apply create_workset_file_val|].
    intros created w1 [Hnew Hkeep]. apply returns_ret. apply IH.
    + intros k [Hk|Hk%list_elem_of_singleton]%elem_of_app.
      * by apply Hkeep, Hres.
      * injection Hk as -> <-. by apply Hnew.
    + intros k Hk Hm. apply Hkeep, Hl; [by apply list_elem_of_further|done].
  - apply returns_ret. apply IH.
    + intros k [Hk|Hk%list_elem_of_singleton]%elem_of_app; [by apply Hres|].
      injection Hk as ->. apply Hl; [apply list_elem_of_here|done].
    + intros k Hk Hm. apply Hl; [by apply list_elem_of_further|done].
Qed.

End Ensured.

(** Whatever the bucket does, a workset that [ensure_user_worksets]
    reports as [True] has its file in the worker's folder when the call
    returns: it was listed, or it has just been created. *)
Theorem ensured_worksets_exist env u w results w' k :
  ensure_user_worksets env u w = (Ok results, w') →
  (k, true) ∈ results →
  Bucket.get (workset_file_path u k) (blobs w') ≠ None.
Proof.
  intros Hrun Hk.
  cut (returns (ensure_user_worksets env u) w
         (λ results w', ∀ k, (k, true) ∈ results →
            Bucket.get (workset_file_path u k) (blobs w') ≠ None)).
  { intros H. by apply (run_returns _ _ _ _ _ Hrun H). }
  clear. unfold ensure_user_worksets.
  apply returns_try_except_total, returns_bind.
  eapply returns_mono; [apply get_user_worksets_reads|].
  intros worksets w1 Hb1.
  destruct worksets as [[|k0 l]|];
    try (apply returns_ret; by intros k ?%elem_of_nil).
  apply returns_bind. eapply returns_mono; [apply check_missing_worksets_val|].
  intros missing w2 (Hb2 & Hmissing & _).
  assert (∀ k, k ∈ k0 :: l → k ∉ missing →
            Bucket.get (workset_file_path u k) (blobs w2) ≠ None) as Hlisted.
  { intros k Hk Hm. destruct Hmissing as [->| ->]; [done|].
    rewrite Hb2.
    apply (listed_present ("coding_result/" +:+ u +:+ "/"));
      [apply coding_path_folder|].
    destruct (decide (workset_file_path u k
                      ∈ listed ("coding_result/" +:+ u +:+ "/") (blobs w1)))
      as [Hin|Hout]; [done|].
    destruct Hm. by apply list_elem_of_filter. }
  destruct missing as [|m0 missing].
  - apply returns_ret. intros k (k' & [= ->] & Hk')%list_elem_of_fmap.
    apply Hlisted; [done|apply not_elem_of_nil].
  - apply ensure_loop_reports; [by intros k ?%elem_of_nil|done].
Qed.

Lemma ensured_worksets_exist_witness :
  Bucket.get (workset_file_path "gus" "workset_002")
    (blobs (ensure_user_worksets Example.env_ok "gus" Scenario.half_done).2)
  ≠ None.
Proof.
  apply (ensured_worksets_exist Example.env_ok "gus" Scenario.half_done
           [("workset_001", true); ("workset_002", true)]).
  - by vm_compute.
  - apply list_elem_of_further, list_elem_of_here.
Defined.

(** ** What a returned assignment guarantees *)

Lemma closed_two_gets (N : string → Prop) (J : option blob → option blob → Prop)
    p1 p2 :
  (∀ n, N n → n ≠ p1 ∧ n ≠ p2) →
  closed N (λ w, J (Bucket.get p1 (blobs w)) (Bucket.get p2 (blobs w))).
Proof.
  intros HN w o Ho Hw. split; [done|]. simpl.
  destruct o; simpl; try done.
  - destruct (HN name (Ho _ eq_refl)). by rewrite !get_put_ne.
  - destruct (HN name (Ho _ eq_refl)). by rewrite !get_del_ne.
Qed.

Lemma materialised_gets u k (s s' : Bucket.store) :
  Bucket.get (record_path u) s' = Bucket.get (record_path u) s →
  Bucket.get (workset_file_path u k) s' = Bucket.get (workset_file_path u k) s →
  materialised u k s → materialised u k s'.
Proof. unfold materialised. by intros -> ->. Qed.

Lemma concat_last df cols r : last (rows (Frame.concat df cols r)) = Some r.
Proof. unfold Frame.concat. simpl. apply last_snoc. Qed.

Lemma status_is_new_task_column : "status" ∈ new_task_columns.
Proof. apply list_elem_of_further, list_elem_of_here. Qed.

Lemma log_is_not_a_workset_file u k :
  workset_file_path u k ≠ assignment_log_path.
Proof. done. Qed.

Section Materialised.

Variable env : environment.
Variable u : string.

Lemma create_workset_file_true k w :
  returns (create_workset_file env u k) w
    (λ ok w1, ok = true →
       ∃ df, blobs w1
             = Bucket.put (workset_file_path u k)
                 (BlobCsv (Frame.assign "Progress" "N" df)) (blobs w)).
Proof.
  unfold create_workset_file. apply returns_try_except_total, returns_bind.
  eapply returns_mono; [apply download_csv_val|].
  intros o w1 [Hb1 _]. destruct o as [df|]; [|by apply returns_ret].
  apply returns_bind. eapply returns_mono; [apply upload_csv_val|].
  intros ok w2 [Hok _]. destruct ok; apply returns_ret; [|done].
  intros _. exists df. rewrite Hok by done. by rewrite Hb1.
Qed.

(** Whatever the bucket does, a commit that answers [True] has put the
    row and the file. *)
Lemma commit_materialises k w :
  returns (_complete_workset_assignment env u k) w
    (λ ok w', ok = true → materialised u k (blobs w')).
Proof.
  unfold _complete_workset_assignment. apply returns_try_except_total.
  apply returns_bind.
  eapply returns_mono; [apply _has_completed_workset_total|].
  intros completed w1 _. destruct completed; [by apply returns_ret|].
  apply returns_bind.
  eapply returns_mono; [apply _get_real_time_usage_count_total|].
  intros c w2 _. destruct (c >=? 3); [by apply returns_ret|].
  apply returns_bind.
  eapply returns_mono; [apply _update_usage_statistics_safely_total|].
  intros updated w3 _. destruct updated; simpl; [|by apply returns_ret].
  apply returns_bind.
  eapply returns_mono; [apply _add_workset_to_user_record_effect|].
  intros added w4 (read & r & _ & _ & Hr1 & Hr2 & _ & Hnew).
  cbv zeta in Hnew. destruct Hnew as (_ & Hput & _).
  destruct added; simpl.
  2:{ apply returns_bind.
      eapply returns_mono; [apply _rollback_usage_statistics_total|].
      intros ? w5 _. by apply returns_ret. }
  specialize (Hput eq_refl).
  set (df1 := Frame.concat (default (DataFrame ["workset"; "status"] []) read)
                new_task_columns r) in *.
  apply returns_bind.
  eapply returns_mono; [apply create_workset_file_true|].
  intros created w5 Hb5. destruct created; simpl.
  2:{ apply returns_bind.
      eapply returns_mono; [apply _rollback_usage_statistics_total|].
      intros ? w6 _. apply returns_bind.
      eapply returns_mono; [apply _remove_workset_from_user_record_total|].
      intros ? w7 _. by apply returns_ret. }
  apply returns_bind. eapply returns_mono; [apply _log_assignment_effect|].
  intros ? w6 Hb6. apply returns_ret. intros _.
  destruct (Hb5 eq_refl) as (d & Hd). rewrite Hput in Hd.
  assert (Bucket.get (record_path u) (blobs w5) = Some (BlobCsv df1)
          ∧ Bucket.get (workset_file_path u k) (blobs w5)
            = Some (BlobCsv (Frame.assign "Progress" "N" d))) as [Hrec5 Hfile5].
  { rewrite Hd. split; [|apply get_put_eq].
    rewrite get_put_ne by apply output_is_not_a_record. apply get_put_eq. }
  apply (materialised_gets u k (blobs w5)).
  { destruct Hb6 as [->|[df ->]]; [done|].
    by rewrite get_put_ne by apply log_is_not_a_record. }
  { destruct Hb6 as [->|[df ->]]; [done|].
    by rewrite get_put_ne by apply log_is_not_a_workset_file. }
  split.
  - exists df1, r. split; [done|]. split; [apply concat_last|].
    split; [done|]. split; [done|].
    split.
    + apply (proj1 (bool_decide_eq_true _)
               (has_column_concat "workset" _ _ r workset_is_new_task_column)).
    + apply (proj1 (bool_decide_eq_true _)
               (has_column_concat "status" _ _ r status_is_new_task_column)).
  - eexists. split; [exact Hfile5|].
    intros r' Hr'. by apply (assign_cell _ _ d).
Qed.

(** The names a request returns are candidates, whatever the bucket
    does. *)
Lemma scan_candidates_candidate usage l w :
  returns (scan_candidates env u usage l) w
    (λ r _, ∀ name, r = Some name → ∃ i, i ∈ l ∧ name = workset_name i).
Proof.
  revert w. induction l as [|i l IH]; intros w; simpl.
  { by apply returns_ret. }
  assert (returns (scan_candidates env u usage l) w
            (λ r _, ∀ name, r = Some name →
                            ∃ j, j ∈ i :: l ∧ name = workset_name j)) as Hrest.
  { eapply returns_mono; [apply IH|]. intros r w' Hr name Hname.
    destruct (Hr name Hname) as (j & Hj & ->). exists j.
    split; [by apply list_elem_of_further|done]. }
  destruct (_ <? 3); [|done].
  apply returns_bind.
  eapply returns_mono; [apply _has_completed_workset_total|].
  intros completed w1 _. destruct completed.
  - eapply returns_mono; [apply IH|]. intros r w' Hr name Hname.
    destruct (Hr name Hname) as (j & Hj & ->). exists j.
    split; [by apply list_elem_of_further|done].
  - apply returns_ret. intros name [= <-]. exists i.
    split; [apply list_elem_of_here|done].
Qed.

Lemma _find_available_workset_candidate w :
  returns (_find_available_workset env u) w
    (λ r _, ∀ name, r = Some name → is_candidate name).
Proof.
  unfold _find_available_workset. apply returns_try_except_total.
  apply returns_bind.
  eapply returns_mono; [apply _get_usage_statistics_total|].
  intros usage w1 _. eapply returns_mono; [apply scan_candidates_candidate|].
  intros r w2 Hr name Hname. destruct (Hr name Hname) as (i & Hi & ->).
  exists i. split; [|done]. apply elem_of_seq in Hi. lia.
Qed.

Lemma release_keeps_materialised k name w :
  materialised u k (blobs w) →
  returns (_release_workset_lock env name u) w
    (λ _ w', materialised u k (blobs w')).
Proof.
  intros Hm.
  apply (preserves_total (λ w', materialised u k (blobs w')));
    [|apply _release_workset_lock_total|done].
  apply (_release_workset_lock_preserves env
           (λ n, Str.starts_with "system/locks/" n = true)); [|done].
  apply (closed_two_gets _
           (λ b1 b2,
              (∃ df r, b1 = Some (BlobCsv df)
                       ∧ last (rows df) = Some r
                       ∧ workset r = Some k ∧ status r = Some "not_started"
                       ∧ "workset" ∈ columns df ∧ "status" ∈ columns df)
              ∧ ∃ df, b2 = Some (BlobCsv df)
                      ∧ ∀ r, r ∈ rows df → cell "Progress" r = Some "N")
           (record_path u) (workset_file_path u k)).
  intros n Hn. split; intros ->; done.
Qed.

Lemma attempt_materialises w :
  returns (attempt env u) w
    (λ f w', ∀ k, f = Return (Some k) →
                  is_candidate k ∧ materialised u k (blobs w')).
Proof.
  unfold attempt. apply returns_try_except_total, returns_bind.
  eapply returns_mono; [apply _find_available_workset_candidate|].
  intros [name|] w1 Hname; [|by apply returns_ret].
  specialize (Hname name eq_refl). apply returns_bind.
  eapply returns_mono; [apply _try_acquire_workset_lock_total|].
  intros locked w2 _. destruct locked; [|by apply returns_ret].
  apply returns_try_finally, returns_bind.
  eapply returns_mono; [apply _is_workset_still_available_total|].
  intros still w3 _. destruct still.
  2:{ apply returns_ret. eapply returns_mono;
        [apply _release_workset_lock_total|]. done. }
  apply returns_bind.
  eapply returns_mono; [apply commit_materialises|].
  intros ok w4 Hok. destruct ok; apply returns_ret.
  2:{ eapply returns_mono; [apply _release_workset_lock_total|]. done. }
  eapply returns_mono; [apply release_keeps_materialised; by apply Hok|].
  intros ? w5 Hm k [= E]. by rewrite <- E.
Qed.

Lemma attempts_materialises n w :
  returns (attempts env n u) w
    (λ r w', ∀ k, r = Some k →
                  is_candidate k ∧ materialised u k (blobs w')).
Proof.
  revert w. induction n as [|n IH]; intros w; simpl.
  { by apply returns_ret. }
  apply returns_bind.
  eapply returns_mono; [apply attempt_materialises|].
  intros [v|] w1 Hv; [|apply IH].
  apply returns_ret. intros k ->. by apply Hv.
Qed.

Lemma request_materialises w :
  returns (request_new_workset env u) w
    (λ r w', ∀ k, r = Some k →
                  is_candidate k ∧ materialised u k (blobs w')).
Proof.
  unfold request_new_workset. apply returns_bind.
  eapply returns_mono; [apply _has_pending_worksets_total|].
  intros pending w1 _. destruct pending; [by apply returns_ret|].
  apply attempts_materialises.
Qed.

End Materialised.

(** A request that answers with a workset name has materialised the
    assignment, whatever the bucket did on the way: the name is one of
    the hundred candidates [workset_001] .. [workset_100], the last row
    of the user's record names it with status [not_started], and the
    user's workset file exists with every poem's [Progress] set to [N]. *)
Theorem returned_workset_is_materialised env u w k w' :
  request_new_workset env u w = (Ok (Some k), w') →
  is_candidate k ∧ materialised u k (blobs w').
Proof.
  intros E. pose proof (request_materialises env u w) as H.
  unfold returns, wp in H. rewrite E in H. simpl in H. by apply H.
Qed.

Lemma returned_workset_is_materialised_witness :
  is_candidate "workset_001"
  ∧ materialised "dora" "workset_001"
      (blobs (request_new_workset Example.env_ok "dora" Scenario.half_done).2).
Proof.
  apply (returned_workset_is_materialised Example.env_ok "dora"
           Scenario.half_done "workset_001").
  vm_compute. reflexivity.
Defined.

(** ** A request that succeeds *)

Lemma loads_inv b j : JsonObj.loads b = Some j → b = BlobJson j.
Proof. destruct b; simpl; congruence. Qed.

Lemma get_loads_inv p s j :
  Bucket.get p s ≫= JsonObj.loads = Some j → Bucket.get p s = Some (BlobJson j).
Proof.
  destruct (Bucket.get p s) as [b|]; simpl; [|done].
  by intros ->%loads_inv.
Qed.

Lemma truthy_usage j usage : workset_usage j = Some usage → JsonObj.truthy j = true.
Proof.
  intros H. apply negb_true_iff, bool_decide_eq_false. intros ->. done.
Qed.

Lemma contains_prefix sub s : String.prefix sub s = true → Str.contains sub s = true.
Proof. destruct s; simpl; by intros ->. Qed.

Lemma contains_app sub a b : Str.contains sub (a +:+ sub +:+ b) = true.
Proof.
  induction a as [|c a IH].
  - change (Str.contains sub (sub +:+ b) = true).
    apply contains_prefix, starts_with_app.
  - change (String c a +:+ sub +:+ b) with (String c (a +:+ sub +:+ b)).
    cbn [Str.contains]. by destruct (String.prefix _ _).
Qed.

Lemma json_not_folder n :
  Str.ends_with n ".json" = true → Str.ends_with n "/" = false.
Proof.
  induction n as [|a n IH]; [done|].
  rewrite !ends_with_cons. intros [He|He]%orb_true_iff.
  - apply String.eqb_eq in He. injection He as -> ->. by vm_compute.
  - rewrite (IH He), orb_false_r. apply String.eqb_neq. intros [= -> ->].
    by vm_compute in He.
Qed.

(** The blob a requester announces itself with. *)
Lemma competition_path_eq k id :
  locks_dir +:+ "/competition_" +:+ k +:+ "_" +:+ id +:+ ".json"
  = "system/locks/" +:+ ("competition_" +:+ k +:+ "_") +:+ id +:+ ".json".
Proof.
  unfold locks_dir. by rewrite <- !append_assoc.
Qed.

Lemma competition_path_contains k id :
  Str.contains ("competition_" +:+ k +:+ "_")
    (locks_dir +:+ "/competition_" +:+ k +:+ "_" +:+ id +:+ ".json") = true.
Proof. rewrite competition_path_eq. apply contains_app. Qed.

Lemma competition_path_json k id :
  Str.ends_with (locks_dir +:+ "/competition_" +:+ k +:+ "_" +:+ id +:+ ".json")
    ".json" = true.
Proof.
  replace (locks_dir +:+ "/competition_" +:+ k +:+ "_" +:+ id +:+ ".json")
    with ((locks_dir +:+ "/competition_" +:+ k +:+ "_" +:+ id) +:+ ".json").
  - apply ends_with_app.
  - by rewrite <- !append_assoc.
Qed.

Lemma competition_path_locks k id :
  Str.starts_with "system/locks/"
    (locks_dir +:+ "/competition_" +:+ k +:+ "_" +:+ id +:+ ".json") = true.
Proof. done. Qed.

Lemma filter_none {A} (P : A → Prop) `{∀ x, Decision (P x)} (l : list A) :
  (∀ x, x ∈ l → ¬ P x) → filter P l = [].
Proof.
  induction l as [|x l IH]; [done|]. intros Hl.
  rewrite filter_cons_False by apply Hl, list_elem_of_here.
  apply IH. intros y Hy. by apply Hl, list_elem_of_further.
Qed.

(** In a quiet store the entry a requester has just announced is the
    only one listed. *)
Lemma listed_locks_put p b s :
  quiet s → Str.starts_with "system/locks/" p = true →
  Str.ends_with p "/" = false →
  listed "system/locks/" (Bucket.put p b s) = [p].
Proof.
  intros Hq Hp Hf. unfold listed, Bucket.names.
  change (Str.ends_with "system/locks/" "/") with true.
  cbn [negb]. rewrite andb_false_r.
  rewrite put_names. rewrite decide_False.
  2:{ intros Hin. apply Hq in Hin. congruence. }
  rewrite filter_app, (filter_none _ (s.*1)).
  2:{ intros n Hn E. rewrite (Hq n Hn) in E. done. }
  cbn [app]. rewrite filter_cons_True by done.
  rewrite filter_nil. by rewrite filter_cons_True by done.
Qed.

Lemma closed_holders (N : string → Prop) k c :
  (∀ n, N n → ¬ is_record_file n) →
  closed N (λ w, holders k (blobs w) = c).
Proof.
  intros HN w o Ho Hw. split; [done|]. simpl.
  destruct o; simpl; try done.
  - rewrite <- Hw. apply (holders_uploads (λ n, n = name)).
    + by apply uploads_to_put.
    + intros n Hn. apply holds_put_ne. intros ->.
      by apply (HN name (Ho _ eq_refl)).
  - rewrite <- Hw. apply holders_del, HN, Ho. done.
Qed.

Lemma quiet_put p b s :
  Str.starts_with "system/locks/" p = false → quiet s → quiet (Bucket.put p b s).
Proof.
  intros Hp Hq n. rewrite put_names.
  intros [Hn|Hn]%elem_of_app; [by apply Hq|].
  destruct (decide (p ∈ s.*1)); [by apply elem_of_nil in Hn|].
  by apply list_elem_of_singleton in Hn as ->.
Qed.

Lemma quiet_uploads (N : string → Prop) s s' :
  (∀ n, N n → Str.starts_with "system/locks/" n = false) →
  uploads_to N s s' → quiet s → quiet s'.
Proof.
  intros HN Hup Hq. induction Hup as [|s s' p b _ IH Hp]; [done|].
  apply quiet_put; auto.
Qed.

Lemma ledger_is_no_lock n :
  n = usage_stats_path → Str.starts_with "system/locks/" n = false.
Proof. by intros ->. Qed.

Lemma locks_not_record n :
  Str.starts_with "system/locks/" n = true → ¬ is_record_file n.
Proof.
  intros Hn [Hrec _]. destruct n as [|a n]; [done|].
  unfold Str.starts_with in *. cbn [String.prefix] in *.
  destruct (Ascii.ascii_dec _ _) as [<-|]; [|done]. done.
Qed.

Lemma holders_ledger_uploads k s s' :
  uploads_to (λ n, n = usage_stats_path) s s' → holders k s' = holders k s.
Proof.
  intros Hup. apply (holders_uploads _ _ _ _ Hup).
  intros n [Hn _]. unfold holds.
  rewrite (uploads_to_get _ _ _ n Hup); [done|]. by intros ->.
Qed.

Section Succeeds.

Variable env : environment.
Hypothesis Hok : no_faults env.

Lemma _has_pending_worksets_exact u w :
  returns (_has_pending_worksets env u) w
    (λ b w', blobs w' = blobs w ∧ b = pending (blobs w) u).
Proof.
  pose proof (no_faults_reads_ok _ Hok) as Hr.
  unfold _has_pending_worksets. apply returns_try_except.
  apply wp_bind_returns. eapply returns_mono.
  { apply download_csv_exact; [apply Hr|by apply reads_ok_read]. }
  intros o w1 [Hb ->]. unfold pending.
  destruct (Bucket.get (record_path u) (blobs w) ≫= Frame.read_csv) as [df|];
    [|by apply wp_ret].
  destruct (Frame.empty df); simpl; [by apply wp_ret|].
  apply wp_bind, wp_getitem.
  destruct (Frame.col_status df); [by apply wp_ret|by apply returns_ret].
Qed.

(** The counts the scan works with, and the ledger they leave. *)
Lemma _get_usage_statistics_seen w :
  ledger_usable (blobs w) →
  returns (_get_usage_statistics env) w
    (λ usage w',
       (∀ k, JsonObj.count usage k = seen_count (blobs w) k)
       ∧ uploads_to (λ n, n = usage_stats_path) (blobs w) (blobs w')
       ∧ ∃ j, Bucket.get usage_stats_path (blobs w') = Some (BlobJson j)
              ∧ workset_usage j = Some usage).
Proof.
  pose proof (no_faults_reads_ok _ Hok) as Hr. intros Hu.
  assert (Bucket.get usage_stats_path (blobs w) ≫= JsonObj.loads = None
          ∨ (∃ j, Bucket.get usage_stats_path (blobs w) ≫= JsonObj.loads = Some j
                  ∧ JsonObj.truthy j = false) →
          ∀ w1, blobs w1 = blobs w →
          returns (_generate_usage_statistics env) w1
            (λ usage w',
               (∀ k, JsonObj.count usage k = seen_count (blobs w) k)
               ∧ uploads_to (λ n, n = usage_stats_path) (blobs w) (blobs w')
               ∧ ∃ j, Bucket.get usage_stats_path (blobs w') = Some (BlobJson j)
                      ∧ workset_usage j = Some usage)) as Hgen.
  { intros Hcase w1 Hb. eapply returns_mono;
      [by apply _generate_usage_statistics_exact|].
    intros usage w2 (Hc & _ & Hw).
    destruct (Hw (no_faults_write _ _ Hok)) as (j & Hj & Hput).
    rewrite Hb in *. split; [|split].
    - intros k. rewrite Hc. unfold seen_count.
      destruct Hcase as [-> | (j' & -> & ->)]; done.
    - rewrite Hput. by apply uploads_to_put.
    - exists j. by rewrite Hput, get_put_eq. }
  unfold _get_usage_statistics. apply returns_try_except_total.
  apply returns_bind. eapply returns_mono.
  { apply download_json_exact; [apply Hr|by apply reads_ok_read]. }
  intros o w1 [Hb ->].
  destruct (Bucket.get usage_stats_path (blobs w) ≫= JsonObj.loads)
    as [j|] eqn:E; [|apply Hgen; auto].
  destruct (JsonObj.truthy j) eqn:Ht; [|apply Hgen; eauto].
  apply returns_ret. apply get_loads_inv in E as Hget.
  destruct (Hu j Hget Ht) as [usage Husage]. rewrite Hb.
  split; [|split].
  - intros k. unfold seen_count. by rewrite E, Ht.
  - apply uploads_none.
  - exists j. by rewrite Husage.
Qed.

(** A ledger that is there, with its counts, is read as it is. *)
Lemma _get_usage_statistics_present j usage w :
  Bucket.get usage_stats_path (blobs w) = Some (BlobJson j) →
  workset_usage j = Some usage →
  returns (_get_usage_statistics env) w
    (λ r w', blobs w' = blobs w ∧ r = usage).
Proof.
  pose proof (no_faults_reads_ok _ Hok) as Hr. intros Hget Hu.
  unfold _get_usage_statistics. apply returns_try_except_total.
  apply returns_bind. eapply returns_mono.
  { apply download_json_exact; [apply Hr|by apply reads_ok_read]. }
  intros o w1 [Hb ->]. rewrite Hget. simpl.
  rewrite (truthy_usage j usage Hu), Hu. by apply returns_ret.
Qed.

(** The scan finds the first available candidate. *)
Lemma _find_available_workset_first u i w :
  ledger_usable (blobs w) →
  (1 ≤ i ≤ 100)%nat →
  available (blobs w) u i = true →
  (∀ j, (1 ≤ j < i)%nat → available (blobs w) u j = false) →
  returns (_find_available_workset env u) w
    (λ r w',
       r = Some (workset_name i)
       ∧ uploads_to (λ n, n = usage_stats_path) (blobs w) (blobs w')
       ∧ ∃ j usage, Bucket.get usage_stats_path (blobs w') = Some (BlobJson j)
                    ∧ workset_usage j = Some usage
                    ∧ ∀ k, JsonObj.count usage k = seen_count (blobs w) k).
Proof.
  pose proof (no_faults_reads_ok _ Hok) as Hr. intros Hu Hi Hav Hlt.
  unfold _find_available_workset. apply returns_try_except_total.
  apply returns_bind.
  eapply returns_mono; [by apply _get_usage_statistics_seen|].
  intros usage w1 (Hc & Hup & j & Hget & Hj).
  assert (∀ n, eligible usage (blobs w1) u n = available (blobs w) u n) as Hel.
  { intros n. unfold eligible, available, completed.
    rewrite Hc, (uploads_to_get _ _ _ (record_path u) Hup); [done|].
    apply ledger_is_not_a_record. }
  eapply returns_mono; [by apply scan_candidates_exact|].
  intros r w2 [Hb Hres]. rewrite Hb.
  split; [|split; [done|by exists j, usage]].
  destruct r as [name|].
  - destruct Hres as (i' & Hi' & -> & He & Hfirst).
    rewrite Hel in He. f_equal. f_equal.
    destruct (lt_eq_lt_dec i i') as [[Hlti| ->]|Hgt]; [|done|].
    + specialize (Hfirst i). rewrite Hel in Hfirst.
      rewrite Hfirst in Hav by lia. done.
    + rewrite Hlt in He by lia. done.
  - specialize (Hres i). rewrite Hel, Hav in Hres.
    by specialize (Hres ltac:(lia)).
Qed.

Lemma _cleanup_competition_files_total k id :
  total (_cleanup_competition_files env k id).
Proof. unfold _cleanup_competition_files. totality. Qed.

(** Alone in a quiet store, the requester wins the lock. *)
Lemma settle_alone u id t path :
  Competition.settle [Competitor (Some u) (Some id) t path] u id = Some true.
Proof.
  unfold Competition.settle, Competition.key_error. cbn [length].
  rewrite bool_decide_eq_false_2 by lia. cbn [andb Competition.sorted foldr
    Competition.insert c_owner c_competition_id].
  by rewrite !bool_decide_eq_true_2.
Qed.

Lemma _try_acquire_workset_lock_wins k u w :
  quiet (blobs w) →
  returns (_try_acquire_workset_lock env k u) w (λ locked _, locked = true).
Proof.
  pose proof (no_faults_reads_ok _ Hok) as Hr. intros Hq.
  unfold _try_acquire_workset_lock. apply returns_try_except_total.
  apply returns_bind, returns_ticks. cbv zeta.
  set (id := u +:+ "_" +:+ time_ms env _ +:+ "_" +:+ randint env _).
  set (path := locks_dir +:+ "/competition_" +:+ k +:+ "_" +:+ id +:+ ".json").
  apply returns_bind. eapply returns_mono.
  { apply fb_upload_exact; [apply Hok|apply no_faults_write, Hok]. }
  intros ok w1 [-> Hb1]. cbn [negb].
  apply returns_bind. eapply returns_mono; [by apply _win_competition_exact|].
  intros won w2 [Hb2 ->].
  assert (competitors_in k (blobs w1)
          = [Competitor (Some u) (Some id) (Some (now env (length (trace w))))
                        path]) as ->.
  { unfold competitors_in. rewrite Hb1, listed_locks_put;
      [|done|apply competition_path_locks
       |apply json_not_folder, competition_path_json].
    cbn [omap list_omap]. unfold competitor_of, path.
    rewrite competition_path_contains, competition_path_json.
    by rewrite get_put_eq. }
  rewrite settle_alone. cbn [default].
  apply returns_bind, returns_bind, returns_ticks, returns_bind.
  eapply returns_mono.
  { apply fb_upload_exact; [apply Hok|apply no_faults_write, Hok]. }
  intros ok w3 [-> Hb3]. apply returns_bind.
  eapply returns_mono; [apply _cleanup_competition_files_total|].
  intros ? w4 _. by apply returns_ret, returns_ret.
Qed.

Lemma _is_workset_still_available_yes k j usage w :
  Bucket.get usage_stats_path (blobs w) = Some (BlobJson j) →
  workset_usage j = Some usage →
  JsonObj.count usage k < 3 →
  returns (_is_workset_still_available env k) w
    (λ still w', still = true ∧ blobs w' = blobs w).
Proof.
  intros Hget Hu Hlt. unfold _is_workset_still_available.
  apply returns_try_except_total, returns_bind.
  eapply returns_mono; [by apply (_get_usage_statistics_present j usage)|].
  intros r w1 [Hb ->]. apply returns_ret. split; [|done].
  by apply Z.ltb_lt.
Qed.

(** With room in the ledger and among the holders the increment goes
    through. *)
Lemma _update_usage_statistics_safely_succeeds k j usage w :
  Bucket.get usage_stats_path (blobs w) = Some (BlobJson j) →
  workset_usage j = Some usage →
  JsonObj.count usage k < 3 →
  holders k (blobs w) < 3 →
  returns (_update_usage_statistics_safely env k (holders k (blobs w))) w
    (λ ok w',
       ok = true
       ∧ uploads_to (λ n, n = usage_stats_path) (blobs w) (blobs w')).
Proof.
  pose proof (no_faults_reads_ok _ Hok) as Hr. intros Hget Hu Hc Hh.
  unfold _update_usage_statistics_safely, observe_usage.
  apply returns_try_except_total, returns_bind, returns_bind.
  eapply returns_mono.
  { apply download_json_exact; [apply Hr|by apply reads_ok_read]. }
  intros loaded w1 [Hb1 ->]. rewrite Hget. cbn [mbind option_bind JsonObj.loads].
  apply returns_bind, returns_ticks. cbv zeta.
  rewrite (truthy_usage j usage Hu), Hu. cbn [getitem].
  apply returns_bind, returns_ret.
  assert (∀ (usage' : gmap string Z) w2,
            JsonObj.count usage' k < 3 →
            uploads_to (λ n, n = usage_stats_path) (blobs w) (blobs w2) →
            returns
              (let new_count := JsonObj.count (j, usage').2 k + 1 in
               if new_count >? 3 then ret false
               else
                 t ← ticks;
                 upload env usage_stats_path
                   (BlobJson
                      (JsonObj.set_verified_at (now env t)
                         (JsonObj.set_last_updated (now env t)
                            (JsonObj.set_workset_usage
                               (<[k := new_count]> (j, usage').2)
                               (j, usage').1))))) w2
              (λ ok w',
                 ok = true
                 ∧ uploads_to (λ n, n = usage_stats_path) (blobs w) (blobs w')))
    as Hfinish.
  { intros usage' w2 Hlt Hup. cbv zeta. cbn [fst snd].
    destruct (Z.gtb_spec (JsonObj.count usage' k + 1) 3) as [|_]; [lia|].
    apply returns_bind, returns_ticks. eapply returns_mono.
    { apply fb_upload_exact; [apply Hok|apply no_faults_write, Hok]. }
    intros ok w3 [-> Hb3]. split; [done|]. rewrite Hb3.
    by apply uploads_more. }
  destruct (Z.gtb_spec (Z.abs (JsonObj.count usage k - holders k (blobs w))) 1).
  - apply returns_bind. eapply returns_mono;
      [by apply _generate_usage_statistics_exact|].
    intros usage' w2 (Hcount & _ & Hw). apply returns_ret.
    destruct (Hw (no_faults_write _ _ Hok)) as (j' & _ & Hput).
    apply Hfinish.
    + rewrite Hcount, Hb1. done.
    + rewrite Hput, Hb1. by apply uploads_to_put.
  - apply returns_ret, Hfinish; [done|]. rewrite Hb1. apply uploads_none.
Qed.

Lemma create_workset_file_succeeds u k w :
  is_Some (Bucket.get (dataset_path k) (blobs w) ≫= Frame.read_csv) →
  returns (create_workset_file env u k) w (λ ok _, ok = true).
Proof.
  pose proof (no_faults_reads_ok _ Hok) as Hr. intros [df Hdf].
  unfold create_workset_file. apply returns_try_except_total. cbv zeta.
  apply returns_bind. eapply returns_mono.
  { apply download_csv_exact; [apply Hr|by apply reads_ok_read]. }
  intros o w1 [Hb ->]. fold (dataset_path k). rewrite Hdf.
  apply returns_bind. eapply returns_mono.
  { apply upload_csv_exact; [apply Hok|apply no_faults_write, Hok]. }
  intros ok w2 [-> _]. by apply returns_ret.
Qed.

Lemma dataset_is_not_a_record k u : dataset_path k ≠ record_path u.
Proof. done. Qed.

Lemma dataset_is_not_the_ledger k : dataset_path k ≠ usage_stats_path.
Proof. done. Qed.

(** The commit of a candidate that is free goes through. *)
Lemma commit_succeeds u k j usage w :
  Bucket.get usage_stats_path (blobs w) = Some (BlobJson j) →
  workset_usage j = Some usage →
  JsonObj.count usage k < 3 →
  completed (blobs w) u k = false →
  holders k (blobs w) < 3 →
  is_Some (Bucket.get (dataset_path k) (blobs w) ≫= Frame.read_csv) →
  returns (_complete_workset_assignment env u k) w (λ ok _, ok = true).
Proof.
  pose proof (no_faults_reads_ok _ Hok) as Hr.
  intros Hget Hu Hc Hdone Hh Hdata.
  unfold _complete_workset_assignment. apply returns_try_except_total.
  apply returns_bind.
  eapply returns_mono; [by apply _has_completed_workset_exact|].
  intros completed w1 [Hb1 ->]. rewrite Hdone. apply returns_bind.
  eapply returns_mono; [by apply _get_real_time_usage_count_exact|].
  intros c w2 [Hb2 ->]. rewrite Hb1 in Hb2.
  destruct (Z.geb_spec (holders k (blobs w1)) 3) as [Hfull|_];
    [rewrite Hb1 in Hfull; lia|].
  rewrite Hb1, <- Hb2. apply returns_bind. eapply returns_mono.
  { apply (_update_usage_statistics_safely_succeeds k j usage);
      rewrite ?Hb2; done. }
  intros updated w3 [-> Hup]. rewrite Hb2 in Hup. cbn [negb].
  apply returns_bind.
  eapply returns_mono; [apply _add_workset_to_user_record_effect|].
  intros added w4 (read & r & _ & _ & _ & _ & _ & Hnew).
  cbv zeta in Hnew. destruct Hnew as (_ & _ & Hput & _).
  destruct Hput as [-> Hb4]; [split; [apply Hok|apply no_faults_write, Hok]|].
  cbn [negb]. apply returns_bind. eapply returns_mono.
  { apply create_workset_file_succeeds. rewrite Hb4.
    rewrite get_put_ne by apply dataset_is_not_a_record.
    rewrite (uploads_to_get _ _ _ (dataset_path k) Hup); [done|].
    apply dataset_is_not_the_ledger. }
  intros created w5 ->. cbn [negb]. apply returns_bind.
  eapply returns_mono; [apply _log_assignment_total|].
  intros ? w6 _. by apply returns_ret.
Qed.

(** One pass of the loop is enough. *)
Lemma attempt_succeeds u i w :
  quiet (blobs w) →
  ledger_usable (blobs w) →
  (1 ≤ i ≤ 100)%nat →
  available (blobs w) u i = true →
  (∀ j, (1 ≤ j < i)%nat → available (blobs w) u j = false) →
  holders (workset_name i) (blobs w) < 3 →
  is_Some (Bucket.get (dataset_path (workset_name i)) (blobs w)
           ≫= Frame.read_csv) →
  returns (attempt env u) w (λ f _, f = Return (Some (workset_name i))).
Proof.
  intros Hq Hu Hi Hav Hfirst Hh Hdata.
  apply andb_true_iff in Hav as Hav'. destruct Hav' as [Hseen Hdone].
  apply Z.ltb_lt in Hseen. apply negb_true_iff in Hdone.
  set (k := workset_name i) in *.
  unfold attempt. apply returns_try_except_total, returns_bind.
  eapply returns_mono; [by apply _find_available_workset_first|].
  intros r w1 (-> & Hup & j & usage & Hget & Hj & Hcount). fold k.
  apply returns_bind.
  set (I := λ w' : world,
         ((Bucket.get usage_stats_path (blobs w')
           = Bucket.get usage_stats_path (blobs w1)
           ∧ Bucket.get (record_path u) (blobs w')
             = Bucket.get (record_path u) (blobs w1))
          ∧ Bucket.get (dataset_path k) (blobs w')
            = Bucket.get (dataset_path k) (blobs w1))
         ∧ holders k (blobs w') = holders k (blobs w1)).
  assert (closed (λ n, Str.starts_with "system/locks/" n = true) I) as HI.
  { repeat apply closed_and.
    - apply closed_get. by intros n Hn ->.
    - apply closed_get. by intros n Hn ->.
    - apply closed_get. by intros n Hn ->.
    - apply closed_holders. apply locks_not_record. }
  eapply returns_mono.
  { apply returns_and.
    - apply _try_acquire_workset_lock_wins.
      apply (quiet_uploads _ _ _ ledger_is_no_lock Hup Hq).
    - apply (preserves_total I);
        [|apply _try_acquire_workset_lock_total|by unfold I].
      by apply (_try_acquire_workset_lock_preserves env _ I HI). }
  intros locked w2 [-> [[[Hled Hrec] Hds] Hhold]].
  rewrite Hget in Hled.
  rewrite (uploads_to_get _ _ _ (record_path u) Hup) in Hrec
    by apply ledger_is_not_a_record.
  rewrite (uploads_to_get _ _ _ (dataset_path k) Hup) in Hds
    by apply dataset_is_not_the_ledger.
  rewrite (holders_ledger_uploads _ _ _ Hup) in Hhold.
  apply returns_try_finally, returns_bind. eapply returns_mono.
  { apply (_is_workset_still_available_yes k j usage); [done|done|].
    by rewrite Hcount. }
  intros still w3 [-> Hb3]. apply returns_bind. eapply returns_mono.
  { apply (commit_succeeds u k j usage); rewrite ?Hb3.
    - done.
    - done.
    - by rewrite Hcount.
    - unfold completed. rewrite Hrec. exact Hdone.
    - by rewrite Hhold.
    - by rewrite Hds. }
  intros ok w4 ->. apply returns_ret.
  eapply returns_mono; [apply _release_workset_lock_total|]. done.
Qed.

Lemma request_succeeds u i w :
  quiet (blobs w) →
  pending (blobs w) u = false →
  ledger_usable (blobs w) →
  (1 ≤ i ≤ 100)%nat →
  available (blobs w) u i = true →
  (∀ j, (1 ≤ j < i)%nat → available (blobs w) u j = false) →
  holders (workset_name i) (blobs w) < 3 →
  is_Some (Bucket.get (dataset_path (workset_name i)) (blobs w)
           ≫= Frame.read_csv) →
  returns (request_new_workset env u) w (λ r _, r = Some (workset_name i)).
Proof.
  intros Hq Hp Hu Hi Hav Hfirst Hh Hdata.
  unfold request_new_workset. apply returns_bind.
  eapply returns_mono; [apply _has_pending_worksets_exact|].
  intros pending w1 [Hb ->]. rewrite Hp.
  cbn [attempts]. apply returns_bind. eapply returns_mono.
  { apply (attempt_succeeds u i); rewrite ?Hb; done. }
  intros f w2 ->. by apply returns_ret.
Qed.

End Succeeds.

(** When the bucket works, no lock or competition entry is around, the
    worker has no pending work, and the first candidate the scan
    accepts has fewer than three holders and a dataset, the request
    assigns that candidate: it returns its name at the first attempt
    and leaves the row and the workset file behind. *)
Theorem request_assigns_first_available env u i w :
  no_faults env →
  quiet (blobs w) →
  pending (blobs w) u = false →
  ledger_usable (blobs w) →
  (1 ≤ i ≤ 100)%nat →
  available (blobs w) u i = true →
  (∀ j, (1 ≤ j < i)%nat → available (blobs w) u j = false) →
  holders (workset_name i) (blobs w) < 3 →
  is_Some (Bucket.get (dataset_path (workset_name i)) (blobs w)
           ≫= Frame.read_csv) →
  ∃ w', request_new_workset env u w = (Ok (Some (workset_name i)), w')
        ∧ materialised u (workset_name i) (blobs w').
Proof.
  intros Hok Hq Hp Hu Hi Hav Hfirst Hh Hdata.
  pose proof (returns_and _ w _ _
                (request_succeeds env Hok u i w Hq Hp Hu Hi Hav Hfirst Hh Hdata)
                (request_materialises env u w)) as H.
  apply returns_run in H as (r & w' & E & -> & Hm).
  exists w'. split; [done|]. by apply Hm.
Qed.
Lemma request_assigns_first_available_witness :
  ∃ w', request_new_workset Example.env_ok "eve" Scenario.second_round
        = (Ok (Some (workset_name 2)), w')
        ∧ materialised "eve" (workset_name 2) (blobs w').
Proof.
  apply (request_assigns_first_available Example.env_ok "eve" 2
           Scenario.second_round).
  - split; [reflexivity|]. intros n o. reflexivity.
  - intros n Hn. vm_compute in Hn.
    repeat (apply elem_of_cons in Hn as [-> | Hn]; [reflexivity|]).
    by apply elem_of_nil in Hn.
  - vm_compute. reflexivity.
  - intros j Hget. vm_compute in Hget. injection Hget as <-. by eexists.
  - lia.
  - vm_compute. reflexivity.
  - intros j Hj. assert (j = 1%nat) as -> by lia. vm_compute. reflexivity.
  - vm_compute. reflexivity.
  - vm_compute. by eexists.
Defined.

(** ** A ledger without its counts *)

Lemma closed_off_locks w0 :
  closed (λ n, Str.starts_with "system/locks/" n = true)
    (λ w, ∀ n, Str.starts_with "system/locks/" n = false →
               Bucket.get n (blobs w) = Bucket.get n (blobs w0)).
Proof.
  intros w o Ho Hw. split; [done|]. simpl.
  destruct o; simpl; try done; intros n Hn.
  - rewrite get_put_ne; [by apply Hw|]. intros ->.
    rewrite (Ho name eq_refl) in Hn. done.
  - rewrite get_del_ne; [by apply Hw|]. intros ->.
    rewrite (Ho name eq_refl) in Hn. done.
Qed.

Lemma pending_reads_only env u w :
  returns (_has_pending_worksets env u) w (λ _ w', blobs w' = blobs w).
Proof.
  unfold _has_pending_worksets. apply returns_try_except.
  apply wp_bind_returns. eapply returns_mono; [apply download_csv_val|].
  intros o w1 [Hb _]. destruct o as [df|]; [|by apply wp_ret].
  destruct (Frame.empty df); simpl; [by apply wp_ret|].
  apply wp_bind, wp_getitem.
  destruct (Frame.col_status df); [by apply wp_ret|by apply returns_ret].
Qed.

Section Blocked.

Variable env : environment.
Hypothesis Hreads : reads_ok env.
Variable j : json_obj.
Hypothesis Htruthy : JsonObj.truthy j = true.
Hypothesis Hnokey : workset_usage j = None.

Lemma _get_usage_statistics_truthy w :
  Bucket.get usage_stats_path (blobs w) = Some (BlobJson j) →
  returns (_get_usage_statistics env) w
    (λ r w', blobs w' = blobs w ∧ r = default ∅ (workset_usage j)).
Proof.
  intros Hget. unfold _get_usage_statistics. apply returns_try_except_total.
  apply returns_bind. eapply returns_mono.
  { apply download_json_exact; [apply Hreads|by apply reads_ok_read]. }
  intros o w1 [Hb ->]. rewrite Hget. simpl. rewrite Htruthy.
  by apply returns_ret.
Qed.

Lemma find_reads_only u w :
  Bucket.get usage_stats_path (blobs w) = Some (BlobJson j) →
  returns (_find_available_workset env u) w (λ _ w', blobs w' = blobs w).
Proof.
  intros Hget. unfold _find_available_workset.
  apply returns_try_except_total, returns_bind.
  eapply returns_mono; [by apply _get_usage_statistics_truthy|].
  intros usage w1 [Hb _].
  eapply returns_mono; [by apply scan_candidates_exact|].
  intros r w2 [Hb2 _]. congruence.
Qed.

Lemma still_available_reads_only k w :
  Bucket.get usage_stats_path (blobs w) = Some (BlobJson j) →
  returns (_is_workset_still_available env k) w (λ _ w', blobs w' = blobs w).
Proof.
  intros Hget. unfold _is_workset_still_available.
  apply returns_try_except_total, returns_bind.
  eapply returns_mono; [by apply _get_usage_statistics_truthy|].
  intros usage w1 [Hb _]. by apply returns_ret.
Qed.

(** The increment looks the counts up by key and fails on the
    [KeyError]. *)
Lemma increment_fails_without_counts k c w :
  Bucket.get usage_stats_path (blobs w) = Some (BlobJson j) →
  returns (_update_usage_statistics_safely env k c) w
    (λ ok w', ok = false ∧ blobs w' = blobs w).
Proof.
  intros Hget. unfold _update_usage_statistics_safely, observe_usage.
  apply returns_try_except, wp_bind, wp_bind_returns. eapply returns_mono.
  { apply download_json_exact; [apply Hreads|by apply reads_ok_read]. }
  intros loaded w1 [Hb ->]. rewrite Hget. cbn [mbind option_bind JsonObj.loads].
  apply wp_bind_returns, returns_ticks. cbv zeta. rewrite Htruthy, Hnokey.
  apply wp_bind, wp_getitem. by apply returns_ret.
Qed.

Lemma commit_fails_without_counts u k w :
  Bucket.get usage_stats_path (blobs w) = Some (BlobJson j) →
  returns (_complete_workset_assignment env u k) w
    (λ ok w', ok = false ∧ blobs w' = blobs w).
Proof.
  intros Hget. unfold _complete_workset_assignment.
  apply returns_try_except_total, returns_bind.
  eapply returns_mono; [by apply _has_completed_workset_exact|].
  intros completed w1 [Hb1 _]. destruct completed; [by apply returns_ret|].
  apply returns_bind.
  eapply returns_mono; [by apply _get_real_time_usage_count_exact|].
  intros c w2 [Hb2 _]. destruct (c >=? 3); [apply returns_ret; split; congruence|].
  apply returns_bind. eapply returns_mono.
  { apply increment_fails_without_counts. congruence. }
  intros ok w3 [-> Hb3]. apply returns_ret. split; congruence.
Qed.

Lemma attempt_blocked u w0 w :
  Bucket.get usage_stats_path (blobs w0) = Some (BlobJson j) →
  (∀ n, Str.starts_with "system/locks/" n = false →
        Bucket.get n (blobs w) = Bucket.get n (blobs w0)) →
  returns (attempt env u) w
    (λ f w', (∀ k, f ≠ Return (Some k))
             ∧ ∀ n, Str.starts_with "system/locks/" n = false →
                    Bucket.get n (blobs w') = Bucket.get n (blobs w0)).
Proof.
  intros Hget Hw.
  set (I := λ w : world,
         ∀ n, Str.starts_with "system/locks/" n = false →
              Bucket.get n (blobs w) = Bucket.get n (blobs w0)).
  assert (∀ w, I w → Bucket.get usage_stats_path (blobs w)
                     = Some (BlobJson j)) as Hled.
  { intros w' Hw'. by rewrite Hw'. }
  pose proof (closed_off_locks w0) as HI. fold I in HI.
  unfold attempt. apply returns_try_except_total, returns_bind.
  eapply returns_mono; [by apply find_reads_only, Hled|].
  intros r w1 Hb1. assert (I w1) as Hw1 by (unfold I; by rewrite Hb1).
  destruct r as [k|]; [|by apply returns_ret].
  apply returns_bind. eapply returns_mono.
  { apply (preserves_total I);
      [|apply _try_acquire_workset_lock_total|exact Hw1].
    by apply (_try_acquire_workset_lock_preserves env _ I HI). }
  intros locked w2 Hw2. destruct locked; [|by apply returns_ret].
  assert (∀ w, I w →
            returns (_release_workset_lock env k u) w
              (λ _ w', (∀ k', Continue ≠ Return (Some k')) ∧ I w')) as Hrel.
  { intros w' Hw'. eapply returns_mono.
    { apply (preserves_total I);
        [|apply _release_workset_lock_total|exact Hw'].
      by apply (_release_workset_lock_preserves env _ I HI). }
    by intros ? w'' H. }
  apply returns_try_finally, returns_bind.
  eapply returns_mono; [by apply still_available_reads_only, Hled|].
  intros still w3 Hb3. assert (I w3) as Hw3 by (unfold I; by rewrite Hb3).
  destruct still; [|by apply returns_ret, Hrel].
  apply returns_bind. eapply returns_mono.
  { by apply commit_fails_without_counts, Hled. }
  intros ok w4 [-> Hb4]. apply returns_ret, Hrel. unfold I. by rewrite Hb4.
Qed.

Lemma attempts_blocked n u w0 w :
  Bucket.get usage_stats_path (blobs w0) = Some (BlobJson j) →
  (∀ n, Str.starts_with "system/locks/" n = false →
        Bucket.get n (blobs w) = Bucket.get n (blobs w0)) →
  returns (attempts env n u) w
    (λ r w', r = None
             ∧ ∀ n, Str.starts_with "system/locks/" n = false →
                    Bucket.get n (blobs w') = Bucket.get n (blobs w0)).
Proof.
  intros Hget. revert w. induction n as [|n IH]; intros w Hw; simpl.
  { by apply returns_ret. }
  apply returns_bind. eapply returns_mono; [by apply attempt_blocked|].
  intros [[k|]|] w1 [Hf Hw1].
  - by destruct (Hf k).
  - by apply returns_ret.
  - by apply IH.
Qed.

Lemma request_blocked u w :
  Bucket.get usage_stats_path (blobs w) = Some (BlobJson j) →
  returns (request_new_workset env u) w
    (λ r w', r = None
             ∧ ∀ n, Str.starts_with "system/locks/" n = false →
                    Bucket.get n (blobs w') = Bucket.get n (blobs w)).
Proof.
  intros Hget. unfold request_new_workset. apply returns_bind.
  eapply returns_mono; [apply pending_reads_only|].
  intros pending w1 Hb. destruct pending.
  - apply returns_ret. split; [done|]. intros n _. by rewrite Hb.
  - apply attempts_blocked; [done|]. intros n _. by rewrite Hb.
Qed.

End Blocked.

(** A persisted ledger that is an object without the key
    [workset_usage] blocks every assignment: the scan reads it as
    "nothing used yet", but the increment looks the counts up by key,
    so each of the five attempts ends in the [KeyError] and the request
    answers with no workset.  Nothing but locks is written. *)
Theorem ledger_without_counts_blocks_requests env u j w :
  reads_ok env →
  Bucket.get usage_stats_path (blobs w) = Some (BlobJson j) →
  JsonObj.truthy j = true →
  workset_usage j = None →
  ∃ w', request_new_workset env u w = (Ok None, w')
        ∧ ∀ n, Str.starts_with "system/locks/" n = false →
               Bucket.get n (blobs w') = Bucket.get n (blobs w).
Proof.
  intros Hreads Hget Ht Hk.
  destruct (returns_run _ _ _ (request_blocked env Hreads j Ht Hk u w Hget))
    as (r & w' & E & -> & Hsame).
  by exists w'.
Qed.

Lemma ledger_without_counts_blocks_requests_witness :
  ∃ w', request_new_workset Example.env_ok "dora" Scenario.foreign_ledger
        = (Ok None, w')
        ∧ ∀ n, Str.starts_with "system/locks/" n = false →
               Bucket.get n (blobs w')
               = Bucket.get n (blobs Scenario.foreign_ledger).
Proof.
  eapply (ledger_without_counts_blocks_requests Example.env_ok "dora").
  - split; [reflexivity|]. intros n o _. reflexivity.
  - vm_compute. reflexivity.
  - vm_compute. reflexivity.
  - reflexivity.
Defined.

(** ** The annotator's side of the record *)

Lemma set_status_columns c i v df :
  c ∈ columns df → c ∈ columns (set_status i v df).
Proof.
  intros Hc. unfold set_status. simpl.
  destruct (Frame.has_column "status" df); [done|].
  apply elem_of_app. by left.
Qed.

Lemma set_status_has_status i v df : "status" ∈ columns (set_status i v df).
Proof.
  unfold set_status, Frame.has_column. simpl.
  destruct (bool_decide _) eqn:E; [by apply bool_decide_eq_true in E|].
  apply elem_of_app. right. apply list_elem_of_here.
Qed.

Lemma set_status_row i v df r :
  rows df !! i = Some r →
  rows (set_status i v df) !! i
  = Some (Row (workset (Frame.cells df r)) (Some v)
              (auto_assigned (Frame.cells df r)) (other r)).
Proof.
  intros Hr. unfold set_status. simpl.
  rewrite list_lookup_alter, decide_True, list_lookup_fmap, Hr by done.
  reflexivity.
Qed.

Lemma set_status_other i j v df :
  i ≠ j →
  rows (set_status i v df) !! j = Frame.cells df <$> rows df !! j.
Proof.
  intros Hne. unfold set_status. simpl.
  by rewrite list_lookup_alter, decide_False, list_lookup_fmap by done.
Qed.

Lemma read_csv_columns df c :
  c ∈ columns df → Frame.read_csv (BlobCsv df) = Some df.
Proof.
  intros Hc. simpl. destruct (columns df); [by apply elem_of_nil in Hc|done].
Qed.

Lemma get_read_csv_inv p s df :
  Some df = Bucket.get p s ≫= Frame.read_csv → Bucket.get p s = Some (BlobCsv df).
Proof.
  destruct (Bucket.get p s) as [b|]; [|done]. simpl. intros H.
  symmetry in H. by apply read_csv_inv in H as ->.
Qed.

Section ManagerFacts.

Variable env : environment.

(** Whatever the bucket does, a completion writes nothing or the
    record with the first row for the workset marked, and it has
    written it when it answers [True]. *)
Lemma _complete_workset_effect u k w :
  returns (_complete_workset env u k) w
    (λ ok w',
       let stored :=
         ∃ df i r,
           Bucket.get (record_path u) (blobs w) = Some (BlobCsv df)
           ∧ "workset" ∈ columns df
           ∧ rows df !! i = Some r ∧ workset r = Some k
           ∧ blobs w'
             = Bucket.put (record_path u)
                 (BlobCsv (set_status i "completed" df)) (blobs w) in
       (blobs w' = blobs w ∨ stored) ∧ (ok = true → stored)).
Proof.
  unfold _complete_workset. apply returns_try_except.
  apply wp_bind_returns. eapply returns_mono; [apply download_csv_val|].
  intros o w1 [Hb Ho]. rewrite <- Hb.
  destruct o as [df|]; [|apply wp_ret; split; [by left|done]].
  destruct Ho as [Ho|Ho]; [done|]. apply get_read_csv_inv in Ho as Hget.
  rewrite <- Hb in Hget.
  unfold Frame.col_workset. apply wp_bind, wp_getitem.
  destruct (Frame.has_column "workset" df) eqn:Hcol;
    [|apply returns_ret; split; [by left|done]].
  apply bool_decide_eq_true in Hcol.
  unfold first_for_workset.
  destruct (list_find _ (rows df)) as [[i r]|] eqn:Hfind;
    [|apply wp_ret; split; [by left|done]].
  apply list_find_Some in Hfind as (Hi & Hr & _).
  apply wp_bind_returns. eapply returns_mono; [apply upload_csv_val|].
  intros ok w2 [Hput Hval].
  assert (blobs w2
          = Bucket.put (record_path u)
              (BlobCsv (set_status i "completed" df)) (blobs w1) →
          ∃ df0 i0 r0,
            Bucket.get (record_path u) (blobs w1) = Some (BlobCsv df0)
            ∧ "workset" ∈ columns df0
            ∧ rows df0 !! i0 = Some r0 ∧ workset r0 = Some k
            ∧ blobs w2
              = Bucket.put (record_path u)
                  (BlobCsv (set_status i0 "completed" df0)) (blobs w1))
    as Hstored.
  { intros E. by exists df, i, r. }
  destruct ok; apply wp_ret; cbv zeta.
  - split; [right|intros _]; by apply Hstored, Hput.
  - split; [|done]. destruct Hval as [->|Hval]; [by left|right; auto].
Qed.

End ManagerFacts.

Lemma set_status_completed_rows u k df i r s :
  "workset" ∈ columns df → rows df !! i = Some r → workset r = Some k →
  record_rows_for u k (statuses_for k (set_status i "completed" df))
    (Bucket.put (record_path u) (BlobCsv (set_status i "completed" df)) s)
  ∧ Some "completed" ∈ statuses_for k (set_status i "completed" df).
Proof.
  intros Hcol Hi Hr. split.
  - exists (set_status i "completed" df). split; [apply get_put_eq|].
    split; [by apply set_status_columns|].
    split; [apply set_status_has_status|done].
  - unfold statuses_for. apply list_elem_of_fmap.
    eexists. split; [|apply list_elem_of_filter; split;
      [|eapply list_elem_of_lookup_2, set_status_row, Hi]].
    + done.
    + unfold Frame.row_is. apply bool_decide_eq_true. simpl.
      unfold Frame.has_column. by rewrite bool_decide_eq_true_2.
Qed.

(** Once [_complete_workset] has answered [True] for a workset, the
    worker's record shows it as completed, and no later request of
    that worker returns it, whatever else the request does. *)
Theorem completing_retires_workset env u k w w1 :
  reads_ok env →
  _complete_workset env u k w = (Ok true, w1) →
  completed (blobs w1) u k = true
  ∧ ∃ r w2, request_new_workset env u w1 = (Ok r, w2) ∧ r ≠ Some k.
Proof.
  intros Hreads E.
  pose proof (run_returns _ _ _ _ _ E (_complete_workset_effect env u k w))
    as [_ H].
  destruct (H eq_refl) as (df & i & r & Hget & Hcol & Hi & Hr & Hb).
  destruct (set_status_completed_rows u k df i r (blobs w) Hcol Hi Hr)
    as [Hrows Hdone].
  rewrite <- Hb in Hrows. split.
  - by apply (record_rows_for_completed u k _ _ Hdone).
  - destruct (returns_run _ _ _
      (request_keeps_rows env Hreads u k _ Hdone w1 Hrows))
      as (r' & w2 & E2 & _ & Hne).
    exists r', w2. split; [done|]. intros ->. by apply (Hne k).
Qed.

Lemma completing_retires_workset_witness :
  completed
    (blobs (_complete_workset Example.env_ok "fay" "workset_001"
              Scenario.working).2) "fay" "workset_001" = true
  ∧ ∃ r w2,
      request_new_workset Example.env_ok "fay"
        (_complete_workset Example.env_ok "fay" "workset_001"
           Scenario.working).2 = (Ok r, w2)
      ∧ r ≠ Some "workset_001".
Proof.
  apply (completing_retires_workset Example.env_ok "fay" "workset_001"
           Scenario.working).
  - split; [reflexivity|]. intros n o _. reflexivity.
  - vm_compute. reflexivity.
Defined.

Section CurrentWorkset.

Variable env : environment.

(** What [get_current_workset] does, whatever the bucket does: it
    answers with the first row in progress of the record it read, or
    with the first row not started after storing it as in progress. *)
Lemma get_current_workset_effect u w :
  returns (get_current_workset env u) w
    (λ r w',
       (blobs w' = blobs w
        ∨ ∃ df i row,
            Bucket.get (record_path u) (blobs w) = Some (BlobCsv df)
            ∧ "status" ∈ columns df
            ∧ first_with_status "in_progress" df = None
            ∧ first_with_status "not_started" df = Some (i, row)
            ∧ blobs w'
              = Bucket.put (record_path u)
                  (BlobCsv (set_status i "in_progress" df)) (blobs w))
       ∧ ∀ info, r = Some info →
           ∃ df row,
             Bucket.get (record_path u) (blobs w) = Some (BlobCsv df)
             ∧ "status" ∈ columns df ∧ "workset" ∈ columns df
             ∧ info = WorksetInfo (workset row) "in_progress" (wi_row_index info)
             ∧ ((first_with_status "in_progress" df
                 = Some (wi_row_index info, row)
                 ∧ blobs w' = blobs w)
                ∨ (first_with_status "in_progress" df = None
                   ∧ first_with_status "not_started" df
                     = Some (wi_row_index info, row)
                   ∧ blobs w'
                     = Bucket.put (record_path u)
                         (BlobCsv (set_status (wi_row_index info)
                                     "in_progress" df)) (blobs w)))).
Proof.
  unfold get_current_workset. apply returns_try_except.
  apply wp_bind_returns. eapply returns_mono; [apply download_csv_val|].
  intros o w1 [Hb Ho]. rewrite <- Hb.
  destruct o as [df|]; [|apply wp_ret; split; [by left|done]].
  destruct Ho as [Ho|Ho]; [done|]. apply get_read_csv_inv in Ho as Hget.
  rewrite <- Hb in Hget.
  destruct (Frame.empty df); [apply wp_ret; split; [by left|done]|].
  unfold Frame.col_status. apply wp_bind, wp_getitem.
  destruct (Frame.has_column "status" df) eqn:Hst;
    [|apply returns_ret; split; [by left|done]].
  apply bool_decide_eq_true in Hst.
  assert (∀ i row w2 (Q : option workset_info → world → Prop),
            (Frame.has_column "workset" df = false →
             Q None w2) →
            ("workset" ∈ columns df →
             Q (Some (WorksetInfo (workset row) "in_progress" i)) w2) →
            wp (name ← row_workset df row;
                ret (Some (WorksetInfo name "in_progress" i))) w2
              (λ r w', match r with
                       | Ok a => Q a w'
                       | Raised _ => returns (ret None) w' Q
                       end)) as Hname.
  { intros i row w2 Q HNone HSome. unfold row_workset.
    apply wp_bind, wp_getitem.
    destruct (Frame.has_column "workset" df) eqn:Hw.
    - apply wp_ret, HSome. by apply bool_decide_eq_true in Hw.
    - by apply returns_ret, HNone. }
  destruct (first_with_status "in_progress" df) as [[i row]|] eqn:Hprog.
  { apply Hname.
    - intros _. split; [by left|done].
    - intros Hw. split; [by left|]. intros info [= <-].
      exists df, row. simpl. repeat split; try done. by left. }
  destruct (first_with_status "not_started" df) as [[i row]|] eqn:Hnew;
    [|apply wp_ret; split; [by left|done]].
  cbv zeta. apply wp_bind_returns.
  eapply returns_mono; [apply upload_csv_val|].
  intros ok w2 [Hput Hval].
  assert (blobs w2 = blobs w1
          ∨ ∃ df0 i0 row0,
              Bucket.get (record_path u) (blobs w1) = Some (BlobCsv df0)
              ∧ "status" ∈ columns df0
              ∧ first_with_status "in_progress" df0 = None
              ∧ first_with_status "not_started" df0 = Some (i0, row0)
              ∧ blobs w2
                = Bucket.put (record_path u)
                    (BlobCsv (set_status i0 "in_progress" df0)) (blobs w1))
    as Hstore.
  { destruct Hval as [->|Hval]; [by left|right]. by exists df, i, row. }
  destruct ok; [|apply wp_ret; split; [done|done]].
  apply Hname.
  - intros _. split; [done|done].
  - intros Hw. split; [done|]. intros info [= <-].
    exists df, row. simpl. repeat split; try done. right.
    by rewrite (Hput eq_refl).
Qed.

End CurrentWorkset.

Section Counting.

Context {A : Type} (P : A → Prop) `{∀ x, Decision (P x)}.

Lemma count_fmap_same (g : A → A) (l : list A) :
  (∀ x, P (g x) ↔ P x) →
  length (filter P (g <$> l)) = length (filter P l).
Proof.
  intros Hg. induction l as [|x l IH]; [done|]. rewrite fmap_cons.
  destruct (decide (P x)) as [Hx|Hx].
  - rewrite (filter_cons_True P (g x)) by (by apply Hg).
    rewrite (filter_cons_True P x) by done. simpl. by rewrite IH.
  - rewrite (filter_cons_False P (g x)) by (by rewrite Hg).
    by rewrite (filter_cons_False P x) by done.
Qed.

Lemma count_alter_le (f : A → A) i (l : list A) :
  (∀ x, ¬ P (f x)) →
  (length (filter P (alter f i l)) ≤ length (filter P l))%nat.
Proof.
  intros Hf. revert i. induction l as [|x l IH]; intros i; [done|].
  destruct i as [|i]; simpl.
  - rewrite filter_cons_False by apply Hf.
    destruct (decide (P x)).
    + rewrite filter_cons_True by done. simpl. apply Nat.le_succ_diag_r.
    + by rewrite filter_cons_False by done.
  - specialize (IH i). destruct (decide (P x)).
    + rewrite !filter_cons_True by done. simpl. by apply le_n_S.
    + by rewrite !filter_cons_False by done.
Qed.

Lemma count_alter_one (f : A → A) i (l : list A) :
  Forall (λ x, ¬ P x) l →
  (length (filter P (alter f i l)) ≤ 1)%nat.
Proof.
  intros Hl. revert i. induction Hl as [|x l Hx Hl IH]; intros i;
    [simpl; apply Nat.le_0_l|].
  destruct i as [|i]; simpl.
  - destruct (decide (P (f x))).
    + rewrite filter_cons_True by done. simpl.
      rewrite (filter_none P l); [simpl; apply le_n|].
      intros y Hy. by apply (proj1 (Forall_forall _ _) Hl).
    + rewrite filter_cons_False by done.
      rewrite (filter_none P l); [simpl; apply Nat.le_0_l|].
      intros y Hy. by apply (proj1 (Forall_forall _ _) Hl).
  - rewrite filter_cons_False by done. apply IH.
Qed.

End Counting.

Lemma cells_status df r :
  "status" ∈ columns df → status (Frame.cells df r) = status r.
Proof.
  intros Hs. unfold Frame.cells, Frame.has_column. simpl.
  by rewrite (bool_decide_eq_true_2 ("status" ∈ columns df)).
Qed.

Lemma cells_workset df r :
  "workset" ∈ columns df → workset (Frame.cells df r) = workset r.
Proof.
  intros Hs. unfold Frame.cells, Frame.has_column. simpl.
  by rewrite (bool_decide_eq_true_2 ("workset" ∈ columns df)).
Qed.

Lemma cells_no_status df r :
  "status" ∉ columns df → status (Frame.cells df r) = None.
Proof.
  intros Hs. unfold Frame.cells, Frame.has_column. simpl.
  by rewrite (bool_decide_eq_false_2 ("status" ∈ columns df)).
Qed.

(** The record after [df.loc[i, 'status'] = v], when it is stored. *)
Lemma worksets_in_progress_put u i v df s :
  worksets_in_progress
    (Bucket.put (record_path u) (BlobCsv (set_status i v df)) s) u
  = length (filter (λ r, status r = Some "in_progress")
              (rows (set_status i v df))).
Proof.
  unfold worksets_in_progress. rewrite get_put_eq.
  cbn [mbind option_bind].
  rewrite (read_csv_columns _ "status") by apply set_status_has_status.
  unfold Frame.has_column.
  by rewrite bool_decide_eq_true_2 by apply set_status_has_status.
Qed.

Lemma worksets_in_progress_get u s df :
  Bucket.get (record_path u) s = Some (BlobCsv df) →
  "status" ∈ columns df →
  worksets_in_progress s u
  = length (filter (λ r, status r = Some "in_progress") (rows df)).
Proof.
  intros Hget Hs. unfold worksets_in_progress. rewrite Hget.
  cbn [mbind option_bind]. rewrite (read_csv_columns _ "status") by done.
  unfold Frame.has_column. by rewrite bool_decide_eq_true_2.
Qed.

(** Neither [get_current_workset] nor [_complete_workset] ever leaves
    the worker with two worksets in progress: the first starts a
    workset only when none is in progress, the second starts none. *)
Theorem manager_keeps_one_in_progress env u w :
  (worksets_in_progress (blobs w) u ≤ 1)%nat →
  (worksets_in_progress (blobs (get_current_workset env u w).2) u ≤ 1)%nat
  ∧ ∀ k,
      (worksets_in_progress (blobs (_complete_workset env u k w).2) u ≤ 1)%nat.
Proof.
  intros Hone. split.
  - pose proof (get_current_workset_effect env u w) as H.
    apply returns_run in H as (r & w' & E & [Hsame|H] & _); rewrite E; simpl;
      [by rewrite Hsame|].
    destruct H as (df & i & row & Hget & Hst & Hprog & Hnew & ->).
    rewrite worksets_in_progress_put. unfold set_status. simpl.
    apply count_alter_one. apply list_find_None in Hprog.
    apply Forall_fmap. eapply Forall_impl; [exact Hprog|].
    intros r' Hr'. unfold compose. by rewrite cells_status.
  - intros k. pose proof (_complete_workset_effect env u k w) as H.
    apply returns_run in H as (ok & w' & E & [Hsame|H] & _); rewrite E; simpl;
      [by rewrite Hsame|].
    destruct H as (df & i & r & Hget & Hcol & Hi & Hr & ->).
    rewrite worksets_in_progress_put. unfold set_status. simpl.
    eapply Nat.le_trans; [by apply count_alter_le|].
    destruct (decide ("status" ∈ columns df)) as [Hst|Hst].
    + rewrite count_fmap_same by (intros x; by rewrite cells_status).
      by rewrite <- (worksets_in_progress_get u (blobs w) df).
    + rewrite filter_none; [simpl; apply Nat.le_0_l|].
      intros x (y & -> & _)%list_elem_of_fmap. by rewrite cells_no_status.
Qed.

Lemma first_with_status_started df i row :
  "status" ∈ columns df →
  first_with_status "in_progress" df = None →
  first_with_status "not_started" df = Some (i, row) →
  first_with_status "in_progress" (set_status i "in_progress" df)
  = Some (i, Row (workset (Frame.cells df row)) (Some "in_progress")
                 (auto_assigned (Frame.cells df row)) (other row)).
Proof.
  intros Hst Hnone Hnew. unfold first_with_status in *.
  apply list_find_Some in Hnew as (Hi & _ & _).
  apply list_find_None in Hnone.
  apply list_find_Some. split; [by apply set_status_row|].
  split; [done|]. intros j y Hj Hlt.
  rewrite set_status_other in Hj by lia.
  apply fmap_Some in Hj as (r & Hr & ->). rewrite cells_status by done.
  apply (proj1 (Forall_forall _ _) Hnone), list_elem_of_lookup. eauto.
Qed.

(** Whatever the bucket does, the workset [get_current_workset]
    answers with is the first row in progress of the record as it is
    stored when the call returns. *)
Theorem current_workset_is_first_in_progress env u w info w' :
  get_current_workset env u w = (Ok (Some info), w') →
  wi_status info = "in_progress"
  ∧ ∃ df row,
      Bucket.get (record_path u) (blobs w') = Some (BlobCsv df)
      ∧ "workset" ∈ columns df ∧ "status" ∈ columns df
      ∧ first_with_status "in_progress" df = Some (wi_row_index info, row)
      ∧ workset row = wi_workset info.
Proof.
  intros E.
  pose proof (run_returns _ _ _ _ _ E (get_current_workset_effect env u w))
    as [_ H].
  destruct (H info eq_refl) as (df & row & Hget & Hst & Hw & Hinfo & Hcase).
  rewrite Hinfo. split; [done|]. simpl.
  destruct Hcase as [[Hprog Hb]|(Hnone & Hnew & Hb)].
  - exists df, row. rewrite Hb. by repeat split.
  - eexists _, _. rewrite Hb. split; [apply get_put_eq|].
    split; [by apply set_status_columns|].
    split; [apply set_status_has_status|].
    split; [by apply first_with_status_started|].
    change (workset (Frame.cells df row) = workset row).
    by apply cells_workset.
Qed.

Lemma current_workset_is_first_in_progress_witness :
  wi_status (WorksetInfo (Some "workset_001") "in_progress" 0) = "in_progress"
  ∧ ∃ df row,
      Bucket.get (record_path "dora")
        (blobs (get_current_workset Example.env_ok "dora"
                  (request_new_workset Example.env_ok "dora"
                     Scenario.half_done).2).2)
      = Some (BlobCsv df)
      ∧ "workset" ∈ columns df ∧ "status" ∈ columns df
      ∧ first_with_status "in_progress" df
        = Some (wi_row_index (WorksetInfo (Some "workset_001") "in_progress" 0),
                row)
      ∧ workset row
        = wi_workset (WorksetInfo (Some "workset_001") "in_progress" 0).
Proof.
  apply (current_workset_is_first_in_progress Example.env_ok "dora"
           (request_new_workset Example.env_ok "dora" Scenario.half_done).2).
  vm_compute. reflexivity.
Defined.

Lemma manager_keeps_one_in_progress_witness :
  (worksets_in_progress
     (blobs (get_current_workset Example.env_ok "gus" Scenario.half_done).2)
     "gus" ≤ 1)%nat
  ∧ ∀ k,
      (worksets_in_progress
         (blobs (_complete_workset Example.env_ok "gus" k Scenario.half_done).2)
         "gus" ≤ 1)%nat.
Proof.
  apply (manager_keeps_one_in_progress Example.env_ok "gus" Scenario.half_done).
  vm_compute. lia.
Defined.

(** ** From the assignment to the annotation page *)

Lemma closed_record u w0 :
  closed private
    (λ w, Bucket.get (record_path u) (blobs w)
          = Bucket.get (record_path u) (blobs w0)).
Proof. apply closed_get. intros n Hn. by apply private_ne_record. Qed.

Lemma appended_gets u k s0 s1 s s' :
  Bucket.get (record_path u) s1 = Bucket.get (record_path u) s0 →
  Bucket.get (record_path u) s' = Bucket.get (record_path u) s →
  appended u k s1 s → appended u k s0 s'.
Proof. unfold appended. by intros -> ->. Qed.

Section Appends.

Variable env : environment.
Hypothesis Hreads : reads_ok env.
Variable u : string.

(** With the reads going through, a commit that answers [True] has
    appended the row to the record as it was. *)
Lemma commit_appends k w :
  returns (_complete_workset_assignment env u k) w
    (λ ok w', ok = true → appended u k (blobs w) (blobs w')).
Proof.
  unfold _complete_workset_assignment. apply returns_try_except_total.
  apply returns_bind.
  eapply returns_mono; [by apply _has_completed_workset_exact|].
  intros completed w1 [Hb1 _]. destruct completed; [by apply returns_ret|].
  apply returns_bind.
  eapply returns_mono; [by apply _get_real_time_usage_count_exact|].
  intros c w2 [Hb2 _]. destruct (c >=? 3); [by apply returns_ret|].
  apply returns_bind. eapply returns_mono.
  { apply (preserves_total
             (λ w', Bucket.get (record_path u) (blobs w')
                    = Bucket.get (record_path u) (blobs w)));
      [|apply _update_usage_statistics_safely_total|congruence].
    apply update_keeps, closed_record. }
  intros updated w3 Hrec3. destruct updated; simpl; [|by apply returns_ret].
  apply returns_bind.
  eapply returns_mono; [apply _add_workset_to_user_record_effect|].
  intros added w4 (read & r & _ & Hread & Hr1 & Hr2 & _ & Hnew).
  cbv zeta in Hnew. destruct Hnew as (_ & Hput & _).
  rewrite Hread in Hput
    by (split; [apply Hreads|by apply reads_ok_read]).
  rewrite Hrec3 in Hput.
  destruct added; simpl.
  2:{ apply returns_bind.
      eapply returns_mono; [apply _rollback_usage_statistics_total|].
      intros ? w5 _. by apply returns_ret. }
  specialize (Hput eq_refl). apply returns_bind.
  eapply returns_mono; [by apply create_workset_file_effect|].
  intros created w5 Hb5. destruct created; simpl.
  2:{ apply returns_bind.
      eapply returns_mono; [apply _rollback_usage_statistics_total|].
      intros ? w6 _. apply returns_bind.
      eapply returns_mono; [apply _remove_workset_from_user_record_total|].
      intros ? w7 _. by apply returns_ret. }
  apply returns_bind.
  eapply returns_mono; [by apply _log_assignment_effect|].
  intros ? w6 Hb6. apply returns_ret. intros _.
  exists r. split; [done|]. split; [done|].
  assert (Bucket.get (record_path u) (blobs w5)
          = Bucket.get (record_path u) (blobs w4)) as E5.
  { destruct Hb5 as [->|[df ->]]; [done|].
    apply get_put_ne, output_is_not_a_record. }
  assert (Bucket.get (record_path u) (blobs w6)
          = Bucket.get (record_path u) (blobs w5)) as E6.
  { destruct Hb6 as [->|[df ->]]; [done|].
    apply get_put_ne, log_is_not_a_record. }
  rewrite E6, E5, Hput. apply get_put_eq.
Qed.

Lemma attempt_appends w :
  returns (attempt env u) w
    (λ f w', ∀ k, f = Return (Some k) → appended u k (blobs w) (blobs w')).
Proof.
  set (I := λ w' : world,
         Bucket.get (record_path u) (blobs w')
         = Bucket.get (record_path u) (blobs w)).
  pose proof (closed_record u w) as HI. fold I in HI.
  unfold attempt. apply returns_try_except_total, returns_bind.
  eapply returns_mono.
  { apply (preserves_total I);
      [by apply find_keeps|apply _find_available_workset_total|done]. }
  intros [name|] w1 Hw1; [|by apply returns_ret].
  apply returns_bind. eapply returns_mono.
  { apply (preserves_total I);
      [by apply acquire_keeps|apply _try_acquire_workset_lock_total|done]. }
  intros locked w2 Hw2. destruct locked; [|by apply returns_ret].
  apply returns_try_finally, returns_bind. eapply returns_mono.
  { apply (preserves_total I);
      [by apply still_available_keeps
      |apply _is_workset_still_available_total|done]. }
  intros still w3 Hw3. destruct still.
  2:{ apply returns_ret. eapply returns_mono;
        [apply _release_workset_lock_total|]. done. }
  apply returns_bind.
  eapply returns_mono; [apply commit_appends|].
  intros ok w4 Hok. destruct ok; apply returns_ret.
  2:{ eapply returns_mono; [apply _release_workset_lock_total|]. done. }
  eapply returns_mono.
  { apply (preserves_total
             (λ w', Bucket.get (record_path u) (blobs w')
                    = Bucket.get (record_path u) (blobs w4)));
      [|apply _release_workset_lock_total|done].
    apply release_keeps, closed_record. }
  intros ? w5 Hw5 k [= E]. rewrite <- E.
  by apply (appended_gets u name _ _ _ _ Hw3 Hw5), Hok.
Qed.

End Appends.

(** A worker without pending work has no row that is in progress or
    not started, in the record as [pd.concat] sees it. *)
Lemma no_pending_rows u s :
  pending s u = false →
  Forall (λ r, is_pending (status r) = false)
    (Frame.cells (default (DataFrame ["workset"; "status"] [])
                    (Bucket.get (record_path u) s ≫= Frame.read_csv))
     <$> rows (default (DataFrame ["workset"; "status"] [])
                 (Bucket.get (record_path u) s ≫= Frame.read_csv))).
Proof.
  unfold pending.
  destruct (Bucket.get (record_path u) s ≫= Frame.read_csv) as [df|];
    [|by intros _; apply Forall_nil].
  unfold default. cbn [from_option id]. intros Hp.
  apply Forall_fmap, Forall_forall.
  intros r Hr. unfold compose.
  destruct (decide ("status" ∈ columns df)) as [Hst|Hst];
    [|by rewrite cells_no_status].
  rewrite cells_status by done.
  destruct (Frame.empty df) eqn:He.
  { unfold Frame.empty in He. destruct (rows df); [by apply elem_of_nil in Hr|].
    destruct (columns df); [by apply elem_of_nil in Hst|done]. }
  unfold Frame.col_status, Frame.has_column in Hp.
  rewrite bool_decide_eq_true_2 in Hp by done.
  destruct (is_pending (status r)) eqn:E; [|done].
  rewrite <- Hp. symmetry. apply existsb_exists. exists (status r).
  split; [|done]. apply list_elem_of_In, list_elem_of_fmap. eauto.
Qed.

Lemma find_after (P : row → Prop) `{∀ r, Decision (P r)} (l : list row) r :
  Forall (λ x, ¬ P x) l → P r → list_find P (l ++ [r]) = Some (length l, r).
Proof.
  intros Hl Hr. apply list_find_Some. split; [|split; [done|]].
  - rewrite lookup_app_r by done. by rewrite Nat.sub_diag.
  - intros j y Hj Hlt. rewrite lookup_app_l in Hj by done.
    apply (proj1 (Forall_forall _ _) Hl), list_elem_of_lookup. eauto.
Qed.

Section Opens.

Variable env : environment.
Hypothesis Hok : no_faults env.

(** The record the assigner leaves is opened at the row it appended. *)
Lemma get_current_workset_opens u k s0 w :
  pending s0 u = false →
  appended u k s0 (blobs w) →
  returns (get_current_workset env u) w
    (λ r _, ∃ i, r = Some (WorksetInfo (Some k) "in_progress" i)).
Proof.
  pose proof (no_faults_reads_ok _ Hok) as Hr.
  intros Hp (r & Hk & Hst & Hget).
  pose proof (no_pending_rows u s0 Hp) as Hold.
  set (old := default (DataFrame ["workset"; "status"] [])
                (Bucket.get (record_path u) s0 ≫= Frame.read_csv)) in *.
  set (df := Frame.concat old new_task_columns r) in *.
  assert ("workset" ∈ columns df) as Hcw.
  { apply (proj1 (bool_decide_eq_true _)
             (has_column_concat "workset" _ _ r workset_is_new_task_column)). }
  assert ("status" ∈ columns df) as Hcs.
  { apply (proj1 (bool_decide_eq_true _)
             (has_column_concat "status" _ _ r status_is_new_task_column)). }
  unfold get_current_workset. apply returns_try_except_total.
  apply returns_bind. eapply returns_mono.
  { apply download_csv_exact; [apply Hr|by apply reads_ok_read]. }
  intros o w1 [Hb ->]. rewrite Hget. cbn [mbind option_bind].
  rewrite (read_csv_columns df "status") by done.
  assert (Frame.empty df = false) as ->.
  { destruct (rows df) as [|x rs] eqn:Er.
    { change (rows df) with ((Frame.cells old <$> rows old) ++ [r]) in Er.
      by destruct (Frame.cells old <$> rows old). }
    destruct (columns df) as [|c cs] eqn:Ec; [by apply elem_of_nil in Hcs|].
    unfold Frame.empty. by rewrite Er, Ec. }
  unfold Frame.col_status, Frame.has_column.
  rewrite bool_decide_eq_true_2 by done. cbn [getitem].
  apply returns_bind, returns_ret.
  assert (first_with_status "in_progress" df = None) as ->.
  { apply list_find_None. change (rows df) with ((Frame.cells old <$> rows old) ++ [r]).
    apply Forall_app. split.
    - eapply Forall_impl; [exact Hold|]. intros x Hx E. simpl in Hx.
      unfold is_pending in Hx. rewrite E in Hx. done.
    - apply Forall_singleton. by rewrite Hst. }
  assert (first_with_status "not_started" df
          = Some (length (Frame.cells old <$> rows old), r)) as ->.
  { unfold first_with_status.
    change (rows df) with ((Frame.cells old <$> rows old) ++ [r]).
    apply find_after; [|done].
    eapply Forall_impl; [exact Hold|]. intros x Hx E. simpl in Hx.
    unfold is_pending in Hx. rewrite E in Hx.
    by rewrite orb_true_r in Hx. }
  cbv zeta. apply returns_bind. eapply returns_mono.
  { apply upload_csv_exact; [apply Hok|apply no_faults_write, Hok]. }
  intros ok w2 [-> _]. unfold row_workset, Frame.has_column.
  rewrite bool_decide_eq_true_2 by done. cbn [getitem].
  apply returns_bind, returns_ret, returns_ret. rewrite Hk. eauto.
Qed.

End Opens.

(** The path from the request button to the annotation page: under the
    conditions in which a request assigns the first available
    candidate, [get_current_workset], called next, answers with that
    workset and has it in progress. *)
Theorem assigned_workset_becomes_current env u i w :
  no_faults env →
  quiet (blobs w) →
  pending (blobs w) u = false →
  ledger_usable (blobs w) →
  (1 ≤ i ≤ 100)%nat →
  available (blobs w) u i = true →
  (∀ j, (1 ≤ j < i)%nat → available (blobs w) u j = false) →
  holders (workset_name i) (blobs w) < 3 →
  is_Some (Bucket.get (dataset_path (workset_name i)) (blobs w)
           ≫= Frame.read_csv) →
  ∃ w1 w2 row_index,
    request_new_workset env u w = (Ok (Some (workset_name i)), w1)
    ∧ get_current_workset env u w1
      = (Ok (Some (WorksetInfo (Some (workset_name i)) "in_progress"
                     row_index)), w2).
Proof.
  intros Hok Hq Hp Hu Hi Hav Hfirst Hh Hdata.
  pose proof (no_faults_reads_ok _ Hok) as Hr.
  assert (returns (request_new_workset env u) w
            (λ r w1, r = Some (workset_name i)
                     ∧ appended u (workset_name i) (blobs w) (blobs w1)))
    as Hreq.
  { unfold request_new_workset. apply returns_bind.
    eapply returns_mono; [by apply _has_pending_worksets_exact|].
    intros p w0 [Hb ->]. rewrite Hp. cbn [attempts].
    apply returns_bind. eapply returns_mono.
    { apply returns_and.
      - apply (attempt_succeeds env Hok u i); rewrite ?Hb; done.
      - by apply attempt_appends. }
    intros f w1 [-> Happ]. apply returns_ret. split; [done|].
    rewrite <- Hb. by apply Happ. }
  apply returns_run in Hreq as (r & w1 & E1 & -> & Happ).
  destruct (returns_run _ _ _
              (get_current_workset_opens env Hok u _ _ w1 Hp Happ))
    as (r & w2 & E2 & j & ->).
  by exists w1, w2, j.
Qed.

Lemma assigned_workset_becomes_current_witness :
  ∃ w1 w2 row_index,
    request_new_workset Example.env_ok "eve" Scenario.second_round
    = (Ok (Some (workset_name 2)), w1)
    ∧ get_current_workset Example.env_ok "eve" w1
      = (Ok (Some (WorksetInfo (Some (workset_name 2)) "in_progress"
                     row_index)), w2).
Proof.
  apply (assigned_workset_becomes_current Example.env_ok "eve" 2
           Scenario.second_round).
  - split; [reflexivity|]. intros n o. reflexivity.
  - intros n Hn. vm_compute in Hn.
    repeat (apply elem_of_cons in Hn as [-> | Hn]; [reflexivity|]).
    by apply elem_of_nil in Hn.
  - vm_compute. reflexivity.
  - intros j Hget. vm_compute in Hget. injection Hget as <-. by eexists.
  - lia.
  - vm_compute. reflexivity.
  - intros j Hj. assert (j = 1%nat) as -> by lia. vm_compute. reflexivity.
  - vm_compute. reflexivity.
  - vm_compute. by eexists.
Defined.

(** ** The usage the admin page shows *)

Lemma detail_insert (d : gmap string workset_detail) ws e k :
  detail (<[ws := e]> d) k = if decide (ws = k) then e else detail d k.
Proof.
  unfold detail. destruct (decide (ws = k)) as [->|Hne].
  - by rewrite lookup_insert_eq.
  - by rewrite lookup_insert_ne.
Qed.

Lemma detail_empty k : detail ∅ k = WorksetDetail 0 [].
Proof. unfold detail. by rewrite lookup_empty. Qed.

Lemma detail_foldl_add_user u (d : gmap string workset_detail) l k :
  NoDup l →
  detail (foldl (add_user u) d l) k
  = if decide (k ∈ l)
    then WorksetDetail (wd_count (detail d k) + 1) (wd_users (detail d k) ++ [u])
    else detail d k.
Proof.
  revert d. induction l as [|x l IH]; intros d Hnd; cbn [foldl].
  { case_decide as Hin; [by apply elem_of_nil in Hin|done]. }
  apply NoDup_cons in Hnd as [Hx Hnd]. rewrite IH by done.
  unfold add_user. rewrite detail_insert.
  destruct (decide (x = k)) as [->|Hne].
  - rewrite (decide_False (P:=k ∈ l)) by done.
    by rewrite (decide_True (P:=k ∈ k :: l)) by left.
  - destruct (decide (k ∈ l)) as [Hin|Hin].
    + by rewrite (decide_True (P:=k ∈ x :: l)) by (by right).
    + rewrite (decide_False (P:=k ∈ x :: l)); [done|].
      intros [->|?]%elem_of_cons; done.
Qed.

Lemma omap_length_all {A B} (f : A → option B) (l : list A) :
  (∀ x, x ∈ l → is_Some (f x)) → length (omap f l) = length l.
Proof.
  induction l as [|x l IH]; [done|]. intros Hl.
  destruct (Hl x) as [y Hy]; [apply list_elem_of_here|].
  cbn [omap list_omap]. rewrite Hy. cbn [length]. f_equal.
  apply IH. intros z Hz. by apply Hl, list_elem_of_further.
Qed.

Section AdminUsage.

Variable env : environment.
Hypothesis Hreads : reads_ok env.

Lemma detail_record_exact file_path acc w :
  returns (detail_record env file_path acc) w
    (λ acc' w',
       blobs w' = blobs w
       ∧ ∀ k, detail acc' k
              = if Str.ends_with file_path "_record.csv"
                   && holds k (blobs w) file_path
                then match record_owner file_path with
                     | Some u =>
                         WorksetDetail (wd_count (detail acc k) + 1)
                                       (wd_users (detail acc k) ++ [u])
                     | None => detail acc k
                     end
                else detail acc k).
Proof.
  unfold detail_record, record_owner.
  destruct (Str.ends_with file_path "_record.csv") eqn:Hsuf; simpl;
    [|by apply returns_ret].
  destruct (str_split slash file_path) as [|p0 [|u [|p2 ps]]];
    try (apply returns_ret; split; [done|]; intros k; by destruct (holds _ _ _)).
  apply returns_bind. eapply returns_mono.
  { apply download_csv_exact; [apply Hreads|by apply reads_ok_read]. }
  intros o w' [Hb ->]. unfold holds.
  destruct (Bucket.get file_path (blobs w) ≫= Frame.read_csv) as [df|];
    [|by apply returns_ret].
  unfold Frame.mentions.
  destruct (Frame.has_column "workset" df); simpl; [|by apply returns_ret].
  apply returns_ret. split; [done|]. intros k.
  rewrite detail_foldl_add_user by apply unique_NoDup.
  destruct (existsb (Frame.row_is k) (rows df)) eqn:Hex.
  - rewrite decide_True; [done|]. by apply unique_elem, dropna_mentions.
  - rewrite decide_False; [done|].
    intros Hin%unique_elem%dropna_mentions. congruence.
Qed.

Lemma detail_records_exact l acc w :
  returns (for_each l (detail_record env) acc) w
    (λ acc' w',
       blobs w' = blobs w
       ∧ ∀ k,
           let found :=
             omap record_owner
               (filter (λ n, holds k (blobs w) n = true)
                  (filter (λ n, Str.ends_with n "_record.csv" = true) l)) in
           wd_users (detail acc' k) = wd_users (detail acc k) ++ found
           ∧ wd_count (detail acc' k)
             = wd_count (detail acc k) + Z.of_nat (length found)).
Proof.
  revert acc w. induction l as [|n l IH]; intros acc w; simpl.
  { apply returns_ret. split; [done|]. intros k. simpl.
    rewrite app_nil_r. split; [done|lia]. }
  apply returns_bind. eapply returns_mono; [apply detail_record_exact|].
  intros acc1 w1 [Hb1 Hc1]. eapply returns_mono; [apply IH|].
  intros acc2 w2 [Hb2 Hc2]. split; [congruence|]. intros k.
  destruct (Hc2 k) as [Hu Hc]. cbv zeta. rewrite Hu, Hc, (Hc1 k), Hb1.
  destruct (Str.ends_with n "_record.csv") eqn:Hsuf.
  - rewrite (filter_cons_True (λ n, Str.ends_with n "_record.csv" = true))
      by done.
    simpl andb. destruct (holds k (blobs w) n) eqn:Hh.
    + rewrite filter_cons_True by done. cbn [omap list_omap].
      destruct (record_owner n) as [u|]; simpl.
      * rewrite <- app_assoc. split; [done|]. lia.
      * done.
    + by rewrite filter_cons_False by congruence.
  - rewrite (filter_cons_False (λ n, Str.ends_with n "_record.csv" = true))
      by congruence.
    done.
Qed.

Lemma _get_detailed_workset_usage_exact w :
  returns (_get_detailed_workset_usage env) w
    (λ d w',
       blobs w' = blobs w
       ∧ ∀ k, wd_users (detail d k) = owners k (blobs w)
              ∧ wd_count (detail d k) = Z.of_nat (length (owners k (blobs w)))).
Proof.
  unfold _get_detailed_workset_usage. apply returns_try_except_total.
  apply returns_bind. eapply returns_mono.
  { apply list_files_exact; [apply Hreads|done|by apply reads_ok_list]. }
  intros l w1 [Hb1 ->].
  eapply returns_mono; [apply detail_records_exact|].
  intros d w2 [Hb2 Hd]. rewrite Hb1 in *. split; [done|]. intros k.
  destruct (Hd k) as [Hu Hc]. rewrite detail_empty in Hu, Hc.
  simpl in Hu, Hc. unfold owners, record_files. split; [done|].
  rewrite Hc. lia.
Qed.

End AdminUsage.

(** What the admin page shows agrees with what the cap counts: when
    the store can be read, [_get_detailed_workset_usage] changes no
    blob and lists for every workset the owners of the records that
    hold it, one per record that lies in a folder, with their number
    as count; when every record lies in a folder, as the records of
    the workers do, the count is the number of holders the assigner's
    scans find. *)
Theorem detailed_usage_agrees_with_holders env w :
  reads_ok env →
  ∃ d w',
    _get_detailed_workset_usage env w = (Ok d, w')
    ∧ blobs w' = blobs w
    ∧ ∀ k,
        wd_users (detail d k) = owners k (blobs w)
        ∧ wd_count (detail d k) = Z.of_nat (length (wd_users (detail d k)))
        ∧ ((∀ n, n ∈ record_files (blobs w) → is_Some (record_owner n)) →
           wd_count (detail d k) = holders k (blobs w)).
Proof.
  intros Hreads.
  destruct (returns_run _ _ _ (_get_detailed_workset_usage_exact env Hreads w))
    as (d & w' & E & Hb & Hd).
  exists d, w'. split; [done|]. split; [done|]. intros k.
  destruct (Hd k) as [Hu Hc]. split; [done|]. split; [by rewrite Hu|].
  intros Hall. rewrite Hc. unfold owners, holders. f_equal.
  apply omap_length_all. intros n [_ Hn]%list_elem_of_filter. by apply Hall.
Qed.

Lemma detailed_usage_agrees_with_holders_witness :
  ∃ d w',
    _get_detailed_workset_usage Example.env_ok Scenario.half_done = (Ok d, w')
    ∧ blobs w' = blobs Scenario.half_done
    ∧ ∀ k,
        wd_users (detail d k) = owners k (blobs Scenario.half_done)
        ∧ wd_count (detail d k) = Z.of_nat (length (wd_users (detail d k)))
        ∧ ((∀ n, n ∈ record_files (blobs Scenario.half_done) →
                 is_Some (record_owner n)) →
           wd_count (detail d k) = holders k (blobs Scenario.half_done)).
Proof.
  apply (detailed_usage_agrees_with_holders Example.env_ok Scenario.half_done).
  split; [reflexivity|]. intros n o _. reflexivity.
Defined.

(** ** Serving the poems of a workset *)

Section ServedPoems.

Variable env : environment.
Variable u : string.

Lemma _complete_workset_nan_total : total (_complete_workset_nan env u).
Proof. unfold _complete_workset_nan. totality. Qed.

Lemma _complete_workset_total k : total (_complete_workset env u k).
Proof. unfold _complete_workset. totality. Qed.

(** The record is the only blob the serving of poems writes. *)
Section KeepsFiles.

Variable I : world → Prop.
Hypothesis HI : closed (λ n, n = record_path u) I.

Lemma _complete_workset_preserves k : preserves I (_complete_workset env u k).
Proof.
  pose proof (upload_csv_preserves env _ I HI (record_path u)).
  pose proof (download_csv_preserves env _ I HI).
  unfold _complete_workset. preserve.
Qed.

Lemma _complete_workset_nan_preserves : preserves I (_complete_workset_nan env u).
Proof.
  pose proof (download_csv_preserves env _ I HI).
  unfold _complete_workset_nan. preserve.
Qed.

Lemma _get_next_workset_with_preserves next :
  (∀ name, preserves I (next name)) →
  preserves I (_get_next_workset_with env next u).
Proof.
  intros Hnext.
  pose proof (upload_csv_preserves env _ I HI (record_path u)).
  pose proof (download_csv_preserves env _ I HI).
  unfold _get_next_workset_with, row_workset. preserve.
Qed.

Lemma get_next_poem_with_preserves again k :
  preserves I again → preserves I (get_next_poem_with env again u k).
Proof.
  intros Hagain.
  pose proof (download_csv_preserves env _ I HI).
  pose proof _complete_workset_preserves.
  pose proof _complete_workset_nan_preserves.
  unfold get_next_poem_with, row_item. preserve.
Qed.

Lemma get_next_poem_preserves depth k :
  preserves I (get_next_poem env depth u k).
Proof.
  revert k. induction depth as [|depth IH]; intros k; cbn [get_next_poem];
    apply get_next_poem_with_preserves.
  - apply preserves_raise.
  - by apply _get_next_workset_with_preserves.
Qed.

End KeepsFiles.

Lemma get_next_poem_with_served again k w :
  (∀ w1, wp again w1
           (λ r w', match r with
                    | Ok a => ∀ p, a = Some p → served u p (blobs w')
                    | Raised _ => True
                    end)) →
  returns (get_next_poem_with env again u k) w
    (λ r w', ∀ p, r = Some p → served u p (blobs w')).
Proof.
  intros Hagain. unfold get_next_poem_with. apply returns_try_except.
  cbv zeta. apply wp_bind_returns.
  eapply returns_mono; [apply download_csv_val|].
  intros o w1 [Hb Ho]. destruct o as [df|]; [|by apply wp_ret].
  destruct Ho as [Ho|Ho]; [done|]. apply get_read_csv_inv in Ho as Hget.
  rewrite <- Hb in Hget. apply wp_bind, wp_getitem.
  destruct (Frame.has_column "Progress" df) eqn:Hprog;
    [|by apply returns_ret].
  apply bool_decide_eq_true in Hprog.
  destruct (first_with_progress "N" df) as [[i row]|] eqn:Hfirst.
  - unfold row_item. apply wp_bind, wp_getitem.
    destruct (Frame.has_column "poem_url" df); [|by apply returns_ret].
    apply wp_ret. intros p [= <-]. exists df, row. simpl.
    split; [exact Hget|]. repeat split; try done. lia.
  - apply wp_bind_returns.
    assert (total (match k with
                   | Some name => _complete_workset env u name
                   | None => _complete_workset_nan env u
                   end)) as Htotal.
    { destruct k; [apply _complete_workset_total
                  |apply _complete_workset_nan_total]. }
    eapply returns_mono; [apply Htotal|].
    intros completed w2 _. destruct completed; [|by apply wp_ret].
    eapply wp_mono; [apply Hagain|].
    intros [a|e] w3 H; [done|by apply returns_ret].
Qed.

Lemma _get_next_workset_with_served next w :
  (∀ name w1,
     returns (next name) w1 (λ r w', ∀ p, r = Some p → served u p (blobs w'))) →
  returns (_get_next_workset_with env next u) w
    (λ r w', ∀ p, r = Some p → served u p (blobs w')).
Proof.
  intros Hnext. unfold _get_next_workset_with. apply returns_try_except.
  apply wp_bind_returns.
  eapply returns_mono; [apply download_csv_total|].
  intros o w1 _. destruct o as [df|]; [|by apply wp_ret].
  destruct (Frame.empty df); [by apply wp_ret|].
  apply wp_bind, wp_getitem.
  destruct (Frame.col_status df); [|by apply returns_ret].
  destruct (first_with_status "not_started" df) as [[i row]|];
    [|by apply wp_ret].
  cbv zeta. apply wp_bind_returns.
  eapply returns_mono; [apply upload_csv_total|].
  intros uploaded w2 _. destruct uploaded; [|by apply wp_ret].
  unfold row_workset. apply wp_bind, wp_getitem.
  destruct (Frame.has_column "workset" df); [|by apply returns_ret].
  eapply returns_wp; [apply Hnext|]. done.
Qed.

Lemma get_next_poem_served depth k w :
  returns (get_next_poem env depth u k) w
    (λ r w', ∀ p, r = Some p → served u p (blobs w')).
Proof.
  revert k w. induction depth as [|depth IH]; intros k w; cbn [get_next_poem];
    apply get_next_poem_with_served; intros w1.
  - by apply wp_raise.
  - eapply returns_wp; [by apply _get_next_workset_with_served|]. done.
Qed.

End ServedPoems.

(** Whatever the bucket does, and however deep the calls between
    [get_next_poem] and [_get_next_workset] go, the poem returned is
    the first one whose [Progress] is [N] in the stored file of the
    workset the answer names, with the counters of that file. *)
Theorem served_poem_is_first_unannotated env depth u k w p w' :
  get_next_poem env depth u k w = (Ok (Some p), w') →
  served u p (blobs w').
Proof.
  intros E.
  by apply (run_returns _ _ _ _ _ E (get_next_poem_served env u depth k w)).
Qed.

(** ** Saving an annotation *)

Lemma count_alter_add {A} (P : A → Prop) `{∀ x, Decision (P x)}
    (f : A → A) i (l : list A) x :
  l !! i = Some x → ¬ P x → P (f x) →
  length (filter P (alter f i l)) = S (length (filter P l)).
Proof.
  revert i. induction l as [|y l IH]; intros i Hi Hx Hfx; [done|].
  destruct i as [|i]; simpl in *.
  - injection Hi as ->. rewrite filter_cons_True by done.
    by rewrite (filter_cons_False P x) by done.
  - destruct (decide (P y)).
    + rewrite !filter_cons_True by done. simpl. f_equal. by apply IH.
    + rewrite !filter_cons_False by done. by apply IH.
Qed.

Lemma assoc_filter_ne key (l : list (string * string)) :
  assoc key (filter (λ c, c.1 ≠ key) l) = None.
Proof.
  induction l as [|[k v] l IH]; [done|].
  destruct (decide (k = key)) as [->|Hne].
  - by rewrite filter_cons_False by (simpl; auto).
  - rewrite filter_cons_True by done. simpl. by rewrite decide_False.
Qed.

Lemma cell_with_progress v r :
  cell "Progress" (with_progress v r) = v.
Proof.
  unfold cell, with_progress. cbn [other].
  destruct v as [v|]; simpl; [done|apply assoc_filter_ne].
Qed.

Section SetProgress.

Variables (df : dataframe) (i : nat) (poem_row : row).
Hypothesis Hcol : "Progress" ∈ columns df.
Hypothesis Hfirst : first_with_progress "N" df = Some (i, poem_row).

Lemma set_progress_rows :
  rows (set_progress (Z.of_nat i) df)
  = alter (with_progress (Some "Y")) i (rows df).
Proof.
  unfold first_with_progress in Hfirst.
  apply list_find_Some in Hfirst as (Hi & _ & _).
  apply lookup_lt_Some in Hi.
  unfold set_progress, Frame.has_column.
  rewrite bool_decide_eq_true_2 by done. cbn [rows].
  destruct (Z.leb_spec 0 (Z.of_nat i)); [|lia].
  destruct (Z.ltb_spec (Z.of_nat i) (Z.of_nat (length (rows df)))); [|lia].
  cbn [andb]. by rewrite Nat2Z.id.
Qed.

Lemma set_progress_columns :
  columns (set_progress (Z.of_nat i) df) = columns df.
Proof.
  unfold set_progress, Frame.has_column.
  by rewrite bool_decide_eq_true_2 by done.
Qed.

Lemma set_progress_later j row' :
  first_with_progress "N" (set_progress (Z.of_nat i) df) = Some (j, row') →
  (i < j)%nat.
Proof.
  unfold first_with_progress in *. rewrite set_progress_rows.
  apply list_find_Some in Hfirst as (Hi & Hn & Hbefore).
  intros (Hj & Hn' & _)%list_find_Some.
  destruct (lt_eq_lt_dec i j) as [[Hlt| ->]|Hgt]; [done| |].
  - rewrite list_lookup_alter, decide_True, Hi in Hj by done.
    injection Hj as <-. by rewrite cell_with_progress in Hn'.
  - rewrite list_lookup_alter, decide_False in Hj by lia.
    by destruct (Hbefore j row' Hj Hgt).
Qed.

Lemma set_progress_completed :
  completed_poems (set_progress (Z.of_nat i) df) = S (completed_poems df).
Proof.
  unfold completed_poems. rewrite set_progress_rows.
  unfold first_with_progress in Hfirst.
  apply list_find_Some in Hfirst as (Hi & Hn & _).
  apply (count_alter_add _ _ _ _ poem_row);
    [done| |by rewrite cell_with_progress].
  by rewrite Hn.
Qed.

Lemma set_progress_length :
  length (rows (set_progress (Z.of_nat i) df)) = length (rows df).
Proof. by rewrite set_progress_rows, length_alter. Qed.

End SetProgress.

Lemma annotation_is_not_a_workset_file u k (i : Z) u' k' :
  "annotation/" +:+ u +:+ "/" +:+ k +:+ "_" +:+ pretty i +:+ ".json"
  ≠ workset_file_path u' k'.
Proof. done. Qed.

Lemma record_is_not_a_workset_file u u' k :
  record_path u ≠ workset_file_path u' k.
Proof. done. Qed.

(** Serving poems leaves the workset files as they are. *)
Lemma get_next_poem_keeps_file env depth u k u' k' w r w' :
  get_next_poem env depth u k w = (Ok r, w') →
  Bucket.get (workset_file_path u' k') (blobs w')
  = Bucket.get (workset_file_path u' k') (blobs w).
Proof.
  intros E.
  pose proof (get_next_poem_preserves env u
                (λ w1, Bucket.get (workset_file_path u' k') (blobs w1)
                       = Bucket.get (workset_file_path u' k') (blobs w))
                (closed_get _ _ w
                   (λ n Hn, eq_ind_r (λ n, n ≠ _)
                              (record_is_not_a_workset_file u u' k') Hn))
                depth k w eq_refl) as H.
  unfold wp in H. by rewrite E in H.
Qed.

Section Saving.

Variable env : environment.
Variables (u k : string).

(** With the annotation and the workset file writable, saving the
    poem that was served marks it. *)
Lemma save_annotation_marks df i a w :
  no_faults env →
  Bucket.get (workset_file_path u k) (blobs w) = Some (BlobCsv df) →
  "Progress" ∈ columns df →
  returns (save_annotation env u k (Z.of_nat i) a) w
    (λ ok w',
       ok = true
       ∧ Bucket.get (workset_file_path u k) (blobs w')
         = Some (BlobCsv (set_progress (Z.of_nat i) df))).
Proof.
  intros Hok Hget Hcol. pose proof (no_faults_reads_ok _ Hok) as Hr.
  unfold save_annotation. apply returns_try_except_total. cbv zeta.
  apply returns_bind, returns_ticks, returns_bind. eapply returns_mono.
  { apply fb_upload_exact; [apply Hok|apply no_faults_write, Hok]. }
  intros ok w1 [-> Hb1]. apply returns_bind.
  unfold _update_progress. apply returns_try_except_total. cbv zeta.
  apply returns_bind. eapply returns_mono.
  { apply download_csv_exact; [apply Hr|by apply reads_ok_read]. }
  intros o w2 [Hb2 ->]. fold (workset_file_path u k).
  rewrite Hb1, get_put_ne by (symmetry; apply annotation_is_not_a_workset_file).
  rewrite Hget. cbn [mbind option_bind].
  rewrite (read_csv_columns df "Progress") by done.
  apply returns_bind. eapply returns_mono.
  { apply upload_csv_exact; [apply Hok|apply no_faults_write, Hok]. }
  intros ok w3 [_ Hb3]. apply returns_ret, returns_ret.
  split; [done|]. rewrite Hb3. apply get_put_eq.
Qed.

(** With the workset file read-only, saving leaves it as it is and
    answers [True] all the same. *)
Lemma save_annotation_silent i a w :
  initialized env = true →
  write_ok env ("annotation/" +:+ u +:+ "/" +:+ k +:+ "_"
                +:+ pretty (Z.of_nat i) +:+ ".json") →
  upload_refused env (workset_file_path u k) →
  returns (save_annotation env u k (Z.of_nat i) a) w
    (λ ok w',
       ok = true
       ∧ Bucket.get (workset_file_path u k) (blobs w')
         = Bucket.get (workset_file_path u k) (blobs w)).
Proof.
  intros Hi Hw Href.
  unfold save_annotation. apply returns_try_except_total. cbv zeta.
  apply returns_bind, returns_ticks, returns_bind. eapply returns_mono.
  { by apply fb_upload_exact. }
  intros ok w1 [-> Hb1]. apply returns_bind.
  unfold _update_progress. apply returns_try_except_total. cbv zeta.
  apply returns_bind. eapply returns_mono; [apply download_csv_val|].
  intros o w2 [Hb2 _].
  assert (Bucket.get (workset_file_path u k) (blobs w2)
          = Bucket.get (workset_file_path u k) (blobs w)) as Hsame.
  { rewrite Hb2, Hb1.
    apply get_put_ne. symmetry. apply annotation_is_not_a_workset_file. }
  destruct o as [df|]; [|by apply returns_ret, returns_ret].
  apply returns_bind. eapply returns_mono.
  { by apply upload_csv_refused. }
  intros ok w3 [_ Hb3]. apply returns_ret, returns_ret.
  split; [done|]. by rewrite Hb3.
Qed.

End Saving.

(** The annotation loop advances: when the bucket works, saving the
    annotation of the poem [get_next_poem] served answers [True], and
    whatever [get_next_poem] serves from the same workset afterwards is
    a later row of the file, with one more poem counted as completed. *)
Theorem saved_poem_is_not_served_again env depth u k w p w1 a :
  no_faults env →
  get_next_poem env depth u (Some k) w = (Ok (Some p), w1) →
  pi_workset p = Some k →
  ∃ w2,
    save_annotation env u k (Z.of_nat (pi_row_index p)) a w1 = (Ok true, w2)
    ∧ ∀ depth' p' w3,
        get_next_poem env depth' u (Some k) w2 = (Ok (Some p'), w3) →
        pi_workset p' = Some k →
        (pi_row_index p < pi_row_index p')%nat
        ∧ pi_completed_poems p' = S (pi_completed_poems p)
        ∧ pi_total_poems p' = pi_total_poems p.
Proof.
  intros Hok E Hk.
  pose proof (run_returns _ _ _ _ _ E (get_next_poem_served env u depth _ w)
                p eq_refl) as (df & row & Hget & Hcol & Hfirst & _ & Ht & Hc & _).
  rewrite Hk in Hget. change (workset_text (Some k)) with k in Hget.
  destruct (returns_run _ _ _
              (save_annotation_marks env u k df (pi_row_index p) a w1
                 Hok Hget Hcol)) as (ok & w2 & E2 & -> & Hget2).
  exists w2. split; [done|]. intros depth' p' w3 E3 Hk'.
  pose proof (run_returns _ _ _ _ _ E3 (get_next_poem_served env u depth' _ w2)
                p' eq_refl)
    as (df' & row' & Hget' & _ & Hfirst' & _ & Ht' & Hc' & _).
  rewrite Hk' in Hget'. change (workset_text (Some k)) with k in Hget'.
  rewrite (get_next_poem_keeps_file _ _ _ _ u k _ _ _ E3), Hget2 in Hget'.
  injection Hget' as <-.
  split; [by apply (set_progress_later df _ row Hcol Hfirst _ row')|].
  split.
  - rewrite Hc', Hc. by apply (set_progress_completed df _ row).
  - rewrite Ht', Ht. by apply (set_progress_length df _ row).
Qed.

(** A progress update that fails is not reported: when the bucket
    takes the annotation and refuses every write to the workset file,
    [save_annotation] answers [True] all the same, and [get_next_poem]
    serves the same poem of that workset again. *)
Theorem failed_progress_update_is_silent env depth u k w p w1 a :
  initialized env = true →
  write_ok env ("annotation/" +:+ u +:+ "/" +:+ k +:+ "_"
                +:+ pretty (Z.of_nat (pi_row_index p)) +:+ ".json") →
  upload_refused env (workset_file_path u k) →
  get_next_poem env depth u (Some k) w = (Ok (Some p), w1) →
  pi_workset p = Some k →
  ∃ w2,
    save_annotation env u k (Z.of_nat (pi_row_index p)) a w1 = (Ok true, w2)
    ∧ Bucket.get (workset_file_path u k) (blobs w2)
      = Bucket.get (workset_file_path u k) (blobs w1)
    ∧ ∀ depth' p' w3,
        get_next_poem env depth' u (Some k) w2 = (Ok (Some p'), w3) →
        pi_workset p' = Some k →
        pi_row_index p' = pi_row_index p.
Proof.
  intros Hi Hw Href E Hk.
  pose proof (run_returns _ _ _ _ _ E (get_next_poem_served env u depth _ w)
                p eq_refl) as (df & row & Hget & _ & Hfirst & _).
  rewrite Hk in Hget. change (workset_text (Some k)) with k in Hget.
  destruct (returns_run _ _ _
              (save_annotation_silent env u k (pi_row_index p) a w1
                 Hi Hw Href)) as (ok & w2 & E2 & -> & Hget2).
  exists w2. split; [done|]. split; [done|]. intros depth' p' w3 E3 Hk'.
  pose proof (run_returns _ _ _ _ _ E3 (get_next_poem_served env u depth' _ w2)
                p' eq_refl) as (df' & row' & Hget' & _ & Hfirst' & _).
  rewrite Hk' in Hget'. change (workset_text (Some k)) with k in Hget'.
  rewrite (get_next_poem_keeps_file _ _ _ _ u k _ _ _ E3), Hget2, Hget in Hget'.
  injection Hget' as <-. rewrite Hfirst in Hfirst'. by injection Hfirst'.
Qed.

Lemma served_poem_is_first_unannotated_witness :
  served "ivy"
    (PoemInfo 1 (Some "https://example.org/3") (Some "Unknown Title")
              (Some "Unknown Author") (Some "workset_002") 3 1 2)
    (blobs (get_next_poem Example.env_ok 1 "ivy" (Some "workset_001")
              Scenario.finishing).2).
Proof.
  apply (served_poem_is_first_unannotated Example.env_ok 1 "ivy"
           (Some "workset_001") Scenario.finishing).
  vm_compute. reflexivity.
Defined.

Lemma saved_poem_is_not_served_again_witness :
  ∃ w2,
    save_annotation Example.env_ok "ivy" "workset_002"
      (Z.of_nat
         (pi_row_index
            (PoemInfo 1 (Some "https://example.org/3") (Some "Unknown Title")
                      (Some "Unknown Author") (Some "workset_002") 3 1 2)))
      JsonObj.empty
      (get_next_poem Example.env_ok 0 "ivy" (Some "workset_002")
         Scenario.finishing).2
    = (Ok true, w2)
    ∧ ∀ depth' p' w3,
        get_next_poem Example.env_ok depth' "ivy" (Some "workset_002") w2
        = (Ok (Some p'), w3) →
        pi_workset p' = Some "workset_002" →
        (pi_row_index
           (PoemInfo 1 (Some "https://example.org/3") (Some "Unknown Title")
                     (Some "Unknown Author") (Some "workset_002") 3 1 2)
         < pi_row_index p')%nat
        ∧ pi_completed_poems p'
          = S (pi_completed_poems
                 (PoemInfo 1 (Some "https://example.org/3")
                           (Some "Unknown Title") (Some "Unknown Author")
                           (Some "workset_002") 3 1 2))
        ∧ pi_total_poems p'
          = pi_total_poems
              (PoemInfo 1 (Some "https://example.org/3")
                        (Some "Unknown Title") (Some "Unknown Author")
                        (Some "workset_002") 3 1 2).
Proof.
  apply (saved_poem_is_not_served_again Example.env_ok 0 "ivy" "workset_002"
           Scenario.finishing).
  - split; [reflexivity|]. intros n o. reflexivity.
  - vm_compute. reflexivity.
  - reflexivity.
Defined.

Lemma failed_progress_update_is_silent_witness :
  ∃ w2,
    save_annotation Scenario.env_file_read_only "ivy" "workset_002"
      (Z.of_nat
         (pi_row_index
            (PoemInfo 1 (Some "https://example.org/3") (Some "Unknown Title")
                      (Some "Unknown Author") (Some "workset_002") 3 1 2)))
      JsonObj.empty
      (get_next_poem Scenario.env_file_read_only 0 "ivy" (Some "workset_002")
         Scenario.finishing).2
    = (Ok true, w2)
    ∧ Bucket.get (workset_file_path "ivy" "workset_002") (blobs w2)
      = Bucket.get (workset_file_path "ivy" "workset_002")
          (blobs (get_next_poem Scenario.env_file_read_only 0 "ivy"
                    (Some "workset_002") Scenario.finishing).2)
    ∧ ∀ depth' p' w3,
        get_next_poem Scenario.env_file_read_only depth' "ivy"
          (Some "workset_002") w2 = (Ok (Some p'), w3) →
        pi_workset p' = Some "workset_002" →
        pi_row_index p'
        = pi_row_index
            (PoemInfo 1 (Some "https://example.org/3") (Some "Unknown Title")
                      (Some "Unknown Author") (Some "workset_002") 3 1 2).
Proof.
  apply (failed_progress_update_is_silent Scenario.env_file_read_only 0 "ivy"
           "workset_002" Scenario.finishing).
  - reflexivity.
  - intros n. split; [intros b|]; reflexivity.
  - intros n c. vm_compute. discriminate.
  - vm_compute. reflexivity.
  - reflexivity.
Defined.

(** ** After the login *)

Lemma present_listed folder (s : Bucket.store) n :
  Str.ends_with folder "/" = true →
  Str.starts_with folder n = true → Str.ends_with n "/" = false →
  Bucket.get n s ≠ None → n ∈ listed folder s.
Proof.
  intros Hf Hpre Hsuf Hn.
  destruct (decide (n ∈ listed folder s)) as [|Hout]; [done|].
  by destruct Hn; apply (not_listed_absent folder).
Qed.

Lemma filter_all_length {A} (P : A → Prop) `{∀ x, Decision (P x)} (l : list A) :
  length (filter P l) = length l → Forall P l.
Proof.
  induction l as [|x l IH]; [by intros _; apply Forall_nil|].
  destruct (decide (P x)) as [Hx|Hx].
  - rewrite filter_cons_True by done. simpl. intros [= E].
    apply Forall_cons. auto.
  - rewrite filter_cons_False by done. simpl. intros E.
    pose proof (length_filter P l). lia.
Qed.

Section Login.

Variable env : environment.
Hypothesis Hreads : reads_ok env.
Variable u : string.

Lemma get_user_worksets_exact w :
  returns (get_user_worksets env u) w
    (λ r w', blobs w' = blobs w ∧ r = recorded_worksets (blobs w) u).
Proof.
  unfold get_user_worksets, recorded_worksets.
  apply returns_try_except_total, returns_bind.
  eapply returns_mono.
  { apply download_csv_exact; [apply Hreads|by apply reads_ok_read]. }
  intros o w1 [Hb ->].
  destruct (Bucket.get (record_path u) (blobs w) ≫= Frame.read_csv) as [df|];
    [|by apply returns_ret].
  destruct (List.find _ _); by apply returns_ret.
Qed.

Lemma check_missing_worksets_exact l w :
  returns (check_missing_worksets env u l) w
    (λ missing w',
       blobs w' = blobs w
       ∧ missing
         = filter (λ k, workset_file_path u k
                        ∉ listed ("coding_result/" +:+ u +:+ "/") (blobs w))
                  l).
Proof.
  eapply returns_mono; [apply check_missing_worksets_val|].
  intros missing w' (Hb & _ & Hexact). split; [done|].
  apply Hexact; [apply Hreads|by apply reads_ok_list].
Qed.

(** The loop of [auto_ensure_worksets_on_login]: one result for each
    missing workset, a file for each [True], and no blob lost. *)
Lemma login_loop_reports missing results w :
  (∀ k, (k, true) ∈ results →
        Bucket.get (workset_file_path u k) (blobs w) ≠ None) →
  returns
    (for_each missing
       (λ workset results,
          created ← create_workset_file env u workset;
          ret (results ++ [(workset, created)]))
       results) w
    (λ results' w',
       length results' = (length results + length missing)%nat
       ∧ (∀ k, (k, true) ∈ results' →
               Bucket.get (workset_file_path u k) (blobs w') ≠ None)
       ∧ (∀ k, k ∈ missing → ∃ c, (k, c) ∈ results')
       ∧ (∀ r, r ∈ results → r ∈ results')
       ∧ ∀ n, Bucket.get n (blobs w) ≠ None → Bucket.get n (blobs w') ≠ None).
Proof.
  revert results w. induction missing as [|x l IH]; intros results w Hres;
    cbn [for_each].
  { apply returns_ret. split; [simpl; lia|]. split; [done|].
    split; [by intros k ?%elem_of_nil|done]. }
  apply returns_bind, returns_bind.
  eapply returns_mono; [apply create_workset_file_val|].
  intros created w1 [Hnew Hkeep]. apply returns_ret.
  eapply returns_mono.
  { apply (IH (results ++ [(x, created)]) w1).
    intros k [Hk|Hk%list_elem_of_singleton]%elem_of_app.
    - by apply Hkeep, Hres.
    - injection Hk as -> <-. by apply Hnew. }
  intros results' w' (Hlen & Htrue & Hall & Hsub & Hkeep').
  rewrite length_app in Hlen. simpl in *.
  split; [lia|]. split; [done|]. split; [|split].
  - intros k [->|Hk]%elem_of_cons; [|by apply Hall].
    exists created. apply Hsub, elem_of_app. right. apply list_elem_of_here.
  - intros r Hr. apply Hsub, elem_of_app. by left.
  - intros n Hn. by apply Hkeep', Hkeep.
Qed.

(** After a login that answers [True], no workset of the record is
    without its file. *)
Lemma login_fills w :
  returns (auto_ensure_worksets_on_login env u) w
    (λ ok w',
       Bucket.get (record_path u) (blobs w')
       = Bucket.get (record_path u) (blobs w)
       ∧ (ok = true →
          ∀ l k, recorded_worksets (blobs w) u = Some l → k ∈ l →
                 Bucket.get (workset_file_path u k) (blobs w') ≠ None)).
Proof.
  unfold auto_ensure_worksets_on_login.
  apply returns_try_except_total, returns_bind.
  eapply returns_mono; [apply get_user_worksets_exact|].
  intros worksets w1 [Hb1 ->]. rewrite <- Hb1.
  assert (∀ w', blobs w' = blobs w1 →
            (∀ k l, recorded_worksets (blobs w1) u = Some l → k ∈ l →
                    Bucket.get (workset_file_path u k) (blobs w1) ≠ None) →
            Bucket.get (record_path u) (blobs w')
            = Bucket.get (record_path u) (blobs w1)
            ∧ (true = true →
               ∀ l k, recorded_worksets (blobs w1) u = Some l → k ∈ l →
                      Bucket.get (workset_file_path u k) (blobs w') ≠ None))
    as Hsame.
  { intros w' -> H. split; [done|]. intros _ l k. apply H. }
  destruct (recorded_worksets (blobs w1) u) as [[|k0 l0]|] eqn:Hrec.
  1,3: apply returns_ret, Hsame; [done|]; intros k l [= <-] Hk;
         try done; by apply elem_of_nil in Hk.
  apply returns_bind.
  eapply returns_mono; [apply check_missing_worksets_exact|].
  intros missing w2 [Hb2 Hmissing].
  assert (∀ k, k ∈ k0 :: l0 → k ∉ missing →
               Bucket.get (workset_file_path u k) (blobs w2) ≠ None) as Hthere.
  { intros k Hk Hout. rewrite Hb2.
    apply (listed_present ("coding_result/" +:+ u +:+ "/"));
      [apply coding_path_folder|].
    destruct (decide (workset_file_path u k
                      ∈ listed ("coding_result/" +:+ u +:+ "/") (blobs w1)))
      as [|Hnot]; [done|].
    destruct Hout. rewrite Hmissing. by apply list_elem_of_filter. }
  destruct missing as [|m ms] eqn:Em.
  { apply returns_ret. split; [by rewrite Hb2|]. intros _ l k [= <-] Hk.
    apply Hthere; [done|apply not_elem_of_nil]. }
  rewrite <- Em in *. clear Em. apply returns_bind.
  eapply returns_mono.
  { apply returns_and.
    - apply (login_loop_reports missing [] w2). by intros k ?%elem_of_nil.
    - apply (preserves_total
               (λ w', Bucket.get (record_path u) (blobs w')
                      = Bucket.get (record_path u) (blobs w2))).
      + apply (login_loop_keeps env u (λ n, ∃ k, n = workset_file_path u k)).
        * apply closed_get. intros n [k ->]. symmetry.
          apply record_is_not_a_workset_file.
        * intros k _. by exists k.
      + apply total_for_each. intros x acc. unfold total. intros w0.
        apply returns_bind.
        eapply returns_mono; [apply create_workset_file_total|].
        intros c w3 _. by apply returns_ret.
      + done. }
  intros results w3 [(Hlen & Htrue & Hall & _ & Hkeep) Hrec3].
  apply returns_ret. split; [by rewrite Hrec3, Hb2|].
  intros Hcount%bool_decide_eq_true l k [= <-] Hk. simpl in Hlen.
  rewrite <- Hlen in Hcount. apply filter_all_length in Hcount.
  destruct (decide (k ∈ missing)) as [Hin|Hout].
  - destruct (Hall k Hin) as [c Hc].
    pose proof (proj1 (Forall_forall _ _) Hcount _ Hc) as Hctrue.
    simpl in Hctrue. subst c. by apply Htrue.
  - by apply Hkeep, Hthere.
Qed.

(** The status view after it. *)
Lemma get_workset_status_exists w :
  (∀ l k, recorded_worksets (blobs w) u = Some l → k ∈ l →
          Bucket.get (workset_file_path u k) (blobs w) ≠ None) →
  returns (get_workset_status env u) w
    (λ st _, ∀ k v, (k, v) ∈ st → v = "EXISTS").
Proof.
  intros Hfiles. unfold get_workset_status.
  apply returns_try_except_total, returns_bind.
  eapply returns_mono; [apply get_user_worksets_exact|].
  intros worksets w1 [Hb1 ->].
  destruct (recorded_worksets (blobs w) u) as [[|k0 l0]|] eqn:Hrec;
    try (apply returns_ret; by intros k v ?%elem_of_nil).
  apply returns_bind.
  eapply returns_mono; [apply check_missing_worksets_exact|].
  intros missing w2 [Hb2 ->]. apply returns_ret.
  intros k v (x & [= -> ->] & Hx)%list_elem_of_fmap.
  rewrite bool_decide_eq_false_2; [done|].
  intros [Hout _]%list_elem_of_filter. apply Hout. rewrite Hb1.
  apply present_listed;
    [apply coding_path_folder|apply workset_file_in_folder
    |apply workset_file_not_folder|by apply (Hfiles (k0 :: l0))].
Qed.

End Login.

(** After a login that answered [True], the status view shows no
    workset as missing: when the store can be read,
    [get_workset_status] called next reports [EXISTS] for every
    workset of the worker's record. *)
Theorem login_leaves_nothing_missing env u w w1 :
  reads_ok env →
  auto_ensure_worksets_on_login env u w = (Ok true, w1) →
  ∃ st w2,
    get_workset_status env u w1 = (Ok st, w2)
    ∧ (∀ k v, (k, v) ∈ st → v = "EXISTS")
    ∧ ∀ l, recorded_worksets (blobs w) u = Some l → st.*1 = l.
Proof.
  intros Hreads E.
  pose proof (run_returns _ _ _ _ _ E (login_fills env Hreads u w))
    as [Hrec Hfiles].
  assert (recorded_worksets (blobs w1) u = recorded_worksets (blobs w) u)
    as Hsame.
  { unfold recorded_worksets. by rewrite Hrec. }
  assert (returns (get_workset_status env u) w1
            (λ st _, ∀ l, recorded_worksets (blobs w1) u = Some l → st.*1 = l))
    as Hnames.
  { unfold get_workset_status.
    apply returns_try_except_total, returns_bind.
    eapply returns_mono; [by apply get_user_worksets_exact|].
    intros worksets w2 [Hb2 ->].
    destruct (recorded_worksets (blobs w1) u) as [[|k0 l0]|];
      try (apply returns_ret; by intros l [= <-]).
    apply returns_bind.
    eapply returns_mono; [by apply check_missing_worksets_exact|].
    intros missing w3 _. apply returns_ret. intros l [= <-].
    rewrite <- list_fmap_compose. by rewrite list_fmap_id. }
  destruct (returns_run _ _ _
    (returns_and _ _ _ _
       (get_workset_status_exists env Hreads u w1
          (λ l k Hl, Hfiles eq_refl l k (eq_trans (eq_sym Hsame) Hl)))
       Hnames)) as (st & w2 & E2 & Hst & Hn).
  exists st, w2. split; [done|]. split; [done|].
  intros l Hl. apply Hn. by rewrite Hsame.
Qed.

Lemma login_leaves_nothing_missing_witness :
  ∃ st w2,
    get_workset_status Example.env_ok "eve"
      (auto_ensure_worksets_on_login Example.env_ok "eve"
         Scenario.second_round).2 = (Ok st, w2)
    ∧ (∀ k v, (k, v) ∈ st → v = "EXISTS")
    ∧ ∀ l, recorded_worksets (blobs Scenario.second_round) "eve" = Some l →
           st.*1 = l.
Proof.
  apply (login_leaves_nothing_missing Example.env_ok "eve"
           Scenario.second_round).
  - split; [reflexivity|]. intros n o _. reflexivity.
  - vm_compute. reflexivity.
Defined.

(** ** A new annotator *)

(** The record the admin page creates for a new annotator, an empty
    table with the columns [workset] and [status], makes a new user:
    once [create_empty_csv] has answered [True] and the store can be
    read, [_has_no_record_file] answers [True], [get_current_workset]
    answers with no workset and writes nothing, and neither pending
    nor completed work stands in the way of a first request. *)
Theorem new_annotator_is_a_new_user env u w w1 :
  reads_ok env →
  create_empty_csv env (record_path u) ["workset"; "status"] w = (Ok true, w1) →
  (_has_no_record_file env u w1).1 = Ok true
  ∧ (∃ w2, get_current_workset env u w1 = (Ok None, w2) ∧ blobs w2 = blobs w1)
  ∧ (_has_pending_worksets env u w1).1 = Ok false
  ∧ ∀ k, (_has_completed_workset env u k w1).1 = Ok false.
Proof.
  intros Hreads E.
  pose proof (run_returns _ _ _ _ _ E
                (upload_csv_val env (record_path u)
                   (DataFrame ["workset"; "status"] []) w)) as [Hput _].
  specialize (Hput eq_refl).
  assert (Bucket.get (record_path u) (blobs w1) ≫= Frame.read_csv
          = Some (DataFrame ["workset"; "status"] [])) as Hget.
  { by rewrite Hput, get_put_eq. }
  assert (∀ {A} (m : M A) (a : A) (Q : A → world → Prop),
            returns m w1 (λ r w', r = a ∧ Q r w') →
            (m w1).1 = Ok a ∧ Q a (m w1).2) as Hrun.
  { intros A m a Q (r & w' & Em & -> & HQ)%returns_run. by rewrite Em. }
  split; [|split; [|split]].
  - apply (Hrun _ _ _ (λ _ _, True)).
    unfold _has_no_record_file. apply returns_try_except_total, returns_bind.
    eapply returns_mono.
    { apply download_csv_exact; [apply Hreads|by apply reads_ok_read]. }
    intros o w2 [_ ->]. rewrite Hget. by apply returns_ret.
  - cut (returns (get_current_workset env u) w1
           (λ r w', r = None ∧ blobs w' = blobs w1)).
    { intros (r & w2 & E2 & -> & Hb)%returns_run. by exists w2. }
    unfold get_current_workset. apply returns_try_except_total, returns_bind.
    eapply returns_mono.
    { apply download_csv_exact; [apply Hreads|by apply reads_ok_read]. }
    intros o w2 [Hb ->]. rewrite Hget. by apply returns_ret.
  - apply (Hrun _ _ _ (λ _ _, True)).
    unfold _has_pending_worksets. apply returns_try_except_total, returns_bind.
    eapply returns_mono.
    { apply download_csv_exact; [apply Hreads|by apply reads_ok_read]. }
    intros o w2 [_ ->]. rewrite Hget. by apply returns_ret.
  - intros k. apply (Hrun _ _ _ (λ _ _, True)).
    unfold _has_completed_workset. apply returns_try_except_total, returns_bind.
    eapply returns_mono.
    { apply download_csv_exact; [apply Hreads|by apply reads_ok_read]. }
    intros o w2 [_ ->]. rewrite Hget. by apply returns_ret.
Qed.

Lemma new_annotator_is_a_new_user_witness :
  (_has_no_record_file Example.env_ok "dora"
     (create_empty_csv Example.env_ok (record_path "dora")
        ["workset"; "status"] Scenario.half_done).2).1 = Ok true
  ∧ (∃ w2,
       get_current_workset Example.env_ok "dora"
         (create_empty_csv Example.env_ok (record_path "dora")
            ["workset"; "status"] Scenario.half_done).2 = (Ok None, w2)
       ∧ blobs w2
         = blobs (create_empty_csv Example.env_ok (record_path "dora")
                    ["workset"; "status"] Scenario.half_done).2)
  ∧ (_has_pending_worksets Example.env_ok "dora"
       (create_empty_csv Example.env_ok (record_path "dora")
          ["workset"; "status"] Scenario.half_done).2).1 = Ok false
  ∧ ∀ k,
      (_has_completed_workset Example.env_ok "dora" k
         (create_empty_csv Example.env_ok (record_path "dora")
            ["workset"; "status"] Scenario.half_done).2).1 = Ok false.
Proof.
  apply (new_annotator_is_a_new_user Example.env_ok "dora" Scenario.half_done).
  - split; [reflexivity|]. intros n o _. reflexivity.
  - vm_compute. reflexivity.
Defined.

(** ** A request seen stage by stage *)

Section RunEquations.

Context {A B : Type}.

Lemma total_run (m : M A) w : total m → ∃ a w', m w = (Ok a, w').
Proof.
  intros Hm. destruct (returns_run _ _ _ (Hm w)) as (a & w' & E & _).
  by exists a, w'.
Qed.

Lemma bind_ok (m : M A) (k : A → M B) w a w' :
  m w = (Ok a, w') → bind m k w = k a w'.
Proof. unfold bind. by intros ->. Qed.

Lemma try_except_ok (body : M A) h w a w' :
  body w = (Ok a, w') → try_except body h w = (Ok a, w').
Proof. unfold try_except. by intros ->. Qed.

Lemma try_finally_ok (body : M A) (final : M B) w r w' b w'' :
  body w = (r, w') → final w' = (Ok b, w'') →
  try_finally body final w = (r, w'').
Proof. unfold try_finally. intros ->. simpl. by intros ->. Qed.

End RunEquations.

Section StagesOfARequest.

Variable env : environment.
Variable username : string.

Ltac run E := erewrite bind_ok by exact E; cbv beta iota.

Lemma commit_tail_total k : total (commit_tail env username k).
Proof.
  pose proof (_add_workset_to_user_record_total env).
  pose proof (_rollback_usage_statistics_total env).
  pose proof (_remove_workset_from_user_record_total env).
  pose proof (_log_assignment_total env).
  pose proof (create_workset_file_total env).
  unfold commit_tail. totality.
Qed.

(** No stage raises. *)
Lemma advance_total s : total (advance env username s).
Proof.
  pose proof (_has_pending_worksets_total env).
  pose proof (_find_available_workset_total env).
  pose proof (_try_acquire_workset_lock_total env).
  pose proof (_is_workset_still_available_total env).
  pose proof (_has_completed_workset_total env).
  pose proof (_get_real_time_usage_count_total env).
  pose proof (_update_usage_statistics_safely_total env).
  pose proof (_release_workset_lock_total env).
  pose proof commit_tail_total.
  destruct s; cbn [advance negb]; totality.
Qed.

Lemma runs_one s w s' w' : advance env username s w = (Ok s', w') → runs env username s w s' w'.
Proof. intros E. eapply runs_next; [exact E|apply runs_here]. Qed.

Lemma runs_trans s w s' w' s'' w'' :
  runs env username s w s' w' → runs env username s' w' s'' w'' → runs env username s w s'' w''.
Proof.
  induction 1 as [|s w s1 w1 s' w' E _ IH]; [done|].
  intros H. eapply runs_next; [exact E|by apply IH].
Qed.

Lemma runs_from_done v w s w' : runs env username (Done v) w s w' → s = Done v ∧ w' = w.
Proof.
  remember (Done v) as s0 eqn:Es. induction 1 as [|s w s1 w1 s' w' E _ IH];
    [done|].
  subst s. injection E as <- <-. by apply IH.
Qed.

(** A request that runs alone has one answer. *)
Lemma runs_deterministic s w v1 w1 v2 w2 :
  runs env username s w (Done v1) w1 → runs env username s w (Done v2) w2 → v1 = v2 ∧ w1 = w2.
Proof.
  remember (Done v1) as s1 eqn:Es.
  induction 1 as [s w|s w s' w' s1 w1 E _ IH]; intros H2.
  - subst s. apply runs_from_done in H2 as [[= ->] ->]. done.
  - inversion H2 as [|? ? s'' w'' ? ? E2 H2']; subst.
    + injection E as <- <-. by apply IH.
    + rewrite E in E2. injection E2 as <- <-. by apply IH.
Qed.

(** The commit, from its first check to the release of the lock. *)
Lemma commit_runs passes k w :
  ∃ ok w',
    _complete_workset_assignment env username k w = (Ok ok, w')
    ∧ runs env username (AtCompleted passes k) w
        (AtRelease passes k (if ok then Return (Some k) else Continue)) w'.
Proof.
  destruct (total_run _ w (_has_completed_workset_total env username k))
    as (completed & w1 & E1).
  destruct completed.
  { exists false, w1. split.
    - unfold _complete_workset_assignment. apply try_except_ok.
      by run E1.
    - apply runs_one. cbn [advance negb]. by run E1. }
  destruct (total_run _ w1 (_get_real_time_usage_count_total env k))
    as (c & w2 & E2).
  destruct (c >=? 3) eqn:Ec.
  { exists false, w2. split.
    - unfold _complete_workset_assignment. apply try_except_ok.
      run E1.
      run E2. by rewrite Ec.
    - eapply runs_next; [cbn [advance negb]; by run E1|].
      apply runs_one. cbn [advance negb]. run E2.
      by rewrite Ec. }
  destruct (total_run _ w2 (_update_usage_statistics_safely_total env k c))
    as (updated & w3 & E3).
  destruct updated.
  2:{ exists false, w3. split.
    - unfold _complete_workset_assignment. apply try_except_ok.
      run E1.
      run E2. rewrite Ec.
      by run E3.
    - eapply runs_next; [cbn [advance negb]; by run E1|].
      eapply runs_next;
        [cbn [advance negb]; run E2; by rewrite Ec|].
      apply runs_one. cbn [advance negb]. by run E3. }
  destruct (total_run _ w3 (commit_tail_total k)) as (ok & w4 & E4).
  exists ok, w4. split.
  - unfold _complete_workset_assignment. apply try_except_ok.
    run E1.
    run E2. rewrite Ec.
    run E3. exact E4.
  - eapply runs_next; [cbn [advance negb]; by run E1|].
    eapply runs_next;
      [cbn [advance negb]; run E2; by rewrite Ec|].
    eapply runs_next; [cbn [advance negb]; by run E3|].
    apply runs_one. cbn [advance negb]. by run E4.
Qed.

(** One pass of the loop. *)
Lemma attempt_runs passes w :
  ∃ outcome w',
    attempt env username w = (Ok outcome, w')
    ∧ runs env username (AtFind passes) w
        (match outcome with
         | Return v => Done v
         | Continue => next_pass passes
         end) w'.
Proof.
  destruct (total_run _ w (_find_available_workset_total env username))
    as (available & w1 & E1).
  destruct available as [k|].
  2:{ exists (Return None), w1. split.
    - unfold attempt. apply try_except_ok. by run E1.
    - apply runs_one. cbn [advance negb]. by run E1. }
  destruct (total_run _ w1 (_try_acquire_workset_lock_total env k username))
    as (locked & w2 & E2).
  destruct locked.
  2:{ exists Continue, w2. split.
    - unfold attempt. apply try_except_ok. run E1.
      by run E2.
    - eapply runs_next; [cbn [advance negb]; by run E1|].
      apply runs_one. cbn [advance negb]. by run E2. }
  destruct (total_run _ w2 (_is_workset_still_available_total env k))
    as (still & w3 & E3).
  destruct still.
  2:{ destruct (total_run _ w3 (_release_workset_lock_total env k username))
        as (u & w4 & E4).
    exists Continue, w4. split.
    - unfold attempt. apply try_except_ok. run E1.
      run E2.
      eapply try_finally_ok; [by run E3|exact E4].
    - eapply runs_next; [cbn [advance negb]; by run E1|].
      eapply runs_next; [cbn [advance negb]; by run E2|].
      eapply runs_next; [cbn [advance negb]; by run E3|].
      apply runs_one. cbn [advance negb]. by run E4. }
  destruct (commit_runs passes k w3) as (ok & w4 & E4 & Hcommit).
  destruct (total_run _ w4 (_release_workset_lock_total env k username))
    as (u & w5 & E5).
  exists (if ok then Return (Some k) else Continue), w5. split.
  - unfold attempt. apply try_except_ok. run E1.
    run E2.
    eapply try_finally_ok; [|exact E5].
    run E3. run E4.
    by destruct ok.
  - eapply runs_next; [cbn [advance negb]; by run E1|].
    eapply runs_next; [cbn [advance negb]; by run E2|].
    eapply runs_next; [cbn [advance negb]; by run E3|].
    eapply runs_trans; [exact Hcommit|].
    apply runs_one. cbn [advance negb]. run E5.
    by destruct ok.
Qed.

Lemma attempts_runs passes w :
  ∃ v w',
    attempts env passes username w = (Ok v, w')
    ∧ runs env username (next_pass passes) w (Done v) w'.
Proof.
  revert w. induction passes as [|passes IH]; intros w.
  { exists None, w. split; [done|apply runs_here]. }
  destruct (attempt_runs passes w) as (outcome & w1 & E1 & H1).
  destruct outcome as [v|].
  - exists v, w1. split; [|exact H1].
    simpl. by run E1.
  - destruct (IH w1) as (v & w2 & E2 & H2). exists v, w2. split.
    + simpl. by run E1.
    + eapply runs_trans; [exact H1|exact H2].
Qed.

(** The stages are those of [request_new_workset]: a request that
    runs alone through its stages gives the answer of the function and
    leaves the world the function leaves, and the other way round. *)
Lemma request_new_workset_runs w v w' :
  request_new_workset env username w = (Ok v, w')
  ↔ runs env username AtPending w (Done v) w'.
Proof.
  assert (∃ v w', request_new_workset env username w = (Ok v, w')
                  ∧ runs env username AtPending w (Done v) w') as (v0 & w0 & E0 & H0).
  { destruct (total_run _ w (_has_pending_worksets_total env username))
      as (pending & w1 & E1).
    destruct pending.
    - exists None, w1. split.
      + unfold request_new_workset. by run E1.
      + apply runs_one. cbn [advance negb]. by run E1.
    - destruct (attempts_runs 5 w1) as (v1 & w2 & E2 & H2).
      exists v1, w2. split.
      + unfold request_new_workset. by run E1.
      + eapply runs_next; [|exact H2].
        cbn [advance negb]. by run E1. }
  split.
  - rewrite E0. by intros [= <- <-].
  - intros H. destruct (runs_deterministic _ _ _ _ _ _ H H0) as [-> ->].
    exact E0.
Qed.

End StagesOfARequest.
(** ** Requests at the same time: one worker moving alone *)

Lemma stage_of_move_other env σ u u' :
  u' ≠ u → stage_of (move env σ u) u' = stage_of σ u'.
Proof.
  intros Hne. unfold move, stage_of.
  destruct (advance env u _ (shared σ)) as [[s|e] w]; simpl;
    by rewrite lookup_insert_ne.
Qed.

(** A schedule that names one worker only is the request of that
    worker running alone; the other requests stay where they are. *)
Lemma runs_interleave env u σ s' w' :
  runs env u (stage_of σ u) (shared σ) s' w' →
  ∃ n, stage_of (interleave env (replicate n u) σ) u = s'
       ∧ shared (interleave env (replicate n u) σ) = w'
       ∧ ∀ u', u' ≠ u →
           stage_of (interleave env (replicate n u) σ) u' = stage_of σ u'.
Proof.
  remember (stage_of σ u) as s eqn:Es. remember (shared σ) as w eqn:Ew.
  intros H. revert σ Es Ew.
  induction H as [s w|s w s1 w1 s' w' E _ IH]; intros σ -> ->.
  { by exists 0%nat. }
  assert (move env σ u = System (<[u := s1]> (stages σ)) w1) as Hmove.
  { unfold move. by rewrite E. }
  destruct (IH (move env σ u)) as (n & Hs & Hw & Ho).
  { rewrite Hmove. unfold stage_of. simpl. by rewrite lookup_insert_eq. }
  { by rewrite Hmove. }
  exists (S n). simpl. split; [exact Hs|]. split; [exact Hw|].
  intros u' Hne. rewrite Ho by done. by apply stage_of_move_other.
Qed.

(** In particular the answer and the effect of [request_new_workset]
    are those of the schedule on which the worker moves alone. *)
Lemma request_alone_interleave env u w v w' :
  request_new_workset env u w = (Ok v, w') →
  ∃ n, stage_of (interleave env (replicate n u) (arriving w)) u = Done v
       ∧ shared (interleave env (replicate n u) (arriving w)) = w'.
Proof.
  intros H%request_new_workset_runs.
  destruct (runs_interleave env u (arriving w) (Done v) w') as (n & Hs & Hw & _);
    [exact H|].
  by exists n.
Qed.

(** ** The cap under requests at the same time (claim C1) *)

(** Claim C1 fails on the code.  Two records hold workset_001, the
    ledger counts one, and no bucket call fails.  Workers cat and dan
    request at the same time: each wins the lock in its turn, since
    [_try_acquire_workset_lock] never reads the formal lock, and each
    counts two holders; the increments then take the ledger from 1 to 2
    and from 2 to 3, neither refuses, and both requests return
    workset_001.  Four records hold workset_001 at the end, although no
    workset was held by more than three at the start. *)
Theorem interleaved_requests_exceed_cap :
  no_faults Example.env_ok
  ∧ cap_respected (blobs Incident.ledger_behind)
  ∧ holders "workset_001" (blobs Incident.ledger_behind) = 2
  ∧ (∀ u, u ∈ ["cat"; "dan"] →
       stage_of (interleave Example.env_ok Incident.both_counted
                   (arriving Incident.ledger_behind)) u
       = AtIncrement 4 "workset_001" 2)
  ∧ (∀ u, u ∈ ["cat"; "dan"] →
       stage_of (interleave Example.env_ok Incident.two_at_once
                   (arriving Incident.ledger_behind)) u
       = Done (Some "workset_001"))
  ∧ forallb snd
      (trace (shared (interleave Example.env_ok Incident.two_at_once
                        (arriving Incident.ledger_behind)))) = true
  ∧ holders "workset_001"
      (blobs (shared (interleave Example.env_ok Incident.two_at_once
                        (arriving Incident.ledger_behind)))) = 4
  ∧ ¬ cap_respected
        (blobs (shared (interleave Example.env_ok Incident.two_at_once
                          (arriving Incident.ledger_behind)))).
Proof.
  split; [by split|].
  split; [apply cap_respected_few_records; vm_compute; lia|].
  split; [by vm_compute|].
  split.
  { intros u Hu. apply elem_of_cons in Hu as [->|Hu]; [by vm_compute|].
    apply elem_of_cons in Hu as [->|Hu]; [by vm_compute|].
    by apply elem_of_nil in Hu. }
  split.
  { intros u Hu. apply elem_of_cons in Hu as [->|Hu]; [by vm_compute|].
    apply elem_of_cons in Hu as [->|Hu]; [by vm_compute|].
    by apply elem_of_nil in Hu. }
  split; [by vm_compute|]. split; [by vm_compute|].
  intros Hcap.
  assert (length ["ann"; "bob"; "cat"; "dan"] ≤ 3)%nat as Hle; [|simpl in Hle; lia].
  apply (cap_respected_workers _ "workset_001" _ Hcap).
  - apply (bool_decide_unpack _). by vm_compute.
  - intros u Hu.
    repeat (apply elem_of_cons in Hu as [->|Hu]; [by vm_compute|]).
    by apply elem_of_nil in Hu.
Qed.

(** The same on a bucket that holds nothing but the dataset: four
    workers request at the same time and each counts no holder.  The
    third increment finds the ledger two away from that count and
    regenerates it from the records, which have no row yet; the ledger
    ends at 2 and four records hold workset_001. *)
Lemma four_first_requests_exceed_cap :
  no_faults Example.env_ok
  ∧ holders "workset_001" (blobs Incident.first_day) = 0
  ∧ (∀ u, u ∈ ["cat"; "dan"; "eli"; "fay"] →
       stage_of (interleave Example.env_ok Incident.all_counted
                   (arriving Incident.first_day)) u
       = AtIncrement 4 "workset_001" 0)
  ∧ (∀ u, u ∈ ["cat"; "dan"; "eli"; "fay"] →
       stage_of (interleave Example.env_ok Incident.four_at_once
                   (arriving Incident.first_day)) u
       = Done (Some "workset_001"))
  ∧ forallb snd
      (trace (shared (interleave Example.env_ok Incident.four_at_once
                        (arriving Incident.first_day)))) = true
  ∧ holders "workset_001"
      (blobs (shared (interleave Example.env_ok Incident.four_at_once
                        (arriving Incident.first_day)))) = 4
  ∧ ledger_count
      (blobs (shared (interleave Example.env_ok Incident.four_at_once
                        (arriving Incident.first_day)))) "workset_001" = 2.
Proof.
  split; [by split|]. split; [by vm_compute|].
  split.
  { intros u Hu.
    repeat (apply elem_of_cons in Hu as [->|Hu]; [by vm_compute|]).
    by apply elem_of_nil in Hu. }
  split.
  { intros u Hu.
    repeat (apply elem_of_cons in Hu as [->|Hu]; [by vm_compute|]).
    by apply elem_of_nil in Hu. }
  repeat split; by vm_compute.
Qed.

(** ** A record that cannot be read (claims C2 and C9) *)

(** When the exists call on the worker's record raises, [download]
    answers [None]: both checks on the record answer [False], and the
    handler of [_has_pending_worksets] that answers [True] is not
    reached. *)
Lemma unread_record_passes_checks env username k w :
  raises env (length (trace w)) (OpExists (record_path username)) ≠ None →
  (_has_pending_worksets env username w).1 = Ok false
  ∧ (_has_completed_workset env username k w).1 = Ok false.
Proof.
  intros Hf.
  unfold _has_pending_worksets, _has_completed_workset, download_csv,
    download, fb_download, try_except, bind, call, ret.
  destruct (initialized env); [|done]. simpl.
  by destruct (raises env _ (OpExists (record_path username))).
Qed.

(** Claim C2 as stated fails.  Worker ann has completed workset_001
    and the exists calls on her record raise for a while: the scan and
    the commit take the record for absent, the request returns
    workset_001, and her record, readable again when the row is
    written, has a [not_started] row for workset_001 after the
    [completed] one. *)
Lemma outage_reassigns_completed_workset :
  ¬ never_reassigned Incident.env_record_outage "ann" "workset_001"
      Incident.ann_done.
Proof.
  intros H. destruct H as [H _]; [by vm_compute|].
  apply H. by vm_compute.
Qed.

(** Claim C9 fails on the code.  Worker eve has workset_001 to do and
    the first bucket call, the exists call on her record, raises.
    [_has_pending_worksets] answers [False], the request goes on and
    returns workset_002, and her record then has two [not_started]
    rows. *)
Theorem read_error_hides_pending_work :
  pending (blobs Incident.eve_busy) "eve" = true
  ∧ (_has_pending_worksets Incident.env_first_call_fails "eve"
       Incident.eve_busy).1 = Ok false
  ∧ (request_new_workset Incident.env_first_call_fails "eve"
       Incident.eve_busy).1 = Ok (Some "workset_002")
  ∧ (λ df, (λ r, (workset r, status r)) <$> rows df)
      <$> (Bucket.get (record_path "eve")
             (blobs (request_new_workset Incident.env_first_call_fails "eve"
                       Incident.eve_busy).2)
           ≫= Frame.read_csv)
    = Some [(Some "workset_001", Some "not_started");
            (Some "workset_002", Some "not_started")].
Proof. repeat split; by vm_compute. Qed.
